(** * pySARAX: a shallow embedding of the core compiler

    The Python sources embedded here are [core.py], [assembly.py],
    [section.py], [material.py] and [cormesh.py].

    Conventions of the embedding.
    - Python objects ([Material], [Section], [Assembly], [Core]) live in a
      heap and are referred to by handles (natural numbers); two handles are
      the same object exactly when they are equal, which is how the Python
      [set]s of the source compare them.
    - Python [float]s are idealised as exact rationals ([Q]); [==] on floats
      is [Qeq].
    - Python [int]s are [Z].
    - An exception is a value of [exn]; a method is a function of the world
      that returns the new world together with a result or an exception, so
      that what a method changed before it raised is still there.
    - [print] appends a [message] to the world's [stdout]. *)

From Stdlib Require Import Strings.String Strings.Ascii.
From Stdlib Require Import Lists.List.
From Stdlib Require Import Bool.Bool.
From Stdlib Require Import ZArith.ZArith.
From Stdlib Require Import QArith.QArith QArith.Qabs QArith.Qround.
From Stdlib Require Import Sorting.Permutation Sorting.Sorted.
From Stdlib Require Import micromega.Lia micromega.Lqa.
From Stdlib Require Import Setoids.Setoid.
Import ListNotations.

Open Scope Z_scope.

(* ================================================================== *)
(** * Python values and control                                        *)
(* ================================================================== *)

Module Py.

(** The exceptions the embedded code can raise. *)
Inductive exn : Type :=
| ValueError
| RuntimeError
| TypeError
| IndexError
| AttributeError
| UnboundLocalError.

Inductive result (A : Type) : Type :=
| Ok (a : A)
| Raise (e : exn).
Arguments Ok {A} a.
Arguments Raise {A} e.

Definition rbind {A B} (r : result A) (k : A -> result B) : result B :=
  match r with
  | Ok a => k a
  | Raise e => Raise e
  end.

Fixpoint rmapM {A B} (f : A -> result B) (l : list A) : result (list B) :=
  match l with
  | [] => Ok []
  | x :: xs =>
      rbind (f x) (fun y => rbind (rmapM f xs) (fun ys => Ok (y :: ys)))
  end.

(** [range(n)] *)
Definition range (n : Z) : list Z :=
  map Z.of_nat (seq 0 (Z.to_nat n)).

(** [len(l)] *)
Definition len {A} (l : list A) : Z := Z.of_nat (length l).

(** [enumerate(l)] *)
Definition enumerate {A} (l : list A) : list (Z * A) :=
  combine (range (len l)) l.

(** [l[i]]: a negative index counts from the end, an index outside the
    list raises [IndexError]. *)
Definition getitem {A} (l : list A) (i : Z) : result A :=
  let j := if i <? 0 then i + len l else i in
  if (0 <=? j) && (j <? len l) then
    match nth_error l (Z.to_nat j) with
    | Some x => Ok x
    | None => Raise IndexError
    end
  else Raise IndexError.

(** [l[:n]]: a negative bound counts from the end, and bounds are
    clipped to the list. *)
Definition slice_to {A} (l : list A) (n : Z) : list A :=
  let j := if n <? 0 then Z.max 0 (n + len l) else n in
  firstn (Z.to_nat j) l.

(** [sum(l)] on integers. *)
Definition sumZ (l : list Z) : Z := fold_left Z.add l 0.

(** [s.add(x)] on a [set], kept as the list of its elements in the order
    of their first insertion. *)
Definition set_add {A} (eqb : A -> A -> bool) (x : A) (s : list A) : list A :=
  if existsb (eqb x) s then s else s ++ [x].

(** [sorted(l, key=key)]: stable, as Python's sort is. *)
Section Sorted.
Context {A K : Type} (leb : K -> K -> bool) (key : A -> K).

Fixpoint insert (x : A) (l : list A) : list A :=
  match l with
  | [] => [x]
  | y :: ys => if leb (key x) (key y) then x :: y :: ys else y :: insert x ys
  end.

Definition sorted (l : list A) : list A := fold_right insert [] l.
End Sorted.

(** [l[a:b]]: negative bounds count from the end, bounds are clipped to
    the list, and the slice is empty when it would end before it
    starts. *)
Definition slice {A} (l : list A) (a b : Z) : list A :=
  let norm := fun i => if i <? 0 then Z.max 0 (i + len l) else Z.min i (len l) in
  firstn (Z.to_nat (norm b - norm a)) (skipn (Z.to_nat (norm a)) l).

(** [s.replace(old, new)] for a non-empty [old]: the occurrences of [old]
    are replaced from the left, without overlap; [skip] counts the
    characters of an occurrence still to pass over. *)
Fixpoint replace_from (old new : string) (skip : nat) (s : string) : string :=
  match s with
  | EmptyString => EmptyString
  | String c rest =>
      match skip with
      | S k => replace_from old new k rest
      | O =>
          if String.prefix old s
          then (new ++ replace_from old new (String.length old - 1) rest)%string
          else String c (replace_from old new 0 rest)
      end
  end.

Definition replace (old new s : string) : string := replace_from old new 0 s.

End Py.
Export Py.

(* ================================================================== *)
(** * Rationals standing for floats                                    *)
(* ================================================================== *)

Definition Qltb (a b : Q) : bool := negb (Qle_bool b a).

Definition qmin (a b : Q) : Q := if Qle_bool a b then a else b.
Definition qmax (a b : Q) : Q := if Qle_bool a b then b else a.

(** [min(s)] and [max(s)] of a collection; Python raises [ValueError] on an
    empty one. *)
Definition py_min (s : list Q) : result Q :=
  match s with
  | [] => Raise ValueError
  | x :: xs => Ok (fold_left qmin xs x)
  end.

Definition py_max (s : list Q) : result Q :=
  match s with
  | [] => Raise ValueError
  | x :: xs => Ok (fold_left qmax xs x)
  end.

(** [sum(s)] on floats. *)
Definition qsum (s : list Q) : Q := fold_left Qplus s 0%Q.

(** [sum(s) / len(s)] *)
Definition average (s : list Q) : Q := (qsum s / inject_Z (len s))%Q.

(** [sorted(list(s))] for a set [s] of floats given by the list of values
    added to it: equal values are kept once, and as the values of a set are
    pairwise different the result does not depend on the set's own order. *)
Fixpoint insert_uniq (x : Q) (l : list Q) : list Q :=
  match l with
  | [] => [x]
  | y :: ys =>
      if Qeq_bool x y then y :: ys
      else if Qle_bool x y then x :: y :: ys
      else y :: insert_uniq x ys
  end.

Definition sorted_set (l : list Q) : list Q := fold_right insert_uniq [] l.

(** Rounding to the nearest integer, ties to even: the rounding of
    [round(x, 4)] and of the [.4f] format. *)
Definition round_half_even (x : Q) : Z :=
  let f := Qfloor x in
  let r := (x - inject_Z f)%Q in
  if Qltb r (1#2) then f
  else if Qltb (1#2) r then f + 1
  else if Z.even f then f else f + 1.

Definition round4 (x : Q) : Q :=
  (inject_Z (round_half_even (x * 10000)) / 10000)%Q.

(* ================================================================== *)
(** * Data model                                                       *)
(* ================================================================== *)

(** Handles of heap objects. *)
Definition mat_ref := nat.
Definition sec_ref := nat.
Definition asm_ref := nat.
Definition core_ref := nat.

(** A row of a composition table: nuclide, density and temperature. *)
Record nuclide : Type := mkNuclide {
  nuc_name : string;
  nuc_density : Q;
  nuc_temperature : Q
}.

(** [material.py], class [Material]. [mat_composition] holds the rows of
    the table [composition], which has the columns Nuclide, Density and
    Temperature that [__init__] gives it and [addNuclide] fills. *)
Record material : Type := mkMaterial {
  mat_name : string;
  mat_id : Z;
  mat_composition : list nuclide;
  mat_removeLowDensity : bool
}.

(** [section.py], class [Section]. [sec_rod] and [sec_region] are the lists
    of [(size, material)] entries. *)
Record section : Type := mkSection {
  sec_name : string;
  sec_id : Z;
  sec_ring : Z;
  sec_pitch : Q;
  sec_height : option Q;
  sec_bounds : Q * Q;
  sec_rod : list (Q * mat_ref);
  sec_region : list (Q * mat_ref);
  sec_eqMethod : string;
  sec_scSection : option sec_ref;
  sec_r : Z;
  sec_k : Z
}.

(** [assembly.py], class [Assembly]. *)
Record assembly : Type := mkAssembly {
  asm_id : Z;
  asm_type : string;
  asm_location : string;
  asm_sections : list sec_ref;
  asm_r : Z;
  asm_k : Z
}.

(** [core.py], class [Core]. The CONTROL and METHOD parameters only feed
    the text of the deck and are left out. *)
Record core : Type := mkCore {
  core_name : string;
  core_ring : Z;
  core_lattice : list (list asm_ref);
  core_coolant : sec_ref;
  core_meshgrid : list Q;
  core_boundaryConditions : Z * Z;
  core_pitch : Q;
  core_completed : bool;
  core_assemblies : list asm_ref;
  core_sections : list sec_ref;
  core_materials : list mat_ref
}.

(** What the code prints. *)
Inductive message : Type :=
| WarnLatticeRing (now ref : Z)
| WarnHexRing (ring now ref : Z)
| WarnAssemblyCheck (r k : Z)
| WarnSectionMismatch (sec asm : string)
| WarnBoundApproximated (i : nat) (original : Q) (sec : string) (grid : Q).

Record World : Type := mkWorld {
  materials : mat_ref -> material;
  sections : sec_ref -> section;
  assemblies : asm_ref -> assembly;
  cores : core_ref -> core;
  next_core : core_ref;
  stdout : list message
}.

(** Functional update of a heap. *)
Definition upd {A} (h : nat -> A) (i : nat) (v : A) : nat -> A :=
  fun j => if Nat.eqb j i then v else h j.

Definition set_material (m : mat_ref) (v : material) (w : World) : World :=
  mkWorld (upd (materials w) m v) (sections w) (assemblies w) (cores w)
          (next_core w) (stdout w).

Definition set_section (s : sec_ref) (v : section) (w : World) : World :=
  mkWorld (materials w) (upd (sections w) s v) (assemblies w) (cores w)
          (next_core w) (stdout w).

Definition set_assembly (a : asm_ref) (v : assembly) (w : World) : World :=
  mkWorld (materials w) (sections w) (upd (assemblies w) a v) (cores w)
          (next_core w) (stdout w).

Definition set_core (c : core_ref) (v : core) (w : World) : World :=
  mkWorld (materials w) (sections w) (assemblies w) (upd (cores w) c v)
          (next_core w) (stdout w).

Definition print (m : message) (w : World) : World :=
  mkWorld (materials w) (sections w) (assemblies w) (cores w)
          (next_core w) (stdout w ++ [m]).

(** Field assignments. *)
Definition with_mat_id (i : Z) (m : material) : material :=
  mkMaterial (mat_name m) i (mat_composition m) (mat_removeLowDensity m).

Definition with_mat_composition (rows : list nuclide) (m : material)
  : material :=
  mkMaterial (mat_name m) (mat_id m) rows (mat_removeLowDensity m).

Definition with_sec_id (i : Z) (s : section) : section :=
  mkSection (sec_name s) i (sec_ring s) (sec_pitch s) (sec_height s)
            (sec_bounds s) (sec_rod s) (sec_region s) (sec_eqMethod s)
            (sec_scSection s) (sec_r s) (sec_k s).

Definition with_sec_rk (r k : Z) (s : section) : section :=
  mkSection (sec_name s) (sec_id s) (sec_ring s) (sec_pitch s) (sec_height s)
            (sec_bounds s) (sec_rod s) (sec_region s) (sec_eqMethod s)
            (sec_scSection s) r k.

Definition with_sec_bounds (b : Q * Q) (s : section) : section :=
  mkSection (sec_name s) (sec_id s) (sec_ring s) (sec_pitch s) (sec_height s)
            b (sec_rod s) (sec_region s) (sec_eqMethod s)
            (sec_scSection s) (sec_r s) (sec_k s).

Definition with_asm_id (i : Z) (a : assembly) : assembly :=
  mkAssembly i (asm_type a) (asm_location a) (asm_sections a) (asm_r a) (asm_k a).

Definition with_asm_rk (r k : Z) (a : assembly) : assembly :=
  mkAssembly (asm_id a) (asm_type a) (asm_location a) (asm_sections a) r k.

Definition with_asm_sections (l : list sec_ref) (a : assembly) : assembly :=
  mkAssembly (asm_id a) (asm_type a) (asm_location a) l (asm_r a) (asm_k a).

Definition with_core_lattice (l : list (list asm_ref)) (c : core) : core :=
  mkCore (core_name c) (core_ring c) l (core_coolant c) (core_meshgrid c)
         (core_boundaryConditions c) (core_pitch c) (core_completed c)
         (core_assemblies c) (core_sections c) (core_materials c).

Definition with_core_meshgrid (g : list Q) (c : core) : core :=
  mkCore (core_name c) (core_ring c) (core_lattice c) (core_coolant c) g
         (core_boundaryConditions c) (core_pitch c) (core_completed c)
         (core_assemblies c) (core_sections c) (core_materials c).

Definition with_core_completed (b : bool) (c : core) : core :=
  mkCore (core_name c) (core_ring c) (core_lattice c) (core_coolant c)
         (core_meshgrid c) (core_boundaryConditions c) (core_pitch c) b
         (core_assemblies c) (core_sections c) (core_materials c).

Definition with_core_objects (a : list asm_ref) (s : list sec_ref)
    (m : list mat_ref) (c : core) : core :=
  mkCore (core_name c) (core_ring c) (core_lattice c) (core_coolant c)
         (core_meshgrid c) (core_boundaryConditions c) (core_pitch c)
         (core_completed c) a s m.

(** ** Methods: state and exceptions *)

Definition M (A : Type) : Type := World -> World * result A.

Definition ret {A} (a : A) : M A := fun w => (w, Ok a).

Definition raise {A} (e : exn) : M A := fun w => (w, Raise e).

Definition bind {A B} (m : M A) (k : A -> M B) : M B :=
  fun w =>
    match m w with
    | (w', Ok a) => k a w'
    | (w', Raise e) => (w', Raise e)
    end.

Definition gets {A} (f : World -> A) : M A := fun w => (w, Ok (f w)).

Definition modify (f : World -> World) : M unit := fun w => (f w, Ok tt).

Definition lift {A} (r : result A) : M A := fun w => (w, r).

Declare Scope py_scope.
Delimit Scope py_scope with py.
Notation "x <- m ;; k" := (bind m (fun x => k))
  (at level 61, m at next level, right associativity) : py_scope.
Notation "m ;;; k" := (bind m (fun _ => k))
  (at level 61, right associativity) : py_scope.
Open Scope py_scope.

(** A [for] loop whose body may raise. *)
Fixpoint for_each {A} (l : list A) (body : A -> M unit) : M unit :=
  match l with
  | [] => ret tt
  | x :: xs => body x ;;; for_each xs body
  end.

(** Collecting the results of a body over a list. *)
Fixpoint mapM {A B} (f : A -> M B) (l : list A) : M (list B) :=
  match l with
  | [] => ret []
  | x :: xs => y <- f x ;; ys <- mapM f xs ;; ret (y :: ys)
  end.

(* ================================================================== *)
(** * Run-length tokens of the decks                                   *)
(* ================================================================== *)

(** An entry of a run-length record as the decks write it: the text [v]
    is [Single v] and the text [n*v] is [Times n v]. *)
Inductive tok : Type :=
| Single (v : Z)
| Times (n : Z) (v : Z).

(** [int(t.split('*')[-1])] *)
Definition tok_id (t : tok) : Z :=
  match t with
  | Single v => v
  | Times _ v => v
  end.

(** The replacement of an entry that absorbs one more cell of value [v]:
    [n*v] becomes [(1+n)*v] and a lone value becomes [2*v]. *)
Definition tok_bump (t : tok) (v : Z) : tok :=
  match t with
  | Times n _ => Times (1 + n) v
  | Single _ => Times 2 v
  end.

(** The per-cell sequence an entry stands for. *)
Definition tok_expand (t : tok) : list Z :=
  match t with
  | Single v => [v]
  | Times n v => repeat v (Z.to_nat n)
  end.

Definition expand (l : list tok) : list Z := flat_map tok_expand l.

(** A layer height of a FORMAT-B layer line: [h] or [n*h]. *)
Inductive htok : Type :=
| HSingle (h : Q)
| HTimes (n : Z) (h : Q).

Definition htok_expand (t : htok) : list Q :=
  match t with
  | HSingle h => [h]
  | HTimes n h => repeat h (Z.to_nat n)
  end.

Definition hexpand (l : list htok) : list Q := flat_map htok_expand l.

(* ================================================================== *)
(** * material.py and section.py                                       *)
(* ================================================================== *)

(** The block [Material.toTULIP] writes: the name, the identifier and a
    line for each row of the composition. *)
Record tulip_material : Type := mkTulipMaterial {
  tm_name : string;
  tm_id : Z;
  tm_rows : list nuclide
}.

Module Material.

(** [Material.check]: unless [removeLowDensity] was cleared it rebinds
    [composition] to its rows of density [>= 1E-15]; it always returns
    [True]. *)
Definition check (self : mat_ref) : M bool :=
  fun w =>
    let m := materials w self in
    if mat_removeLowDensity m then
      (set_material self
         (with_mat_composition
            (filter (fun row => Qle_bool (1 # 1000000000000000) (nuc_density row))
                    (mat_composition m))
            m) w,
       Ok true)
    else (w, Ok true).

(** [Material.toTULIP] *)
Definition toTULIP (self : mat_ref) : M tulip_material :=
  m <- gets (fun w => materials w self) ;;
  if mat_id m =? -1 then raise RuntimeError
  else
    ok <- check self ;;
    if negb ok then raise RuntimeError
    else
      m <- gets (fun w => materials w self) ;;
      ret (mkTulipMaterial (mat_name m) (mat_id m) (mat_composition m)).

End Material.

(** The block [Section.toTULIP] writes. *)
Record tulip_section : Type := mkTulipSection {
  ts_sc : bool;
  ts_name : string;
  ts_id : Z;
  ts_rod : option (Z * list (Q * Z));
  ts_rod_dis : bool;
  ts_ring_num : bool;
  ts_region : option (list (Q * Z));
  ts_end : bool
}.

Module Sect.

(** [size, material.id] for the entries of [rod] or [region]. *)
Definition entries (w : World) (l : list (Q * mat_ref)) : list (Q * Z) :=
  map (fun e => (fst e, mat_id (materials w (snd e)))) l.

(** [Section.toTULIP(sc)] *)
Definition toTULIP (self : sec_ref) (sc : bool) : M tulip_section :=
  s <- gets (fun w => sections w self) ;;
  if sec_id s =? -1 then raise RuntimeError
  else if (sec_ring s =? -1) && (0 <? len (sec_rod s)) then raise RuntimeError
  else
    w <- gets (fun w => w) ;;
    let supercell := String.eqb (sec_eqMethod s) "supercell" in
    ret (mkTulipSection sc (sec_name s) (sec_id s)
           (if 0 <? len (sec_rod s)
            then Some (sec_ring s, entries w (sec_rod s)) else None)
           (negb sc)
           (negb sc && negb supercell)
           (if 0 <? len (sec_region s)
            then Some (entries w (sec_region s)) else None)
           (negb supercell)).

(** [Section.copy(name)], with [deepcopy] left at [False]: the state of
    the new object. [str(name)] of a string is the string, the lists of
    rods and regions are copied with the materials they hold, and the
    constructor gives the copy the equivalence method "homo" and no
    partner. *)
Definition copy (self : section) (name : string) : result section :=
  let newName := replace "@ORIGIN" (sec_name self) name in
  if String.eqb newName (sec_name self) then Raise ValueError
  else
    Ok (mkSection newName (-1) (sec_ring self) (sec_pitch self)
          (sec_height self) (sec_bounds self) (sec_rod self) (sec_region self)
          "homo" None (-1) (-1)).

End Sect.

(* ================================================================== *)
(** * assembly.py                                                      *)
(* ================================================================== *)

(** The [FA_type] line of an assembly. *)
Record fa_line : Type := mkFaLine {
  fa_id : Z;
  fa_ids : list tok
}.

Module Assembly.

(** The mesh cells [(meshgrid[idx], meshgrid[idx+1])] for
    [idx in range(len(meshgrid) - 1)]. *)
Definition cells (meshgrid : list Q) : list (Q * Q) :=
  combine meshgrid (tl meshgrid).

(** [idlist] is used as a stack by the source ([append], [pop], [[-1]],
    [[-2]]): it is kept here with its last entry first, and the line
    joins it in reverse. *)

(** The branch "mesh grid is included in Section" of the loop. *)
Definition push_section (sid : Z) (idlist : list tok) : list tok :=
  match idlist with
  | [] => [Single sid]
  | t :: rest =>
      if tok_id t =? sid then tok_bump t sid :: rest
      else Single sid :: t :: rest
  end.

(** The loop over [self.sections] for one cell, with its [break]. *)
Fixpoint scan (lo hi : Q) (secs : list section)
    (isUnder isAbove : bool) (idlist : list tok) : bool * bool * list tok :=
  match secs with
  | [] => (isUnder, isAbove, idlist)
  | sec :: rest =>
      let b0 := fst (sec_bounds sec) in
      let b1 := snd (sec_bounds sec) in
      let isUnder := if isUnder && Qle_bool b0 lo then false else isUnder in
      let isAbove := if isAbove && Qle_bool hi b1 then false else isAbove in
      if Qle_bool b0 lo && Qle_bool hi b1
      then (isUnder, isAbove, push_section (sec_id sec) idlist)
      else scan lo hi rest isUnder isAbove idlist
  end.

(** One iteration of the loop over the mesh cells. *)
Definition cell_step (secs : list section) (cid : Z)
    (idlist : list tok) (cell : Q * Q) : list tok :=
  let '(isUnder, isAbove, idlist) :=
    scan (fst cell) (snd cell) secs true true idlist in
  let idlist :=
    if isUnder then Single cid :: idlist
    else if isAbove then Single cid :: idlist
    else idlist in
  if (isUnder || isAbove) && (1 <? len idlist) then
    match idlist with
    | last :: t :: rest =>
        if tok_id t =? cid then tok_bump t cid :: rest else idlist
    | _ => idlist
    end
  else idlist.

Definition layer_ids (secs : list section) (cid : Z) (meshgrid : list Q)
  : list tok :=
  rev (fold_left (cell_step secs cid) (cells meshgrid) []).

(** [Assembly.toLAVENDER(meshgrid, coolant)] *)
Definition toLAVENDER (self : asm_ref) (meshgrid : list Q)
    (coolant : sec_ref) : M fa_line :=
  w <- gets (fun w => w) ;;
  let a := assemblies w self in
  ret (mkFaLine (asm_id a)
         (layer_ids (map (sections w) (asm_sections a))
                    (sec_id (sections w coolant)) meshgrid)).

(** The loop of [Assembly.check] over the sorted sections. *)
Fixpoint check_loop (location : string) (secs : list section)
    (prev : option Q) (ifpass : bool) (w : World) : World * bool :=
  match secs with
  | [] => (w, ifpass)
  | sec :: rest =>
      match prev with
      | None => check_loop location rest (Some (snd (sec_bounds sec))) ifpass w
      | Some p =>
          if negb (Qeq_bool p (fst (sec_bounds sec))) then
            check_loop location rest (Some (snd (sec_bounds sec))) false
              (print (WarnSectionMismatch (sec_name sec) location) w)
          else
            check_loop location rest (Some (snd (sec_bounds sec))) ifpass w
      end
  end.

(** [Assembly.check]: it cannot raise, and it leaves the assembly's
    sections sorted by lower bound. *)
Definition check_run (self : asm_ref) (w : World) : World * bool :=
  let a := assemblies w self in
  let secs :=
    sorted Qle_bool (fun s => fst (sec_bounds (sections w s))) (asm_sections a) in
  let w := set_assembly self (with_asm_sections secs a) w in
  check_loop (asm_location a) (map (sections w) secs) None true w.

Definition check (self : asm_ref) : M bool :=
  fun w => let (w', b) := check_run self w in (w', Ok b).

(** ** [Assembly.setRefPlane] *)

(** The argument [refSec]: an [int], a [Section], or a value of another
    type. *)
Inductive ref_arg : Type :=
| RefInt (i : Z)
| RefSection (s : sec_ref)
| RefOther.

(** The loop that looks for the reference section: it has no [break] and
    keeps the last position that holds it; [None] is [refSecId] left
    unbound. *)
Definition find_ref (secs : list sec_ref) (refSec : sec_ref) : option Z :=
  fold_left
    (fun (refSecId : option Z) (p : Z * sec_ref) =>
       if Nat.eqb (snd p) refSec then Some (fst p) else refSecId)
    (enumerate secs) None.

(** [sec.height] for the sections of a list, or [None] when [errSecs] is
    not empty. *)
Fixpoint heights (w : World) (secs : list sec_ref) : option (list Q) :=
  match secs with
  | [] => Some []
  | s :: rest =>
      match sec_height (sections w s), heights w rest with
      | Some h, Some hs => Some (h :: hs)
      | _, _ => None
      end
  end.

(** The bounds of the section at [secId]. The loop writes bounds only, so
    [sumHeight] of a slice of the sections is the sum of the slice of
    their heights read before it. *)
Definition plane_bounds (hs : list Q) (refSecId : Z) (bias : Q) (secId : Z)
  : Q * Q :=
  if secId <? refSecId then
    (- qsum (slice hs secId refSecId) - bias,
     - qsum (slice hs (secId + 1) refSecId) - bias)%Q
  else
    (qsum (slice hs refSecId secId) - bias,
     qsum (slice hs refSecId (secId + 1)) - bias)%Q.

Definition setRefPlane (self : asm_ref) (refSec : ref_arg) (bias : Q)
  : M unit :=
  fun w =>
    let secs := asm_sections (assemblies w self) in
    let found :=
      match refSec with
      | RefInt i => rbind (getitem secs i) (fun _ => Ok (Some i))
      | RefSection s => Ok (find_ref secs s)
      | RefOther => Ok None
      end in
    match found with
    | Raise e => (w, Raise e)
    | Ok refSecId =>
        match heights w secs with
        | None => (w, Raise RuntimeError)
        | Some hs =>
            match secs, refSecId with
            | [], _ => (w, Ok tt)
            | _ :: _, None => (w, Raise UnboundLocalError)
            | _ :: _, Some r =>
                (fold_left
                   (fun w (p : Z * sec_ref) =>
                      set_section (snd p)
                        (with_sec_bounds (plane_bounds hs r bias (fst p))
                                         (sections w (snd p))) w)
                   (enumerate secs) w,
                 Ok tt)
            end
        end
    end.

End Assembly.

(* ================================================================== *)
(** * core.py                                                          *)
(* ================================================================== *)

(** The FORMAT-A deck of [Core.toTULIP], before it is laid out as text. *)
Record tulip_deck : Type := mkTulipDeck {
  td_n_mat : Z;
  td_n_material : Z;
  td_geom_kind : list tok;
  td_geometry : list tulip_section;
  td_material : list tulip_material
}.

(** The FORMAT-B deck of [Core.toLAVENDER], before it is laid out as text. *)
Record lavender_deck : Type := mkLavenderDeck {
  ld_mat_file : list Z;
  ld_layer : list Q;
  ld_bc_axial : Z * Z;
  ld_fa_info : list (Z * string * string);
  ld_fa_type : list fa_line;
  ld_hex_dim : Z * Z * Q;
  ld_hex_conf : list (list Z)
}.

(** The sets [Core.specifyID] fills. A supercell section whose partner was
    never linked adds [None] to the set of sections. *)
Record idsets : Type := mkIdsets {
  set_assemblies : list asm_ref;
  set_sections : list (option sec_ref);
  set_materials : list mat_ref
}.

Definition option_nat_eqb (a b : option nat) : bool :=
  match a, b with
  | Some x, Some y => Nat.eqb x y
  | None, None => true
  | _, _ => false
  end.

Module Core.

(** ** [Core.__init__] *)

(** The arguments of a call [Core(...)]: an argument the call does not
    give is [None], and as none of the four parameters has a default the
    call then raises [TypeError]. *)
Definition init (name : option string) (ring : option Z)
    (pitch : option Q) (coolant : option sec_ref) : M core_ref :=
  match name, ring, pitch, coolant with
  | Some name, Some ring, Some pitch, Some coolant =>
      fun w =>
        let self := next_core w in
        let c := mkCore name ring [] coolant [] (0, 0) pitch false [] [] [] in
        (mkWorld (materials w) (sections w) (assemblies w)
                 (upd (cores w) self c) (S self) (stdout w),
         Ok self)
  | _, _, _, _ => raise TypeError
  end.

(** ** [Core.addRing] *)

(** The assertion on the type of the entries holds for every list of
    assembly handles. *)
Definition addRing (self : core_ref) (ring : list asm_ref) : M unit :=
  modify (fun w =>
    let c := cores w self in
    set_core self (with_core_lattice (core_lattice c ++ [ring]) c) w).

(** ** [Core.check] *)

Definition check_assemblies (r : Z) (ring : list asm_ref)
    (st : World * bool) : World * bool :=
  fold_left
    (fun (st : World * bool) (ka : Z * asm_ref) =>
       let (w, ifpass) := st in
       let (k, a) := ka in
       let (w, ok) := Assembly.check_run a w in
       if negb ok then (print (WarnAssemblyCheck (r + 1) (k + 1)) w, false)
       else (w, ifpass))
    (enumerate ring) st.

Definition check_rings (lattice : list (list asm_ref))
    (st : World * bool) : World * bool :=
  fold_left
    (fun (st : World * bool) (rr : Z * list asm_ref) =>
       let (w, ifpass) := st in
       let (r, ring) := rr in
       let ref := if 0 <? r then 6 * r else 1 in
       let st :=
         if negb (ref =? len ring)
         then (print (WarnHexRing (r + 1) (len ring) ref) w, false)
         else (w, ifpass) in
       check_assemblies r ring st)
    (enumerate lattice) st.

Definition check_run (self : core_ref) (w : World) : World * bool :=
  let c := cores w self in
  let st :=
    if negb (core_ring c =? len (core_lattice c))
    then (print (WarnLatticeRing (len (core_lattice c)) (core_ring c)) w, false)
    else (w, true) in
  check_rings (core_lattice c) st.

Definition check (self : core_ref) : M bool :=
  fun w => let (w', b) := check_run self w in (w', Ok b).

(** ** [Core.specifyID] *)

Definition add_materials (l : list (Q * mat_ref)) (s : idsets) : idsets :=
  fold_left
    (fun s e => mkIdsets (set_assemblies s) (set_sections s)
                         (set_add Nat.eqb (snd e) (set_materials s)))
    l s.

Definition add_section (x : option sec_ref) (s : idsets) : idsets :=
  mkIdsets (set_assemblies s) (set_add option_nat_eqb x (set_sections s))
           (set_materials s).

Definition add_assembly (a : asm_ref) (s : idsets) : idsets :=
  mkIdsets (set_add Nat.eqb a (set_assemblies s)) (set_sections s)
           (set_materials s).

(** The body of [for section in assembly.sections]. *)
Definition visit_section (r k : Z) (st : World * idsets) (s : sec_ref)
  : World * idsets :=
  let (w, sets) := st in
  let sec := sections w s in
  let sets :=
    if String.eqb (sec_eqMethod sec) "supercell"
    then add_section (sec_scSection sec) sets else sets in
  let w := set_section s (with_sec_rk r k sec) w in
  let sets := add_section (Some s) sets in
  let sets := add_materials (sec_rod sec) sets in
  let sets := add_materials (sec_region sec) sets in
  (w, sets).

(** The body of [for k, assembly in enumerate(ring)]. *)
Definition visit_assembly (r : Z) (st : World * idsets) (ka : Z * asm_ref)
  : World * idsets :=
  let (w, sets) := st in
  let (k, a) := ka in
  let w := set_assembly a (with_asm_rk r k (assemblies w a)) w in
  let sets := add_assembly a sets in
  fold_left (visit_section r k) (asm_sections (assemblies w a)) (w, sets).

Definition traverse (lattice : list (list asm_ref)) (st : World * idsets)
  : World * idsets :=
  fold_left
    (fun st (rr : Z * list asm_ref) =>
       fold_left (visit_assembly (fst rr)) (enumerate (snd rr)) st)
    (enumerate lattice) st.

(** The section handles of the set, or [AttributeError] when the sort key
    is asked of [None]. *)
Fixpoint section_objects (l : list (option sec_ref)) : result (list sec_ref) :=
  match l with
  | [] => Ok []
  | None :: _ => Raise AttributeError
  | Some s :: rest => rbind (section_objects rest) (fun ss => Ok (s :: ss))
  end.

(** [' '.join((x.eqMethod, x.name))] *)
Definition section_key (w : World) (s : sec_ref) : string :=
  (sec_eqMethod (sections w s) ++ " " ++ sec_name (sections w s))%string.

Definition assign_assembly_ids (l : list asm_ref) (w : World) : World :=
  fold_left
    (fun w (ia : Z * asm_ref) =>
       set_assembly (snd ia) (with_asm_id (fst ia + 1) (assemblies w (snd ia))) w)
    (enumerate l) w.

Definition assign_section_ids (l : list sec_ref) (w : World) : World :=
  fold_left
    (fun w (ia : Z * sec_ref) =>
       set_section (snd ia) (with_sec_id (fst ia + 1) (sections w (snd ia))) w)
    (enumerate l) w.

Definition assign_material_ids (l : list mat_ref) (w : World) : World :=
  fold_left
    (fun w (ia : Z * mat_ref) =>
       set_material (snd ia) (with_mat_id (fst ia + 1) (materials w (snd ia))) w)
    (enumerate l) w.

(** The sets are listed in the order of first insertion before they are
    sorted; CPython lists a set in hash order, which only matters between
    objects of equal sort key. *)
Definition specifyID (self : core_ref) : M unit :=
  fun w =>
    let c := cores w self in
    let (w, sets) := traverse (core_lattice c) (w, mkIdsets [] [] []) in
    let sets := add_section (Some (core_coolant c)) sets in
    let sets := add_materials (sec_region (sections w (core_coolant c))) sets in
    let asms :=
      sorted String.leb (fun a => asm_location (assemblies w a))
             (set_assemblies sets) in
    match section_objects (set_sections sets) with
    | Raise e => (w, Raise e)
    | Ok secs =>
        let secs := sorted String.leb (section_key w) secs in
        let mats :=
          sorted String.leb (fun m => mat_name (materials w m))
                 (set_materials sets) in
        let w := assign_assembly_ids asms w in
        let w := assign_section_ids secs w in
        let w := assign_material_ids mats w in
        (set_core self (with_core_objects asms secs mats (cores w self)) w,
         Ok tt)
    end.

(** ** [Core.complete] *)

Definition complete (self : core_ref) : M unit :=
  ok <- check self ;;
  if negb ok then raise ValueError
  else
    specifyID self ;;;
    modify (fun w =>
      set_core self (with_core_completed true (cores w self)) w).

(** ** [Core.meshing] *)

(** The heights [heights.add(sec.bounds[0]); heights.add(sec.bounds[1])]
    for [sec in self.sections]. *)
Definition bound_heights (w : World) (secs : list sec_ref) : list Q :=
  flat_map (fun s => [fst (sec_bounds (sections w s));
                      snd (sec_bounds (sections w s))]) secs.

(** The body of [for height in heights], on the sets [meshgrid] and
    [approxBuffer]. *)
Definition cluster_step (tolerance : Q) (st : list Q * list Q) (height : Q)
  : list Q * list Q :=
  let (meshgrid, approxBuffer) := st in
  match approxBuffer with
  | [] => (meshgrid, set_add Qeq_bool height approxBuffer)
  | b :: bs =>
      let lower := fold_left qmin bs b in
      let higher := fold_left qmax bs b in
      if Qle_bool (Qabs (height - lower)) tolerance
         && Qle_bool (Qabs (height - higher)) tolerance
      then (meshgrid, set_add Qeq_bool height approxBuffer)
      else (set_add Qeq_bool (average approxBuffer) meshgrid, [height])
  end.

(** The set [meshgrid] after the loop and the flush of what is left in
    the buffer. *)
Definition cluster (tolerance : Q) (heights : list Q) : list Q :=
  let (meshgrid, approxBuffer) :=
    fold_left (cluster_step tolerance) heights ([], []) in
  if 0 <? len approxBuffer
  then set_add Qeq_bool (average approxBuffer) meshgrid
  else meshgrid.

(** [sec.bounds[i]] and the tuple with its entry [i] replaced. *)
Definition bound (i : nat) (b : Q * Q) : Q :=
  match i with O => fst b | _ => snd b end.

Definition set_bound (i : nat) (v : Q) (b : Q * Q) : Q * Q :=
  match i with O => (v, snd b) | _ => (fst b, v) end.

(** The test of the snapping loop. *)
Definition close_to (tolerance gridHeight b : Q) : bool :=
  Qltb 0 (Qabs (gridHeight - b)) && Qle_bool (Qabs (gridHeight - b)) tolerance.

(** The body of [for i in range(2)]. *)
Definition snap (tolerance gridHeight : Q) (s : sec_ref) (w : World) (i : nat)
  : World :=
  let sec := sections w s in
  let originalBound := bound i (sec_bounds sec) in
  if close_to tolerance gridHeight originalBound then
    print (WarnBoundApproximated i originalBound (sec_name sec) gridHeight)
      (set_section s
         (with_sec_bounds (set_bound i gridHeight (sec_bounds sec)) sec) w)
  else w.

Definition snap_sections (tolerance : Q) (secs : list sec_ref)
    (w : World) (gridHeight : Q) : World :=
  fold_left
    (fun w s => fold_left (snap tolerance gridHeight s) [0%nat; 1%nat] w)
    secs w.

Definition meshing (self : core_ref) (tolerance : Q) : M (list Q) :=
  fun w =>
    let secs := core_sections (cores w self) in
    let heights := sorted_set (bound_heights w secs) in
    let meshgrid := sorted_set (cluster tolerance heights) in
    let w := fold_left (snap_sections tolerance secs) meshgrid w in
    let w := set_core self (with_core_meshgrid meshgrid (cores w self)) w in
    match py_min meshgrid with
    | Raise e => (w, Raise e)
    | Ok lo =>
        match py_max meshgrid with
        | Raise e => (w, Raise e)
        | Ok hi =>
            let coolant := core_coolant (cores w self) in
            (set_section coolant
               (with_sec_bounds (lo, hi) (sections w coolant)) w,
             Ok meshgrid)
        end
    end.

(** ** [Core.toTULIP] *)

(** The code of an equivalence method in [geom_kind]. *)
Definition geom_code (eqMethod : string) : result Z :=
  if String.eqb eqMethod "homo" then Ok 1
  else if String.eqb eqMethod "1-D" then Ok 2
  else if String.eqb eqMethod "supercell" then Ok 3
  else Raise ValueError.

(** [geom_kind] is kept with its last entry first, as [idlist] is. *)
Definition push_kind (gk : Z) (geom_kind : list tok) : list tok :=
  match geom_kind with
  | t :: rest =>
      if tok_id t =? gk then tok_bump t gk :: rest
      else Single gk :: geom_kind
  | [] => [Single gk]
  end.

Fixpoint geom_kinds (w : World) (secs : list sec_ref) (geom_kind : list tok)
  : result (list tok) :=
  match secs with
  | [] => Ok (rev geom_kind)
  | s :: rest =>
      rbind (geom_code (sec_eqMethod (sections w s)))
            (fun gk => geom_kinds w rest (push_kind gk geom_kind))
  end.

(** The GEOMETRY blocks of one section: its own, and its partner's when
    it is a supercell section. *)
Definition geometry (s : sec_ref) : M (list tulip_section) :=
  own <- Sect.toTULIP s false ;;
  sec <- gets (fun w => sections w s) ;;
  if String.eqb (sec_eqMethod sec) "supercell" then
    match sec_scSection sec with
    | None => raise AttributeError
    | Some p => sc <- Sect.toTULIP p true ;; ret [own; sc]
    end
  else ret [own].

Definition toTULIP (self : core_ref) : M tulip_deck :=
  c <- gets (fun w => cores w self) ;;
  if negb (core_completed c) then raise RuntimeError
  else
    w <- gets (fun w => w) ;;
    geom_kind <- lift (geom_kinds w (core_sections c) []) ;;
    blocks <- mapM geometry (core_sections c) ;;
    mats <- mapM Material.toTULIP (core_materials c) ;;
    ret (mkTulipDeck (len (core_sections c)) (len (core_materials c))
           geom_kind (concat blocks) mats).

(** ** [Core.toLAVENDER] *)

(** [np.diff(meshgrid)] *)
Definition diff (meshgrid : list Q) : list Q :=
  map (fun c => (snd c - fst c)%Q) (combine meshgrid (tl meshgrid)).

(** The lattice slots [(r, k)] row [l] of [hex_conf] reads, in the order
    it reads them. *)
Definition hex_row (ring l : Z) : list (Z * Z) :=
  let dis2centerLine := Z.abs (ring - 1 - l) in
  map (fun j => let r := (ring - 1) - j in (r, 5 * r + j - l))
      (range (ring - 1 - dis2centerLine))
  ++ (let r := dis2centerLine in
      let kCenterLine := if 0 <? r then 4 * r else 1 in
      map (fun j => (r, kCenterLine + (r + j) * Z.sgn (ring - 1 - l)))
          (range dis2centerLine))
  ++ [(dis2centerLine,
       if ring - 1 - l <? 0 then 2 * dis2centerLine else 0)]
  ++ map (fun j => let r := 1 + j + dis2centerLine in (r, l + r + 1 - ring))
         (range (ring - 1 - dis2centerLine)).

Definition hex_rows (ring : Z) : list (list (Z * Z)) :=
  map (hex_row ring) (range (2 * ring - 1)).

(** [self.lattice[r][k]] *)
Definition lattice_at {A} (lattice : list (list A)) (rk : Z * Z) : result A :=
  rbind (getitem lattice (fst rk)) (fun ring => getitem ring (snd rk)).

(** The rows of [hex_conf] for a lattice of any entries. *)
Definition hex_conf {A} (ring : Z) (lattice : list (list A))
  : result (list (list A)) :=
  rmapM (rmapM (lattice_at lattice)) (hex_rows ring).

Definition toLAVENDER (self : core_ref) : M lavender_deck :=
  c <- gets (fun w => cores w self) ;;
  if negb (core_completed c) then raise RuntimeError
  else
    w <- gets (fun w => w) ;;
    let mats := sorted Z.leb (fun s => sec_id (sections w s)) (core_sections c) in
    let asms := sorted Z.leb (fun a => asm_id (assemblies w a)) (core_assemblies c) in
    fa <- mapM (fun a => Assembly.toLAVENDER a (core_meshgrid c) (core_coolant c))
               asms ;;
    rows <- lift (hex_conf (core_ring c) (core_lattice c)) ;;
    ret (mkLavenderDeck
           (map (fun s => sec_id (sections w s)) mats)
           (map round4 (diff (core_meshgrid c)))
           (core_boundaryConditions c)
           (map (fun a => (asm_id (assemblies w a), asm_type (assemblies w a),
                           asm_location (assemblies w a))) asms)
           fa
           (360, core_ring c, core_pitch c)
           (map (map (fun a => asm_id (assemblies w a))) rows)).

(** ** [Core.copy] *)

Section Copy.
(** [copy.deepcopy] of the Python library, on a lattice. *)
Variable deepcopy_lattice : list (list asm_ref) -> M (list (list asm_ref)).

Definition copy (self : core_ref) (name : string) (deepcopy : bool)
  : M core_ref :=
  c <- gets (fun w => cores w self) ;;
  coreCopy <- init (Some name) (Some (core_ring c)) None None ;;
  lattice <- (if deepcopy then deepcopy_lattice (core_lattice c)
              else ret (core_lattice c)) ;;
  modify (fun w =>
    set_core coreCopy (with_core_lattice lattice (cores w coreCopy)) w) ;;;
  complete coreCopy ;;;
  ret coreCopy.
End Copy.

End Core.

(* ================================================================== *)
(** * cormesh.py                                                       *)
(* ================================================================== *)

(** A line of a FORMAT-B deck, as [cormesh] tells them apart: the [layer]
    line with its count and heights, an [FA_type] line with its assembly id
    and entries, and any other line. *)
Inductive line : Type :=
| Layer (num : Z) (heights : list htok)
| FA_type (id : Z) (ids : list tok)
| Other (text : string).

Module Cormesh.

(** [float(x)] on an entry of the layer line: the text of a run [n*h] is
    not the text of a float. *)
Definition float (t : htok) : result Q :=
  match t with
  | HSingle h => Ok h
  | HTimes _ _ => Raise ValueError
  end.

(** [list(map(int, x.split('*'))) if '*' in x else [1, int(x)]] *)
Definition run (t : tok) : Z * Z :=
  match t with
  | Times n v => (n, v)
  | Single v => (1, v)
  end.

(** The first pass over the file: the entries of the last [layer] line
    ([None] when the file has none, which leaves [height_layer] unbound)
    and the runs of every [FA_type] line. *)
Definition read_step (st : option (list htok) * list (list (Z * Z)))
    (l : line) : option (list htok) * list (list (Z * Z)) :=
  let (height_layer, fa_layers) := st in
  match l with
  | Layer _ heights => (Some heights, fa_layers)
  | FA_type _ ids => (height_layer, fa_layers ++ [map run ids])
  | Other _ => (height_layer, fa_layers)
  end.

(** The body of [for height in height_layer], on [height_layer_dense]
    and [factors_dense]. *)
Definition densify_step (max_cell_height : Q) (st : list Q * list Z)
    (height : Q) : list Q * list Z :=
  let (height_layer_dense, factors_dense) := st in
  if Qle_bool height max_cell_height then
    (height_layer_dense ++ [height], factors_dense ++ [0])
  else
    let factor := Qceiling (height / max_cell_height) in
    let height_dense := round4 (height / inject_Z factor) in
    (height_layer_dense ++ repeat height_dense (Z.to_nat factor),
     factors_dense ++ [factor - 1]).

(** [print_list] *)
Definition print_step (st : list htok * Q * Z) (elem : Q) : list htok * Q * Z :=
  let '(slist, prev, cnt) := st in
  if Qeq_bool elem prev then (slist, prev, cnt + 1)
  else
    (slist ++ [if cnt =? 1 then HSingle (round4 prev)
               else HTimes cnt (round4 prev)],
     elem, 1).

Definition print_list (ls : list Q) : list htok :=
  match ls with
  | [] => []
  | first :: _ =>
      let '(slist, prev, cnt) := fold_left print_step ls ([], first, 0) in
      slist ++ [HSingle (round4 prev)]
  end.

(** The body of [for num, mat in fa_layers[fa_idx]], on [cnt] and the
    entries written so far. *)
Definition write_run (factors_dense : list Z) (st : Z * list tok)
    (r : Z * Z) : Z * list tok :=
  let (cnt, out) := st in
  let (num, mat) := r in
  let factor :=
    sumZ (slice_to factors_dense (cnt + num)) - sumZ (slice_to factors_dense cnt) in
  let cnt := cnt + num in
  let num := if 0 <? factor then num + factor else num in
  (cnt, out ++ [if 1 <? num then Times num mat else Single mat]).

(** The second pass: the lines written to the new deck. *)
Fixpoint write (height_layer_dense : list Q) (factors_dense : list Z)
    (fa_layers : list (list (Z * Z))) (fa_idx : Z) (src : list line)
  : result (list line) :=
  match src with
  | [] => Ok []
  | Layer _ _ :: rest =>
      rbind (write height_layer_dense factors_dense fa_layers fa_idx rest)
        (fun out =>
           Ok (Layer (len height_layer_dense) (print_list height_layer_dense)
                 :: out))
  | Other text :: rest =>
      rbind (write height_layer_dense factors_dense fa_layers fa_idx rest)
        (fun out => Ok (Other text :: out))
  | FA_type _ _ :: rest =>
      let fa_idx := fa_idx + 1 in
      rbind (getitem fa_layers fa_idx)
        (fun runs =>
           let ids := snd (fold_left (write_run factors_dense) runs (0, [])) in
           rbind (write height_layer_dense factors_dense fa_layers fa_idx rest)
             (fun out => Ok (FA_type (fa_idx + 1) ids :: out)))
  end.

(** [cormesh(lavender_file, max_cell_height)]: [file] is the content of
    the source file, [None] when the path is not a file; the result is
    the content of the deck written beside it. *)
Definition cormesh (file : option (list line)) (max_cell_height : Q)
  : result (list line) :=
  match file with
  | None => Raise RuntimeError
  | Some src =>
      if Qle_bool max_cell_height 0 then Raise ValueError
      else
        let (height_layer, fa_layers) := fold_left read_step src (None, []) in
        match height_layer with
        | None => Raise UnboundLocalError
        | Some entries =>
            rbind (rmapM float entries)
              (fun heights =>
                 let (height_layer_dense, factors_dense) :=
                   fold_left (densify_step max_cell_height) heights ([], []) in
                 write height_layer_dense factors_dense fa_layers (-1) src)
        end
  end.

(** The layer heights and the per-assembly cell sequences a deck stands
    for. *)
Definition deck_layers (d : list line) : list (list Q) :=
  flat_map (fun l => match l with Layer _ hs => [hexpand hs] | _ => [] end) d.

Definition deck_cells (d : list line) : list (list Z) :=
  flat_map (fun l => match l with FA_type _ ids => [expand ids] | _ => [] end) d.

End Cormesh.

(* ================================================================== *)
(** * Sample models                                                    *)
(* ================================================================== *)

Module Samples.

(** A heap holding the objects of a list, in order. *)
Definition heap_of {A} (d : A) (l : list A) : nat -> A := fun i => nth i l d.

Definition new_material (name : string) : material :=
  mkMaterial name (-1) [] true.

(** [Section(name, ring, pitch, eqMethod=...)] with its bounds, entries
    and supercell partner set afterwards. *)
Definition new_section (name eqMethod : string) (ring : Z) (bounds : Q * Q)
    (rod region : list (Q * mat_ref)) (sc : option sec_ref) : section :=
  mkSection name (-1) ring 1 None bounds rod region eqMethod sc (-1) (-1).

Definition new_assembly (typeName location : string) (secs : list sec_ref)
  : assembly :=
  mkAssembly (-1) typeName location secs (-1) (-1).

Definition new_core (name : string) (ring : Z) (lattice : list (list asm_ref))
    (coolant : sec_ref) : core :=
  mkCore name ring lattice coolant [] (0, 0) 1 false [] [] [].

Definition world_of (ms : list material) (ss : list section)
    (az : list assembly) (c : core) : World :=
  mkWorld (heap_of (new_material EmptyString) ms)
          (heap_of (new_section EmptyString "homo" 0 (0, 0)%Q [] [] None) ss)
          (heap_of (new_assembly EmptyString EmptyString []) az)
          (heap_of c [c]) 1%nat [].

(** A one-assembly core: shield, fuel and shield stacked on
    [(-2,-1)], [(-1,1)], [(1,2)], and a coolant section. *)
Definition stack_materials : list material :=
  [new_material "steel"; new_material "fuel"; new_material "water"].

Definition stack_sections : list section :=
  [ new_section "coolant" "homo" 0 (0, 0)%Q [] [(2, 2%nat)]%Q None;
    new_section "lower shield" "homo" 0 (-2, -1)%Q [] [(2, 0%nat)]%Q None;
    new_section "fuel" "1-D" 1 (-1, 1)%Q [(1, 1%nat)]%Q [(2, 2%nat)]%Q None;
    new_section "upper shield" "homo" 0 (1, 2)%Q [] [(2, 0%nat)]%Q None ].

Definition stack_world : World :=
  world_of stack_materials stack_sections
    [new_assembly "driver" "01A01" [1; 2; 3]%nat]
    (new_core "stack" 1 [[0%nat]] 0%nat).

(** The same core declared with two rings while its lattice holds one. *)
Definition short_world : World :=
  world_of stack_materials stack_sections
    [new_assembly "driver" "01A01" [1; 2; 3]%nat]
    (new_core "short" 2 [[0%nat]] 0%nat).

(** An assembly with a gap between its two sections, [(0,1)] and [(2,3)]. *)
Definition gap_sections : list section :=
  [ new_section "coolant" "homo" 0 (0, 0)%Q [] [] None;
    new_section "low" "homo" 0 (0, 1)%Q [] [] None;
    new_section "high" "homo" 0 (2, 3)%Q [] [] None ].

Definition gap_world : World :=
  world_of [] (map (fun s => with_sec_id (Z.of_nat (fst s) + 1) (snd s))
                   (combine (seq 0 3) gap_sections))
    [new_assembly "driver" "01A01" [1; 2]%nat]
    (new_core "gap" 1 [[0%nat]] 0%nat).

(** A supercell section whose partner is placed nowhere in the lattice
    and is the only user of the material "absorber". *)
Definition supercell_world : World :=
  world_of
    [new_material "fuel"; new_material "water"; new_material "absorber"]
    [ new_section "coolant" "homo" 0 (0, 0)%Q [] [(2, 1%nat)]%Q None;
      new_section "poison" "supercell" 1 (-1, 1)%Q
                  [(1, 0%nat)]%Q [(2, 1%nat)]%Q (Some 2%nat);
      new_section "neighbour" "1-D" 1 (-1, 1)%Q
                  [(1, 2%nat)]%Q [(2, 1%nat)]%Q None ]
    [new_assembly "control" "01A01" [1%nat]]
    (new_core "supercell" 1 [[0%nat]] 0%nat).

(** Three assemblies whose two sections meet at 10, 10.08 and 10.12, in a
    lattice of two rings. *)
Definition near_world : World :=
  world_of [new_material "water"]
    [ new_section "coolant" "homo" 0 (0, 0)%Q [] [(2, 0%nat)]%Q None;
      new_section "A lower" "homo" 0 (0, 10)%Q [] [(2, 0%nat)]%Q None;
      new_section "A upper" "homo" 0 (10, 20)%Q [] [(2, 0%nat)]%Q None;
      new_section "B lower" "homo" 0 (0, 252 # 25)%Q [] [(2, 0%nat)]%Q None;
      new_section "B upper" "homo" 0 (252 # 25, 20)%Q [] [(2, 0%nat)]%Q None;
      new_section "C lower" "homo" 0 (0, 253 # 25)%Q [] [(2, 0%nat)]%Q None;
      new_section "C upper" "homo" 0 (253 # 25, 20)%Q [] [(2, 0%nat)]%Q None ]
    [ new_assembly "driver" "01A01" [1; 2]%nat;
      new_assembly "blanket" "02A01" [3; 4]%nat;
      new_assembly "control" "02A02" [5; 6]%nat ]
    (new_core "near" 2 [[0]; [1; 2; 1; 2; 1; 2]]%nat 0%nat).

(** A deck of two layers of height 1 and one assembly of one material. *)
Definition flat_deck : list line :=
  [ Other "GEOMETRY:";
    Layer 2 [HSingle 1; HSingle 1];
    FA_type 1 [Times 2 1];
    Other "END:" ].

(** A deck of three layers, the first and the last above a threshold of
    0.1, and two assemblies. *)
Definition coarse_deck : list line :=
  [ Other "GEOMETRY:";
    Layer 3 [HSingle (1 # 4); HSingle (1 # 20); HSingle (3 # 10)];
    FA_type 1 [Times 2 7; Single 9];
    FA_type 2 [Single 7; Times 2 9];
    Other "END:" ].

(** A deck without a layer line, and one whose layer line has a run. *)
Definition headless_deck : list line :=
  [ Other "GEOMETRY:"; FA_type 1 [Times 2 1]; Other "END:" ].

Definition compressed_deck : list line :=
  [ Other "GEOMETRY:";
    Layer 3 [HTimes 2 (1 # 20); HSingle (1 # 4)];
    FA_type 1 [Times 3 1];
    Other "END:" ].

(** Three sections of heights 1, 2 and 1 in one assembly, their bounds
    not set yet. *)
Definition tall (name : string) (height : Q) : section :=
  mkSection name (-1) 0 1 (Some height) (0, 0)%Q [] [] "homo" None (-1) (-1).

Definition plane_world : World :=
  world_of []
    [tall "coolant" 0; tall "low" 1; tall "mid" 2; tall "top" 1]
    [new_assembly "driver" "01A01" [1; 2; 3]%nat]
    (new_core "plane" 1 [[0%nat]] 0%nat).

(** A core of no ring, its lattice empty. *)
Definition empty_world : World :=
  world_of stack_materials stack_sections [] (new_core "empty" 0 [] 0%nat).

(** The stack with a composition for its fuel: uranium, and a trace of
    xenon of a density below 1E-15. *)
Definition traced_world : World :=
  world_of
    [ new_material "steel";
      with_mat_composition
        [ mkNuclide "U235" (1 # 1000) 900;
          mkNuclide "Xe135" (1 # 1000000000000000000) 900 ]
        (new_material "fuel");
      new_material "water" ]
    stack_sections
    [new_assembly "driver" "01A01" [1; 2; 3]%nat]
    (new_core "traced" 1 [[0%nat]] 0%nat).

End Samples.

(* ================================================================== *)
(** * Vocabulary of the properties                                     *)
(* ================================================================== *)

(** The rows of its composition [Material.check] leaves a material
    with. *)
Definition kept_rows (m : material) : list nuclide :=
  if mat_removeLowDensity m
  then filter (fun row => Qle_bool (1 # 1000000000000000) (nuc_density row))
              (mat_composition m)
  else mat_composition m.

(** What a structural check may change: the order of the sections of an
    assembly and the printed warnings, nothing else. *)
Definition check_frame (w w' : World) : Prop :=
  materials w' = materials w /\
  sections w' = sections w /\
  cores w' = cores w /\
  (forall a, asm_id (assemblies w' a) = asm_id (assemblies w a)) /\
  (length (stdout w) <= length (stdout w'))%nat.

(** A check that ends with a cleared flag either started with it cleared
    or printed a warning. *)
Definition checked (st st' : World * bool) : Prop :=
  check_frame (fst st) (fst st') /\
  (snd st' = false ->
   snd st = false \/ (length (stdout (fst st)) < length (stdout (fst st')))%nat).

(** ** Mesh cells and run-length records *)

(** The three tests [Assembly.toLAVENDER] makes of a cell against the
    sections of the assembly. *)
Definition contains (sec : section) (cell : Q * Q) : bool :=
  Qle_bool (fst (sec_bounds sec)) (fst cell)
  && Qle_bool (snd cell) (snd (sec_bounds sec)).

Definition under (secs : list section) (cell : Q * Q) : bool :=
  forallb (fun sec => negb (Qle_bool (fst (sec_bounds sec)) (fst cell))) secs.

Definition above (secs : list section) (cell : Q * Q) : bool :=
  forallb (fun sec => negb (Qle_bool (snd cell) (snd (sec_bounds sec)))) secs.

(** The identifier a cell resolves to: that of the first section that
    contains it, the coolant's when it is under or above the assembly,
    none otherwise. *)
Definition cell_id (secs : list section) (cid : Z) (cell : Q * Q) : option Z :=
  match find (fun sec => contains sec cell) secs with
  | Some sec => Some (sec_id sec)
  | None => if under secs cell || above secs cell then Some cid else None
  end.

Definition resolved (secs : list section) (cid : Z) (meshgrid : list Q)
  : list Z :=
  flat_map (fun cell => match cell_id secs cid cell with
                        | Some v => [v]
                        | None => []
                        end) (Assembly.cells meshgrid).

(** No two neighbours of a list are equal. *)
Fixpoint ids_differ (l : list Z) : Prop :=
  match l with
  | a :: tl =>
      match tl with
      | b :: _ => a <> b
      | [] => True
      end /\ ids_differ tl
  | [] => True
  end.

(** No two adjacent runs of a record carry the same identifier. *)
Definition runs_differ (l : list tok) : Prop := ids_differ (map tok_id l).

(** A run written [n*v] stands for at least two cells. *)
Definition proper_run (t : tok) : Prop :=
  match t with
  | Single _ => True
  | Times n _ => 2 <= n
  end.

(** ** The hexagonal lattice *)

(** The number of assemblies of ring [r]: [6*r if r > 0 else 1]. *)
Definition ring_size (r : Z) : Z := if 0 <? r then 6 * r else 1.

(** The slots [(r, k)] of a lattice of [ring] rings. *)
Definition lattice_slots (ring : Z) : list (Z * Z) :=
  flat_map (fun r => map (fun k => (r, k)) (range (ring_size r))) (range ring).

(** A lattice that holds [ring] rings, ring [r] of [ring_size r]
    assemblies. *)
Definition full_lattice {A} (ring : Z) (lattice : list (list A)) : Prop :=
  map len lattice = map ring_size (range ring).

(** The row of [hex_conf] a slot is written in. *)
Definition row_of (ring : Z) (rk : Z * Z) : Z :=
  let (r, k) := rk in
  if k =? 0 then ring - 1 - r
  else if k <? 2 * r then k - r + ring - 1
  else if k <=? 3 * r then ring - 1 + r
  else if k <? 5 * r then 4 * r + ring - 1 - k
  else ring - 1 - r.

(** ** The axial mesh *)

(** A list of heights sorted strictly increasing. *)
Definition increasing (l : list Q) : Prop := Sorted Qlt l.

(** Adjacent heights more than [tolerance] apart. *)
Definition apart (tolerance : Q) (l : list Q) : Prop :=
  Sorted (fun a b => tolerance < b - a)%Q l.

(** The buffers [Core.meshing] flushes: the loop of [Core.cluster_step]
    with each buffer kept where the code keeps its average. [buf] is the
    buffer at the start. *)
Fixpoint clusters_from (tolerance : Q) (buf : list Q) (heights : list Q)
  : list (list Q) :=
  match heights with
  | [] => match buf with [] => [] | _ => [buf] end
  | height :: rest =>
      match buf with
      | [] => clusters_from tolerance [height] rest
      | b :: bs =>
          let lower := fold_left qmin bs b in
          let higher := fold_left qmax bs b in
          if Qle_bool (Qabs (height - lower)) tolerance
             && Qle_bool (Qabs (height - higher)) tolerance
          then clusters_from tolerance (buf ++ [height]) rest
          else buf :: clusters_from tolerance [height] rest
      end
  end.

Definition clusters (tolerance : Q) (heights : list Q) : list (list Q) :=
  clusters_from tolerance [] heights.

(** The lowest heights of adjacent clusters are more than [tolerance]
    apart. *)
Definition starts_apart (tolerance : Q) (cl : list (list Q)) : Prop :=
  apart tolerance (map (hd 0%Q) cl).

(** A cluster is not empty and spans at most the tolerance above its
    first height. *)
Definition cluster_ok (tolerance : Q) (c : list Q) : Prop :=
  match c with
  | [] => False
  | b :: _ => forall x, In x c -> (b <= x <= b + tolerance)%Q
  end.

(** What [Core.cluster] returns for a state of the loop. *)
Definition flushed (st : list Q * list Q) : list Q :=
  let (meshgrid, approxBuffer) := st in
  if 0 <? len approxBuffer
  then set_add Qeq_bool (average approxBuffer) meshgrid
  else meshgrid.

(** What a state of the loop of [Core.cluster] still gives to the mesh:
    the averages flushed so far, and one more for a buffer that is not
    empty. *)
Definition pending (st : list Q * list Q) : nat :=
  length (fst st) + match snd st with [] => 0 | _ :: _ => 1 end.

(** Membership up to the equality of rationals. *)
Definition QIn (x : Q) (l : list Q) : Prop := exists y, In y l /\ (x == y)%Q.

(** The value of a bound [b] after the body of the snapping loop for the
    grid height [g]. *)
Definition snapv (tolerance b g : Q) : Q :=
  if Core.close_to tolerance g b then g else b.

(** ** Decks *)

(** The runs of the [FA_type] lines of a deck, in order. *)
Definition fa_runs (d : list line) : list (list (Z * Z)) :=
  flat_map (fun l => match l with
                     | FA_type _ ids => [map Cormesh.run ids]
                     | _ => []
                     end) d.

(** A run written [n*v] with [n >= 1]. *)
Definition counted (t : tok) : Prop :=
  match t with
  | Single _ => True
  | Times n _ => 1 <= n
  end.

(** A height written alone, not above the threshold. *)
Definition plain_below (max_cell_height : Q) (t : htok) : Prop :=
  match t with
  | HSingle h => (h <= max_cell_height)%Q
  | HTimes _ _ => False
  end.

(** ** Refinement of the layers *)

(** The number of cells [cormesh] adds to a layer of height [height]
    ([factor - 1], or none for a layer that is not above the threshold)
    and the heights it writes for it. *)
Definition factor_of (max_cell_height height : Q) : Z :=
  if Qle_bool height max_cell_height then 0
  else Qceiling (height / max_cell_height) - 1.

Definition dense_of (max_cell_height height : Q) : list Q :=
  if Qle_bool height max_cell_height then [height]
  else
    let factor := Qceiling (height / max_cell_height) in
    repeat (round4 (height / inject_Z factor)) (Z.to_nat factor).

(** The cells of an assembly with cell [i] written [1 + factors[i]]
    times; a cell beyond the factors is written once. *)
Fixpoint refine (factors : list Z) (cells : list Z) {struct cells}
  : list Z :=
  match cells with
  | [] => []
  | c :: cs =>
      match factors with
      | [] => c :: cs
      | f :: fs => repeat c (Z.to_nat (1 + f)) ++ refine fs cs
      end
  end.

(** A layer line without a compressed run. *)
Definition uncompressed (t : htok) : Prop :=
  match t with
  | HSingle _ => True
  | HTimes _ _ => False
  end.

(** The lines of a deck that are neither the layer line nor an assembly
    line. *)
Definition is_layer (l : line) : bool :=
  match l with Layer _ _ => true | _ => false end.

(** ** Stacks of sections *)

(** Sections stacked without a gap, in the order of the list: none is
    upside down and each ends where the next starts. *)
Fixpoint stacked (secs : list section) : Prop :=
  match secs with
  | [] => True
  | sec :: rest =>
      (fst (sec_bounds sec) <= snd (sec_bounds sec))%Q /\
      match rest with
      | [] => True
      | next :: _ => (snd (sec_bounds sec) == fst (sec_bounds next))%Q
      end /\
      stacked rest
  end.

(** A cell inside which no section ends. *)
Definition uncut (secs : list section) (cell : Q * Q) : Prop :=
  forall sec, In sec secs ->
    (snd (sec_bounds sec) <= fst cell)%Q \/ (snd cell <= snd (sec_bounds sec))%Q.

(** Sections each of which ends where the next one starts, in the order
    of the list. *)
Fixpoint meets (secs : list section) : Prop :=
  match secs with
  | [] => True
  | sec :: rest =>
      match rest with
      | [] => True
      | next :: _ => (snd (sec_bounds sec) == fst (sec_bounds next))%Q
      end /\
      meets rest
  end.

(** Sections in the order of their lower bounds. *)
Definition by_lower_bound (secs : list section) : Prop :=
  Sorted (fun s t => fst (sec_bounds s) <= fst (sec_bounds t))%Q secs.

(** ** Identifiers *)

(** The sections placed in a lattice: those of its assemblies. *)
Definition placed_sections (w : World) (lattice : list (list asm_ref))
  : list sec_ref :=
  flat_map (fun a => asm_sections (assemblies w a)) (concat lattice).

(** What the loop of [Core.specifyID] adds to the sets for one section:
    its supercell partner when it is a supercell section, itself, and
    the materials of its rods and regions. *)
Definition section_members (w : World) (s : sec_ref) : list (option sec_ref) :=
  (if String.eqb (sec_eqMethod (sections w s)) "supercell"
   then [sec_scSection (sections w s)] else [])
  ++ [Some s].

Definition section_materials (w : World) (s : sec_ref) : list mat_ref :=
  map snd (sec_rod (sections w s)) ++ map snd (sec_region (sections w s)).

(** Worlds that differ at most in the lattice positions [r] and [k]
    written on sections and assemblies. *)
Definition same_but_positions (w w' : World) : Prop :=
  materials w' = materials w /\
  cores w' = cores w /\
  stdout w' = stdout w /\
  (forall s, with_sec_rk 0 0 (sections w' s) = with_sec_rk 0 0 (sections w s)) /\
  (forall a, with_asm_rk 0 0 (assemblies w' a) = with_asm_rk 0 0 (assemblies w a)).

(** A set grown by the elements that satisfy [P]. *)
Definition grows {A} (s s' : list A) (P : A -> Prop) : Prop :=
  (forall x, In x s' <-> In x s \/ P x) /\ (NoDup s -> NoDup s').

Definition grown (sets sets' : idsets) (PA : asm_ref -> Prop)
    (PS : option sec_ref -> Prop) (PM : mat_ref -> Prop) : Prop :=
  grows (set_assemblies sets) (set_assemblies sets') PA /\
  grows (set_sections sets) (set_sections sets') PS /\
  grows (set_materials sets) (set_materials sets') PM.

(** The identifiers [1, 2, ..., n]. *)
Definition one_to (n : Z) : list Z := map (fun i => i + 1) (range n).

(** Worlds that differ at most in identifiers, in lattice positions and
    in the cores. *)
Definition same_but_ids (w w' : World) : Prop :=
  stdout w' = stdout w /\
  (forall m, with_mat_id 0 (materials w' m) = with_mat_id 0 (materials w m)) /\
  (forall s, with_sec_id 0 (with_sec_rk 0 0 (sections w' s))
             = with_sec_id 0 (with_sec_rk 0 0 (sections w s))) /\
  (forall a, with_asm_id 0 (with_asm_rk 0 0 (assemblies w' a))
             = with_asm_id 0 (with_asm_rk 0 0 (assemblies w a))).

(** ** Sections [Core.toTULIP] can write *)

(** A section with an identifier, and with a ring number when it has
    rods. *)
Definition writable (w : World) (s : sec_ref) : Prop :=
  sec_id (sections w s) <> -1 /\
  (sec_ring (sections w s) = -1 -> sec_rod (sections w s) = []).

(** A section of a known equivalence method, with a ring number when it
    has rods and, when it is a supercell section, with a writable
    partner. *)
Definition tulip_ready (w : World) (s : sec_ref) : Prop :=
  (exists gk, Core.geom_code (sec_eqMethod (sections w s)) = Ok gk) /\
  (sec_ring (sections w s) = -1 -> sec_rod (sections w s) = []) /\
  (sec_eqMethod (sections w s) = "supercell"%string ->
   exists p, sec_scSection (sections w s) = Some p /\ writable w p).

(** ** Worlds around a meshing *)

(** Worlds that differ at most in the bounds of sections, in the cores
    and in what was printed. *)
Definition same_but_bounds (w w' : World) : Prop :=
  materials w' = materials w /\
  assemblies w' = assemblies w /\
  (forall s, with_sec_bounds (0, 0)%Q (sections w' s)
             = with_sec_bounds (0, 0)%Q (sections w s)).

(** ** Reference planes *)

(** The argument [refSec] names the section at position [r]: as an index
    within the list, or as a section that the list holds there. *)
Definition names_position (secs : list sec_ref) (refSec : Assembly.ref_arg)
    (r : Z) : Prop :=
  0 <= r < len secs /\
  match refSec with
  | Assembly.RefInt i => i = r
  | Assembly.RefSection s => nth_error secs (Z.to_nat r) = Some s
  | Assembly.RefOther => False
  end.

(** ** Names *)

(** A string without the character [@]. *)
Fixpoint plain (s : string) : Prop :=
  match s with
  | EmptyString => True
  | String c rest => c <> "@"%char /\ plain rest
  end.

(* ================================================================== *)
(** * Properties                                                       *)
(* ================================================================== *)

(** ** Core.copy *)

(** C10. [Core.copy(name)] raises [TypeError] for every core, every name
    and either value of [deepcopy], whatever [copy.deepcopy] does: the call
    [Core(name=name, ring=self.ring)] lacks [pitch] and [coolant]. Nothing
    is changed and no core is returned. *)
Theorem copy_raises_TypeError :
  forall (deepcopy_lattice : list (list asm_ref) -> M (list (list asm_ref)))
         (self : core_ref) (name : string) (deepcopy : bool) (w : World),
    Core.copy deepcopy_lattice self name deepcopy w = (w, Raise TypeError).
Proof.
  intros dl self name deepcopy w.
  unfold Core.copy, bind, gets. simpl.
  reflexivity.
Qed.

(** ** Core.check and Core.complete *)

Lemma checked_refl : forall st, checked st st.
Proof.
  intros [w p]. unfold checked, check_frame. simpl.
  repeat split; auto.
Qed.

Lemma checked_trans :
  forall a b c, checked a b -> checked b c -> checked a c.
Proof.
  intros [w p] [w1 p1] [w2 p2] [F1 R1] [F2 R2].
  unfold checked, check_frame in *. simpl in *.
  destruct F1 as (M1 & S1 & C1 & A1 & L1).
  destruct F2 as (M2 & S2 & C2 & A2 & L2).
  split.
  - repeat split;
      [congruence | congruence | congruence
      | intro a; rewrite A2; apply A1 | lia].
  - intro H. destruct (R2 H) as [H1 | H1].
    + destruct (R1 H1) as [H0 | H0]; [now left | right; lia].
    + right; lia.
Qed.

Lemma checked_print_false :
  forall w p m, checked (w, p) (print m w, false).
Proof.
  intros w p m. unfold checked, check_frame. simpl.
  repeat split; auto.
  - rewrite length_app. simpl. lia.
  - intros _. right. rewrite length_app. simpl. lia.
Qed.

Lemma fold_checked {A} (f : World * bool -> A -> World * bool) (l : list A) :
  (forall st x, checked st (f st x)) ->
  forall st, checked st (fold_left f l st).
Proof.
  intros Hf. induction l as [|x l IH]; intro st; simpl.
  - apply checked_refl.
  - eapply checked_trans; [apply Hf | apply IH].
Qed.

Lemma assembly_check_loop_checked :
  forall location secs prev p w,
    checked (w, p) (Assembly.check_loop location secs prev p w).
Proof.
  intros location secs. induction secs as [|sec rest IH]; intros prev p w; simpl.
  - apply checked_refl.
  - destruct prev as [q|].
    + destruct (negb (Qeq_bool q (fst (sec_bounds sec)))).
      * eapply checked_trans; [apply checked_print_false | apply IH].
      * apply IH.
    + apply IH.
Qed.

Lemma assembly_check_checked :
  forall a w p,
    checked (w, p)
            (fst (Assembly.check_run a w), p && snd (Assembly.check_run a w)).
Proof.
  intros a w p. unfold Assembly.check_run.
  set (secs := sorted _ _ _).
  set (w1 := set_assembly a _ w).
  pose proof (assembly_check_loop_checked
                (asm_location (assemblies w a)) (map (sections w1) secs)
                None true w1) as [F R].
  destruct (Assembly.check_loop _ _ None true w1) as [w2 b] eqn:E.
  simpl in *.
  assert (F1 : check_frame w w1).
  { unfold check_frame, w1. simpl. repeat split; auto.
    intro a'. unfold upd. destruct (Nat.eqb a' a) eqn:Ea; auto.
    apply Nat.eqb_eq in Ea. subst. reflexivity. }
  split; simpl.
  - destruct F1 as (M1 & S1 & C1 & A1 & L1).
    destruct F as (M2 & S2 & C2 & A2 & L2).
    unfold check_frame.
    repeat split;
      [congruence | congruence | congruence
      | intro a'; rewrite A2; apply A1 | lia].
  - intro H. apply andb_false_iff in H. destruct H as [H | H]; [now left|].
    destruct (R H) as [H0 | H0]; [discriminate|].
    right. destruct F1 as (_ & _ & _ & _ & L1). unfold w1 in *. simpl in *. lia.
Qed.

Lemma check_assemblies_checked :
  forall r ring st, checked st (Core.check_assemblies r ring st).
Proof.
  intros r ring. unfold Core.check_assemblies.
  apply fold_checked. intros [w p] [k a].
  pose proof (assembly_check_checked a w p) as H.
  destruct (Assembly.check_run a w) as [w1 ok]. simpl in H.
  destruct ok; simpl.
  - rewrite andb_true_r in H. exact H.
  - eapply checked_trans; [exact H | apply checked_print_false].
Qed.

Lemma check_rings_checked :
  forall lattice st, checked st (Core.check_rings lattice st).
Proof.
  intros lattice. unfold Core.check_rings.
  apply fold_checked. intros [w p] [r ring].
  eapply checked_trans; [| apply check_assemblies_checked].
  destruct (negb _).
  - apply checked_print_false.
  - apply checked_refl.
Qed.

Lemma check_run_checked :
  forall self w, checked (w, true) (Core.check_run self w).
Proof.
  intros self w. unfold Core.check_run.
  eapply checked_trans; [| apply check_rings_checked].
  destruct (negb _).
  - apply checked_print_false.
  - apply checked_refl.
Qed.

(** C5, as the code has it. When the structural check of a core finds a
    consistency problem, [Core.complete] prints the warnings and raises
    [ValueError]: [specifyID] does not run, no identifier is assigned and
    the core does not become completed. *)
Theorem complete_raises_on_failed_check :
  forall (self : core_ref) (w : World),
    snd (Core.check_run self w) = false ->
    let w' := fst (Core.check_run self w) in
    Core.complete self w = (w', Raise ValueError) /\
    (length (stdout w) < length (stdout w'))%nat /\
    core_completed (cores w' self) = core_completed (cores w self) /\
    materials w' = materials w /\
    sections w' = sections w /\
    (forall a, asm_id (assemblies w' a) = asm_id (assemblies w a)).
Proof.
  intros self w H w'.
  pose proof (check_run_checked self w) as [F R].
  unfold w'. simpl in F, R.
  destruct F as (M1 & S1 & C1 & A1 & L1).
  split; [|split; [|split; [|split; [|split]]]]; auto.
  - unfold Core.complete, bind, Core.check.
    destruct (Core.check_run self w) as [w1 b]. simpl in *. subst b.
    reflexivity.
  - destruct (R H) as [H0 | H0]; [discriminate | exact H0].
  - rewrite C1. reflexivity.
Qed.

Lemma complete_raises_on_failed_check_witness :
  snd (Core.check_run 0%nat Samples.short_world) = false /\
  Core.complete 0%nat Samples.short_world
  = (fst (Core.check_run 0%nat Samples.short_world), Raise ValueError).
Proof.
  split.
  - vm_compute. reflexivity.
  - apply (complete_raises_on_failed_check 0%nat Samples.short_world).
    vm_compute. reflexivity.
Defined.

(** C5 as stated fails: a core whose only problem is a lattice of one ring
    against a declared ring number of two is not completed. *)
Lemma complete_does_not_proceed :
  snd (Core.check_run 0%nat Samples.short_world) = false /\
  stdout (fst (Core.complete 0%nat Samples.short_world)) = [WarnLatticeRing 1 2] /\
  snd (Core.complete 0%nat Samples.short_world) = Raise ValueError /\
  core_completed (cores (fst (Core.complete 0%nat Samples.short_world)) 0%nat)
  = false /\
  sec_id (sections (fst (Core.complete 0%nat Samples.short_world)) 0%nat) = -1.
Proof.
  vm_compute. repeat split; reflexivity.
Qed.

(** ** Core.addRing and the serializers *)

(** What [Material.toTULIP] returns and leaves. *)
Lemma material_toTULIP_run :
  forall m w,
    let mat := materials w m in
    Material.toTULIP m w
    = if mat_id mat =? -1 then (w, Raise RuntimeError)
      else
        ((if mat_removeLowDensity mat
          then set_material m (with_mat_composition (kept_rows mat) mat) w
          else w),
         Ok (mkTulipMaterial (mat_name mat) (mat_id mat) (kept_rows mat))).
Proof.
  intros m w. cbv zeta.
  unfold Material.toTULIP, Material.check, bind, gets, raise, ret, kept_rows.
  cbv beta iota zeta.
  destruct (mat_id (materials w m) =? -1); [reflexivity|].
  destruct (mat_removeLowDensity (materials w m)) eqn:E; cbn [negb].
  - cbn [materials set_material]. unfold upd. rewrite Nat.eqb_refl. reflexivity.
  - reflexivity.
Qed.

(** [Material.toTULIP] reads and writes materials only. *)
Lemma material_toTULIP_frame :
  forall m w w',
    materials w = materials w' ->
    snd (Material.toTULIP m w) = snd (Material.toTULIP m w') /\
    materials (fst (Material.toTULIP m w))
    = materials (fst (Material.toTULIP m w')).
Proof.
  intros m w w' Hm. rewrite !material_toTULIP_run. cbv zeta. rewrite Hm.
  destruct (mat_id (materials w' m) =? -1); [split; [reflexivity | exact Hm]|].
  split; [reflexivity|]. cbn [fst].
  destruct (mat_removeLowDensity (materials w' m)); [|exact Hm].
  cbn [materials set_material]. rewrite Hm. reflexivity.
Qed.

Lemma mapM_material_toTULIP_frame :
  forall l w w',
    materials w = materials w' ->
    snd (mapM Material.toTULIP l w) = snd (mapM Material.toTULIP l w').
Proof.
  induction l as [|m l IH]; intros w w' Hm; [reflexivity|].
  cbn [mapM]. unfold bind at 1 3.
  destruct (material_toTULIP_frame m w w' Hm) as (Er & Ew).
  destruct (Material.toTULIP m w) as [w1 r1].
  destruct (Material.toTULIP m w') as [w1' r1'].
  cbn [fst snd] in Er, Ew. subst r1'.
  destruct r1 as [y|e]; [|reflexivity].
  unfold bind. specialize (IH w1 w1' Ew).
  destruct (mapM Material.toTULIP l w1) as [w2 r2].
  destruct (mapM Material.toTULIP l w1') as [w2' r2'].
  cbn [snd] in IH. subst r2'. destruct r2; reflexivity.
Qed.

Lemma sect_toTULIP_frame :
  forall s sc w w',
    sections w = sections w' -> materials w = materials w' ->
    Sect.toTULIP s sc w = (w, snd (Sect.toTULIP s sc w')).
Proof.
  intros s sc w w' Hs Hm.
  unfold Sect.toTULIP, bind, gets, raise, ret, Sect.entries. simpl.
  rewrite Hs.
  destruct (sec_id (sections w' s) =? -1); [reflexivity|].
  destruct ((sec_ring (sections w' s) =? -1) && _); [reflexivity|].
  simpl. rewrite Hm. reflexivity.
Qed.

Lemma geometry_frame :
  forall s w w',
    sections w = sections w' -> materials w = materials w' ->
    Core.geometry s w = (w, snd (Core.geometry s w')).
Proof.
  intros s w w' Hs Hm.
  unfold Core.geometry, bind.
  rewrite (sect_toTULIP_frame s false w w' Hs Hm).
  rewrite (sect_toTULIP_frame s false w' w' eq_refl eq_refl).
  destruct (snd (Sect.toTULIP s false w')) as [own|e]; [|reflexivity].
  unfold gets. rewrite Hs.
  destruct (String.eqb _ _); [|reflexivity].
  destruct (sec_scSection (sections w' s)) as [p|]; [|reflexivity].
  rewrite (sect_toTULIP_frame p true w w' Hs Hm).
  rewrite (sect_toTULIP_frame p true w' w' eq_refl eq_refl).
  destruct (snd (Sect.toTULIP p true w')); reflexivity.
Qed.

Lemma mapM_frame {A B} (f : A -> M B) (l : list A) :
  forall w w',
    (forall x, f x w = (w, snd (f x w'))) ->
    (forall x, f x w' = (w', snd (f x w'))) ->
    mapM f l w = (w, snd (mapM f l w')).
Proof.
  intros w w' H H'.
  assert (G : mapM f l w = (w, snd (mapM f l w')) /\
              mapM f l w' = (w', snd (mapM f l w'))).
  { induction l as [|x l [IH IH']]; simpl.
    - split; reflexivity.
    - unfold bind. rewrite H, H'.
      destruct (snd (f x w')) as [y|e]; [|split; reflexivity].
      rewrite IH, IH'.
      destruct (snd (mapM f l w')); split; reflexivity. }
  apply G.
Qed.

Lemma geom_kinds_frame :
  forall w w' secs acc,
    sections w = sections w' ->
    Core.geom_kinds w secs acc = Core.geom_kinds w' secs acc.
Proof.
  intros w w' secs. induction secs as [|s rest IH]; intros acc Hs; simpl.
  - reflexivity.
  - rewrite Hs. destruct (Core.geom_code _); simpl; auto.
Qed.

(** [Core.toTULIP] reads the flag [completed], the lists [sections] and
    [materials] of the core and the objects they name, nothing else. *)
Lemma toTULIP_frame :
  forall self w w',
    sections w = sections w' -> materials w = materials w' ->
    core_completed (cores w self) = core_completed (cores w' self) ->
    core_sections (cores w self) = core_sections (cores w' self) ->
    core_materials (cores w self) = core_materials (cores w' self) ->
    snd (Core.toTULIP self w) = snd (Core.toTULIP self w').
Proof.
  intros self w w' Hs Hm Hc Hcs Hcm.
  unfold Core.toTULIP, bind, gets, lift. simpl.
  rewrite Hc, Hcs, Hcm.
  destruct (negb _); [reflexivity|].
  rewrite (geom_kinds_frame w w' _ _ Hs).
  destruct (Core.geom_kinds w' _ _) as [gk|e]; [|reflexivity].
  rewrite (mapM_frame Core.geometry _ w w'
             (fun x => geometry_frame x w w' Hs Hm)
             (fun x => geometry_frame x w' w' eq_refl eq_refl)).
  rewrite (mapM_frame Core.geometry _ w' w'
             (fun x => geometry_frame x w' w' eq_refl eq_refl)
             (fun x => geometry_frame x w' w' eq_refl eq_refl)).
  destruct (snd (mapM Core.geometry _ w')) as [blocks|e]; [|reflexivity].
  pose proof (mapM_material_toTULIP_frame (core_materials (cores w' self))
                w w' Hm) as Em.
  destruct (mapM Material.toTULIP _ w) as [w1 r1].
  destruct (mapM Material.toTULIP _ w') as [w1' r1'].
  cbn [snd] in Em. subst r1'. destruct r1; reflexivity.
Qed.

(** ** Assembly.toLAVENDER *)

Lemma scan_spec :
  forall secs lo hi u a idlist,
    Assembly.scan lo hi secs u a idlist
    = match find (fun sec => contains sec (lo, hi)) secs with
      | Some sec => (false, false, Assembly.push_section (sec_id sec) idlist)
      | None => (u && under secs (lo, hi), a && above secs (lo, hi), idlist)
      end.
Proof.
  induction secs as [|sec rest IH]; intros lo hi u a idlist; simpl.
  - rewrite !andb_true_r. reflexivity.
  - unfold contains at 1. simpl fst; simpl snd.
    destruct (Qle_bool (fst (sec_bounds sec)) lo) eqn:E0;
      destruct (Qle_bool hi (snd (sec_bounds sec))) eqn:E1;
      destruct u, a; simpl;
      try reflexivity;
      rewrite IH; destruct (find _ rest); reflexivity.
Qed.

(** One iteration of the loop pushes the identifier the cell resolves to,
    and does nothing for a cell that resolves to none. *)
Lemma cell_step_spec :
  forall secs cid idlist cell,
    Assembly.cell_step secs cid idlist cell
    = match cell_id secs cid cell with
      | Some v => Assembly.push_section v idlist
      | None => idlist
      end.
Proof.
  intros secs cid idlist [lo hi].
  unfold Assembly.cell_step, cell_id. simpl fst; simpl snd.
  rewrite scan_spec.
  destruct (find _ secs) as [sec|]; [reflexivity|].
  simpl andb.
  destruct (under secs (lo, hi)) eqn:U; simpl.
  - destruct idlist as [|t rest]; [reflexivity|].
    replace (1 <? len (Single cid :: t :: rest)) with true.
    + unfold Assembly.push_section. reflexivity.
    + symmetry. apply Z.ltb_lt. unfold len. simpl length. lia.
  - destruct (above secs (lo, hi)) eqn:A; simpl; [|reflexivity].
    destruct idlist as [|t rest]; [reflexivity|].
    replace (1 <? len (Single cid :: t :: rest)) with true.
    + unfold Assembly.push_section. reflexivity.
    + symmetry. apply Z.ltb_lt. unfold len. simpl length. lia.
Qed.

Lemma tok_id_bump : forall t v, tok_id (tok_bump t v) = v.
Proof. intros [x|n x] v; reflexivity. Qed.

Lemma ids_differ_snoc :
  forall l a b, ids_differ (l ++ [a]) -> a <> b -> ids_differ (l ++ [a; b]).
Proof.
  induction l as [|x l IH]; intros a b H Hab; simpl in *.
  - auto.
  - destruct H as [H1 H2]. split.
    + destruct l as [|y l]; simpl in *; auto.
    + apply IH; assumption.
Qed.

Lemma push_section_runs_differ :
  forall v idlist,
    runs_differ (rev idlist) ->
    runs_differ (rev (Assembly.push_section v idlist)).
Proof.
  intros v [|t rest] H; simpl.
  - unfold runs_differ. simpl. auto.
  - destruct (tok_id t =? v) eqn:E.
    + apply Z.eqb_eq in E. unfold runs_differ in *. simpl in *.
      rewrite map_app in *. simpl in *. rewrite tok_id_bump. rewrite <- E.
      exact H.
    + apply Z.eqb_neq in E. unfold runs_differ in *. simpl in *.
      rewrite <- app_assoc. simpl.
      rewrite map_app in *. simpl in *.
      apply ids_differ_snoc; assumption.
Qed.

Lemma push_section_proper :
  forall v idlist,
    Forall proper_run idlist ->
    Forall proper_run (Assembly.push_section v idlist).
Proof.
  intros v [|t rest] H; simpl.
  - constructor; simpl; auto.
  - inversion H as [|? ? Ht Hrest]; subst.
    destruct (tok_id t =? v).
    + constructor; [|assumption].
      destruct t as [x|n x]; unfold proper_run, tok_bump in *; lia.
    + constructor; [simpl; auto | assumption].
Qed.

Lemma expand_snoc :
  forall l t, expand (l ++ [t]) = expand l ++ tok_expand t.
Proof.
  intros l t. unfold expand. rewrite flat_map_app. simpl.
  rewrite app_nil_r. reflexivity.
Qed.

Lemma tok_expand_bump :
  forall t, proper_run t ->
    tok_expand (tok_bump t (tok_id t)) = tok_expand t ++ [tok_id t].
Proof.
  intros [x|n x] H.
  - reflexivity.
  - unfold proper_run in H. unfold tok_bump, tok_id, tok_expand.
    replace (Z.to_nat (1 + n)) with (S (Z.to_nat n)) by lia.
    cbn [repeat]. apply repeat_cons.
Qed.

Lemma push_section_expand :
  forall v idlist,
    Forall proper_run idlist ->
    expand (rev (Assembly.push_section v idlist)) = expand (rev idlist) ++ [v].
Proof.
  intros v [|t rest] H; simpl.
  - reflexivity.
  - inversion H as [|? ? Ht Hrest]; subst.
    destruct (tok_id t =? v) eqn:E.
    + apply Z.eqb_eq in E. subst v. simpl.
      rewrite !expand_snoc, tok_expand_bump by assumption.
      rewrite app_assoc. reflexivity.
    + simpl. rewrite !expand_snoc. reflexivity.
Qed.

(** The invariant of the loop over the mesh cells. *)
Lemma cells_loop_invariant :
  forall secs cid cs idlist seen,
    Forall proper_run idlist ->
    runs_differ (rev idlist) ->
    expand (rev idlist) = seen ->
    let idlist' := fold_left (Assembly.cell_step secs cid) cs idlist in
    Forall proper_run idlist' /\
    runs_differ (rev idlist') /\
    expand (rev idlist')
    = seen ++ flat_map (fun cell => match cell_id secs cid cell with
                                    | Some v => [v]
                                    | None => []
                                    end) cs.
Proof.
  intros secs cid cs. induction cs as [|c cs IH]; intros idlist seen P D E; simpl.
  - rewrite app_nil_r. auto.
  - rewrite cell_step_spec.
    destruct (cell_id secs cid c) as [v|].
    + specialize (IH (Assembly.push_section v idlist) (seen ++ [v])
                     (push_section_proper v idlist P)
                     (push_section_runs_differ v idlist D)).
      rewrite push_section_expand in IH by assumption.
      rewrite E in IH. specialize (IH eq_refl). simpl in IH.
      rewrite <- app_assoc in IH. exact IH.
    + apply IH; assumption.
Qed.

(** C3. For every assembly, mesh and coolant section, with whatever
    bounds and identifiers, the record written by [Assembly.toLAVENDER] has
    no two adjacent runs of the same identifier; its runs [n*v] have
    [n >= 2]; and it expands to the identifiers its cells resolve to, one
    per cell, in order. Cells next to each other that resolve to the same
    identifier, the coolant's included, are therefore one run. *)
Theorem toLAVENDER_runs_merged :
  forall (self : asm_ref) (meshgrid : list Q) (coolant : sec_ref) (w : World),
    let secs := map (sections w) (asm_sections (assemblies w self)) in
    let cid := sec_id (sections w coolant) in
    exists ids,
      Assembly.toLAVENDER self meshgrid coolant w
      = (w, Ok (mkFaLine (asm_id (assemblies w self)) ids)) /\
      runs_differ ids /\
      Forall proper_run ids /\
      expand ids = resolved secs cid meshgrid.
Proof.
  intros self meshgrid coolant w secs cid.
  exists (Assembly.layer_ids secs cid meshgrid).
  split; [reflexivity|].
  unfold Assembly.layer_ids, resolved.
  destruct (cells_loop_invariant secs cid (Assembly.cells meshgrid) [] []
              (Forall_nil _) I eq_refl) as (P & D & E).
  split; [exact D|]. split; [|exact E].
  apply Forall_rev. exact P.
Qed.

(** The scenario of the specification: two cells next to each other that
    both resolve to the coolant's identifier 7 are written [2*7]. *)
Example coolant_cells_merge :
  forall secs idlist lo mid hi,
    cell_id secs 7 (lo, mid) = Some 7 ->
    cell_id secs 7 (mid, hi) = Some 7 ->
    (forall t rest, idlist = t :: rest -> tok_id t <> 7) ->
    fold_left (Assembly.cell_step secs 7) [(lo, mid); (mid, hi)] idlist
    = Times 2 7 :: idlist.
Proof.
  intros secs idlist lo mid hi H1 H2 Hd. simpl.
  rewrite !cell_step_spec, H1, H2.
  destruct idlist as [|t rest]; simpl.
  - reflexivity.
  - specialize (Hd t rest eq_refl). apply Z.eqb_neq in Hd. rewrite Hd. simpl.
    reflexivity.
Qed.

Lemma cells_middle :
  forall m1 lo hi m2,
    Assembly.cells (m1 ++ lo :: hi :: m2)
    = Assembly.cells (m1 ++ [lo]) ++ (lo, hi) :: Assembly.cells (hi :: m2).
Proof.
  unfold Assembly.cells.
  induction m1 as [|a m1 IH]; intros lo hi m2.
  - reflexivity.
  - destruct m1 as [|b m1].
    + reflexivity.
    + specialize (IH lo hi m2). simpl in *. rewrite IH. reflexivity.
Qed.

(** C2, as the code has it. [Assembly.toLAVENDER] raises nothing. A cell
    whose lower edge is not below every section's lower bound, whose upper
    edge is not above every section's upper bound and which no section
    contains is passed over: the record is the one the other cells give. *)
Theorem unclassified_cell_is_skipped :
  forall (self : asm_ref) (coolant : sec_ref) (w : World)
         (m1 m2 : list Q) (lo hi : Q),
    let secs := map (sections w) (asm_sections (assemblies w self)) in
    let cid := sec_id (sections w coolant) in
    under secs (lo, hi) = false ->
    above secs (lo, hi) = false ->
    (forall sec, In sec secs -> contains sec (lo, hi) = false) ->
    exists ids,
      Assembly.toLAVENDER self (m1 ++ lo :: hi :: m2) coolant w
      = (w, Ok (mkFaLine (asm_id (assemblies w self)) ids)) /\
      ids = rev (fold_left (Assembly.cell_step secs cid)
                   (Assembly.cells (m1 ++ [lo]) ++ Assembly.cells (hi :: m2)) []).
Proof.
  intros self coolant w m1 m2 lo hi secs cid U A C.
  exists (Assembly.layer_ids secs cid (m1 ++ lo :: hi :: m2)).
  split; [reflexivity|].
  unfold Assembly.layer_ids.
  rewrite cells_middle, !fold_left_app. simpl.
  rewrite (cell_step_spec secs cid _ (lo, hi)).
  unfold cell_id. rewrite U, A. simpl.
  destruct (find (fun sec => contains sec (lo, hi)) secs) as [sec|] eqn:F.
  - apply find_some in F. destruct F as [Hin Hc].
    rewrite (C sec Hin) in Hc. discriminate.
  - reflexivity.
Qed.

Lemma unclassified_cell_is_skipped_witness :
  exists ids,
    Assembly.toLAVENDER 0%nat ([0%Q] ++ 1%Q :: 2%Q :: [3%Q]) 0%nat Samples.gap_world
    = (Samples.gap_world,
       Ok (mkFaLine (asm_id (assemblies Samples.gap_world 0%nat)) ids)) /\
    ids = [Single 2; Single 3].
Proof.
  destruct (unclassified_cell_is_skipped 0%nat 0%nat Samples.gap_world
              [0%Q] [3%Q] 1%Q 2%Q) as (ids & H1 & H2).
  - vm_compute. reflexivity.
  - vm_compute. reflexivity.
  - intros sec Hin. simpl in Hin.
    destruct Hin as [<- | [<- | []]]; vm_compute; reflexivity.
  - exists ids. split; [exact H1|]. rewrite H2. vm_compute. reflexivity.
Defined.

(** C2 as stated fails: for sections on [(0,1)] and [(2,3)] the cell
    [(1,2)] of the mesh [0, 1, 2, 3] is in the gap, and the encoder returns
    a record of two cells for the three of the mesh. *)
Lemma gap_is_not_reported :
  let secs := map (sections Samples.gap_world)
                  (asm_sections (assemblies Samples.gap_world 0%nat)) in
  under secs (1, 2)%Q = false /\
  above secs (1, 2)%Q = false /\
  forallb (fun sec => negb (contains sec (1, 2)%Q)) secs = true /\
  snd (Assembly.toLAVENDER 0%nat [0; 1; 2; 3]%Q 0%nat Samples.gap_world)
  = Ok (mkFaLine (-1) [Single 2; Single 3]) /\
  length (Assembly.cells [0; 1; 2; 3]%Q) = 3%nat /\
  expand [Single 2; Single 3] = [2; 3].
Proof.
  vm_compute. repeat split; reflexivity.
Qed.

(** ** The row traversal of Core.toLAVENDER *)

Lemma in_range : forall j m, In j (range m) <-> 0 <= j < m.
Proof.
  intros j m. unfold range. rewrite in_map_iff. split.
  - intros (i & <- & Hi). apply in_seq in Hi. lia.
  - intros H. exists (Z.to_nat j). split; [lia|]. apply in_seq. lia.
Qed.

Lemma NoDup_range : forall m, NoDup (range m).
Proof.
  intros m. unfold range. apply NoDup_map_NoDup_ForallPairs.
  - intros x y _ _ H. lia.
  - apply seq_NoDup.
Qed.

Lemma length_range : forall m, length (range m) = Z.to_nat m.
Proof. intros m. unfold range. rewrite length_map, length_seq. reflexivity. Qed.

Lemma NoDup_flat_map_key {A B} (f : A -> list B) (key : B -> A) (l : list A) :
  NoDup l ->
  (forall a, In a l -> NoDup (f a)) ->
  (forall a x, In a l -> In x (f a) -> key x = a) ->
  NoDup (flat_map f l).
Proof.
  induction l as [|a l IH]; intros Hl Hf Hk; simpl.
  - constructor.
  - inversion Hl as [|? ? Ha Hl']; subst.
    apply NoDup_app.
    + apply Hf. now left.
    + apply IH; auto.
      * intros b Hb. apply Hf. now right.
      * intros b x Hb Hx. apply Hk; auto. now right.
    + intros x Hx Hx'. apply in_flat_map in Hx'. destruct Hx' as (b & Hb & Hxb).
      assert (key x = a) by (apply Hk; auto; now left).
      assert (key x = b) by (apply Hk; auto; now right).
      congruence.
Qed.

Section HexRow.
Variables ring l : Z.
Let d := Z.abs (ring - 1 - l).

Lemma hex_row_pass1 :
  forall j, 0 <= j < ring - 1 - d ->
    In (ring - 1 - j, 5 * (ring - 1 - j) + j - l) (Core.hex_row ring l).
Proof.
  intros j Hj. unfold Core.hex_row. fold d.
  apply in_or_app. left.
  apply in_map_iff. exists j. split; [reflexivity | apply in_range; exact Hj].
Qed.

Lemma hex_row_pass2 :
  forall j, 0 <= j < d ->
    In (d, 4 * d + (d + j) * Z.sgn (ring - 1 - l)) (Core.hex_row ring l).
Proof.
  intros j Hj. unfold Core.hex_row. fold d.
  apply in_or_app. right. apply in_or_app. left.
  apply in_map_iff. exists j. split; [| apply in_range; exact Hj].
  destruct (Z.ltb_spec 0 d); [reflexivity | unfold d in *; lia].
Qed.

Lemma hex_row_pass3 :
  In (d, if ring - 1 - l <? 0 then 2 * d else 0) (Core.hex_row ring l).
Proof.
  unfold Core.hex_row. fold d.
  apply in_or_app. right. apply in_or_app. right. apply in_or_app. left.
  left. reflexivity.
Qed.

Lemma hex_row_pass4 :
  forall j, 0 <= j < ring - 1 - d ->
    In (1 + j + d, l + (1 + j + d) + 1 - ring) (Core.hex_row ring l).
Proof.
  intros j Hj. unfold Core.hex_row. fold d.
  do 3 (apply in_or_app; right).
  apply in_map_iff. exists j. split; [reflexivity | apply in_range; exact Hj].
Qed.

(** What it is to be read in row [l]. *)
Lemma in_hex_row :
  forall r k, In (r, k) (Core.hex_row ring l) ->
    (d < r <= ring - 1 /\ k = 5 * r + (ring - 1 - r) - l) \/
    (r = d /\ 0 < d /\
       ((l < ring - 1 /\ 5 * d <= k < 6 * d) \/
        (ring - 1 < l /\ 2 * d < k <= 3 * d))) \/
    (r = d /\ k = if ring - 1 - l <? 0 then 2 * d else 0) \/
    (d < r <= ring - 1 /\ k = l + r + 1 - ring).
Proof.
  intros r k H. unfold Core.hex_row in H. fold d in H.
  apply in_app_or in H. destruct H as [H | H].
  { apply in_map_iff in H. destruct H as (j & E & Hj).
    apply in_range in Hj. cbv beta zeta in E; apply pair_equal_spec in E; destruct E as [E1 E2]; subst r k. left. unfold d in *. lia. }
  apply in_app_or in H. destruct H as [H | H].
  { apply in_map_iff in H. destruct H as (j & E & Hj).
    apply in_range in Hj. cbv beta zeta in E; apply pair_equal_spec in E; destruct E as [E1 E2]; subst r k. right; left.
    destruct (Z.ltb_spec 0 d); [|unfold d in *; lia].
    destruct (Z.sgn_spec (ring - 1 - l)) as [[H1 H2] | [[H1 H2] | [H1 H2]]];
      rewrite H2; unfold d in *; lia. }
  apply in_app_or in H. destruct H as [H | H].
  { destruct H as [E | []]. cbv beta zeta in E; apply pair_equal_spec in E; destruct E as [E1 E2]; subst r k. right; right; left. auto. }
  apply in_map_iff in H. destruct H as (j & E & Hj).
  apply in_range in Hj. cbv beta zeta in E; apply pair_equal_spec in E; destruct E as [E1 E2]; subst r k. right; right; right. unfold d in *. lia.
Qed.

End HexRow.

Lemma in_hex_row_row_of :
  forall ring l r k,
    0 <= l < 2 * ring - 1 ->
    In (r, k) (Core.hex_row ring l) ->
    row_of ring (r, k) = l /\ 0 <= r < ring /\ 0 <= k < ring_size r.
Proof.
  intros ring l r k Hl H. apply in_hex_row in H.
  unfold row_of, ring_size.
  destruct H as [H | [H | [H | H]]].
  - destruct (Z.eqb_spec k 0); [lia|].
    destruct (Z.ltb_spec k (2 * r)); [lia|].
    destruct (Z.leb_spec k (3 * r)); [lia|].
    destruct (Z.ltb_spec k (5 * r)); [|lia].
    destruct (Z.ltb_spec 0 r); lia.
  - destruct (Z.eqb_spec k 0); [lia|].
    destruct (Z.ltb_spec k (2 * r)); [lia|].
    destruct (Z.ltb_spec 0 r); [|lia].
    destruct (Z.leb_spec k (3 * r)); [lia|].
    destruct (Z.ltb_spec k (5 * r)); lia.
  - destruct H as [Hr Hk].
    destruct (Z.ltb_spec (ring - 1 - l) 0).
    + destruct (Z.eqb_spec k 0); [lia|].
      destruct (Z.ltb_spec k (2 * r)); [lia|].
      destruct (Z.leb_spec k (3 * r)); [|lia].
      destruct (Z.ltb_spec 0 r); lia.
    + destruct (Z.eqb_spec k 0); [|lia].
      destruct (Z.ltb_spec 0 r); lia.
  - destruct (Z.eqb_spec k 0); [lia|].
    destruct (Z.ltb_spec k (2 * r)); [|lia].
    destruct (Z.ltb_spec 0 r); lia.
Qed.

Ltac pair_eq H :=
  cbv beta zeta in H; apply pair_equal_spec in H; destruct H as [? ?].

Ltac in_mapped_range H :=
  let j := fresh "j" in
  let E := fresh "E" in
  let Hj := fresh "Hj" in
  apply in_map_iff in H; destruct H as (j & E & Hj);
  apply in_range in Hj; pair_eq E.

Lemma row_of_hex_row :
  forall ring r k,
    0 <= r < ring -> 0 <= k < ring_size r ->
    0 <= row_of ring (r, k) < 2 * ring - 1 /\
    In (r, k) (Core.hex_row ring (row_of ring (r, k))).
Proof.
  intros ring r k Hr Hk. unfold row_of, ring_size in *.
  destruct (Z.eqb_spec k 0) as [-> | Hk0].
  { split; [lia|].
    pose proof (hex_row_pass3 ring (ring - 1 - r)) as HP.
    replace (ring - 1 - (ring - 1 - r)) with r in HP by lia.
    destruct (Z.ltb_spec r 0); [lia|].
    rewrite Z.abs_eq in HP by lia. exact HP. }
  destruct (Z.ltb_spec 0 r) as [Hr0 | Hr0]; [|lia].
  destruct (Z.ltb_spec k (2 * r)).
  { split; [lia|].
    set (l := k - r + ring - 1).
    pose proof (hex_row_pass4 ring l (r - 1 - Z.abs (ring - 1 - l))) as HP.
    replace (1 + (r - 1 - Z.abs (ring - 1 - l)) + Z.abs (ring - 1 - l))
      with r in HP by lia.
    replace (l + r + 1 - ring) with k in HP by (unfold l; lia).
    apply HP. unfold l. lia. }
  destruct (Z.leb_spec k (3 * r)).
  { split; [lia|].
    set (l := ring - 1 + r).
    assert (Hd : Z.abs (ring - 1 - l) = r) by (unfold l; lia).
    destruct (Z.eqb_spec k (2 * r)) as [-> | Hk2].
    - pose proof (hex_row_pass3 ring l) as HP.
      rewrite Hd in HP.
      destruct (Z.ltb_spec (ring - 1 - l) 0); [exact HP | unfold l in *; lia].
    - pose proof (hex_row_pass2 ring l (3 * r - k)) as HP.
      rewrite Hd in HP.
      rewrite Z.sgn_neg in HP by (unfold l; lia).
      replace (4 * r + (r + (3 * r - k)) * -1) with k in HP by lia.
      apply HP. lia. }
  destruct (Z.ltb_spec k (5 * r)).
  { split; [lia|].
    set (l := 4 * r + ring - 1 - k).
    pose proof (hex_row_pass1 ring l (ring - 1 - r)) as HP.
    replace (ring - 1 - (ring - 1 - r)) with r in HP by lia.
    replace (5 * r + (ring - 1 - r) - l) with k in HP by (unfold l; lia).
    apply HP. unfold l. lia. }
  split; [lia|].
  set (l := ring - 1 - r).
  assert (Hd : Z.abs (ring - 1 - l) = r) by (unfold l; lia).
  pose proof (hex_row_pass2 ring l (k - 5 * r)) as HP.
  rewrite Hd in HP.
  rewrite Z.sgn_pos in HP by (unfold l; lia).
  replace (4 * r + (r + (k - 5 * r)) * 1) with k in HP by lia.
  apply HP. lia.
Qed.

Lemma NoDup_hex_row : forall ring l, NoDup (Core.hex_row ring l).
Proof.
  intros ring l. unfold Core.hex_row.
  apply NoDup_app.
  - apply NoDup_map_NoDup_ForallPairs; [|apply NoDup_range].
    intros x y _ _ H. pair_eq H. lia.
  - apply NoDup_app.
    + apply NoDup_map_NoDup_ForallPairs; [|apply NoDup_range].
      intros x y Hx Hy H. apply in_range in Hx, Hy. pair_eq H.
      destruct (Z.sgn_spec (ring - 1 - l)) as [[? E] | [[? E] | [? E]]];
        rewrite E in *; lia.
    + apply NoDup_app.
      * constructor; [intros [] | constructor].
      * apply NoDup_map_NoDup_ForallPairs; [|apply NoDup_range].
        intros x y _ _ H. pair_eq H. lia.
      * intros [r k] [E | []] H. pair_eq E. in_mapped_range H. lia.
    + intros [r k] H1 H2. in_mapped_range H1.
      apply in_app_or in H2. destruct H2 as [[E | []] | H2].
      * pair_eq E.
        destruct (Z.ltb_spec 0 (Z.abs (ring - 1 - l))); [|lia].
        destruct (Z.sgn_spec (ring - 1 - l)) as [[? E] | [[? E] | [? E]]];
          rewrite E in *;
          destruct (Z.ltb_spec (ring - 1 - l) 0); lia.
      * in_mapped_range H2. lia.
  - intros [r k] H1 H2. in_mapped_range H1.
    apply in_app_or in H2. destruct H2 as [H2 | H2].
    { in_mapped_range H2. lia. }
    apply in_app_or in H2. destruct H2 as [[E | []] | H2].
    { pair_eq E. lia. }
    in_mapped_range H2. lia.
Qed.

Lemma NoDup_lattice_slots : forall ring, NoDup (lattice_slots ring).
Proof.
  intros ring. unfold lattice_slots.
  apply NoDup_flat_map_key with (key := fst).
  - apply NoDup_range.
  - intros r _. apply NoDup_map_NoDup_ForallPairs; [|apply NoDup_range].
    intros x y _ _ H. congruence.
  - intros r [r' k] _ H. apply in_map_iff in H. destruct H as (j & E & _).
    simpl. congruence.
Qed.

Lemma in_lattice_slots :
  forall ring r k,
    In (r, k) (lattice_slots ring) <-> 0 <= r < ring /\ 0 <= k < ring_size r.
Proof.
  intros ring r k. unfold lattice_slots. rewrite in_flat_map. split.
  - intros (r' & Hr & H). apply in_range in Hr.
    apply in_map_iff in H. destruct H as (j & E & Hj). apply in_range in Hj.
    injection E as <- <-. auto.
  - intros [Hr Hk]. exists r. split; [apply in_range; exact Hr|].
    apply in_map_iff. exists k. split; [reflexivity | apply in_range; exact Hk].
Qed.

(** The rows of [hex_conf] read every slot of the lattice once. *)
Lemma hex_rows_permutation :
  forall ring,
    Permutation (concat (Core.hex_rows ring)) (lattice_slots ring).
Proof.
  intros ring. unfold Core.hex_rows. rewrite <- flat_map_concat_map.
  apply NoDup_Permutation.
  - apply NoDup_flat_map_key with (key := row_of ring).
    + apply NoDup_range.
    + intros l _. apply NoDup_hex_row.
    + intros l [r k] Hl H. apply in_range in Hl.
      apply (in_hex_row_row_of ring l r k Hl H).
  - apply NoDup_lattice_slots.
  - intros [r k]. rewrite in_flat_map, in_lattice_slots. split.
    + intros (l & Hl & H). apply in_range in Hl.
      apply (in_hex_row_row_of ring l r k Hl H).
    + intros [Hr Hk].
      destruct (row_of_hex_row ring r k Hr Hk) as [Hl H].
      exists (row_of ring (r, k)). split; [apply in_range; exact Hl | exact H].
Qed.

Lemma length_hex_row :
  forall ring l,
    0 <= l < 2 * ring - 1 ->
    len (Core.hex_row ring l) = 2 * ring - 1 - Z.abs (ring - 1 - l).
Proof.
  intros ring l Hl. unfold Core.hex_row, len.
  rewrite !length_app, !length_map, !length_range. cbn [length]. lia.
Qed.

(** ** Reading a full lattice *)

Lemma getitem_nth {A} (l : list A) (i : Z) (d : A) :
  0 <= i < len l -> getitem l i = Ok (nth (Z.to_nat i) l d).
Proof.
  intros H. unfold getitem.
  destruct (Z.ltb_spec i 0); [lia|].
  destruct (Z.leb_spec 0 i); [|lia].
  destruct (Z.ltb_spec i (len l)); [|lia]. simpl.
  rewrite (nth_error_nth' l d); [reflexivity|]. unfold len in H. lia.
Qed.

Lemma nth_range :
  forall m i, (i < Z.to_nat m)%nat -> nth i (range m) 0 = Z.of_nat i.
Proof.
  intros m i H. unfold range.
  change 0 with (Z.of_nat 0). rewrite map_nth, seq_nth by exact H.
  reflexivity.
Qed.

Lemma full_lattice_len {A} (ring : Z) (lattice : list (list A)) :
  0 <= ring -> full_lattice ring lattice -> len lattice = ring.
Proof.
  intros Hr H. unfold full_lattice in H.
  apply (f_equal (@length Z)) in H.
  rewrite !length_map, length_range in H. unfold len. lia.
Qed.

Lemma full_lattice_ring {A} (ring : Z) (lattice : list (list A)) (r : Z) :
  full_lattice ring lattice -> 0 <= r < ring ->
  len (nth (Z.to_nat r) lattice []) = ring_size r.
Proof.
  intros H Hr. unfold full_lattice in H.
  apply (f_equal (fun l => nth (Z.to_nat r) l 0)) in H.
  change 0 with (len (@nil A)) in H at 1. rewrite map_nth in H.
  rewrite H.
  rewrite (nth_indep _ 0 (ring_size 0)).
  - rewrite map_nth, nth_range by lia. f_equal. lia.
  - rewrite length_map, length_range. lia.
Qed.

Lemma lattice_at_full {A} (ring : Z) (lattice : list (list A)) (d : A) :
  full_lattice ring lattice ->
  forall rk, In rk (lattice_slots ring) ->
    Core.lattice_at lattice rk
    = Ok (nth (Z.to_nat (snd rk)) (nth (Z.to_nat (fst rk)) lattice []) d).
Proof.
  intros H [r k] Hin. apply in_lattice_slots in Hin. destruct Hin as [Hr Hk].
  unfold Core.lattice_at. simpl.
  rewrite (getitem_nth lattice r [])
    by (rewrite (full_lattice_len ring lattice) by (lia || exact H); lia).
  simpl. apply getitem_nth.
  rewrite (full_lattice_ring ring lattice r H Hr). exact Hk.
Qed.

Lemma rmapM_ok {A B} (f : A -> result B) (g : A -> B) (l : list A) :
  (forall x, In x l -> f x = Ok (g x)) -> rmapM f l = Ok (map g l).
Proof.
  induction l as [|x l IH]; intros H; simpl.
  - reflexivity.
  - rewrite H by (now left). simpl. rewrite IH; [reflexivity|].
    intros y Hy. apply H. now right.
Qed.

Lemma map_nth_seq {A} (l : list A) (d : A) :
  map (fun i => nth i l d) (seq 0 (length l)) = l.
Proof.
  induction l as [|a l IH]; simpl.
  - reflexivity.
  - f_equal. rewrite <- seq_shift, map_map. exact IH.
Qed.

Lemma map_nth_range {A} (l : list A) (d : A) :
  map (fun i => nth (Z.to_nat i) l d) (range (len l)) = l.
Proof.
  unfold range, len. rewrite Nat2Z.id, map_map.
  transitivity (map (fun i => nth i l d) (seq 0 (length l))).
  - apply map_ext. intros i. rewrite Nat2Z.id. reflexivity.
  - apply map_nth_seq.
Qed.

Lemma slots_entries {A} (ring : Z) (lattice : list (list A)) (d : A) :
  0 <= ring -> full_lattice ring lattice ->
  map (fun rk => nth (Z.to_nat (snd rk)) (nth (Z.to_nat (fst rk)) lattice []) d)
      (lattice_slots ring)
  = concat lattice.
Proof.
  intros Hr H. unfold lattice_slots.
  rewrite flat_map_concat_map, concat_map, map_map. f_equal.
  transitivity (map (fun r => nth (Z.to_nat r) lattice []) (range (len lattice))).
  - rewrite (full_lattice_len ring lattice Hr H).
    apply map_ext_in. intros r Hin. apply in_range in Hin.
    rewrite map_map. simpl.
    rewrite <- (full_lattice_ring ring lattice r H Hin).
    apply map_nth_range.
  - apply map_nth_range.
Qed.

(** The hex map of a deck [Core.toLAVENDER] returns is made of the
    identifiers of the rows [hex_conf] reads. *)
Lemma toLAVENDER_hex_conf :
  forall self w w' deck,
    Core.toLAVENDER self w = (w', Ok deck) ->
    exists rows,
      Core.hex_conf (core_ring (cores w self)) (core_lattice (cores w self))
      = Ok rows /\
      ld_hex_conf deck = map (map (fun a => asm_id (assemblies w a))) rows.
Proof.
  intros self w w' deck H.
  unfold Core.toLAVENDER, bind, gets, lift, raise, ret in H.
  destruct (negb (core_completed (cores w self))); [discriminate|].
  match type of H with
  | (let (_, _) := ?m in _) = _ => destruct m as [w1 [fa|e]]; [|discriminate]
  end.
  destruct (Core.hex_conf (core_ring (cores w self)) (core_lattice (cores w self)))
    as [rows|e]; [|discriminate].
  exists rows. split; [reflexivity|].
  injection H as _ <-. reflexivity.
Qed.

(** The written rows follow the slots read, row by row and entry by
    entry. *)
Lemma rmapM_Forall2 {A B} (f : A -> result B) (l : list A) :
  forall bs, rmapM f l = Ok bs -> Forall2 (fun b a => f a = Ok b) bs l.
Proof.
  induction l as [|x l IH]; intros bs E; simpl in E.
  - injection E as <-. constructor.
  - destruct (f x) as [b|e] eqn:Ef; [|discriminate]. simpl in E.
    destruct (rmapM f l) as [bs'|e] eqn:El; [|discriminate].
    injection E as <-. constructor; [exact Ef | apply IH; reflexivity].
Qed.

Lemma Forall2_weaken {A B} (P Q : A -> B -> Prop) (l : list A) (l' : list B) :
  (forall a b, P a b -> Q a b) -> Forall2 P l l' -> Forall2 Q l l'.
Proof. intros H F. induction F; constructor; auto. Qed.

(** C9. For a core of [ring >= 1] rings whose lattice is full, the
    traversal of [Core.toLAVENDER] reads [2*ring - 1] rows of slots
    [(r, k)]; all rows together they are every slot of the lattice once;
    row [l] holds the [2*ring - 1 - d] slots whose row is [l], all of rings
    [>= d], for [d = |ring - 1 - l|]. No read is out of range: the rows
    written are the entries [self.lattice[r][k]] at these slots, row by
    row and in the order read, so that row [l] of the deck has
    [2*ring - 1 - d] entries and every assembly of the lattice is written
    once; they are the rows of the hex map of any deck [Core.toLAVENDER]
    returns for such a core. *)
Theorem hex_conf_visits_each_slot_once :
  forall (ring : Z) (lattice : list (list asm_ref)),
    1 <= ring ->
    full_lattice ring lattice ->
    length (Core.hex_rows ring) = Z.to_nat (2 * ring - 1) /\
    Permutation (concat (Core.hex_rows ring)) (lattice_slots ring) /\
    (forall l, 0 <= l < 2 * ring - 1 ->
       nth_error (Core.hex_rows ring) (Z.to_nat l) = Some (Core.hex_row ring l) /\
       len (Core.hex_row ring l) = 2 * ring - 1 - Z.abs (ring - 1 - l) /\
       Forall (fun rk => Z.abs (ring - 1 - l) <= fst rk) (Core.hex_row ring l) /\
       (forall r k,
          In (r, k) (Core.hex_row ring l) <->
          0 <= r < ring /\ 0 <= k < ring_size r /\ row_of ring (r, k) = l)) /\
    exists rows,
      Core.hex_conf ring lattice = Ok rows /\
      length rows = Z.to_nat (2 * ring - 1) /\
      Forall2 (Forall2 (fun a rk => Core.lattice_at lattice rk = Ok a))
              rows (Core.hex_rows ring) /\
      (forall l, 0 <= l < 2 * ring - 1 ->
         exists row,
           nth_error rows (Z.to_nat l) = Some row /\
           len row = 2 * ring - 1 - Z.abs (ring - 1 - l)) /\
      Permutation (concat rows) (concat lattice) /\
      (forall self w w' deck,
         core_ring (cores w self) = ring ->
         core_lattice (cores w self) = lattice ->
         Core.toLAVENDER self w = (w', Ok deck) ->
         ld_hex_conf deck = map (map (fun a => asm_id (assemblies w a))) rows).
Proof.
  intros ring lattice Hring Hfull.
  assert (Hnth : forall l, 0 <= l < 2 * ring - 1 ->
            nth_error (Core.hex_rows ring) (Z.to_nat l)
            = Some (Core.hex_row ring l)).
  { intros l Hl. unfold Core.hex_rows. rewrite nth_error_map.
    unfold range. rewrite nth_error_map, nth_error_seq.
    destruct (Nat.ltb_spec (Z.to_nat l) (Z.to_nat (2 * ring - 1))); [|lia].
    simpl. f_equal. f_equal. lia. }
  split; [|split; [|split]].
  - unfold Core.hex_rows. rewrite length_map, length_range. reflexivity.
  - apply hex_rows_permutation.
  - intros l Hl. split; [|split; [|split]].
    + apply Hnth. exact Hl.
    + apply length_hex_row. exact Hl.
    + apply Forall_forall. intros [r k] H. apply in_hex_row in H. simpl. lia.
    + intros r k. split.
      * intros H. destruct (in_hex_row_row_of ring l r k Hl H) as (E & Hr & Hk).
        auto.
      * intros (Hr & Hk & E).
        destruct (row_of_hex_row ring r k Hr Hk) as [_ H].
        rewrite E in H. exact H.
  - set (g := fun rk : Z * Z =>
                nth (Z.to_nat (snd rk)) (nth (Z.to_nat (fst rk)) lattice []) 0%nat).
    assert (E : Core.hex_conf ring lattice = Ok (map (map g) (Core.hex_rows ring))).
    { unfold Core.hex_conf. apply rmapM_ok. intros row Hrow.
      apply rmapM_ok. intros rk Hrk.
      apply (lattice_at_full ring lattice 0%nat Hfull).
      apply (Permutation_in _ (hex_rows_permutation ring)).
      apply in_concat. exists row. split; assumption. }
    exists (map (map g) (Core.hex_rows ring)).
    split; [exact E|]. split; [|split; [|split; [|split]]].
    + unfold Core.hex_rows. rewrite !length_map, length_range. reflexivity.
    + unfold Core.hex_conf in E. apply rmapM_Forall2 in E.
      refine (Forall2_weaken _ _ _ _ _ E).
      intros row slots. apply rmapM_Forall2.
    + intros l Hl. exists (map g (Core.hex_row ring l)). split.
      * rewrite nth_error_map, (Hnth l Hl). reflexivity.
      * unfold len. rewrite length_map. apply length_hex_row. exact Hl.
    + rewrite <- concat_map.
      rewrite <- (slots_entries ring lattice 0%nat) by (lia || exact Hfull).
      apply Permutation_map. apply hex_rows_permutation.
    + intros self w w' deck Er El H.
      destruct (toLAVENDER_hex_conf self w w' deck H) as (rows & E' & Ed).
      rewrite Er, El, E in E'. injection E' as <-. exact Ed.
Qed.

Lemma hex_conf_visits_each_slot_once_witness :
  Permutation (concat (Core.hex_rows 2)) (lattice_slots 2) /\
  exists rows,
    Core.hex_conf 2 [[0]; [1; 2; 3; 4; 5; 6]]%nat = Ok rows /\
    length rows = 3%nat /\
    Forall2 (Forall2 (fun a rk =>
               Core.lattice_at [[0]; [1; 2; 3; 4; 5; 6]]%nat rk = Ok a))
            rows (Core.hex_rows 2) /\
    Permutation (concat rows) (concat [[0]; [1; 2; 3; 4; 5; 6]]%nat).
Proof.
  destruct (hex_conf_visits_each_slot_once 2 [[0]; [1; 2; 3; 4; 5; 6]]%nat)
    as (_ & P & _ & rows & E & L & F & _ & Q & _).
  - lia.
  - reflexivity.
  - split; [exact P|]. exists rows.
    split; [exact E|]. split; [exact L|]. split; [exact F | exact Q].
Defined.

(** ** Core.addRing and the serializers, continued *)

Lemma assembly_toLAVENDER_frame :
  forall a meshgrid coolant w w',
    sections w = sections w' -> assemblies w = assemblies w' ->
    Assembly.toLAVENDER a meshgrid coolant w
    = (w, snd (Assembly.toLAVENDER a meshgrid coolant w')).
Proof.
  intros a meshgrid coolant w w' Hs Ha.
  unfold Assembly.toLAVENDER, bind, gets, ret. simpl.
  rewrite Hs, Ha. reflexivity.
Qed.

Lemma getitem_app_l {A} (l l' : list A) (i : Z) (a : A) :
  0 <= i -> getitem l i = Ok a -> getitem (l ++ l') i = Ok a.
Proof.
  intros Hi H. unfold getitem in *.
  destruct (Z.ltb_spec i 0); [lia|].
  destruct (Z.leb_spec 0 i); [|lia].
  destruct (Z.ltb_spec i (len l)); simpl in H; [|discriminate].
  destruct (Z.ltb_spec i (len (l ++ l'))) as [_ | Hge].
  - simpl. rewrite nth_error_app1 by (unfold len in *; lia). exact H.
  - unfold len in *. rewrite length_app in Hge. lia.
Qed.

Lemma lattice_at_app {A} (lattice : list (list A)) (x : list A) (rk : Z * Z) (a : A) :
  0 <= fst rk ->
  Core.lattice_at lattice rk = Ok a ->
  Core.lattice_at (lattice ++ [x]) rk = Ok a.
Proof.
  intros Hr H. unfold Core.lattice_at in *.
  destruct (getitem lattice (fst rk)) as [ring|e] eqn:E; [|discriminate].
  rewrite (getitem_app_l lattice [x] (fst rk) ring Hr E). exact H.
Qed.

Lemma rmapM_mono {A B} (f g : A -> result B) (l : list A) :
  (forall x b, In x l -> f x = Ok b -> g x = Ok b) ->
  forall bs, rmapM f l = Ok bs -> rmapM g l = Ok bs.
Proof.
  induction l as [|x l IH]; intros H bs E; simpl in *.
  - exact E.
  - destruct (f x) as [b|e] eqn:Ef; [|discriminate]. simpl in E.
    rewrite (H x b (or_introl eq_refl) Ef). simpl.
    destruct (rmapM f l) as [bs'|e] eqn:El; [|discriminate].
    rewrite (IH (fun y c Hy => H y c (or_intror Hy)) bs' eq_refl). exact E.
Qed.

Lemma hex_row_ring_nonneg :
  forall ring l r k, In (r, k) (Core.hex_row ring l) -> 0 <= r.
Proof. intros ring l r k H. apply in_hex_row in H. lia. Qed.

(** The rows of [hex_conf] do not change when a ring is appended to the
    lattice: no row reads a ring by a negative index. *)
Lemma hex_conf_app {A} (ring : Z) (lattice : list (list A)) (x : list A) :
  forall rows,
    Core.hex_conf ring lattice = Ok rows ->
    Core.hex_conf ring (lattice ++ [x]) = Ok rows.
Proof.
  unfold Core.hex_conf, Core.hex_rows. apply rmapM_mono.
  intros row bs Hrow. apply in_map_iff in Hrow. destruct Hrow as (l & <- & _).
  apply rmapM_mono. intros [r k] a Hin. apply lattice_at_app. simpl.
  apply (hex_row_ring_nonneg ring l r k Hin).
Qed.

(** C7, as the code has it. [Core.addRing] appends the ring to the lattice
    and does nothing else: the flag [completed] and every identifier stay
    as they were, so [Core.toTULIP] gives after it exactly what it gave
    before. *)
Theorem addRing_keeps_ids :
  forall (self : core_ref) (ring : list asm_ref) (w : World),
    let w' := fst (Core.addRing self ring w) in
    snd (Core.addRing self ring w) = Ok tt /\
    core_lattice (cores w' self) = core_lattice (cores w self) ++ [ring] /\
    core_completed (cores w' self) = core_completed (cores w self) /\
    materials w' = materials w /\
    sections w' = sections w /\
    assemblies w' = assemblies w /\
    snd (Core.toTULIP self w') = snd (Core.toTULIP self w) /\
    (forall deck,
       snd (Core.toLAVENDER self w) = Ok deck ->
       snd (Core.toLAVENDER self w') = Ok deck).
Proof.
  intros self ring w. cbv zeta.
  change (snd (Core.addRing self ring w)) with (@Ok unit tt).
  change (fst (Core.addRing self ring w))
    with (set_core self
            (with_core_lattice (core_lattice (cores w self) ++ [ring])
                               (cores w self)) w).
  set (w' := set_core self
                (with_core_lattice (core_lattice (cores w self) ++ [ring])
                                   (cores w self)) w).
  assert (Ec : cores w' self
               = with_core_lattice (core_lattice (cores w self) ++ [ring])
                                   (cores w self)).
  { unfold w'. simpl. unfold upd. rewrite Nat.eqb_refl. reflexivity. }
  split; [reflexivity|].
  split; [rewrite Ec; reflexivity|].
  split; [rewrite Ec; reflexivity|].
  split; [reflexivity|]. split; [reflexivity|]. split; [reflexivity|].
  split.
  - apply toTULIP_frame; try reflexivity; rewrite Ec; reflexivity.
  - intros deck H. unfold Core.toLAVENDER, bind, gets, lift in *.
    rewrite Ec. cbn [core_completed core_assemblies core_sections core_meshgrid
                     core_coolant core_ring core_lattice core_pitch
                     core_boundaryConditions with_core_lattice].
    destruct (negb (core_completed (cores w self))); [discriminate|].
    rewrite (mapM_frame _ _ w' w
               (fun a => assembly_toLAVENDER_frame a _ _ w' w eq_refl eq_refl)
               (fun a => assembly_toLAVENDER_frame a _ _ w w eq_refl eq_refl)).
    rewrite (mapM_frame _ _ w w
               (fun a => assembly_toLAVENDER_frame a _ _ w w eq_refl eq_refl)
               (fun a => assembly_toLAVENDER_frame a _ _ w w eq_refl eq_refl)) in H.
    destruct (snd (mapM _ _ w)) as [fa|e]; [|discriminate].
    destruct (Core.hex_conf (core_ring (cores w self)) (core_lattice (cores w self)))
      as [rows|e] eqn:Eh; [|discriminate].
    rewrite (hex_conf_app _ _ ring rows Eh). exact H.
Qed.

Lemma addRing_keeps_ids_witness :
  let w := fst (Core.meshing 0%nat (1 # 20)
                  (fst (Core.complete 0%nat Samples.stack_world))) in
  let w' := fst (Core.addRing 0%nat [0%nat] w) in
  snd (Core.toLAVENDER 0%nat w') = snd (Core.toLAVENDER 0%nat w) /\
  exists deck, snd (Core.toLAVENDER 0%nat w) = Ok deck.
Proof.
  intros w w'.
  assert (H : exists deck, snd (Core.toLAVENDER 0%nat w) = Ok deck)
    by (vm_compute; eexists; reflexivity).
  split; [|exact H]. destruct H as (deck & H).
  destruct (addRing_keeps_ids 0%nat [0%nat] w) as (_ & _ & _ & _ & _ & _ & _ & L).
  rewrite H. apply L. exact H.
Defined.

(** C7 as stated fails: after [complete], [meshing] and then [addRing],
    the identifiers are still set and both serializers succeed. *)
Lemma serializers_succeed_after_addRing :
  let w1 := fst (Core.complete 0%nat Samples.stack_world) in
  let w2 := fst (Core.meshing 0%nat (1#20) w1) in
  let w3 := fst (Core.addRing 0%nat [0%nat] w2) in
  snd (Core.complete 0%nat Samples.stack_world) = Ok tt /\
  core_lattice (cores w2 0%nat) = [[0%nat]] /\
  core_lattice (cores w3 0%nat) = [[0%nat]; [0%nat]] /\
  map (fun s => sec_id (sections w3 s)) [0; 1; 2; 3]%nat = [2; 3; 1; 4] /\
  asm_id (assemblies w3 0%nat) = 1 /\
  (exists d, snd (Core.toTULIP 0%nat w3) = Ok d) /\
  (exists d, snd (Core.toLAVENDER 0%nat w3) = Ok d).
Proof.
  vm_compute.
  repeat split; try reflexivity; eexists; reflexivity.
Qed.


(** ** Core.specifyID and the supercell partner *)

(** C6 on a core whose supercell section "poison" is linked to a partner
    "neighbour" that is placed nowhere in the lattice: [specifyID] gives
    the partner the identifier 1, and leaves the identifier of "absorber",
    the material of the partner's rod, unset (-1). The material is not in
    [self.materials], and [Core.toTULIP] writes -1 as the material of the
    partner's rod in the supercell block. *)
Theorem supercell_partner_material_unset :
  let w := fst (Core.specifyID 0%nat Samples.supercell_world) in
  let w' := fst (Core.complete 0%nat Samples.supercell_world) in
  snd (Core.specifyID 0%nat Samples.supercell_world) = Ok tt /\
  sec_eqMethod (sections w 1%nat) = "supercell"%string /\
  sec_scSection (sections w 1%nat) = Some 2%nat /\
  sec_id (sections w 2%nat) = 1 /\
  map snd (sec_rod (sections w 2%nat)) = [2%nat] /\
  mat_name (materials w 2%nat) = "absorber"%string /\
  mat_id (materials w 2%nat) = -1 /\
  core_materials (cores w 0%nat) = [0; 1]%nat /\
  snd (Core.complete 0%nat Samples.supercell_world) = Ok tt /\
  exists deck,
    snd (Core.toTULIP 0%nat w') = Ok deck /\
    map (fun b => (ts_sc b, ts_name b, option_map (fun r => map snd (snd r)) (ts_rod b)))
        (td_geometry deck)
    = [ (false, "neighbour"%string, Some [-1]);
        (false, "coolant"%string, None);
        (false, "poison"%string, Some [1]);
        (true, "neighbour"%string, Some [-1]) ].
Proof.
  vm_compute. repeat split; try reflexivity.
  eexists. split; reflexivity.
Qed.

(** ** cormesh *)

(** C8 on a deck of two layers of height 1 and a threshold of 2: the layer
    line written still announces two layers but lists one height, as
    [print_list] writes the last run without its count. The cells of the
    assembly are unchanged. *)
Theorem cormesh_drops_trailing_equal_layers :
  Cormesh.float (HSingle 1) = Ok 1%Q /\
  Qlt 1 2 /\
  Cormesh.cormesh (Some Samples.flat_deck) 2
  = Ok [ Other "GEOMETRY:";
         Layer 2 [HSingle (round4 1)];
         FA_type 1 [Times 2 1];
         Other "END:" ] /\
  Cormesh.deck_layers Samples.flat_deck = [[1%Q; 1%Q]] /\
  Cormesh.deck_layers [ Other "GEOMETRY:"; Layer 2 [HSingle (round4 1)];
                        FA_type 1 [Times 2 1]; Other "END:" ]
  = [[round4 1]] /\
  Cormesh.deck_cells Samples.flat_deck = [[1; 1]] /\
  Cormesh.deck_cells [ Other "GEOMETRY:"; Layer 2 [HSingle (round4 1)];
                       FA_type 1 [Times 2 1]; Other "END:" ]
  = [[1; 1]].
Proof.
  repeat split; vm_compute; reflexivity.
Qed.

(** ** Core.meshing: the mesh is increasing *)

Lemma Qeq_bool_false_lt : forall x y, (x < y)%Q -> Qeq_bool x y = false.
Proof.
  intros x y H. destruct (Qeq_bool x y) eqn:E; [|reflexivity].
  apply Qeq_bool_eq in E. rewrite E in H. exfalso. apply (Qlt_irrefl y H).
Qed.

Lemma Qeq_bool_false_gt : forall x y, (y < x)%Q -> Qeq_bool x y = false.
Proof.
  intros x y H. destruct (Qeq_bool x y) eqn:E; [|reflexivity].
  apply Qeq_bool_eq in E. rewrite E in H. exfalso. apply (Qlt_irrefl y H).
Qed.

Lemma Qle_bool_true : forall x y, (x <= y)%Q -> Qle_bool x y = true.
Proof. intros x y H. apply Qle_bool_iff. exact H. Qed.

Lemma Qle_bool_false : forall x y, (y < x)%Q -> Qle_bool x y = false.
Proof.
  intros x y H. destruct (Qle_bool x y) eqn:E; [|reflexivity].
  apply Qle_bool_iff in E. exfalso. apply (Qlt_not_le _ _ H E).
Qed.

Lemma Qle_bool_false_inv : forall x y, Qle_bool x y = false -> (y < x)%Q.
Proof.
  intros x y H. apply Qnot_le_lt. intro L.
  apply Qle_bool_iff in L. congruence.
Qed.

Lemma insert_uniq_increasing :
  forall x l,
    increasing l ->
    increasing (insert_uniq x l) /\
    (forall a, (a < x)%Q -> HdRel Qlt a l -> HdRel Qlt a (insert_uniq x l)).
Proof.
  unfold increasing. intros x l. induction l as [|y ys IH]; intros H; simpl.
  - split; [repeat constructor|]. intros a Ha _. constructor. exact Ha.
  - inversion H as [|? ? Hys Hhd]; subst.
    destruct (Qeq_bool x y) eqn:E; [split; auto|].
    destruct (Qle_bool x y) eqn:L.
    + apply Qle_bool_iff in L. apply Qeq_bool_neq in E.
      assert (x < y)%Q by (apply Qle_lteq in L; destruct L; [assumption|contradiction]).
      split.
      * constructor; [exact H | constructor; assumption].
      * intros a Ha _. constructor. exact Ha.
    + apply Qle_bool_false_inv in L.
      destruct (IH Hys) as [S Hd]. split.
      * constructor; [exact S | apply Hd; assumption].
      * intros a Ha Hay. inversion Hay; subst. constructor. assumption.
Qed.

Lemma sorted_set_increasing : forall l, increasing (sorted_set l).
Proof.
  induction l as [|x l IH]; simpl.
  - constructor.
  - apply insert_uniq_increasing. exact IH.
Qed.

Lemma sorted_set_fixed : forall l, increasing l -> sorted_set l = l.
Proof.
  unfold increasing. induction l as [|x l IH]; intros H; simpl.
  - reflexivity.
  - inversion H as [|? ? Hl Hhd]; subst. rewrite (IH Hl).
    destruct l as [|y ys]; [reflexivity|]. simpl.
    inversion Hhd; subst.
    rewrite Qeq_bool_false_lt by assumption.
    rewrite Qle_bool_true by (apply Qlt_le_weak; assumption).
    reflexivity.
Qed.

Lemma increasing_lt_all :
  forall a l, increasing (a :: l) -> forall x, In x l -> (a < x)%Q.
Proof.
  unfold increasing. intros a l H.
  apply Sorted_StronglySorted in H.
  - inversion H as [|? ? _ Hall]; subst. apply Forall_forall. exact Hall.
  - intros x y z. apply Qlt_trans.
Qed.

Lemma increasing_app_lt :
  forall l1 l2, increasing (l1 ++ l2) ->
    forall x y, In x l1 -> In y l2 -> (x < y)%Q.
Proof.
  induction l1 as [|a l1 IH]; intros l2 H x y Hx Hy.
  - destruct Hx.
  - simpl in H. destruct Hx as [<- | Hx].
    + apply (increasing_lt_all a (l1 ++ l2) H). apply in_or_app. now right.
    + apply (IH l2); auto. unfold increasing in *. inversion H; assumption.
Qed.

Lemma increasing_tail : forall a l, increasing (a :: l) -> increasing l.
Proof. unfold increasing. intros a l H. inversion H; assumption. Qed.

Lemma increasing_app_r : forall l1 l2, increasing (l1 ++ l2) -> increasing l2.
Proof.
  induction l1 as [|a l1 IH]; intros l2 H; simpl in *; [exact H|].
  apply IH. apply (increasing_tail a). exact H.
Qed.

Lemma increasing_snoc :
  forall l x, increasing l -> (forall y, In y l -> (y < x)%Q) ->
    increasing (l ++ [x]).
Proof.
  unfold increasing. induction l as [|a l IH]; intros x H Hx; simpl.
  - repeat constructor.
  - inversion H as [|? ? Hl Hhd]; subst. constructor.
    + apply IH; auto. intros y Hy. apply Hx. now right.
    + destruct l as [|b l]; simpl.
      * constructor. apply Hx. now left.
      * inversion Hhd; subst. constructor. assumption.
Qed.

(** *** Sums and averages *)

Lemma inject_Z_len_cons {A} (x : A) (l : list A) :
  (inject_Z (len (x :: l)) == inject_Z (len l) + 1)%Q.
Proof.
  unfold len. simpl length. rewrite Nat2Z.inj_succ.
  unfold Z.succ. rewrite inject_Z_plus. reflexivity.
Qed.

Lemma qsum_gt :
  forall lo s x a,
    (forall y, In y (x :: s) -> lo < y)%Q ->
    (a + inject_Z (len (x :: s)) * lo < fold_left Qplus (x :: s) a)%Q.
Proof.
  intros lo s. induction s as [|z s IH]; intros x a H.
  - assert (lo < x)%Q by (apply H; now left).
    change (inject_Z (len [x])) with 1%Q. simpl fold_left. lra.
  - assert (lo < x)%Q by (apply H; now left).
    assert (G : (a + x + inject_Z (len (z :: s)) * lo
                 < fold_left Qplus (z :: s) (a + x))%Q).
    { apply IH. intros y Hy. apply H. now right. }
    change (fold_left Qplus (x :: z :: s) a)
      with (fold_left Qplus (z :: s) (a + x)%Q).
    rewrite (inject_Z_len_cons x (z :: s)). lra.
Qed.

Lemma qsum_lt :
  forall hi s x a,
    (forall y, In y (x :: s) -> y < hi)%Q ->
    (fold_left Qplus (x :: s) a < a + inject_Z (len (x :: s)) * hi)%Q.
Proof.
  intros hi s. induction s as [|z s IH]; intros x a H.
  - assert (x < hi)%Q by (apply H; now left).
    change (inject_Z (len [x])) with 1%Q. simpl fold_left. lra.
  - assert (x < hi)%Q by (apply H; now left).
    assert (G : (fold_left Qplus (z :: s) (a + x)
                 < a + x + inject_Z (len (z :: s)) * hi)%Q).
    { apply IH. intros y Hy. apply H. now right. }
    change (fold_left Qplus (x :: z :: s) a)
      with (fold_left Qplus (z :: s) (a + x)%Q).
    rewrite (inject_Z_len_cons x (z :: s)). lra.
Qed.

Lemma len_pos {A} (x : A) (l : list A) : (0 < inject_Z (len (x :: l)))%Q.
Proof.
  unfold len. simpl length. rewrite Nat2Z.inj_succ.
  change 0%Q with (inject_Z 0). rewrite <- Zlt_Qlt. lia.
Qed.

Lemma average_gt :
  forall lo x s,
    (forall y, In y (x :: s) -> lo < y)%Q -> (lo < average (x :: s))%Q.
Proof.
  intros lo x s H. unfold average, qsum.
  apply Qlt_shift_div_l; [apply len_pos|].
  pose proof (qsum_gt lo s x 0 H). lra.
Qed.

Lemma average_lt :
  forall hi x s,
    (forall y, In y (x :: s) -> y < hi)%Q -> (average (x :: s) < hi)%Q.
Proof.
  intros hi x s H. unfold average, qsum.
  apply Qlt_shift_div_r; [apply len_pos|].
  pose proof (qsum_lt hi s x 0 H). lra.
Qed.

(** *** The clustering loop *)

Lemma fold_qmin_head :
  forall bs b, (forall x, In x bs -> b <= x)%Q -> fold_left qmin bs b = b.
Proof.
  induction bs as [|x bs IH]; intros b H; simpl.
  - reflexivity.
  - unfold qmin at 2. rewrite Qle_bool_true by (apply H; now left).
    apply IH. intros y Hy. apply H. now right.
Qed.

Lemma qmax_cases : forall a b, (qmax a b = a \/ qmax a b = b) /\ (a <= qmax a b)%Q.
Proof.
  intros a b. unfold qmax. destruct (Qle_bool a b) eqn:E.
  - apply Qle_bool_iff in E. split; [now right | exact E].
  - split; [now left | apply Qle_refl].
Qed.

Lemma fold_qmax_in :
  forall bs b, In (fold_left qmax bs b) (b :: bs) /\ (b <= fold_left qmax bs b)%Q.
Proof.
  induction bs as [|x bs IH]; intros b; simpl.
  - split; [now left | apply Qle_refl].
  - destruct (IH (qmax b x)) as [Hin Hle].
    destruct (qmax_cases b x) as [[E | E] Hb].
    + rewrite E in *. split.
      * destruct Hin as [Hin | Hin]; [now left | right; now right].
      * exact Hle.
    + rewrite E in *. split.
      * destruct Hin as [Hin | Hin];
          [right; left; exact Hin | right; right; exact Hin].
      * eapply Qle_trans; [exact Hb | exact Hle].
Qed.

Lemma set_add_fresh :
  forall x s, (forall m, In m s -> m < x)%Q -> set_add Qeq_bool x s = s ++ [x].
Proof.
  intros x s H. unfold set_add.
  replace (existsb (Qeq_bool x) s) with false; [reflexivity|].
  symmetry. apply not_true_is_false. intro E.
  apply existsb_exists in E. destruct E as (m & Hm & E).
  rewrite Qeq_bool_false_gt in E by (apply H; exact Hm). discriminate.
Qed.

(** The test of the loop, for a height above an increasing buffer: the
    height joins the buffer exactly when it is within the tolerance of the
    buffer's first height. *)
Lemma join_test :
  forall tolerance b bs height,
    increasing (b :: bs) ->
    (forall x, In x (b :: bs) -> x < height)%Q ->
    Qle_bool (Qabs (height - fold_left qmin bs b)) tolerance
    && Qle_bool (Qabs (height - fold_left qmax bs b)) tolerance
    = Qle_bool (height - b) tolerance.
Proof.
  intros tol b bs h Hinc Hlt.
  rewrite fold_qmin_head
    by (intros x Hx; apply Qlt_le_weak; apply (increasing_lt_all b bs Hinc x Hx)).
  destruct (fold_qmax_in bs b) as [Hin Hle].
  set (higher := fold_left qmax bs b) in *.
  assert (Hh : (higher < h)%Q) by (apply Hlt; exact Hin).
  assert (Hb : (b < h)%Q) by (apply Hlt; now left).
  destruct (Qle_bool (h - b) tol) eqn:E.
  - apply Qle_bool_iff in E. apply andb_true_iff. split.
    + apply Qle_bool_iff. apply Qabs_Qle_condition. split; lra.
    + apply Qle_bool_iff. apply Qabs_Qle_condition. split; lra.
  - apply Qle_bool_false_inv in E. apply andb_false_iff. left.
    apply Qle_bool_false. rewrite Qabs_pos by lra. exact E.
Qed.

Lemma cluster_loop_spec :
  forall tolerance heights meshgrid buf,
    increasing (buf ++ heights) ->
    increasing meshgrid ->
    (forall m x, In m meshgrid -> In x (buf ++ heights) -> m < x)%Q ->
    flushed (fold_left (Core.cluster_step tolerance) heights (meshgrid, buf))
    = meshgrid ++ map average (clusters_from tolerance buf heights) /\
    increasing (meshgrid ++ map average (clusters_from tolerance buf heights)).
Proof.
  intros tol heights. induction heights as [|h hs IH]; intros mesh buf Hinc Hmesh Hlt.
  - simpl. rewrite app_nil_r in *. destruct buf as [|b bs].
    + simpl. rewrite app_nil_r. auto.
    + assert (Hm : forall m, In m mesh -> (m < average (b :: bs))%Q).
      { intros m Hm. apply average_gt. intros y Hy. apply Hlt; assumption. }
      replace (0 <? len (b :: bs)) with true
        by (symmetry; apply Z.ltb_lt; unfold len; simpl length; lia).
      rewrite set_add_fresh by exact Hm. simpl. split; [reflexivity|].
      apply increasing_snoc; assumption.
  - change (fold_left (Core.cluster_step tol) (h :: hs) (mesh, buf))
      with (fold_left (Core.cluster_step tol) hs
              (Core.cluster_step tol (mesh, buf) h)).
    destruct buf as [|b bs].
    + change (Core.cluster_step tol (mesh, []) h) with (mesh, [h]).
      apply (IH mesh [h]); assumption.
    + assert (Hbuf : increasing (b :: bs)).
      { clear - Hinc. revert Hinc. generalize (b :: bs). intros l.
        induction l as [|a l IHl]; intros H; [constructor|].
        simpl in H. unfold increasing in *. inversion H as [|? ? H1 H2]; subst.
        constructor; [apply IHl; exact H1|].
        destruct l; simpl in *; [constructor | inversion H2; subst; constructor; assumption]. }
      assert (Hh : forall x, In x (b :: bs) -> (x < h)%Q).
      { intros x Hx. apply (increasing_app_lt _ _ Hinc x h Hx). now left. }
      change (clusters_from tol (b :: bs) (h :: hs))
        with (if Qle_bool (Qabs (h - fold_left qmin bs b)) tol
                 && Qle_bool (Qabs (h - fold_left qmax bs b)) tol
              then clusters_from tol ((b :: bs) ++ [h]) hs
              else (b :: bs) :: clusters_from tol [h] hs).
      change (Core.cluster_step tol (mesh, b :: bs) h)
        with (if Qle_bool (Qabs (h - fold_left qmin bs b)) tol
                 && Qle_bool (Qabs (h - fold_left qmax bs b)) tol
              then (mesh, set_add Qeq_bool h (b :: bs))
              else (set_add Qeq_bool (average (b :: bs)) mesh, [h])).
      destruct (Qle_bool (Qabs (h - fold_left qmin bs b)) tol
                && Qle_bool (Qabs (h - fold_left qmax bs b)) tol).
      * rewrite set_add_fresh by exact Hh.
        apply IH; try assumption.
        -- rewrite <- app_assoc. exact Hinc.
        -- intros m x Hm Hx. apply Hlt; [exact Hm|].
           rewrite <- app_assoc in Hx. exact Hx.
      * assert (Hm : forall m, In m mesh -> (m < average (b :: bs))%Q).
        { intros m Hm. apply average_gt. intros y Hy. apply Hlt; [exact Hm|].
          apply in_or_app. now left. }
        rewrite set_add_fresh by exact Hm.
        destruct (IH (mesh ++ [average (b :: bs)]) [h]) as [E S].
        -- apply (increasing_app_r (b :: bs)). exact Hinc.
        -- apply increasing_snoc; assumption.
        -- intros m x Hm' Hx. apply in_app_or in Hm'.
           destruct Hm' as [Hm' | [<- | []]].
           ++ apply Hlt; [exact Hm'|]. apply in_or_app. now right.
           ++ apply average_lt. intros y Hy.
              apply (increasing_app_lt _ _ Hinc y x Hy). exact Hx.
        -- rewrite <- app_assoc in E, S. simpl in E, S. split; assumption.
Qed.

Lemma cluster_spec :
  forall tolerance heights,
    increasing heights ->
    Core.cluster tolerance heights = map average (clusters tolerance heights) /\
    increasing (Core.cluster tolerance heights).
Proof.
  intros tol heights H.
  destruct (cluster_loop_spec tol heights [] [] H) as [E S].
  - constructor.
  - intros m x [].
  - simpl in E, S. unfold Core.cluster, clusters.
    unfold flushed in E.
    destruct (fold_left (Core.cluster_step tol) heights ([], [])) as [m b].
    rewrite E. split; [reflexivity | exact S].
Qed.

(** *** The clusters *)

Lemma increasing_app_l : forall l1 l2, increasing (l1 ++ l2) -> increasing l1.
Proof.
  unfold increasing. induction l1 as [|a l IH]; intros l2 H; [constructor|].
  simpl in H. inversion H as [|? ? H1 H2]; subst.
  constructor; [apply (IH l2); exact H1|].
  destruct l; simpl in *; [constructor | inversion H2; subst; constructor; assumption].
Qed.

Lemma clusters_from_unfold :
  forall tolerance b bs h hs,
    increasing ((b :: bs) ++ h :: hs) ->
    clusters_from tolerance (b :: bs) (h :: hs)
    = if Qle_bool (h - b) tolerance
      then clusters_from tolerance ((b :: bs) ++ [h]) hs
      else (b :: bs) :: clusters_from tolerance [h] hs.
Proof.
  intros tol b bs h hs Hinc.
  change (clusters_from tol (b :: bs) (h :: hs))
    with (if Qle_bool (Qabs (h - fold_left qmin bs b)) tol
             && Qle_bool (Qabs (h - fold_left qmax bs b)) tol
          then clusters_from tol ((b :: bs) ++ [h]) hs
          else (b :: bs) :: clusters_from tol [h] hs).
  rewrite join_test; [reflexivity | apply (increasing_app_l _ _ Hinc) |].
  intros x Hx. apply (increasing_app_lt _ _ Hinc x h Hx). now left.
Qed.

Lemma clusters_from_props :
  forall tolerance heights buf,
    (0 <= tolerance)%Q ->
    increasing (buf ++ heights) ->
    (buf <> [] -> cluster_ok tolerance buf) ->
    concat (clusters_from tolerance buf heights) = buf ++ heights /\
    starts_apart tolerance (clusters_from tolerance buf heights) /\
    Forall (cluster_ok tolerance) (clusters_from tolerance buf heights) /\
    (forall b bs, buf = b :: bs ->
       exists c rest, clusters_from tolerance buf heights = (b :: c) :: rest).
Proof.
  intros tol heights. induction heights as [|h hs IH]; intros buf Htol Hinc Hok.
  - destruct buf as [|b bs]; simpl.
    + repeat split; try constructor. intros b bs E. discriminate.
    + rewrite !app_nil_r. repeat split.
      * unfold starts_apart, apart. simpl. repeat constructor.
      * constructor; [|constructor]. apply Hok. discriminate.
      * intros b' bs' E. injection E as <- <-. eauto.
  - destruct buf as [|b bs].
    + change (clusters_from tol [] (h :: hs)) with (clusters_from tol [h] hs).
      destruct (IH [h] Htol Hinc) as (C & S & F & _).
      * intros _ x [<- | []]. split; lra.
      * repeat split; auto. intros b bs E. discriminate.
    + rewrite clusters_from_unfold by exact Hinc.
      assert (Hbuf : increasing (b :: bs)) by apply (increasing_app_l _ _ Hinc).
      assert (Hb : (b < h)%Q)
        by (apply (increasing_app_lt _ _ Hinc b h); now left).
      specialize (Hok ltac:(discriminate)). simpl in Hok.
      destruct (Qle_bool (h - b) tol) eqn:E.
      * apply Qle_bool_iff in E.
        destruct (IH ((b :: bs) ++ [h]) Htol) as (C & S & F & Hd).
        -- rewrite <- app_assoc. exact Hinc.
        -- intros _. simpl. intros x [<- | Hx]; [split; lra|].
           apply in_app_or in Hx. destruct Hx as [Hx | [<- | []]].
           ++ apply Hok. now right.
           ++ split; lra.
        -- rewrite <- app_assoc in C. repeat split; auto.
           intros b' bs' E'. injection E' as <- <-.
           apply (Hd b (bs ++ [h])). reflexivity.
      * apply Qle_bool_false_inv in E.
        destruct (IH [h] Htol) as (C & S & F & Hd).
        -- apply (increasing_app_r (b :: bs)). exact Hinc.
        -- intros _ x [<- | []]. split; lra.
        -- destruct (Hd h [] eq_refl) as (c & rest & Ec).
           repeat split.
           ++ simpl. rewrite C. reflexivity.
           ++ unfold starts_apart, apart in *. simpl. constructor; [exact S|].
              rewrite Ec. simpl. constructor. exact E.
           ++ constructor; [exact Hok | exact F].
           ++ intros b' bs' E'. injection E' as <- <-. eauto.
Qed.

Lemma sorted_set_nonempty : forall l, l <> [] -> sorted_set l <> [].
Proof.
  intros [|x l] H; [contradiction|]. simpl.
  destruct (sorted_set l) as [|y ys]; simpl; [discriminate|].
  destruct (Qeq_bool x y); [discriminate|].
  destruct (Qle_bool x y); discriminate.
Qed.

Lemma clusters_nonempty :
  forall tolerance heights, heights <> [] -> clusters tolerance heights <> [].
Proof.
  intros tol heights H. unfold clusters.
  assert (G : forall hs buf, buf <> [] \/ hs <> [] -> clusters_from tol buf hs <> []).
  { induction hs as [|h hs IH]; intros buf Hb.
    - destruct buf; [destruct Hb; contradiction | discriminate].
    - destruct buf as [|b bs].
      + apply (IH [h]). left. discriminate.
      + simpl. destruct (_ && _); [|discriminate].
        apply IH. left. discriminate. }
  apply G. now right.
Qed.

Lemma snap_keeps_cores :
  forall tolerance g s w i, cores (Core.snap tolerance g s w i) = cores w.
Proof.
  intros tol g s w i. unfold Core.snap.
  destruct (Core.close_to _ _ _); reflexivity.
Qed.

Lemma snap_sections_keeps_cores :
  forall tolerance g secs w,
    cores (Core.snap_sections tolerance secs w g) = cores w.
Proof.
  intros tol g secs. unfold Core.snap_sections.
  induction secs as [|s ss IH]; intros w.
  - reflexivity.
  - change (fold_left
              (fun w0 s0 => fold_left (Core.snap tol g s0) [0%nat; 1%nat] w0)
              (s :: ss) w)
      with (fold_left
              (fun w0 s0 => fold_left (Core.snap tol g s0) [0%nat; 1%nat] w0)
              ss (Core.snap tol g s (Core.snap tol g s w 0%nat) 1%nat)).
    rewrite IH, !snap_keeps_cores. reflexivity.
Qed.

Lemma snapping_keeps_cores :
  forall tolerance secs meshgrid w,
    cores (fold_left (Core.snap_sections tolerance secs) meshgrid w) = cores w.
Proof.
  intros tol secs meshgrid. induction meshgrid as [|g gs IH]; intros w; simpl.
  - reflexivity.
  - rewrite IH. apply snap_sections_keeps_cores.
Qed.

(** The shape of a successful run of [Core.meshing]. *)
Lemma meshing_run :
  forall self tolerance w,
    let secs := core_sections (cores w self) in
    let meshgrid :=
      sorted_set (Core.cluster tolerance (sorted_set (Core.bound_heights w secs))) in
    let w1 := fold_left (Core.snap_sections tolerance secs) meshgrid w in
    let w2 := set_core self (with_core_meshgrid meshgrid (cores w1 self)) w1 in
    forall lo hi,
      py_min meshgrid = Ok lo -> py_max meshgrid = Ok hi ->
      Core.meshing self tolerance w
      = (set_section (core_coolant (cores w self))
           (with_sec_bounds (lo, hi) (sections w2 (core_coolant (cores w self)))) w2,
         Ok meshgrid).
Proof.
  intros self tol w secs meshgrid w1 w2 lo hi Hlo Hhi.
  unfold Core.meshing. fold secs. fold meshgrid. fold w1. fold w2.
  rewrite Hlo, Hhi.
  assert (E : core_coolant (cores w2 self) = core_coolant (cores w self)).
  { unfold w2. simpl. unfold upd. rewrite Nat.eqb_refl. simpl.
    unfold w1. rewrite snapping_keeps_cores. reflexivity. }
  rewrite E. reflexivity.
Qed.

Lemma bound_heights_nonempty :
  forall w secs, secs <> [] -> Core.bound_heights w secs <> [].
Proof. intros w [|s secs] H; [contradiction | discriminate]. Qed.

(** A run on a core with at least one section returns the averages of the
    clusters, which are increasing. *)
Lemma meshing_returns_averages :
  forall (self : core_ref) (tolerance : Q) (w : World),
    core_sections (cores w self) <> [] ->
    let heights :=
      sorted_set (Core.bound_heights w (core_sections (cores w self))) in
    let cl := clusters tolerance heights in
    increasing (map average cl) /\
    exists w',
      Core.meshing self tolerance w = (w', Ok (map average cl)) /\
      core_meshgrid (cores w' self) = map average cl.
Proof.
  intros self tol w Hsecs heights cl.
  assert (Hh : increasing heights) by apply sorted_set_increasing.
  assert (Hne : heights <> [])
    by (apply sorted_set_nonempty, bound_heights_nonempty; exact Hsecs).
  destruct (cluster_spec tol heights Hh) as [Ec Sc]. fold cl in Ec.
  assert (Em : sorted_set (Core.cluster tol heights) = map average cl)
    by (rewrite sorted_set_fixed by exact Sc; exact Ec).
  assert (Hcl : cl <> []) by (apply clusters_nonempty; exact Hne).
  split; [rewrite <- Ec; exact Sc|].
  destruct (map average cl) as [|m ms] eqn:Em'.
  { destruct cl; [contradiction | discriminate]. }
  pose proof (meshing_run self tol w (fold_left qmin ms m) (fold_left qmax ms m)) as R.
  fold heights in R. rewrite Em in R.
  eexists. split; [apply R; reflexivity|].
  simpl. unfold upd. rewrite Nat.eqb_refl. reflexivity.
Qed.

(** ** Core.meshing: a second run *)

Lemma qsum_ge :
  forall lo s a,
    (forall y, In y s -> lo <= y)%Q ->
    (a + inject_Z (len s) * lo <= fold_left Qplus s a)%Q.
Proof.
  intros lo s. induction s as [|z s IH]; intros a H.
  - change (inject_Z (len (@nil Q))) with 0%Q. simpl. lra.
  - assert (lo <= z)%Q by (apply H; now left).
    assert (G : (a + z + inject_Z (len s) * lo <= fold_left Qplus s (a + z))%Q).
    { apply IH. intros y Hy. apply H. now right. }
    change (fold_left Qplus (z :: s) a) with (fold_left Qplus s (a + z)%Q).
    rewrite (inject_Z_len_cons z s). lra.
Qed.

Lemma qsum_le :
  forall hi s a,
    (forall y, In y s -> y <= hi)%Q ->
    (fold_left Qplus s a <= a + inject_Z (len s) * hi)%Q.
Proof.
  intros hi s. induction s as [|z s IH]; intros a H.
  - change (inject_Z (len (@nil Q))) with 0%Q. simpl. lra.
  - assert (z <= hi)%Q by (apply H; now left).
    assert (G : (fold_left Qplus s (a + z) <= a + z + inject_Z (len s) * hi)%Q).
    { apply IH. intros y Hy. apply H. now right. }
    change (fold_left Qplus (z :: s) a) with (fold_left Qplus s (a + z)%Q).
    rewrite (inject_Z_len_cons z s). lra.
Qed.

Lemma average_ge :
  forall lo x s,
    (forall y, In y (x :: s) -> lo <= y)%Q -> (lo <= average (x :: s))%Q.
Proof.
  intros lo x s H. unfold average, qsum.
  apply Qle_shift_div_l; [apply len_pos|].
  pose proof (qsum_ge lo (x :: s) 0 H). lra.
Qed.

Lemma average_le :
  forall hi x s,
    (forall y, In y (x :: s) -> y <= hi)%Q -> (average (x :: s) <= hi)%Q.
Proof.
  intros hi x s H. unfold average, qsum.
  apply Qle_shift_div_r; [apply len_pos|].
  pose proof (qsum_le hi (x :: s) 0 H). lra.
Qed.

Lemma average_single : forall h, (average [h] == h)%Q.
Proof.
  intros h. unfold average, qsum. simpl fold_left.
  change (inject_Z (len [h])) with 1%Q. field.
Qed.

(** *** Sorting keeps the heights *)

Lemma insert_uniq_in :
  forall x l y, In y (insert_uniq x l) -> y = x \/ In y l.
Proof.
  intros x l. induction l as [|z zs IH]; intros y H; simpl in H.
  - destruct H as [<- | []]. now left.
  - destruct (Qeq_bool x z); [now right|].
    destruct (Qle_bool x z).
    + destruct H as [<- | H]; [now left | now right].
    + destruct H as [<- | H]; [right; now left|].
      destruct (IH y H) as [-> | Hy]; [now left | right; now right].
Qed.

Lemma insert_uniq_QIn :
  forall x l z, (z == x)%Q \/ QIn z l -> QIn z (insert_uniq x l).
Proof.
  intros x l. induction l as [|y ys IH]; intros z H; simpl.
  - destruct H as [H | (y & [] & _)]. exists x. split; [now left | exact H].
  - destruct (Qeq_bool x y) eqn:E.
    + apply Qeq_bool_eq in E. destruct H as [H | H]; [|exact H].
      exists y. split; [now left|]. rewrite H. exact E.
    + destruct (Qle_bool x y).
      * destruct H as [H | (u & Hu & Hz)].
        -- exists x. split; [now left | exact H].
        -- exists u. split; [now right | exact Hz].
      * destruct H as [H | (u & [<- | Hu] & Hz)].
        -- destruct (IH z (or_introl H)) as (u & Hu & Hz).
           exists u. split; [now right | exact Hz].
        -- exists y. split; [now left | exact Hz].
        -- destruct (IH z (or_intror (ex_intro _ u (conj Hu Hz)))) as (v & Hv & Hz').
           exists v. split; [now right | exact Hz'].
Qed.

Lemma sorted_set_in : forall l y, In y (sorted_set l) -> In y l.
Proof.
  induction l as [|x l IH]; intros y H; simpl in H.
  - destruct H.
  - apply insert_uniq_in in H. destruct H as [-> | H]; [now left|].
    right. apply IH. exact H.
Qed.

Lemma sorted_set_QIn : forall l x, In x l -> QIn x (sorted_set l).
Proof.
  induction l as [|a l IH]; intros x H.
  - destruct H.
  - simpl. apply insert_uniq_QIn. destruct H as [<- | H].
    + left. reflexivity.
    + right. apply IH. exact H.
Qed.

(** Two increasing lists with the same heights are equal height by
    height. *)
Lemma increasing_same_members :
  forall l1 l2,
    increasing l1 -> increasing l2 ->
    (forall x, In x l1 -> QIn x l2) ->
    (forall y, In y l2 -> QIn y l1) ->
    Forall2 Qeq l1 l2.
Proof.
  induction l1 as [|a l1 IH]; intros l2 H1 H2 H12 H21.
  - destruct l2 as [|b l2]; [constructor|].
    destruct (H21 b (or_introl eq_refl)) as (y & [] & _).
  - destruct l2 as [|b l2].
    { destruct (H12 a (or_introl eq_refl)) as (y & [] & _). }
    assert (Hab : (a == b)%Q).
    { destruct (H12 a (or_introl eq_refl)) as (y & [<- | Hy] & Ey); [exact Ey|].
      destruct (H21 b (or_introl eq_refl)) as (x & [<- | Hx] & Ex);
        [symmetry; exact Ex|].
      pose proof (increasing_lt_all b l2 H2 y Hy) as L1.
      pose proof (increasing_lt_all a l1 H1 x Hx) as L2.
      rewrite <- Ey in L1. rewrite <- Ex in L2.
      exfalso. apply (Qlt_irrefl a). eapply Qlt_trans; eassumption. }
    constructor; [exact Hab|].
    apply IH.
    + apply (increasing_tail a). exact H1.
    + apply (increasing_tail b). exact H2.
    + intros x Hx. destruct (H12 x (or_intror Hx)) as (y & [<- | Hy] & Ey).
      * pose proof (increasing_lt_all a l1 H1 x Hx) as L.
        rewrite Ey, <- Hab in L. exfalso. apply (Qlt_irrefl a L).
      * exists y. split; assumption.
    + intros y Hy. destruct (H21 y (or_intror Hy)) as (x & [<- | Hx] & Ex).
      * pose proof (increasing_lt_all b l2 H2 y Hy) as L.
        rewrite Ex, Hab in L. exfalso. apply (Qlt_irrefl b L).
      * exists x. split; assumption.
Qed.

(** *** Heights more than the tolerance apart *)

Lemma apart_strong :
  forall tolerance l,
    (0 < tolerance)%Q -> apart tolerance l ->
    StronglySorted (fun a b => tolerance < b - a)%Q l.
Proof.
  intros tol l Htol H. apply Sorted_StronglySorted; [|exact H].
  intros x y z Hxy Hyz. lra.
Qed.

Lemma apart_increasing :
  forall tolerance l, (0 < tolerance)%Q -> apart tolerance l -> increasing l.
Proof.
  unfold apart, increasing. intros tol l Htol H.
  induction H as [|a l Hl IH Hhd]; constructor; [exact IH|].
  destruct Hhd; constructor. lra.
Qed.

Lemma apart_pairwise :
  forall tolerance l,
    (0 < tolerance)%Q -> apart tolerance l ->
    forall x y, In x l -> In y l -> (x == y)%Q \/ (tolerance < Qabs (x - y))%Q.
Proof.
  intros tol l Htol H. apply (apart_strong tol l Htol) in H.
  induction H as [|a l Hl IH Hall]; intros x y Hx Hy.
  - destruct Hx.
  - rewrite Forall_forall in Hall.
    destruct Hx as [<- | Hx], Hy as [<- | Hy].
    + left. reflexivity.
    + right. pose proof (Hall y Hy). rewrite Qabs_neg by lra. lra.
    + right. pose proof (Hall x Hx). rewrite Qabs_pos by lra. lra.
    + apply IH; assumption.
Qed.

Lemma apart_Qeq :
  forall tolerance l1 l2,
    Forall2 Qeq l1 l2 -> apart tolerance l2 -> apart tolerance l1.
Proof.
  unfold apart. intros tol l1 l2 H. induction H as [|a b l1 l2 Hab Hl IH]; intros S.
  - constructor.
  - inversion S as [|? ? S' Hhd]; subst. constructor; [apply IH; exact S'|].
    destruct Hl as [|a' b' l1 l2 Hab' _]; [constructor|].
    inversion Hhd; subst. constructor. rewrite Hab, Hab'. assumption.
Qed.

Lemma clusters_apart :
  forall tolerance heights,
    (0 < tolerance)%Q -> apart tolerance heights ->
    clusters tolerance heights = map (fun h => [h]) heights.
Proof.
  intros tol heights Htol H. unfold clusters.
  destruct heights as [|b hs]; [reflexivity|].
  change (clusters_from tol [] (b :: hs)) with (clusters_from tol [b] hs).
  revert b H. induction hs as [|h hs IH]; intros b H.
  - reflexivity.
  - rewrite clusters_from_unfold
      by (apply (apart_increasing tol); [exact Htol | exact H]).
    unfold apart in H. inversion H as [|? ? H' Hhd]; subst.
    inversion Hhd; subst.
    rewrite Qle_bool_false by assumption.
    simpl. f_equal. apply IH. exact H'.
Qed.

(** *** The snapping loop *)

Lemma close_to_self : forall tolerance g, Core.close_to tolerance g g = false.
Proof.
  intros tol g. unfold Core.close_to, Qltb.
  rewrite Qle_bool_true; [reflexivity|].
  apply Qabs_Qle_condition. split; lra.
Qed.

Lemma snapv_idem :
  forall tolerance b g, snapv tolerance (snapv tolerance b g) g = snapv tolerance b g.
Proof.
  intros tol b g. unfold snapv.
  destruct (Core.close_to tol g b) eqn:E.
  - rewrite close_to_self. reflexivity.
  - rewrite E. reflexivity.
Qed.

Lemma upd_same {A} (h : nat -> A) (i : nat) (v : A) : upd h i v i = v.
Proof. unfold upd. rewrite Nat.eqb_refl. reflexivity. Qed.

Lemma upd_other {A} (h : nat -> A) (i j : nat) (v : A) :
  j <> i -> upd h i v j = h j.
Proof.
  intros H. unfold upd. destruct (Nat.eqb_spec j i); [contradiction | reflexivity].
Qed.

Lemma snap_one :
  forall tolerance g s w i,
    let w' := Core.snap tolerance g s w i in
    let b := sec_bounds (sections w s) in
    (forall s', s' <> s -> sections w' s' = sections w s') /\
    sec_bounds (sections w' s)
    = Core.set_bound i (snapv tolerance (Core.bound i b) g) b.
Proof.
  intros tol g s w i. cbv zeta. unfold Core.snap, snapv.
  destruct (Core.close_to tol g (Core.bound i (sec_bounds (sections w s)))).
  - split.
    + intros s' Hs. simpl. apply upd_other. exact Hs.
    + simpl. rewrite upd_same. reflexivity.
  - split; [reflexivity|].
    destruct i, (sec_bounds (sections w s)); reflexivity.
Qed.

(** The two iterations of [for i in range(2)] on a section. *)
Lemma snap_both :
  forall tolerance g s w,
    let w' := fold_left (Core.snap tolerance g s) [0%nat; 1%nat] w in
    let b := sec_bounds (sections w s) in
    (forall s', s' <> s -> sections w' s' = sections w s') /\
    sec_bounds (sections w' s) = (snapv tolerance (fst b) g, snapv tolerance (snd b) g).
Proof.
  intros tol g s w. cbv zeta.
  change (fold_left (Core.snap tol g s) [0%nat; 1%nat] w)
    with (Core.snap tol g s (Core.snap tol g s w 0%nat) 1%nat).
  destruct (snap_one tol g s w 0%nat) as [O0 B0].
  destruct (snap_one tol g s (Core.snap tol g s w 0%nat) 1%nat) as [O1 B1].
  split.
  - intros s' Hs. rewrite (O1 s' Hs). apply O0. exact Hs.
  - rewrite B1, B0. reflexivity.
Qed.

Lemma snap_sections_step :
  forall tolerance g s ss w,
    Core.snap_sections tolerance (s :: ss) w g
    = Core.snap_sections tolerance ss
        (fold_left (Core.snap tolerance g s) [0%nat; 1%nat] w) g.
Proof. reflexivity. Qed.

Lemma snap_sections_bounds :
  forall tolerance g secs w s,
    let b := sec_bounds (sections w s) in
    sec_bounds (sections (Core.snap_sections tolerance secs w g) s)
    = if existsb (Nat.eqb s) secs
      then (snapv tolerance (fst b) g, snapv tolerance (snd b) g)
      else b.
Proof.
  intros tol g secs. induction secs as [|s0 ss IH]; intros w s.
  - reflexivity.
  - rewrite snap_sections_step. cbv zeta. rewrite IH.
    destruct (snap_both tol g s0 w) as [Ho Hs].
    simpl existsb. destruct (Nat.eqb_spec s s0) as [-> | Hne].
    + rewrite Hs. simpl orb. simpl fst; simpl snd. rewrite !snapv_idem.
      destruct (existsb (Nat.eqb s0) ss); reflexivity.
    + rewrite (Ho s Hne). reflexivity.
Qed.

Lemma snapping_bounds :
  forall tolerance secs meshgrid w s,
    In s secs ->
    let b := sec_bounds (sections w s) in
    sec_bounds (sections (fold_left (Core.snap_sections tolerance secs) meshgrid w) s)
    = (fold_left (snapv tolerance) meshgrid (fst b),
       fold_left (snapv tolerance) meshgrid (snd b)).
Proof.
  intros tol secs meshgrid. induction meshgrid as [|g gs IH]; intros w s Hin.
  - simpl. destruct (sec_bounds (sections w s)); reflexivity.
  - simpl fold_left. cbv zeta. rewrite (IH _ s Hin).
    rewrite snap_sections_bounds.
    replace (existsb (Nat.eqb s) secs) with true; [reflexivity|].
    symmetry. apply existsb_exists. exists s. split; [exact Hin | apply Nat.eqb_refl].
Qed.

Lemma snapping_other :
  forall tolerance secs meshgrid w s,
    ~ In s secs ->
    sec_bounds (sections (fold_left (Core.snap_sections tolerance secs) meshgrid w) s)
    = sec_bounds (sections w s).
Proof.
  intros tol secs meshgrid. induction meshgrid as [|g gs IH]; intros w s Hin.
  - reflexivity.
  - simpl fold_left. rewrite (IH _ s Hin). rewrite snap_sections_bounds.
    replace (existsb (Nat.eqb s) secs) with false; [reflexivity|].
    symmetry. apply not_true_is_false. intro E.
    apply existsb_exists in E. destruct E as (x & Hx & E).
    apply Nat.eqb_eq in E. subst. contradiction.
Qed.

(** A bound ends on a grid height, or was never moved because no grid
    height is close to it. *)
Lemma snapv_fold :
  forall tolerance meshgrid b,
    In (fold_left (snapv tolerance) meshgrid b) meshgrid \/
    (fold_left (snapv tolerance) meshgrid b = b /\
     forall g, In g meshgrid -> Core.close_to tolerance g b = false).
Proof.
  intros tol meshgrid. induction meshgrid as [|g gs IH]; intros b; simpl.
  - right. split; [reflexivity | intros g []].
  - destruct (IH (snapv tol b g)) as [H | [E H]].
    + left. now right.
    + unfold snapv in *. destruct (Core.close_to tol g b) eqn:C.
      * left. left. symmetry. exact E.
      * right. split; [exact E|]. intros g' [<- | Hg]; [exact C | apply H; exact Hg].
Qed.

(** When no grid height is close to a bound of the sections, the snapping
    loop changes nothing. *)
Lemma snapping_identity :
  forall tolerance secs meshgrid w,
    (forall g s, In g meshgrid -> In s secs ->
       Core.close_to tolerance g (fst (sec_bounds (sections w s))) = false /\
       Core.close_to tolerance g (snd (sec_bounds (sections w s))) = false) ->
    fold_left (Core.snap_sections tolerance secs) meshgrid w = w.
Proof.
  intros tol secs meshgrid. induction meshgrid as [|g gs IH]; intros w H.
  - reflexivity.
  - simpl fold_left.
    assert (E : Core.snap_sections tol secs w g = w).
    { assert (G : forall ss, (forall s, In s ss -> In s secs) ->
                             Core.snap_sections tol ss w g = w).
      { induction ss as [|s ss IHs]; intros Hss; [reflexivity|].
        rewrite snap_sections_step.
        destruct (H g s (or_introl eq_refl) (Hss s (or_introl eq_refl))) as [C0 C1].
        simpl fold_left. unfold Core.snap. simpl Core.bound.
        rewrite C0, C1. apply IHs. intros s' Hs'. apply Hss. now right. }
      apply G. auto. }
    rewrite E. apply IH. intros g' s Hg Hs. apply H; [now right | exact Hs].
Qed.

(** *** Minimum and maximum of the mesh *)

Lemma Qle_bool_Qeq :
  forall a a' b b', (a == a')%Q -> (b == b')%Q -> Qle_bool a b = Qle_bool a' b'.
Proof.
  intros a a' b b' Ha Hb.
  destruct (Qle_bool a b) eqn:E, (Qle_bool a' b') eqn:E'; try reflexivity.
  - apply Qle_bool_iff in E. rewrite Ha, Hb in E.
    apply Qle_bool_iff in E. congruence.
  - apply Qle_bool_iff in E'. rewrite <- Ha, <- Hb in E'.
    apply Qle_bool_iff in E'. congruence.
Qed.

Lemma qmin_Qeq :
  forall a a' b b', (a == a')%Q -> (b == b')%Q -> (qmin a b == qmin a' b')%Q.
Proof.
  intros a a' b b' Ha Hb. unfold qmin.
  rewrite (Qle_bool_Qeq a a' b b' Ha Hb). destruct (Qle_bool a' b'); assumption.
Qed.

Lemma qmax_Qeq :
  forall a a' b b', (a == a')%Q -> (b == b')%Q -> (qmax a b == qmax a' b')%Q.
Proof.
  intros a a' b b' Ha Hb. unfold qmax.
  rewrite (Qle_bool_Qeq a a' b b' Ha Hb). destruct (Qle_bool a' b'); assumption.
Qed.

Lemma fold_qmin_Qeq :
  forall l l', Forall2 Qeq l l' ->
    forall a a', (a == a')%Q -> (fold_left qmin l a == fold_left qmin l' a')%Q.
Proof.
  intros l l' H. induction H as [|x y l l' Hxy _ IH]; intros a a' Ha; simpl.
  - exact Ha.
  - apply IH. apply qmin_Qeq; assumption.
Qed.

Lemma fold_qmax_Qeq :
  forall l l', Forall2 Qeq l l' ->
    forall a a', (a == a')%Q -> (fold_left qmax l a == fold_left qmax l' a')%Q.
Proof.
  intros l l' H. induction H as [|x y l l' Hxy _ IH]; intros a a' Ha; simpl.
  - exact Ha.
  - apply IH. apply qmax_Qeq; assumption.
Qed.

Lemma fold_qmin_in : forall bs b, In (fold_left qmin bs b) (b :: bs).
Proof.
  induction bs as [|x bs IH]; intros b; simpl.
  - now left.
  - destruct (IH (qmin b x)) as [H | H].
    + unfold qmin in H at 1. destruct (Qle_bool b x).
      * left. exact H.
      * right. left. exact H.
    + right. right. exact H.
Qed.

Lemma Forall2_Qeq_trans :
  forall l1 l2 l3, Forall2 Qeq l1 l2 -> Forall2 Qeq l2 l3 -> Forall2 Qeq l1 l3.
Proof.
  intros l1 l2 l3 H. revert l3. induction H as [|a b l1 l2 Hab _ IH]; intros l3 H'.
  - inversion H'. constructor.
  - inversion H' as [|? c ? l3' Hbc Hl]; subst. constructor.
    + rewrite Hab. exact Hbc.
    + apply IH. exact Hl.
Qed.

Lemma Forall2_Qeq_in :
  forall l1 l2, Forall2 Qeq l1 l2 -> forall x, In x l1 -> QIn x l2.
Proof.
  intros l1 l2 H. induction H as [|a b l1 l2 Hab _ IH]; intros x Hx.
  - destruct Hx.
  - destruct Hx as [<- | Hx].
    + exists b. split; [now left | exact Hab].
    + destruct (IH x Hx) as (y & Hy & E). exists y. split; [now right | exact E].
Qed.

Lemma averages_of_singletons :
  forall l, Forall2 Qeq (map average (map (fun h => [h]) l)) l.
Proof.
  induction l as [|h l IH]; simpl; constructor.
  - apply average_single.
  - exact IH.
Qed.

Lemma close_to_false :
  forall tolerance g b,
    (g == b)%Q \/ (tolerance < Qabs (g - b))%Q ->
    Core.close_to tolerance g b = false.
Proof.
  intros tol g b [H | H]; unfold Core.close_to, Qltb.
  - rewrite Qle_bool_true; [reflexivity|].
    apply Qabs_Qle_condition. rewrite H. split; lra.
  - rewrite (Qle_bool_false _ _ H). apply andb_false_r.
Qed.

Lemma close_to_false_near :
  forall tolerance g b,
    Core.close_to tolerance g b = false ->
    (Qabs (g - b) <= tolerance)%Q -> (g == b)%Q.
Proof.
  intros tol g b H Hn. unfold Core.close_to, Qltb in H.
  rewrite (Qle_bool_true _ _ Hn), andb_true_r in H.
  apply negb_false_iff, Qle_bool_iff in H.
  apply Qabs_Qle_condition in H. lra.
Qed.

(** *** What a run of [Core.meshing] leaves *)

Lemma meshing_ok_sections :
  forall self tolerance w w' meshgrid,
    Core.meshing self tolerance w = (w', Ok meshgrid) ->
    core_sections (cores w self) <> [].
Proof.
  intros self tol w w' M H E. unfold Core.meshing in H. rewrite E in H.
  simpl in H. discriminate.
Qed.

Lemma meshing_ok_inv :
  forall self tolerance w w' meshgrid,
    Core.meshing self tolerance w = (w', Ok meshgrid) ->
    let secs := core_sections (cores w self) in
    let coolant := core_coolant (cores w self) in
    let w1 := fold_left (Core.snap_sections tolerance secs) meshgrid w in
    let w2 := set_core self (with_core_meshgrid meshgrid (cores w1 self)) w1 in
    meshgrid
    = sorted_set (Core.cluster tolerance (sorted_set (Core.bound_heights w secs))) /\
    exists m ms,
      meshgrid = m :: ms /\
      w' = set_section coolant
             (with_sec_bounds (fold_left qmin ms m, fold_left qmax ms m)
                              (sections w2 coolant)) w2.
Proof.
  intros self tol w w' M H. cbv zeta.
  pose proof (meshing_run self tol w) as R. cbv zeta in R.
  destruct (sorted_set
              (Core.cluster tol
                 (sorted_set (Core.bound_heights w (core_sections (cores w self))))))
    as [|m ms] eqn:EM.
  - unfold Core.meshing in H. rewrite EM in H. simpl in H. discriminate.
  - rewrite (R _ _ eq_refl eq_refl) in H. injection H as <- <-.
    split; [reflexivity|]. exists m, ms. split; reflexivity.
Qed.

Lemma heights_near_mesh :
  forall tolerance heights b,
    (0 < tolerance)%Q -> increasing heights -> QIn b heights ->
    exists g,
      In g (map average (clusters tolerance heights)) /\
      (Qabs (g - b) <= tolerance)%Q.
Proof.
  intros tol heights b Htol Hinc (y & Hy & Eb).
  destruct (clusters_from_props tol heights [] (Qlt_le_weak _ _ Htol))
    as (C & _ & F & _); [exact Hinc | intros H; contradiction |].
  fold (clusters tol heights) in C, F. simpl in C.
  rewrite <- C in Hy. apply in_concat in Hy. destruct Hy as (c & Hc & Hyc).
  rewrite Forall_forall in F. pose proof (F c Hc) as Hok.
  destruct c as [|h t]; [destruct Hyc|]. simpl in Hok.
  exists (average (h :: t)). split.
  - apply in_map. exact Hc.
  - pose proof (average_ge h h t (fun x Hx => proj1 (Hok x Hx))) as G1.
    pose proof (average_le (h + tol) h t (fun x Hx => proj2 (Hok x Hx))) as G2.
    destruct (Hok y Hyc) as [Y1 Y2].
    apply Qabs_Qle_condition. rewrite Eb. split; lra.
Qed.

Lemma in_bound_heights :
  forall w secs s,
    In s secs ->
    In (fst (sec_bounds (sections w s))) (Core.bound_heights w secs) /\
    In (snd (sec_bounds (sections w s))) (Core.bound_heights w secs).
Proof.
  intros w secs s H. unfold Core.bound_heights. split.
  - apply in_flat_map. exists s. split; [exact H | now left].
  - apply in_flat_map. exists s. split; [exact H | right; now left].
Qed.

Lemma bound_heights_inv :
  forall w secs x,
    In x (Core.bound_heights w secs) ->
    exists s, In s secs /\
      (x = fst (sec_bounds (sections w s)) \/ x = snd (sec_bounds (sections w s))).
Proof.
  intros w secs x H. unfold Core.bound_heights in H.
  apply in_flat_map in H. destruct H as (s & Hs & [<- | [<- | []]]);
    exists s; auto.
Qed.

Lemma In_QIn : forall x l, In x l -> QIn x l.
Proof. intros x l H. exists x. split; [exact H | reflexivity]. Qed.

(** After a run that returned the mesh [meshgrid], the lists of the core
    are what they were, the coolant spans the mesh, and every bound of
    every section of the core is a height of the mesh. *)
Lemma meshing_leaves_bounds_on_mesh :
  forall self tolerance w w' meshgrid,
    (0 < tolerance)%Q ->
    Core.meshing self tolerance w = (w', Ok meshgrid) ->
    core_sections (cores w' self) = core_sections (cores w self) /\
    core_coolant (cores w' self) = core_coolant (cores w self) /\
    increasing meshgrid /\
    (exists m ms,
       meshgrid = m :: ms /\
       sec_bounds (sections w' (core_coolant (cores w self)))
       = (fold_left qmin ms m, fold_left qmax ms m)) /\
    (forall s, In s (core_sections (cores w self)) ->
       QIn (fst (sec_bounds (sections w' s))) meshgrid /\
       QIn (snd (sec_bounds (sections w' s))) meshgrid).
Proof.
  intros self tol w w' M Htol H.
  pose proof (meshing_ok_sections self tol w w' M H) as Hsecs.
  destruct (meshing_ok_inv self tol w w' M H) as (EM & m & ms & EMm & Ew).
  destruct (meshing_returns_averages self tol w Hsecs) as (Inc & w'' & E & _).
  rewrite H in E. injection E as _ EM'.
  set (secs := core_sections (cores w self)) in *.
  set (coolant := core_coolant (cores w self)) in *.
  set (w1 := fold_left (Core.snap_sections tol secs) M w) in *.
  assert (Hc1 : cores w1 = cores w) by apply snapping_keeps_cores.
  assert (Hcw : cores w' self = with_core_meshgrid M (cores w self)).
  { rewrite Ew. simpl. rewrite upd_same, Hc1. reflexivity. }
  split; [rewrite Hcw; reflexivity|].
  split; [rewrite Hcw; reflexivity|].
  split; [rewrite EM'; exact Inc|].
  split.
  { exists m, ms. split; [exact EMm|]. rewrite Ew. simpl.
    rewrite upd_same. reflexivity. }
  intros s Hs.
  destruct (Nat.eq_dec s coolant) as [-> | Hne].
  - rewrite Ew. simpl. rewrite upd_same. simpl. rewrite EMm. split.
    + apply In_QIn. apply fold_qmin_in.
    + apply In_QIn. apply (fold_qmax_in ms m).
  - assert (Es : sections w' s = sections w1 s).
    { rewrite Ew. simpl. apply upd_other. exact Hne. }
    rewrite Es. unfold w1. rewrite (snapping_bounds tol secs M w s Hs).
    simpl fst; simpl snd.
    assert (G : forall b, In b (Core.bound_heights w secs) ->
                          QIn (fold_left (snapv tol) M b) M).
    { intros b Hb.
      destruct (snapv_fold tol M b) as [Hin | [Eb Hfar]].
      - apply In_QIn. exact Hin.
      - rewrite Eb.
        destruct (heights_near_mesh tol (sorted_set (Core.bound_heights w secs)) b
                    Htol (sorted_set_increasing _) (sorted_set_QIn _ _ Hb))
          as (g & Hg & Hnear).
        rewrite <- EM' in Hg.
        exists g. split; [exact Hg|]. symmetry.
        apply (close_to_false_near tol g b (Hfar g Hg) Hnear). }
    destruct (in_bound_heights w secs s Hs) as [H0 H1].
    split; apply G; assumption.
Qed.

(** *** Counting the heights *)

Lemma length_insert_uniq :
  forall x l, (length (insert_uniq x l) <= S (length l))%nat.
Proof.
  intros x l. induction l as [|y ys IH]; simpl; [lia|].
  destruct (Qeq_bool x y); [simpl; lia|].
  destruct (Qle_bool x y); simpl; lia.
Qed.

Lemma length_sorted_set : forall l, (length (sorted_set l) <= length l)%nat.
Proof.
  induction l as [|x l IH]; simpl; [lia|].
  pose proof (length_insert_uniq x (sorted_set l)). lia.
Qed.

Lemma length_set_add {A} (eqb : A -> A -> bool) (x : A) (s : list A) :
  (length (set_add eqb x s) <= S (length s))%nat.
Proof.
  unfold set_add. destruct (existsb (eqb x) s); [lia|].
  rewrite length_app. simpl. lia.
Qed.

Lemma set_add_nonempty {A} (eqb : A -> A -> bool) (x : A) (s : list A) :
  set_add eqb x s <> [].
Proof.
  unfold set_add. destruct (existsb (eqb x) s) eqn:E.
  - destruct s; [discriminate E | discriminate].
  - destruct s; discriminate.
Qed.

Lemma cluster_step_pending :
  forall tolerance st height,
    (pending (Core.cluster_step tolerance st height) <= S (pending st))%nat.
Proof.
  intros tol [mesh buf] h. unfold Core.cluster_step, pending.
  destruct buf as [|b bs].
  - simpl. lia.
  - destruct (_ && _); cbn [fst snd].
    + pose proof (set_add_nonempty Qeq_bool h (b :: bs)).
      destruct (set_add Qeq_bool h (b :: bs)); [contradiction | lia].
    + pose proof (length_set_add Qeq_bool (average (b :: bs)) mesh). lia.
Qed.

(** Whatever the arithmetic of the test and of the average, the loop
    flushes at most one average for each height. *)
Lemma length_cluster :
  forall tolerance heights,
    (length (Core.cluster tolerance heights) <= length heights)%nat.
Proof.
  intros tol heights. unfold Core.cluster.
  assert (G : forall hs st,
             (pending (fold_left (Core.cluster_step tol) hs st)
              <= length hs + pending st)%nat).
  { induction hs as [|h hs IH]; intro st; simpl; [lia|].
    pose proof (IH (Core.cluster_step tol st h)).
    pose proof (cluster_step_pending tol st h). lia. }
  specialize (G heights ([], [])).
  destruct (fold_left (Core.cluster_step tol) heights ([], [])) as [mesh buf].
  unfold pending in G. cbn [fst snd length] in G.
  destruct buf as [|b bs].
  - simpl. lia.
  - replace (0 <? len (b :: bs)) with true
      by (symmetry; apply Z.ltb_lt; unfold len; simpl length; lia).
    pose proof (length_set_add Qeq_bool (average (b :: bs)) mesh). lia.
Qed.

(** An increasing list whose heights are all heights of another
    increasing list is not longer than it. *)
Lemma increasing_incl_length :
  forall l2 l1,
    increasing l1 -> increasing l2 ->
    (forall x, In x l1 -> QIn x l2) ->
    (length l1 <= length l2)%nat.
Proof.
  induction l2 as [|b l2 IH]; intros l1 H1 H2 H.
  - destruct l1 as [|a l1]; [reflexivity|].
    destruct (H a (or_introl eq_refl)) as (y & [] & _).
  - destruct l1 as [|a l1]; [simpl; lia|].
    assert (Htail : forall x, In x l1 -> QIn x l2).
    { intros x Hx. destruct (H x (or_intror Hx)) as (y & [<- | Hy] & Ey).
      - (* x == b, and a < x: a is a height of the tail of l2, above b *)
        pose proof (increasing_lt_all a l1 H1 x Hx) as Lax.
        destruct (H a (or_introl eq_refl)) as (z & [<- | Hz] & Ez).
        + rewrite Ez, <- Ey in Lax. exfalso. apply (Qlt_irrefl x Lax).
        + pose proof (increasing_lt_all b l2 H2 z Hz) as Lbz.
          rewrite <- Ez, <- Ey in Lbz.
          exfalso. apply (Qlt_irrefl a). eapply Qlt_trans; eassumption.
      - exists y. split; assumption. }
    pose proof (IH l1 (increasing_tail a l1 H1) (increasing_tail b l2 H2) Htail).
    simpl. lia.
Qed.

Lemma apart_weaken :
  forall t t' l, (t <= t')%Q -> apart t' l -> apart t l.
Proof.
  unfold apart. intros t t' l Ht H.
  induction H as [|a l Hl IH Hhd]; constructor; [exact IH|].
  destruct Hhd; constructor. lra.
Qed.

(** C1, as the code has it. For every core with at least one section and
    every tolerance, [Core.meshing] returns a meshgrid that is not empty
    and sorted strictly increasing (the averages are collected in a set
    and sorted), and stores it as the meshgrid of the core. It has at most
    as many heights as the sections have different bounds; when these
    bounds are more than twice a positive tolerance apart, it is these
    bounds. Nothing keeps two adjacent heights of the meshgrid more than
    the tolerance apart. (The test of the loop compares a rounded
    difference with the tolerance, so that bounds barely more than one
    tolerance apart may still be merged; a distance of twice the
    tolerance is beyond the reach of the rounding.) *)
Theorem meshing_meshgrid_increasing :
  forall (self : core_ref) (tolerance : Q) (w : World),
    core_sections (cores w self) <> [] ->
    let heights :=
      sorted_set (Core.bound_heights w (core_sections (cores w self))) in
    exists w' meshgrid,
      Core.meshing self tolerance w = (w', Ok meshgrid) /\
      core_meshgrid (cores w' self) = meshgrid /\
      increasing meshgrid /\
      meshgrid <> [] /\
      (length meshgrid <= length heights)%nat /\
      ((0 < tolerance)%Q -> apart (2 * tolerance) heights ->
       Forall2 Qeq meshgrid heights).
Proof.
  intros self tol w Hsecs heights.
  destruct (meshing_returns_averages self tol w Hsecs) as (Inc & w' & E & G).
  fold heights in Inc, E, G.
  exists w', (map average (clusters tol heights)).
  split; [exact E|]. split; [exact G|]. split; [exact Inc|].
  split; [|split].
  - assert (Hne : heights <> [])
      by (apply sorted_set_nonempty, bound_heights_nonempty; exact Hsecs).
    pose proof (clusters_nonempty tol heights Hne) as Hcl.
    destruct (clusters tol heights); [contradiction | discriminate].
  - destruct (meshing_ok_inv self tol w w' _ E) as (EM & _).
    fold heights in EM. rewrite EM.
    etransitivity; [apply length_sorted_set | apply length_cluster].
  - intros Htol Hapart.
    rewrite (clusters_apart tol heights Htol);
      [apply averages_of_singletons|].
    apply (apart_weaken tol (2 * tol)); [lra | exact Hapart].
Qed.

Lemma meshing_meshgrid_increasing_witness :
  let w := fst (Core.complete 0%nat Samples.stack_world) in
  exists w' meshgrid,
    Core.meshing 0%nat (1 # 20) w = (w', Ok meshgrid) /\
    increasing meshgrid /\
    Forall2 Qeq meshgrid [-2; -1; 0; 1; 2]%Q.
Proof.
  intros w.
  destruct (meshing_meshgrid_increasing 0%nat (1 # 20) w)
    as (w' & M & E & _ & Inc & _ & _ & F).
  - vm_compute. discriminate.
  - exists w', M. split; [exact E|]. split; [exact Inc|].
    apply F; [reflexivity|].
    vm_compute. repeat constructor.
Defined.

(** C1 as stated fails: with section bounds meeting at 10, 10.08 and 10.12
    and a tolerance of 0.1, the meshgrid is [0, 10.04, 10.12, 20], whose
    second and third heights are 0.08 apart. *)
Lemma meshgrid_within_tolerance :
  let w := fst (Core.complete 0%nat Samples.near_world) in
  snd (Core.complete 0%nat Samples.near_world) = Ok tt /\
  match snd (Core.meshing 0%nat (1 # 10) w) with
  | Ok meshgrid => map Qred meshgrid = [0; 251 # 25; 253 # 25; 20]%Q
  | Raise _ => False
  end /\
  (Qabs ((253 # 25) - (251 # 25)) <= 1 # 10)%Q.
Proof.
  split; [vm_compute; reflexivity|].
  split; [vm_compute; reflexivity|].
  vm_compute. discriminate.
Qed.

(** C4, as the code has it. Take a core on which [Core.meshing] has run
    with a positive tolerance and returned a meshgrid. A second run with
    the same tolerance returns a meshgrid that is sorted strictly
    increasing and has no more heights than the first. When the adjacent
    heights of the first meshgrid are more than twice the tolerance apart
    and every one of them is still a bound of one of the core's sections,
    the second run returns the same meshgrid and changes no section
    bound. (Twice the tolerance, as the tests of both loops compare a
    rounded difference with the tolerance: heights barely more than one
    tolerance apart may still be merged or moved.) *)
Theorem meshing_twice :
  forall (self : core_ref) (tolerance : Q) (w0 w1 : World) (meshgrid : list Q),
    (0 < tolerance)%Q ->
    Core.meshing self tolerance w0 = (w1, Ok meshgrid) ->
    exists w2 meshgrid',
      Core.meshing self tolerance w1 = (w2, Ok meshgrid') /\
      increasing meshgrid' /\
      (length meshgrid' <= length meshgrid)%nat /\
      (apart (2 * tolerance) meshgrid ->
       (forall m, In m meshgrid ->
          QIn m (Core.bound_heights w1 (core_sections (cores w1 self)))) ->
       Forall2 Qeq meshgrid' meshgrid /\
       forall s,
         (fst (sec_bounds (sections w2 s)) == fst (sec_bounds (sections w1 s)))%Q /\
         (snd (sec_bounds (sections w2 s)) == snd (sec_bounds (sections w1 s)))%Q).
Proof.
  intros self tol w0 w1 M Htol H.
  destruct (meshing_leaves_bounds_on_mesh self tol w0 w1 M Htol H)
    as (Esecs & Ecool & Hinc & (m & ms & EM & Hcb) & Hon).
  pose proof (meshing_ok_sections self tol w0 w1 M H) as Hsecs.
  assert (Hsecs1 : core_sections (cores w1 self) <> [])
    by (rewrite Esecs; exact Hsecs).
  destruct (meshing_returns_averages self tol w1 Hsecs1) as (Inc2 & w2 & E2 & _).
  rewrite Esecs in *.
  set (secs := core_sections (cores w0 self)) in *.
  set (coolant := core_coolant (cores w0 self)) in *.
  set (heights := sorted_set (Core.bound_heights w1 secs)) in *.
  set (M2 := map average (clusters tol heights)) in *.
  (* the heights of the second run are heights of the mesh *)
  assert (Hsub : forall x, In x heights -> QIn x M).
  { intros x Hx. apply sorted_set_in in Hx.
    apply bound_heights_inv in Hx. destruct Hx as (s & Hs & [-> | ->]);
      apply (Hon s Hs). }
  destruct (meshing_ok_inv self tol w1 w2 M2 E2) as (EM2' & m2 & ms2 & EM2 & Ew2).
  rewrite Esecs, Ecool in Ew2. rewrite Esecs in EM2'.
  fold secs in Ew2, EM2'. fold coolant in Ew2. fold heights in EM2'.
  exists w2, M2. split; [exact E2|]. split; [exact Inc2|]. split.
  { rewrite EM2'.
    etransitivity; [apply length_sorted_set|].
    etransitivity; [apply length_cluster|].
    apply increasing_incl_length;
      [apply sorted_set_increasing | exact Hinc | exact Hsub]. }
  intros Hapart2 Hhit.
  assert (Hapart : apart tol M)
    by (apply (apart_weaken tol (2 * tol)); [lra | exact Hapart2]).
  assert (Hh : Forall2 Qeq heights M).
  { apply increasing_same_members.
    - apply sorted_set_increasing.
    - exact Hinc.
    - exact Hsub.
    - intros y Hy. destruct (Hhit y Hy) as (x & Hx & E).
      destruct (sorted_set_QIn _ _ Hx) as (z & Hz & E').
      exists z. split; [exact Hz|]. rewrite E. exact E'. }
  assert (Hha : apart tol heights) by (apply (apart_Qeq tol heights M); assumption).
  assert (HM2 : Forall2 Qeq M2 M).
  { unfold M2. rewrite (clusters_apart tol heights Htol Hha).
    apply (Forall2_Qeq_trans _ heights); [apply averages_of_singletons | exact Hh]. }
  split; [exact HM2|].
  (* no grid height is close to a bound *)
  assert (Hid : fold_left (Core.snap_sections tol secs) M2 w1 = w1).
  { apply snapping_identity. intros g s Hg Hs.
    destruct (Forall2_Qeq_in _ _ HM2 g Hg) as (g' & Hg' & Eg).
    destruct (Hon s Hs) as [(b0 & Hb0 & E0) (b1 & Hb1 & E1)].
    split; apply close_to_false.
    - destruct (apart_pairwise tol M Htol Hapart g' b0 Hg' Hb0) as [P | P].
      + left. rewrite Eg, E0. exact P.
      + right. rewrite Eg, E0. exact P.
    - destruct (apart_pairwise tol M Htol Hapart g' b1 Hg' Hb1) as [P | P].
      + left. rewrite Eg, E1. exact P.
      + right. rewrite Eg, E1. exact P. }
  rewrite Hid in Ew2.
  intros s. destruct (Nat.eq_dec s coolant) as [-> | Hne].
  - rewrite Ew2. simpl. rewrite upd_same. simpl.
    rewrite Hcb. simpl.
    rewrite EM2, EM in HM2. inversion HM2 as [|? ? ? ? Hm Hms]; subst.
    split.
    + apply fold_qmin_Qeq; assumption.
    + apply fold_qmax_Qeq; assumption.
  - rewrite Ew2. simpl. rewrite upd_other by exact Hne. split; reflexivity.
Qed.

Lemma meshing_twice_witness :
  let w0 := fst (Core.meshing 0%nat (1 # 20)
                   (fst (Core.complete 0%nat Samples.stack_world))) in
  let w1 := fst (Core.meshing 0%nat (1 # 20) w0) in
  (0 < 1 # 20)%Q /\
  Core.meshing 0%nat (1 # 20) w0 = (w1, Ok [-2; -1; 1; 2]%Q) /\
  exists w2 meshgrid',
    Core.meshing 0%nat (1 # 20) w1 = (w2, Ok meshgrid') /\
    increasing meshgrid' /\
    Forall2 Qeq meshgrid' [-2; -1; 1; 2]%Q.
Proof.
  intros w0 w1.
  assert (E : Core.meshing 0%nat (1 # 20) w0 = (w1, Ok [-2; -1; 1; 2]%Q)).
  { rewrite (surjective_pairing (Core.meshing 0%nat (1 # 20) w0)) at 1.
    apply f_equal. vm_compute. reflexivity. }
  split; [reflexivity|]. split; [exact E|].
  destruct (meshing_twice 0%nat (1 # 20) w0 w1 [-2; -1; 1; 2]%Q)
    as (w2 & M' & E2 & Inc & _ & F).
  - reflexivity.
  - exact E.
  - exists w2, M'. split; [exact E2|]. split; [exact Inc|].
    apply F.
    + unfold apart. repeat constructor.
    + intros m Hm. exists m. split; [|reflexivity].
      simpl in Hm. destruct Hm as [<- | [<- | [<- | [<- | []]]]];
        vm_compute; auto 10.
Defined.

(** C4 as stated fails, in two ways. After [complete], the coolant
    section of the stack on [(-2,-1)], [(-1,1)], [(1,2)] still has its
    initial bounds (0, 0): the first run returns [-2, -1, 0, 1, 2] and
    moves the coolant's bounds to (-2, 2), so the second returns
    [-2, -1, 1, 2]. With bounds meeting at 10, 10.08 and 10.12 the first
    run returns [0, 10.04, 10.12, 20] and moves every bound near 10 to
    10.12, so the second returns [0, 10.12, 20]. *)
Lemma second_run_differs :
  let w1 := fst (Core.complete 0%nat Samples.stack_world) in
  let w2 := fst (Core.meshing 0%nat (1 # 20) w1) in
  let n1 := fst (Core.complete 0%nat Samples.near_world) in
  let n2 := fst (Core.meshing 0%nat (1 # 10) n1) in
  snd (Core.meshing 0%nat (1 # 20) w1) = Ok [-2; -1; 0; 1; 2]%Q /\
  snd (Core.meshing 0%nat (1 # 20) w2) = Ok [-2; -1; 1; 2]%Q /\
  match snd (Core.meshing 0%nat (1 # 10) n1) with
  | Ok meshgrid => map Qred meshgrid = [0; 251 # 25; 253 # 25; 20]%Q
  | Raise _ => False
  end /\
  match snd (Core.meshing 0%nat (1 # 10) n2) with
  | Ok meshgrid => map Qred meshgrid = [0; 253 # 25; 20]%Q
  | Raise _ => False
  end.
Proof.
  vm_compute. repeat split; reflexivity.
Qed.

(** ** cormesh below the threshold *)

(** What does hold of C8: with a threshold that no layer height exceeds,
    the heights kept for the new deck are the heights read, no factor is
    added, and the cells of every assembly are unchanged. The defect is in
    the writing of the layer line alone. *)

Lemma densify_below :
  forall max_cell_height heights hs fs,
    (forall h, In h heights -> h <= max_cell_height)%Q ->
    fold_left (Cormesh.densify_step max_cell_height) heights (hs, fs)
    = (hs ++ heights, fs ++ map (fun _ => 0) heights).
Proof.
  intros mx heights. induction heights as [|h t IH]; intros hs fs H; simpl.
  - rewrite !app_nil_r. reflexivity.
  - rewrite Qle_bool_true by (apply H; now left).
    rewrite IH by (intros x Hx; apply H; now right).
    rewrite <- !app_assoc. reflexivity.
Qed.

Lemma sumZ_zeros :
  forall l, Forall (fun x => x = 0) l -> sumZ l = 0.
Proof.
  unfold sumZ. intros l H. induction H as [|x l -> _ IH]; simpl; auto.
Qed.

Lemma slice_zeros :
  forall {A} (l : list A) n, sumZ (slice_to (map (fun _ => 0) l) n) = 0.
Proof.
  intros A l n. apply sumZ_zeros. unfold slice_to.
  apply Forall_forall. intros x Hx.
  match type of Hx with
  | In _ (firstn ?k ?zs) =>
      assert (Hin : In x zs)
        by (rewrite <- (firstn_skipn k zs); apply in_or_app; left; exact Hx)
  end.
  apply in_map_iff in Hin. destruct Hin as (y & <- & _). reflexivity.
Qed.

Lemma write_run_zero :
  forall {A} (hs : list A) cnt out num mat,
    Cormesh.write_run (map (fun _ => 0) hs) (cnt, out) (num, mat)
    = (cnt + num, out ++ [if 1 <? num then Times num mat else Single mat]).
Proof.
  intros A hs cnt out num mat. unfold Cormesh.write_run.
  rewrite !slice_zeros. reflexivity.
Qed.

Lemma write_runs_zero :
  forall {A} (hs : list A) ids cnt out,
    Forall counted ids ->
    expand (snd (fold_left (Cormesh.write_run (map (fun _ => 0) hs))
                   (map Cormesh.run ids) (cnt, out)))
    = expand out ++ expand ids.
Proof.
  intros A hs ids. induction ids as [|t ids IH]; intros cnt out H.
  - simpl. rewrite app_nil_r. reflexivity.
  - inversion H as [|? ? Ht Hids]; subst.
    cbn [map fold_left].
    destruct (Cormesh.run t) as [num mat] eqn:Er.
    rewrite write_run_zero, IH by exact Hids.
    rewrite expand_snoc, <- app_assoc. f_equal.
    change (expand (t :: ids)) with (tok_expand t ++ expand ids). f_equal.
    destruct t as [v | n v]; simpl in Er; injection Er as <- <-.
    + reflexivity.
    + simpl in Ht. destruct (Z.ltb_spec 1 n); [reflexivity|].
      assert (n = 1) by lia. subst. reflexivity.
Qed.

Lemma read_fa_runs :
  forall src hl fa,
    snd (fold_left Cormesh.read_step src (hl, fa)) = fa ++ fa_runs src.
Proof.
  induction src as [|l src IH]; intros hl fa; simpl.
  - rewrite app_nil_r. reflexivity.
  - destruct l; simpl; rewrite IH; [reflexivity | | reflexivity].
    rewrite <- app_assoc. reflexivity.
Qed.

Lemma getitem_middle {A} (pre post : list A) (x : A) :
  getitem (pre ++ x :: post) (len pre) = Ok x.
Proof.
  rewrite (getitem_nth _ _ x).
  - unfold len. rewrite Nat2Z.id, app_nth2, Nat.sub_diag by lia. reflexivity.
  - unfold len. rewrite length_app. simpl. lia.
Qed.

Lemma write_keeps_cells :
  forall {A} (zs : list A) dense src pre,
    Forall (fun l => match l with
                     | FA_type _ ids => Forall counted ids
                     | _ => True
                     end) src ->
    exists out,
      Cormesh.write dense (map (fun _ => 0) zs) (pre ++ fa_runs src)
                    (len pre - 1) src = Ok out /\
      Cormesh.deck_cells out = Cormesh.deck_cells src.
Proof.
  intros A zs dense src. induction src as [|l src IH]; intros pre H.
  - exists []. split; reflexivity.
  - inversion H as [|? ? Hl Hsrc]; subst. destruct l as [num hs | id ids | text].
    + destruct (IH pre Hsrc) as (out & E & C). simpl in *.
      rewrite E. simpl. eexists. split; [reflexivity | exact C].
    + simpl fa_runs. simpl Cormesh.write.
      replace (len pre - 1 + 1) with (len pre) by lia.
      rewrite getitem_middle. simpl rbind.
      destruct (IH (pre ++ [map Cormesh.run ids]) Hsrc) as (out & E & C).
      rewrite <- app_assoc in E. simpl in E.
      replace (len (pre ++ [map Cormesh.run ids]) - 1) with (len pre) in E
        by (unfold len; rewrite length_app; simpl; lia).
      rewrite E. simpl. eexists. split; [reflexivity|].
      simpl. rewrite C. f_equal.
      rewrite (write_runs_zero zs ids 0 [] Hl). reflexivity.
    + destruct (IH pre Hsrc) as (out & E & C). simpl in *.
      rewrite E. simpl. eexists. split; [reflexivity | exact C].
Qed.

Lemma plain_heights :
  forall max_cell_height entries,
    Forall (plain_below max_cell_height) entries ->
    exists heights,
      rmapM Cormesh.float entries = Ok heights /\
      (forall h, In h heights -> h <= max_cell_height)%Q.
Proof.
  intros mx entries H. induction H as [|t ts Ht _ (hs & E & B)].
  - exists []. split; [reflexivity | intros h []].
  - destruct t as [h | n h]; [|destruct Ht]. exists (h :: hs). simpl.
    rewrite E. split; [reflexivity|].
    intros x [<- | Hx]; [exact Ht | apply B; exact Hx].
Qed.

Lemma cormesh_keeps_cells :
  forall src max_cell_height entries,
    (0 < max_cell_height)%Q ->
    fst (fold_left Cormesh.read_step src (None, [])) = Some entries ->
    Forall (plain_below max_cell_height) entries ->
    Forall (fun l => match l with
                     | FA_type _ ids => Forall counted ids
                     | _ => True
                     end) src ->
    exists out,
      Cormesh.cormesh (Some src) max_cell_height = Ok out /\
      Cormesh.deck_cells out = Cormesh.deck_cells src.
Proof.
  intros src mx entries Hmx Hread Hplain Hsrc.
  unfold Cormesh.cormesh. rewrite Qle_bool_false by exact Hmx.
  pose proof (read_fa_runs src None []) as Hfa.
  destruct (fold_left Cormesh.read_step src (None, [])) as [hl fa].
  simpl in Hread, Hfa. subst hl fa.
  destruct (plain_heights mx entries Hplain) as (heights & E & B).
  rewrite E. simpl rbind. rewrite (densify_below mx heights [] [] B).
  simpl app.
  apply (write_keeps_cells heights heights src [] Hsrc).
Qed.

(** A run on a sample world returns what its second component computes
    to. *)
Ltac run_returns :=
  match goal with
  | |- ?p = (_, _) =>
      rewrite (surjective_pairing p) at 1; apply f_equal; vm_compute; reflexivity
  end.

(* ================================================================== *)
(** * Further properties: cormesh.py *)
(* ================================================================== *)

Lemma sumZ_shift : forall l a, fold_left Z.add l a = a + sumZ l.
Proof.
  unfold sumZ. induction l as [|x l IH]; intro a; simpl; [lia|].
  rewrite (IH (a + x)), (IH x). lia.
Qed.

Lemma sumZ_cons : forall x l, sumZ (x :: l) = x + sumZ l.
Proof. intros x l. unfold sumZ at 1. simpl. apply sumZ_shift. Qed.

Lemma sumZ_app : forall l1 l2, sumZ (l1 ++ l2) = sumZ l1 + sumZ l2.
Proof.
  induction l1 as [|x l1 IH]; intro l2; [reflexivity|].
  simpl app. rewrite !sumZ_cons, IH. lia.
Qed.

Lemma sumZ_nonneg : forall l, Forall (fun f => 0 <= f) l -> 0 <= sumZ l.
Proof.
  intros l H. induction H as [|x l Hx _ IH]; [reflexivity|].
  rewrite sumZ_cons. lia.
Qed.

Lemma slice_to_firstn {A} (l : list A) (n : Z) :
  0 <= n -> slice_to l n = firstn (Z.to_nat n) l.
Proof.
  intro H. unfold slice_to.
  destruct (Z.ltb_spec n 0); [lia | reflexivity].
Qed.

(** [sum(factors[:cnt+num]) - sum(factors[:cnt])] is the sum of the
    [num] factors from [cnt] on. *)
Lemma slice_difference :
  forall (fs : list Z) cnt num,
    0 <= cnt -> 0 <= num ->
    sumZ (slice_to fs (cnt + num)) - sumZ (slice_to fs cnt)
    = sumZ (firstn (Z.to_nat num) (skipn (Z.to_nat cnt) fs)).
Proof.
  intros fs cnt num Hc Hn.
  rewrite !slice_to_firstn by lia.
  rewrite Z2Nat.inj_add by lia.
  rewrite firstn_skipn_comm.
  rewrite <- (firstn_skipn (Z.to_nat cnt)
                (firstn (Z.to_nat cnt + Z.to_nat num) fs)) at 1.
  rewrite sumZ_app, firstn_firstn.
  replace (Init.Nat.min (Z.to_nat cnt) (Z.to_nat cnt + Z.to_nat num))
    with (Z.to_nat cnt) by lia.
  lia.
Qed.

Lemma refine_nil : forall cells, refine [] cells = cells.
Proof. destruct cells; reflexivity. Qed.

(** A run of [num] equal cells is written [num] plus the sum of its
    factors times. *)
Lemma refine_run :
  forall (num : nat) fs mat rest,
    Forall (fun f => 0 <= f) fs ->
    refine fs (repeat mat num ++ rest)
    = repeat mat (num + Z.to_nat (sumZ (firstn num fs)))
      ++ refine (skipn num fs) rest.
Proof.
  induction num as [|num IH]; intros fs mat rest H.
  - reflexivity.
  - destruct fs as [|f fs].
    + simpl firstn. simpl skipn. rewrite !refine_nil.
      change (sumZ []) with 0. simpl Z.to_nat. rewrite Nat.add_0_r.
      reflexivity.
    + inversion H as [|? ? Hf Hfs]; subst.
      cbn [repeat app refine firstn skipn].
      rewrite (IH fs mat rest Hfs), sumZ_cons, app_assoc, <- repeat_app.
      pose proof (sumZ_nonneg (firstn num fs)) as Hs.
      assert (0 <= sumZ (firstn num fs)).
      { apply Hs. apply Forall_forall. intros x Hx.
        rewrite Forall_forall in Hfs. apply Hfs.
        rewrite <- (firstn_skipn num fs). apply in_or_app. now left. }
      f_equal. f_equal. lia.
Qed.

Lemma skipn_skipn' {A} (a b : nat) (l : list A) :
  skipn a (skipn b l) = skipn (b + a) l.
Proof.
  revert l. induction b as [|b IH]; intro l; [reflexivity|].
  destruct l; simpl; [now destruct a | apply IH].
Qed.

Lemma write_runs_refine :
  forall fs ids cnt out,
    Forall (fun f => 0 <= f) fs ->
    Forall counted ids ->
    0 <= cnt ->
    expand (snd (fold_left (Cormesh.write_run fs)
                   (map Cormesh.run ids) (cnt, out)))
    = expand out ++ refine (skipn (Z.to_nat cnt) fs) (expand ids).
Proof.
  intros fs ids. induction ids as [|t ids IH]; intros cnt out Hfs H Hc.
  - simpl. symmetry. apply app_nil_r.
  - inversion H as [|? ? Ht Hids]; subst.
    cbn [map fold_left].
    assert (Hrun : exists num mat,
               Cormesh.run t = (num, mat) /\ 1 <= num /\
               tok_expand t = repeat mat (Z.to_nat num)).
    { destruct t as [v | n v]; simpl in *.
      - exists 1, v. split; [reflexivity | split; [lia | reflexivity]].
      - exists n, v. split; [reflexivity | split; [exact Ht | reflexivity]]. }
    destruct Hrun as (num & mat & Er & Hnum & Ex). rewrite Er.
    unfold Cormesh.write_run at 2.
    rewrite slice_difference by lia.
    set (F := sumZ (firstn (Z.to_nat num) (skipn (Z.to_nat cnt) fs))).
    assert (HF : 0 <= F).
    { apply sumZ_nonneg. apply Forall_forall. intros x Hx.
      rewrite Forall_forall in Hfs. apply Hfs.
      rewrite <- (firstn_skipn (Z.to_nat cnt) fs). apply in_or_app. right.
      rewrite <- (firstn_skipn (Z.to_nat num) (skipn (Z.to_nat cnt) fs)).
      apply in_or_app. now left. }
    rewrite IH by (assumption || lia).
    rewrite expand_snoc, <- app_assoc. f_equal.
    change (expand (t :: ids)) with (tok_expand t ++ expand ids).
    rewrite Ex, refine_run.
    2:{ apply Forall_forall. intros x Hx. rewrite Forall_forall in Hfs.
        apply Hfs. rewrite <- (firstn_skipn (Z.to_nat cnt) fs).
        apply in_or_app. now right. }
    fold F. rewrite skipn_skipn', Z2Nat.inj_add by lia.
    f_equal.
    assert (E : (if 0 <? F then num + F else num) = num + F)
      by (destruct (Z.ltb_spec 0 F); lia).
    rewrite E.
    destruct (Z.ltb_spec 1 (num + F)) as [Hgt | Hle]; simpl.
    + f_equal. lia.
    + assert (num = 1 /\ F = 0) as [-> ->] by lia. reflexivity.
Qed.


Lemma densify_fold :
  forall max_cell_height heights hs fs,
    fold_left (Cormesh.densify_step max_cell_height) heights (hs, fs)
    = (hs ++ flat_map (dense_of max_cell_height) heights,
       fs ++ map (factor_of max_cell_height) heights).
Proof.
  intros mx heights. induction heights as [|h t IH]; intros hs fs.
  - simpl. rewrite !app_nil_r. reflexivity.
  - cbn [fold_left flat_map map].
    assert (E : Cormesh.densify_step mx (hs, fs) h
                = (hs ++ dense_of mx h, fs ++ [factor_of mx h])).
    { unfold Cormesh.densify_step, dense_of, factor_of.
      destruct (Qle_bool h mx); reflexivity. }
    rewrite E, IH, <- !app_assoc. reflexivity.
Qed.

(** Above a positive threshold [ceil(height / max_cell_height)] is at
    least 2. *)
Lemma ceiling_above :
  forall max_cell_height height,
    (0 < max_cell_height)%Q ->
    Qle_bool height max_cell_height = false ->
    2 <= Qceiling (height / max_cell_height).
Proof.
  intros mx h Hmx Hle. apply Qle_bool_false_inv in Hle.
  assert (H1 : (1 < h / mx)%Q).
  { apply Qlt_shift_div_l; [exact Hmx | lra]. }
  pose proof (Qle_ceiling (h / mx)) as Hc.
  assert (H2 : (inject_Z 1 < inject_Z (Qceiling (h / mx)))%Q).
  { change (inject_Z 1) with 1%Q. lra. }
  rewrite <- Zlt_Qlt in H2. lia.
Qed.

Lemma factor_of_nonneg :
  forall max_cell_height height,
    (0 < max_cell_height)%Q -> 0 <= factor_of max_cell_height height.
Proof.
  intros mx h Hmx. unfold factor_of.
  destruct (Qle_bool h mx) eqn:E; [lia|].
  pose proof (ceiling_above mx h Hmx E). lia.
Qed.

Lemma factors_nonneg :
  forall max_cell_height heights,
    (0 < max_cell_height)%Q ->
    Forall (fun f => 0 <= f) (map (factor_of max_cell_height) heights).
Proof.
  intros mx hs Hmx. apply Forall_forall. intros f Hf.
  apply in_map_iff in Hf. destruct Hf as (h & <- & _).
  apply factor_of_nonneg. exact Hmx.
Qed.

Lemma length_dense_of :
  forall max_cell_height height,
    (0 < max_cell_height)%Q ->
    len (dense_of max_cell_height height) = 1 + factor_of max_cell_height height.
Proof.
  intros mx h Hmx. unfold dense_of, factor_of, len.
  destruct (Qle_bool h mx) eqn:E; [reflexivity|].
  pose proof (ceiling_above mx h Hmx E).
  rewrite repeat_length. lia.
Qed.

Lemma length_dense :
  forall max_cell_height heights,
    (0 < max_cell_height)%Q ->
    len (flat_map (dense_of max_cell_height) heights)
    = len heights + sumZ (map (factor_of max_cell_height) heights).
Proof.
  intros mx hs Hmx. induction hs as [|h hs IH]; [reflexivity|].
  cbn [flat_map map]. rewrite sumZ_cons.
  pose proof (length_dense_of mx h Hmx) as Hh.
  unfold len in *. rewrite length_app. cbn [length]. lia.
Qed.

Lemma length_refine :
  forall fs cells,
    Forall (fun f => 0 <= f) fs ->
    length cells = length fs ->
    len (refine fs cells) = len cells + sumZ fs.
Proof.
  intros fs cells H. revert cells.
  induction H as [|f fs Hf _ IH]; intros cells Hlen.
  - destruct cells; [reflexivity | discriminate].
  - destruct cells as [|c cells]; [discriminate|].
    injection Hlen as Hlen. cbn [refine]. rewrite sumZ_cons.
    specialize (IH cells Hlen). unfold len in *.
    rewrite length_app, repeat_length. cbn [length]. lia.
Qed.

(** The second pass writes every line, the cells of each assembly
    refined by the factors. *)
Lemma write_refines_cells :
  forall fs dense src pre,
    Forall (fun f => 0 <= f) fs ->
    Forall (fun l => match l with
                     | FA_type _ ids => Forall counted ids
                     | _ => True
                     end) src ->
    exists out,
      Cormesh.write dense fs (pre ++ fa_runs src) (len pre - 1) src = Ok out /\
      Cormesh.deck_cells out = map (refine fs) (Cormesh.deck_cells src) /\
      Forall (fun l => match l with
                       | Layer n hs =>
                           n = len dense /\ hs = Cormesh.print_list dense
                       | _ => True
                       end) out.
Proof.
  intros fs dense src. induction src as [|l src IH]; intros pre Hfs H.
  - exists []. repeat split. constructor.
  - inversion H as [|? ? Hl Hsrc]; subst. destruct l as [num hs | id ids | text].
    + destruct (IH pre Hfs Hsrc) as (out & E & C & L). simpl in *.
      rewrite E. simpl. eexists. split; [reflexivity|]. split; [exact C|].
      constructor; [split; reflexivity | exact L].
    + simpl fa_runs. simpl Cormesh.write.
      replace (len pre - 1 + 1) with (len pre) by lia.
      rewrite getitem_middle. simpl rbind.
      destruct (IH (pre ++ [map Cormesh.run ids]) Hfs Hsrc) as (out & E & C & L).
      rewrite <- app_assoc in E. simpl in E.
      replace (len (pre ++ [map Cormesh.run ids]) - 1) with (len pre) in E
        by (unfold len; rewrite length_app; simpl; lia).
      rewrite E. simpl. eexists. split; [reflexivity|]. split.
      * simpl. rewrite C. f_equal.
        rewrite (write_runs_refine fs ids 0 [] Hfs Hl) by lia. reflexivity.
      * constructor; [exact I | exact L].
    + destruct (IH pre Hfs Hsrc) as (out & E & C & L). simpl in *.
      rewrite E. simpl. eexists. split; [reflexivity|]. split; [exact C|].
      constructor; [exact I | exact L].
Qed.

Lemma uncompressed_heights :
  forall entries,
    Forall uncompressed entries ->
    exists heights,
      rmapM Cormesh.float entries = Ok heights /\
      entries = map HSingle heights.
Proof.
  intros entries H. induction H as [|t ts Ht _ (hs & E & B)].
  - exists []. split; reflexivity.
  - destruct t as [h | n h]; [|destruct Ht]. exists (h :: hs). simpl.
    rewrite E. split; [reflexivity | rewrite B; reflexivity].
Qed.

(** The factor of a layer is 0 when the layer is not above the threshold
    and at least 1 when it is. *)
Lemma factor_of_cases :
  forall max_cell_height height,
    (0 < max_cell_height)%Q ->
    ((height <= max_cell_height)%Q -> factor_of max_cell_height height = 0) /\
    ((max_cell_height < height)%Q -> 1 <= factor_of max_cell_height height).
Proof.
  intros mx h Hmx. unfold factor_of. split; intro H.
  - rewrite Qle_bool_true by exact H. reflexivity.
  - rewrite Qle_bool_false by exact H.
    pose proof (ceiling_above mx h Hmx (Qle_bool_false _ _ H)). lia.
Qed.

(** X1: [cormesh] writes the cells of every assembly with cell [i] repeated
    [1 + factors[i]] times, for a list of factors, one for each layer,
    that is the same for all assemblies: the factor of a layer that is
    not above the threshold is 0, and the factor of a layer above it is
    at least 1. *)
Theorem cormesh_refines_cells :
  forall src max_cell_height heights,
    (0 < max_cell_height)%Q ->
    fst (fold_left Cormesh.read_step src (None, []))
    = Some (map HSingle heights) ->
    Forall (fun l => match l with
                     | FA_type _ ids => Forall counted ids
                     | _ => True
                     end) src ->
    exists out factors,
      Cormesh.cormesh (Some src) max_cell_height = Ok out /\
      Forall2 (fun height factor =>
                 ((height <= max_cell_height)%Q -> factor = 0) /\
                 ((max_cell_height < height)%Q -> 1 <= factor))
              heights factors /\
      Cormesh.deck_cells out = map (refine factors) (Cormesh.deck_cells src).
Proof.
  intros src mx heights Hmx Hread Hsrc.
  unfold Cormesh.cormesh. rewrite Qle_bool_false by exact Hmx.
  pose proof (read_fa_runs src None []) as Hfa.
  destruct (fold_left Cormesh.read_step src (None, [])) as [hl fa].
  simpl in Hread, Hfa. subst hl fa.
  destruct (uncompressed_heights (map HSingle heights)) as (hs & E & B).
  { apply Forall_forall. intros t Ht. apply in_map_iff in Ht.
    destruct Ht as (h & <- & _). exact I. }
  assert (hs = heights) as ->.
  { clear - B. revert hs B. induction heights as [|h t IH]; intros [|x xs] B;
      try discriminate; [reflexivity|].
    injection B as -> B. f_equal. apply IH. exact B. }
  rewrite E. simpl rbind. rewrite densify_fold. simpl app.
  destruct (write_refines_cells (map (factor_of mx) heights)
              (flat_map (dense_of mx) heights) src []
              (factors_nonneg mx heights Hmx) Hsrc) as (out & Eo & C & _).
  exists out, (map (factor_of mx) heights).
  split; [exact Eo|]. split; [|exact C].
  clear - Hmx.
  induction heights as [|h t IH]; simpl; constructor;
    [apply factor_of_cases; exact Hmx | exact IH].
Qed.


Lemma sumZ_factors_zero :
  forall max_cell_height heights,
    (0 < max_cell_height)%Q ->
    (sumZ (map (factor_of max_cell_height) heights) = 0
     <-> Forall (fun h => h <= max_cell_height)%Q heights).
Proof.
  intros mx hs Hmx. induction hs as [|h hs IH].
  - split; [constructor | reflexivity].
  - cbn [map]. rewrite sumZ_cons.
    pose proof (factor_of_nonneg mx h Hmx) as H0.
    pose proof (sumZ_nonneg _ (factors_nonneg mx hs Hmx)) as H1.
    destruct (factor_of_cases mx h Hmx) as (Hle & Hgt).
    split.
    + intro H. assert (Eh : factor_of mx h = 0) by lia.
      constructor; [|apply IH; lia].
      destruct (Qlt_le_dec mx h) as [L | L]; [|exact L].
      specialize (Hgt L). lia.
    + intro H. inversion H as [|? ? Hh Hhs]; subst.
      rewrite (Hle Hh), (proj2 IH Hhs). reflexivity.
Qed.

(** X2: a deck whose assembly lines all have one cell per layer is written
    as such a deck: the count of the new layer line is the number of
    cells of every assembly line written. This count is not below the
    old one, and it is the old one exactly when no layer is above the
    threshold. *)
Theorem cormesh_keeps_deck_consistent :
  forall src max_cell_height heights,
    (0 < max_cell_height)%Q ->
    fst (fold_left Cormesh.read_step src (None, []))
    = Some (map HSingle heights) ->
    Forall (fun l => match l with
                     | FA_type _ ids =>
                         Forall counted ids /\
                         length (expand ids) = length heights
                     | _ => True
                     end) src ->
    exists out n,
      Cormesh.cormesh (Some src) max_cell_height = Ok out /\
      len heights <= n /\
      (n = len heights <-> Forall (fun h => h <= max_cell_height)%Q heights) /\
      Forall (fun l =>
                match l with
                | Layer num _ => num = n
                | FA_type _ ids => len (expand ids) = n
                | Other _ => True
                end) out.
Proof.
  intros src mx heights Hmx Hread Hsrc.
  unfold Cormesh.cormesh. rewrite Qle_bool_false by exact Hmx.
  pose proof (read_fa_runs src None []) as Hfa.
  destruct (fold_left Cormesh.read_step src (None, [])) as [hl fa].
  simpl in Hread, Hfa. subst hl fa.
  destruct (uncompressed_heights (map HSingle heights)) as (hs & E & B).
  { apply Forall_forall. intros t Ht. apply in_map_iff in Ht.
    destruct Ht as (h & <- & _). exact I. }
  assert (hs = heights) as ->.
  { clear - B. revert hs B. induction heights as [|h t IH]; intros [|x xs] B;
      try discriminate; [reflexivity|].
    injection B as -> B. f_equal. apply IH. exact B. }
  rewrite E. simpl rbind. rewrite densify_fold. simpl app.
  pose proof (factors_nonneg mx heights Hmx) as Hfs.
  destruct (write_refines_cells (map (factor_of mx) heights)
              (flat_map (dense_of mx) heights) src [] Hfs) as (out & Eo & C & L).
  { apply Forall_forall. intros l Hl. rewrite Forall_forall in Hsrc.
    specialize (Hsrc l Hl). destruct l; [exact I | apply Hsrc | exact I]. }
  exists out, (len heights + sumZ (map (factor_of mx) heights)).
  split; [exact Eo|]. split; [|split].
  { pose proof (sumZ_nonneg _ Hfs). lia. }
  { rewrite <- (sumZ_factors_zero mx heights Hmx). lia. }
  apply Forall_forall. intros l Hl. destruct l as [n hs | id ids | text];
    [| | exact I].
  - rewrite Forall_forall in L. destruct (L _ Hl) as [-> _].
    apply length_dense. exact Hmx.
  - assert (Hin : In (expand ids) (Cormesh.deck_cells out)).
    { unfold Cormesh.deck_cells. apply in_flat_map.
      exists (FA_type id ids). split; [exact Hl | now left]. }
    rewrite C in Hin. apply in_map_iff in Hin.
    destruct Hin as (cells & <- & Hcells).
    unfold Cormesh.deck_cells in Hcells. apply in_flat_map in Hcells.
    destruct Hcells as (l0 & Hl0 & Hc).
    rewrite Forall_forall in Hsrc. specialize (Hsrc l0 Hl0).
    destruct l0 as [? ? | id0 ids0 | ?]; try contradiction.
    destruct Hc as [<- | []]. destruct Hsrc as [_ Hlen].
    rewrite length_refine; [| exact Hfs | rewrite length_map; exact Hlen].
    unfold len. rewrite Hlen. reflexivity.
Qed.

(** ** The heights written *)

Lemma round_half_even_le :
  forall (y : Q) (N : Z), (y <= inject_Z N)%Q -> round_half_even y <= N.
Proof.
  intros y N H. unfold round_half_even.
  pose proof (Qfloor_le y) as Hf.
  assert (HfN : Qfloor y <= N).
  { rewrite <- (Qfloor_Z N). apply Qfloor_resp_le. exact H. }
  destruct (Z.eq_dec (Qfloor y) N) as [E | NE].
  - assert (Hr : Qltb (y - inject_Z (Qfloor y)) (1 # 2) = true).
    { unfold Qltb. rewrite Qle_bool_false; [reflexivity|].
      rewrite E in *. lra. }
    rewrite Hr. exact HfN.
  - destruct (Qltb _ _); [lia|]. destruct (Qltb _ _); [lia|].
    destruct (Z.even _); lia.
Qed.

Lemma round4_le :
  forall (y mx : Q) (N : Z),
    (mx * 10000 == inject_Z N)%Q -> (y <= mx)%Q -> (round4 y <= mx)%Q.
Proof.
  intros y mx N HN Hy. unfold round4.
  assert (H : round_half_even (y * 10000) <= N).
  { apply round_half_even_le. rewrite <- HN. lra. }
  rewrite Zle_Qle in H.
  apply Qle_shift_div_r; [reflexivity|]. rewrite HN. exact H.
Qed.

Lemma dense_of_le :
  forall max_cell_height (N : Z) height,
    (0 < max_cell_height)%Q ->
    (max_cell_height * 10000 == inject_Z N)%Q ->
    Forall (fun h => h <= max_cell_height)%Q (dense_of max_cell_height height).
Proof.
  intros mx N h Hmx HN. unfold dense_of.
  destruct (Qle_bool h mx) eqn:E.
  - constructor; [apply Qle_bool_iff; exact E | constructor].
  - apply Forall_forall. intros x Hx. apply repeat_spec in Hx. subst x.
    apply (round4_le _ mx N HN).
    pose proof (ceiling_above mx h Hmx E) as Hc.
    pose proof (Qle_ceiling (h / mx)) as Hu.
    assert (Hpos : (0 < inject_Z (Qceiling (h / mx)))%Q).
    { change 0%Q with (inject_Z 0). rewrite <- Zlt_Qlt. lia. }
    apply Qle_shift_div_r; [exact Hpos|].
    assert (H1 : (h == h / mx * mx)%Q) by (field; lra).
    rewrite H1 at 1. rewrite (Qmult_comm mx).
    apply Qmult_le_compat_r; [exact Hu | lra].
Qed.

(** X3: with a positive threshold that is a multiple of 0.0001, no height
    kept for the new layer line is above the threshold. *)
Theorem dense_heights_within_threshold :
  forall max_cell_height (N : Z) heights,
    (0 < max_cell_height)%Q ->
    (max_cell_height * 10000 == inject_Z N)%Q ->
    Forall (fun h => h <= max_cell_height)%Q
      (fst (fold_left (Cormesh.densify_step max_cell_height) heights ([], []))).
Proof.
  intros mx N heights Hmx HN. rewrite densify_fold. simpl.
  induction heights as [|h t IH]; [constructor|].
  cbn [flat_map]. apply Forall_app. split; [|exact IH].
  apply (dense_of_le mx N h Hmx HN).
Qed.

Lemma dense_heights_within_threshold_witness :
  Forall (fun h => h <= 1 # 10)%Q
    (fst (fold_left (Cormesh.densify_step (1 # 10)) [1 # 4; 1 # 20] ([], []))).
Proof.
  apply (dense_heights_within_threshold (1 # 10) 1000 [1 # 4; 1 # 20]);
    reflexivity.
Defined.


Lemma cormesh_refines_cells_witness :
  exists out factors,
    Cormesh.cormesh (Some Samples.coarse_deck) (1 # 10) = Ok out /\
    Forall2 (fun height factor =>
               ((height <= 1 # 10)%Q -> factor = 0) /\
               ((1 # 10 < height)%Q -> 1 <= factor))
            [1 # 4; 1 # 20; 3 # 10]%Q factors /\
    Cormesh.deck_cells out
    = map (refine factors) (Cormesh.deck_cells Samples.coarse_deck).
Proof.
  apply (cormesh_refines_cells Samples.coarse_deck (1 # 10)
           [1 # 4; 1 # 20; 3 # 10]).
  - reflexivity.
  - reflexivity.
  - repeat constructor; simpl; lia.
Defined.

Lemma cormesh_keeps_deck_consistent_witness :
  exists out n,
    Cormesh.cormesh (Some Samples.coarse_deck) (1 # 10) = Ok out /\
    len [1 # 4; 1 # 20; 3 # 10]%Q <= n /\
    (n = len [1 # 4; 1 # 20; 3 # 10]%Q
     <-> Forall (fun h => h <= 1 # 10)%Q [1 # 4; 1 # 20; 3 # 10]%Q) /\
    Forall (fun l =>
              match l with
              | Layer num _ => num = n
              | FA_type _ ids => len (expand ids) = n
              | Other _ => True
              end) out.
Proof.
  apply (cormesh_keeps_deck_consistent Samples.coarse_deck (1 # 10)
           [1 # 4; 1 # 20; 3 # 10]).
  - reflexivity.
  - reflexivity.
  - repeat constructor; simpl; lia.
Defined.

(** ** The layer line *)

Lemma last_cons {A} (x d : A) (l : list A) : last (x :: l) d = last l x.
Proof.
  revert x d. induction l as [|y l IH]; intros x d; [reflexivity|].
  change (last (x :: y :: l) d) with (last (y :: l) d).
  rewrite !(IH y). reflexivity.
Qed.

Lemma hexpand_snoc :
  forall l t, hexpand (l ++ [t]) = hexpand l ++ htok_expand t.
Proof.
  intros l t. unfold hexpand. rewrite flat_map_app. simpl.
  rewrite app_nil_r. reflexivity.
Qed.

(** The loop of [print_list]: [cnt] stays positive, [prev] equals the
    last height read, and [cnt] plus the heights the entries stand for
    count the heights read. *)
Lemma print_loop_invariant :
  forall ls slist prev cnt x,
    1 <= cnt ->
    (x == prev)%Q ->
    let st := fold_left Cormesh.print_step ls (slist, prev, cnt) in
    1 <= snd st /\
    (last ls x == snd (fst st))%Q /\
    len (hexpand (fst (fst st))) + snd st
    = len (hexpand slist) + cnt + len ls.
Proof.
  induction ls as [|e ls IH]; intros slist prev cnt x Hc Hx;
    cbv zeta in *.
  - simpl. repeat split; [exact Hc | exact Hx | unfold len; simpl; lia].
  - cbn [fold_left]. rewrite last_cons.
    assert (Hstep :
              Cormesh.print_step (slist, prev, cnt) e
              = if Qeq_bool e prev then (slist, prev, cnt + 1)
                else (slist ++ [if cnt =? 1 then HSingle (round4 prev)
                                else HTimes cnt (round4 prev)], e, 1))
      by reflexivity.
    rewrite Hstep. clear Hstep.
    destruct (Qeq_bool e prev) eqn:E.
    + apply Qeq_bool_eq in E.
      destruct (IH slist prev (cnt + 1) e ltac:(lia) E) as (A & B & C).
      repeat split; [exact A | exact B |].
      rewrite C. unfold len. cbn [length]. lia.
    + match goal with
      | |- context [fold_left _ ls (?s, e, 1)] =>
          destruct (IH s e 1 e ltac:(lia) ltac:(reflexivity)) as (A & B & C)
      end.
      repeat split; [exact A | exact B |].
      rewrite C, hexpand_snoc. unfold len. rewrite length_app.
      cbn [length].
      assert (length (htok_expand
                        (if cnt =? 1 then HSingle (round4 prev)
                         else HTimes cnt (round4 prev))) = Z.to_nat cnt) as ->.
      { destruct (Z.eqb_spec cnt 1) as [-> | _]; [reflexivity|].
        simpl. apply repeat_length. }
      lia.
Qed.

(** The heights the last run of [print_list] loses: none exactly when
    the last two heights differ. *)
Lemma print_list_length :
  forall ls a b,
    exists k : nat,
      (length (hexpand (Cormesh.print_list (ls ++ [a; b]))) + k
       = length (ls ++ [a; b]))%nat /\
      (k = 0%nat <-> ~ (a == b)%Q).
Proof.
  intros ls a b.
  assert (Hshape : exists first rest,
             ls ++ [a; b] = first :: rest ++ [b] /\ last rest first = a).
  { destruct ls as [|f ls].
    - exists a, []. split; reflexivity.
    - exists f, (ls ++ [a]). split.
      + simpl. rewrite <- app_assoc. reflexivity.
      + rewrite last_last. reflexivity. }
  destruct Hshape as (first & rest & -> & Hlast).
  unfold Cormesh.print_list.
  change (fold_left Cormesh.print_step (first :: rest ++ [b]) ([], first, 0))
    with (fold_left Cormesh.print_step (rest ++ [b])
            (Cormesh.print_step ([], first, 0) first)).
  unfold Cormesh.print_step at 2.
  assert (Qeq_bool first first = true) as ->
    by (apply Qeq_bool_iff; reflexivity).
  rewrite fold_left_app. simpl Z.add.
  pose proof (print_loop_invariant rest [] first 1 first ltac:(lia)
                ltac:(reflexivity)) as Inv.
  destruct (fold_left Cormesh.print_step rest ([], first, 1))
    as [[s1 p1] c1].
  cbn [fst snd] in Inv. destruct Inv as (A & B & C).
  rewrite Hlast in B. cbn [fold_left]. unfold Cormesh.print_step.
  unfold len in C. change (length (hexpand [])) with 0%nat in C.
  cbn [length]. rewrite length_app. cbn [length].
  destruct (Qeq_bool b p1) eqn:E.
  - apply Qeq_bool_eq in E. rewrite hexpand_snoc, length_app. cbn [length htok_expand].
    exists (Z.to_nat c1). split; [lia|].
    split; [intro H; exfalso; lia | intro H; exfalso; apply H].
    rewrite B, E. reflexivity.
  - rewrite !hexpand_snoc, !length_app. cbn [htok_expand length].
    assert (length (htok_expand
                      (if c1 =? 1 then HSingle (round4 p1)
                       else HTimes c1 (round4 p1))) = Z.to_nat c1) as ->.
    { destruct (Z.eqb_spec c1 1) as [-> | _]; [reflexivity|].
      simpl. apply repeat_length. }
    exists 0%nat. split; [lia|].
    split; [|intros _; reflexivity].
    intros _ Hab. rewrite B in Hab.
    assert (Qeq_bool b p1 = true) by (apply Qeq_bool_iff; symmetry; exact Hab).
    congruence.
Qed.

(** X4: [print_list] writes as many heights as it is given exactly when
    the last two heights differ; when they are equal the line written
    stands for fewer heights than the list holds: it never stands for
    more. *)
Theorem print_list_keeps_count :
  forall ls a b,
    (length (hexpand (Cormesh.print_list (ls ++ [a; b])))
     = length (ls ++ [a; b])
     <-> ~ (a == b)%Q) /\
    (length (hexpand (Cormesh.print_list (ls ++ [a; b])))
     <= length (ls ++ [a; b]))%nat.
Proof.
  intros ls a b.
  destruct (print_list_length ls a b) as (k & Hk & Hab).
  split; [|lia].
  rewrite <- Hab. lia.
Qed.

(** ** Decks [cormesh] rejects *)

Lemma read_without_layer :
  forall src hl fa,
    Forall (fun l => is_layer l = false) src ->
    fst (fold_left Cormesh.read_step src (hl, fa)) = hl.
Proof.
  induction src as [|l src IH]; intros hl fa H; [reflexivity|].
  inversion H as [|? ? Hl Hsrc]; subst.
  destruct l; [discriminate | |]; simpl; apply IH; exact Hsrc.
Qed.

(** X5: on a deck without a layer line [cormesh] raises
    [UnboundLocalError], whatever the positive threshold. *)
Theorem cormesh_needs_layer_line :
  forall src max_cell_height,
    (0 < max_cell_height)%Q ->
    Forall (fun l => is_layer l = false) src ->
    Cormesh.cormesh (Some src) max_cell_height = Raise UnboundLocalError.
Proof.
  intros src mx Hmx H. unfold Cormesh.cormesh.
  rewrite Qle_bool_false by exact Hmx.
  pose proof (read_without_layer src None [] H) as E.
  destruct (fold_left Cormesh.read_step src (None, [])) as [hl fa].
  simpl in E. subst hl. reflexivity.
Qed.

Lemma cormesh_needs_layer_line_witness :
  Cormesh.cormesh (Some Samples.headless_deck) (1 # 10)
  = Raise UnboundLocalError.
Proof.
  apply (cormesh_needs_layer_line Samples.headless_deck (1 # 10)).
  - reflexivity.
  - repeat constructor.
Defined.

Lemma float_of_run :
  forall entries,
    Exists (fun t => ~ uncompressed t) entries ->
    rmapM Cormesh.float entries = Raise ValueError.
Proof.
  intros entries H. induction H as [t ts Ht | t ts _ IH].
  - destruct t as [h | n h]; [exfalso; apply Ht; exact I | reflexivity].
  - destruct t as [h | n h]; [|reflexivity]. simpl. rewrite IH. reflexivity.
Qed.

(** X6: [cormesh] raises [ValueError] on a deck whose last layer line
    holds a run [n*h], which is the form [print_list] gives its own
    layer lines. *)
Theorem cormesh_rejects_compressed_heights :
  forall pre num entries post max_cell_height,
    (0 < max_cell_height)%Q ->
    Forall (fun l => is_layer l = false) post ->
    Exists (fun t => ~ uncompressed t) entries ->
    Cormesh.cormesh (Some (pre ++ Layer num entries :: post)) max_cell_height
    = Raise ValueError.
Proof.
  intros pre num entries post mx Hmx Hpost Hrun. unfold Cormesh.cormesh.
  rewrite Qle_bool_false by exact Hmx.
  rewrite fold_left_app. cbn [fold_left].
  destruct (fold_left Cormesh.read_step pre (None, [])) as [hl0 fa0].
  cbn [Cormesh.read_step].
  pose proof (read_without_layer post (Some entries) fa0 Hpost) as E.
  destruct (fold_left Cormesh.read_step post (Some entries, fa0)) as [hl fa].
  simpl in E. subst hl.
  rewrite (float_of_run entries Hrun). reflexivity.
Qed.

Lemma cormesh_rejects_compressed_heights_witness :
  Cormesh.cormesh (Some Samples.compressed_deck) (1 # 10) = Raise ValueError.
Proof.
  apply (cormesh_rejects_compressed_heights [Other "GEOMETRY:"] 3
           [HTimes 2 (1 # 20); HSingle (1 # 4)]
           [FA_type 1 [Times 3 1]; Other "END:"] (1 # 10)).
  - reflexivity.
  - repeat constructor.
  - left. intro H. exact H.
Defined.

(* ================================================================== *)
(** * Further properties: assembly.py *)
(* ================================================================== *)

(** ** Cells of a mesh aligned with a stack *)

Lemma stacked_lower :
  forall sec rest,
    stacked (sec :: rest) ->
    forall sec', In sec' (sec :: rest) ->
      (fst (sec_bounds sec) <= fst (sec_bounds sec'))%Q.
Proof.
  intros sec rest. revert sec.
  induction rest as [|next rest IH]; intros sec H sec' Hin.
  - destruct Hin as [<- | []]. apply Qle_refl.
  - destruct Hin as [<- | Hin]; [apply Qle_refl|].
    destruct H as (Hle & Hmeet & Hrest).
    specialize (IH next Hrest sec' Hin). lra.
Qed.

Lemma under_false :
  forall secs cell,
    under secs cell = false ->
    exists sec, In sec secs /\ (fst (sec_bounds sec) <= fst cell)%Q.
Proof.
  intros secs cell. unfold under. induction secs as [|sec rest IH]; simpl.
  - discriminate.
  - destruct (Qle_bool (fst (sec_bounds sec)) (fst cell)) eqn:E; simpl.
    + intros _. exists sec. split; [now left | apply Qle_bool_iff; exact E].
    + intro H. destruct (IH H) as (s & Hin & Hs).
      exists s. split; [now right | exact Hs].
Qed.

Lemma above_false :
  forall secs cell,
    above secs cell = false ->
    exists sec, In sec secs /\ (snd cell <= snd (sec_bounds sec))%Q.
Proof.
  intros secs cell. unfold above. induction secs as [|sec rest IH]; simpl.
  - discriminate.
  - destruct (Qle_bool (snd cell) (snd (sec_bounds sec))) eqn:E; simpl.
    + intros _. exists sec. split; [now left | apply Qle_bool_iff; exact E].
    + intro H. destruct (IH H) as (s & Hin & Hs).
      exists s. split; [now right | exact Hs].
Qed.

(** A cell that starts at or above the bottom of a stack, ends at or
    below the end of one of its sections and is cut by none lies in one
    of the sections. *)
Lemma stacked_contains :
  forall secs cell,
    stacked secs ->
    uncut secs cell ->
    (forall sec rest, secs = sec :: rest ->
       (fst (sec_bounds sec) <= fst cell)%Q) ->
    (exists sec, In sec secs /\ (snd cell <= snd (sec_bounds sec))%Q) ->
    exists sec, In sec secs /\ contains sec cell = true.
Proof.
  induction secs as [|sec rest IH]; intros cell Hst Hcut Hlow (top & Hin & Htop).
  - destruct Hin.
  - destruct Hst as (Hle & Hmeet & Hrest).
    pose proof (Hlow sec rest eq_refl) as Hlo.
    destruct (Qlt_le_dec (snd (sec_bounds sec)) (snd cell)) as [Hgt | Hfit].
    + destruct (Hcut sec (or_introl eq_refl)) as [Hbelow | Habs]; [|lra].
      destruct Hin as [<- | Hin]; [lra|].
      destruct (IH cell Hrest) as (s & Hs & Hc).
      * intros s Hs. apply Hcut. now right.
      * intros next rest' ->. lra.
      * exists top. split; assumption.
      * exists s. split; [now right | exact Hc].
    + exists sec. split; [now left|]. unfold contains.
      rewrite !Qle_bool_true by assumption. reflexivity.
Qed.

(** Every cell that no section of a stack cuts gets an identifier. *)
Lemma stacked_cell_id :
  forall secs cid cell,
    stacked secs -> uncut secs cell ->
    exists v, cell_id secs cid cell = Some v.
Proof.
  intros secs cid cell Hst Hcut. unfold cell_id.
  destruct (find (fun sec => contains sec cell) secs) as [sec|] eqn:F;
    [eexists; reflexivity|].
  destruct (under secs cell) eqn:U; [eexists; reflexivity|].
  destruct (above secs cell) eqn:A; [eexists; reflexivity|].
  exfalso.
  destruct (under_false secs cell U) as (lo & Hlo & Hlo').
  destruct (stacked_contains secs cell Hst Hcut) as (s & Hs & Hc).
  - intros sec rest ->. pose proof (stacked_lower sec rest Hst lo Hlo) as Hb.
    apply (Qle_trans _ _ _ Hb Hlo').
  - apply above_false. exact A.
  - pose proof (find_none _ _ F s Hs) as Hn. simpl in Hn. congruence.
Qed.

Lemma length_cells :
  forall meshgrid, length (Assembly.cells meshgrid) = Nat.pred (length meshgrid).
Proof.
  intro m. unfold Assembly.cells. rewrite length_combine.
  destruct m as [|x m]; cbn [tl length Nat.pred]; lia.
Qed.

Lemma length_resolved :
  forall secs cid cs,
    Forall (fun cell => exists v, cell_id secs cid cell = Some v) cs ->
    length (flat_map (fun cell => match cell_id secs cid cell with
                                  | Some v => [v]
                                  | None => []
                                  end) cs)
    = length cs.
Proof.
  intros secs cid cs H. induction H as [|cell cs (v & E) _ IH]; [reflexivity|].
  cbn [flat_map]. rewrite E, length_app, IH. reflexivity.
Qed.

(** The line of a stack on a mesh it does not cut stands for one
    identifier per cell. *)
Lemma line_length :
  forall secs cid meshgrid,
    stacked secs ->
    Forall (uncut secs) (Assembly.cells meshgrid) ->
    length (expand (Assembly.layer_ids secs cid meshgrid))
    = Nat.pred (length meshgrid).
Proof.
  intros secs cid meshgrid Hst Hcut. unfold Assembly.layer_ids.
  destruct (cells_loop_invariant secs cid (Assembly.cells meshgrid) [] [])
    as (_ & _ & E); [constructor | exact I | reflexivity |].
  cbv zeta in E. rewrite E. simpl app.
  rewrite length_resolved, length_cells; [reflexivity|].
  apply Forall_forall. intros cell Hcell.
  apply stacked_cell_id; [exact Hst|].
  rewrite Forall_forall in Hcut. apply Hcut. exact Hcell.
Qed.

(** X7: for an assembly whose sections are stacked without a gap and a
    mesh no cell of which is cut by the end of a section,
    [Assembly.toLAVENDER] gives every cell an identifier: its line stands
    for [len(meshgrid) - 1] cells, and changes nothing. *)
Theorem toLAVENDER_covers_aligned_mesh :
  forall (self : asm_ref) (meshgrid : list Q) (coolant : sec_ref) (w : World),
    let secs := map (sections w) (asm_sections (assemblies w self)) in
    stacked secs ->
    Forall (uncut secs) (Assembly.cells meshgrid) ->
    exists ids,
      Assembly.toLAVENDER self meshgrid coolant w
      = (w, Ok (mkFaLine (asm_id (assemblies w self)) ids)) /\
      length (expand ids) = Nat.pred (length meshgrid).
Proof.
  intros self meshgrid coolant w secs Hst Hcut.
  exists (Assembly.layer_ids secs (sec_id (sections w coolant)) meshgrid).
  split; [reflexivity|].
  apply line_length; assumption.
Qed.

Lemma toLAVENDER_covers_aligned_mesh_witness :
  exists ids,
    Assembly.toLAVENDER 0%nat [-3; -2; -1; 0; 1; 2; 3]%Q 0%nat Samples.stack_world
    = (Samples.stack_world,
       Ok (mkFaLine (asm_id (assemblies Samples.stack_world 0%nat)) ids)) /\
    length (expand ids) = 6%nat.
Proof.
  apply (toLAVENDER_covers_aligned_mesh 0%nat [-3; -2; -1; 0; 1; 2; 3]%Q 0%nat
           Samples.stack_world).
  - vm_compute. intuition discriminate.
  - repeat (apply Forall_cons;
            [intros sec [<- | [<- | [<- | []]]]; vm_compute;
             intuition discriminate|]).
    apply Forall_nil.
Defined.


(** ** [sorted] *)

Section SortedFacts.
Context {A K : Type} (leb : K -> K -> bool) (key : A -> K).

Lemma insert_permutation :
  forall x l, Permutation (insert leb key x l) (x :: l).
Proof.
  intros x l. induction l as [|y l IH]; simpl; [reflexivity|].
  destruct (leb (key x) (key y)); [reflexivity|].
  rewrite IH. apply perm_swap.
Qed.

Lemma sorted_permutation :
  forall l, Permutation (sorted leb key l) l.
Proof.
  induction l as [|x l IH]; simpl; [reflexivity|].
  rewrite insert_permutation. constructor. exact IH.
Qed.

Hypothesis leb_total : forall a b, leb a b = false -> leb b a = true.

Lemma insert_sorted :
  forall x l,
    Sorted (fun a b => leb (key a) (key b) = true) l ->
    Sorted (fun a b => leb (key a) (key b) = true) (insert leb key x l).
Proof.
  intros x l H. induction H as [|y l Hl IH Hy]; simpl.
  - repeat constructor.
  - destruct (leb (key x) (key y)) eqn:E.
    + constructor; [constructor; assumption | constructor; exact E].
    + constructor; [exact IH|].
      destruct l as [|z l]; simpl.
      * constructor. apply leb_total. exact E.
      * destruct (leb (key x) (key z)).
        -- constructor. apply leb_total. exact E.
        -- inversion Hy; subst. constructor. assumption.
Qed.

Lemma sorted_is_sorted :
  forall l, Sorted (fun a b => leb (key a) (key b) = true) (sorted leb key l).
Proof.
  induction l as [|x l IH]; simpl; [constructor|].
  apply insert_sorted. exact IH.
Qed.

Lemma sorted_of_sorted :
  forall l,
    Sorted (fun a b => leb (key a) (key b) = true) l ->
    sorted leb key l = l.
Proof.
  intros l H. induction H as [|x l Hl IH Hx]; simpl; [reflexivity|].
  rewrite IH. destruct Hx as [|y l' Hxy]; simpl; [reflexivity|].
  rewrite Hxy. reflexivity.
Qed.

Lemma sorted_idempotent :
  forall l, sorted leb key (sorted leb key l) = sorted leb key l.
Proof. intro l. apply sorted_of_sorted, sorted_is_sorted. Qed.

End SortedFacts.

Lemma Qle_bool_total : forall a b, Qle_bool a b = false -> Qle_bool b a = true.
Proof.
  intros a b H. apply Qle_bool_false_inv in H.
  apply Qle_bool_true. apply Qlt_le_weak. exact H.
Qed.

(** ** [Assembly.check] *)

(** The loop clears the flag exactly when a section does not start where
    the one before it ended. *)
Lemma check_loop_flag :
  forall location secs prev ifpass w,
    snd (Assembly.check_loop location secs prev ifpass w) = true <->
    ifpass = true /\
    match prev, secs with
    | Some p, sec :: _ => (p == fst (sec_bounds sec))%Q
    | _, _ => True
    end /\
    meets secs.
Proof.
  intros location secs. induction secs as [|sec rest IH]; intros prev p w.
  - simpl. destruct prev; intuition.
  - cbn [Assembly.check_loop]. destruct prev as [q|].
    + destruct (Qeq_bool q (fst (sec_bounds sec))) eqn:E; cbn [negb].
      * rewrite IH. apply Qeq_bool_iff in E. cbn [meets].
        destruct rest; intuition.
      * rewrite IH. cbn [meets]. split.
        -- intros (Hf & _). discriminate.
        -- intros (_ & Hq & _). apply Qeq_bool_iff in Hq. congruence.
    + rewrite IH. cbn [meets]. destruct rest; intuition.
Qed.

Lemma check_loop_frame :
  forall location secs prev ifpass w,
    let w' := fst (Assembly.check_loop location secs prev ifpass w) in
    materials w' = materials w /\ sections w' = sections w /\
    assemblies w' = assemblies w /\ cores w' = cores w.
Proof.
  intros location secs. induction secs as [|sec rest IH]; intros prev p w.
  - simpl. repeat split.
  - cbn [Assembly.check_loop]. destruct prev as [q|].
    + destruct (negb _).
      * exact (IH (Some (snd (sec_bounds sec))) false
                  (print (WarnSectionMismatch (sec_name sec) location) w)).
      * apply IH.
    + apply IH.
Qed.

(** X8: [Assembly.check] leaves the sections of the assembly sorted by
    lower bound, the same sections as before, and returns [True] exactly
    when each of them, in that order, starts where the one before it
    ends; it changes no other object. *)
Theorem assembly_check_sorts :
  forall (self : asm_ref) (w : World),
    let w' := fst (Assembly.check_run self w) in
    let secs := map (sections w') (asm_sections (assemblies w' self)) in
    Permutation (asm_sections (assemblies w' self))
                (asm_sections (assemblies w self)) /\
    by_lower_bound secs /\
    (snd (Assembly.check_run self w) = true <-> meets secs) /\
    sections w' = sections w /\
    (forall a, a <> self -> assemblies w' a = assemblies w a).
Proof.
  intros self w. unfold Assembly.check_run. cbv zeta.
  set (key := fun s => fst (sec_bounds (sections w s))).
  set (sorted_secs := sorted Qle_bool key (asm_sections (assemblies w self))).
  set (w1 := set_assembly self
               (with_asm_sections sorted_secs (assemblies w self)) w).
  pose proof (check_loop_frame (asm_location (assemblies w self))
                (map (sections w1) sorted_secs) None true w1)
    as (_ & Hs & Ha & _).
  cbv zeta in Hs, Ha. rewrite Hs, Ha.
  assert (Hself : asm_sections (assemblies w1 self) = sorted_secs).
  { unfold w1, set_assembly. simpl. rewrite upd_same. reflexivity. }
  rewrite Hself. repeat split.
  - apply sorted_permutation.
  - unfold by_lower_bound. change (sections w1) with (sections w).
    pose proof (sorted_is_sorted Qle_bool key Qle_bool_total
                  (asm_sections (assemblies w self))) as H.
    fold sorted_secs in H. clear - H.
    induction H as [|s l Hl IH Hh]; simpl; constructor; [exact IH|].
    destruct Hh as [|t l' Ht]; simpl; constructor.
    apply Qle_bool_iff. exact Ht.
  - intro H. apply check_loop_flag in H. apply H.
  - intro H. apply check_loop_flag. repeat split. exact H.
  - intros a Ha'. unfold w1, set_assembly. simpl. apply upd_other. exact Ha'.
Qed.

(** X9: a second [Assembly.check] finds the sections in the order the
    first left them and returns what the first returned. *)
Theorem assembly_check_twice :
  forall (self : asm_ref) (w : World),
    let w1 := fst (Assembly.check_run self w) in
    let w2 := fst (Assembly.check_run self w1) in
    asm_sections (assemblies w2 self) = asm_sections (assemblies w1 self) /\
    snd (Assembly.check_run self w1) = snd (Assembly.check_run self w).
Proof.
  intros self w.
  assert (Hrun : forall v,
             let secs := sorted Qle_bool
                           (fun s => fst (sec_bounds (sections v s)))
                           (asm_sections (assemblies v self)) in
             asm_sections (assemblies (fst (Assembly.check_run self v)) self)
             = secs /\
             sections (fst (Assembly.check_run self v)) = sections v /\
             (snd (Assembly.check_run self v) = true
              <-> meets (map (sections v) secs))).
  { intro v. unfold Assembly.check_run. cbv zeta.
    match goal with
    | |- context [Assembly.check_loop ?loc ?l None true ?v1] =>
        pose proof (check_loop_frame loc l None true v1) as (_ & Hs & Ha & _);
        pose proof (check_loop_flag loc l None true v1) as Hf
    end.
    cbv zeta in Hs, Ha. rewrite Hs, Ha. simpl. rewrite upd_same. simpl.
    repeat split; try apply Hf; intro H; apply Hf; repeat split; exact H. }
  cbv zeta.
  destruct (Hrun w) as (E1 & S1 & F1).
  destruct (Hrun (fst (Assembly.check_run self w))) as (E2 & S2 & F2).
  cbv zeta in *. rewrite S1 in E2, F2. rewrite E1 in E2, F2.
  rewrite sorted_idempotent in E2, F2 by exact Qle_bool_total.
  split; [rewrite E2, E1; reflexivity|].
  destruct (snd (Assembly.check_run self w)) eqn:R1;
    destruct (snd (Assembly.check_run self (fst (Assembly.check_run self w))))
      eqn:R2; try reflexivity.
  - assert (true = true) as H by reflexivity. apply F1 in H. apply F2 in H.
    discriminate.
  - assert (true = true) as H by reflexivity. apply F2 in H. apply F1 in H.
    discriminate.
Qed.

(* ================================================================== *)
(** * Further properties: core.py *)
(* ================================================================== *)

(** ** [Core.check] *)

Lemma map_fst_snd_combine {A B} (l : list A) (l' : list B) :
  length l = length l' ->
  map fst (combine l l') = l /\ map snd (combine l l') = l'.
Proof.
  revert l'. induction l as [|x l IH]; intros [|y l'] H; try discriminate.
  - split; reflexivity.
  - injection H as H. destruct (IH l' H) as (E1 & E2). simpl.
    rewrite E1, E2. split; reflexivity.
Qed.

Lemma length_range_len {A} (l : list A) : length (range (len l)) = length l.
Proof.
  unfold range, len. rewrite length_map, length_seq, Nat2Z.id. reflexivity.
Qed.

Lemma map_snd_enumerate {A} (l : list A) : map snd (enumerate l) = l.
Proof. apply map_fst_snd_combine, length_range_len. Qed.

Lemma map_fst_enumerate {A} (l : list A) :
  map fst (enumerate l) = range (len l).
Proof. apply map_fst_snd_combine, length_range_len. Qed.

Lemma in_enumerate {A} (l : list A) (x : A) :
  In x l <-> exists i, In (i, x) (enumerate l).
Proof.
  split.
  - intro H. rewrite <- (map_snd_enumerate l) in H.
    apply in_map_iff in H. destruct H as ([i y] & E & Hin). simpl in E. subst y.
    exists i. exact Hin.
  - intros (i & H). rewrite <- (map_snd_enumerate l).
    apply in_map_iff. exists (i, x). split; [reflexivity | exact H].
Qed.

Section CoreCheck.
(** The world a check starts in. *)
Variable w : World.

(** The order [Assembly.check] gives the sections of an assembly. *)
Let key (s : sec_ref) : Q := fst (sec_bounds (sections w s)).
Let ordered (a : asm_ref) : list sec_ref :=
  sorted Qle_bool key (asm_sections (assemblies w a)).

(** The worlds the loops of a check pass through: each assembly has its
    sections as at the start or sorted. *)
Let passing (v : World) : Prop :=
  sections v = sections w /\
  forall a, asm_sections (assemblies v a) = asm_sections (assemblies w a) \/
            asm_sections (assemblies v a) = ordered a.

Lemma passing_start : passing w.
Proof. split; [reflexivity | intro a; now left]. Qed.

Lemma passing_print : forall m v, passing v -> passing (print m v).
Proof. intros m v H. exact H. Qed.

Lemma assembly_check_passing :
  forall a v,
    passing v ->
    passing (fst (Assembly.check_run a v)) /\
    (snd (Assembly.check_run a v) = true
     <-> meets (map (sections w) (ordered a))).
Proof.
  intros a v (Hs & Ha). unfold Assembly.check_run. cbv zeta.
  repeat match goal with
         | |- context [sections (set_assembly ?x ?y v)] =>
             change (sections (set_assembly x y v)) with (sections v)
         end.
  rewrite Hs. fold key.
  assert (E : sorted Qle_bool key (asm_sections (assemblies v a)) = ordered a).
  { destruct (Ha a) as [-> | ->]; [reflexivity|].
    apply sorted_idempotent. exact Qle_bool_total. }
  rewrite E.
  match goal with
  | |- context [Assembly.check_loop ?loc ?l None true ?v1] =>
      pose proof (check_loop_frame loc l None true v1) as (_ & Fs & Fa & _);
      pose proof (check_loop_flag loc l None true v1) as Hf
  end.
  cbv zeta in Fs, Fa. split.
  - split; [rewrite Fs; exact Hs|]. intro b. rewrite Fa. simpl.
    unfold upd. destruct (Nat.eqb b a) eqn:Eb.
    + apply Nat.eqb_eq in Eb. subst b. now right.
    + apply Ha.
  - split; [intro H; apply Hf in H; apply H|].
    intro H. apply Hf. repeat split. exact H.
Qed.

Lemma check_assemblies_passing :
  forall r (kas : list (Z * asm_ref)) v p,
    passing v ->
    let st := fold_left
                (fun (st : World * bool) (ka : Z * asm_ref) =>
                   let (w, ifpass) := st in
                   let (k, a) := ka in
                   let (w, ok) := Assembly.check_run a w in
                   if negb ok
                   then (print (WarnAssemblyCheck (r + 1) (k + 1)) w, false)
                   else (w, ifpass))
                kas (v, p) in
    passing (fst st) /\
    (snd st = true <->
     p = true /\
     forall ka, In ka kas -> meets (map (sections w) (ordered (snd ka)))).
Proof.
  intros r kas. induction kas as [|[k a] kas IH]; intros v p Hv; cbv zeta.
  - simpl. split; [exact Hv|]. intuition.
  - cbn [fold_left].
    destruct (assembly_check_passing a v Hv) as (Hv' & Hok).
    destruct (Assembly.check_run a v) as [v' ok]. cbn [fst snd] in Hv', Hok.
    destruct ok; cbn [negb].
    + destruct (IH v' p Hv') as (Hp & Hflag). cbv zeta in Hp, Hflag.
      split; [exact Hp|]. rewrite Hflag. split.
      * intros (-> & H). split; [reflexivity|].
        intros ka [<- | Hin]; [apply Hok; reflexivity | apply H; exact Hin].
      * intros (-> & H). split; [reflexivity|].
        intros ka Hin. apply H. now right.
    + destruct (IH (print (WarnAssemblyCheck (r + 1) (k + 1)) v') false
                  (passing_print _ _ Hv')) as (Hp & Hflag).
      cbv zeta in Hp, Hflag. split; [exact Hp|]. rewrite Hflag. split.
      * intros (Hf & _). discriminate.
      * intros (_ & H). specialize (H (k, a) (or_introl eq_refl)).
        apply Hok in H. discriminate.
Qed.

Lemma check_rings_passing :
  forall (rrs : list (Z * list asm_ref)) v p,
    passing v ->
    let st := fold_left
                (fun (st : World * bool) (rr : Z * list asm_ref) =>
                   let (w, ifpass) := st in
                   let (r, ring) := rr in
                   let ref := if 0 <? r then 6 * r else 1 in
                   let st :=
                     if negb (ref =? len ring)
                     then (print (WarnHexRing (r + 1) (len ring) ref) w, false)
                     else (w, ifpass) in
                   Core.check_assemblies r ring st)
                rrs (v, p) in
    passing (fst st) /\
    (snd st = true <->
     p = true /\
     forall rr, In rr rrs ->
       len (snd rr) = ring_size (fst rr) /\
       forall a, In a (snd rr) -> meets (map (sections w) (ordered a))).
Proof.
  induction rrs as [|[r ring] rrs IH]; intros v p Hv; cbv zeta.
  - simpl. split; [exact Hv|]. intuition.
  - cbn [fold_left]. fold (ring_size r).
    assert (Hring : forall v0 p0,
               passing v0 ->
               passing (fst (Core.check_assemblies r ring (v0, p0))) /\
               (snd (Core.check_assemblies r ring (v0, p0)) = true <->
                p0 = true /\
                forall a, In a ring -> meets (map (sections w) (ordered a)))).
    { intros v0 p0 Hv0.
      destruct (check_assemblies_passing r (enumerate ring) v0 p0 Hv0)
        as (Hp & Hflag).
      cbv zeta in Hp, Hflag. split; [exact Hp|].
      unfold Core.check_assemblies. rewrite Hflag. split.
      - intros (-> & H). split; [reflexivity|]. intros a Ha.
        apply in_enumerate in Ha. destruct Ha as (k & Hk). apply (H (k, a) Hk).
      - intros (-> & H). split; [reflexivity|]. intros [k a] Hk. apply H.
        apply in_enumerate. exists k. exact Hk. }
    destruct (Z.eqb_spec (ring_size r) (len ring)) as [Esz | Nsz]; cbn [negb].
    + destruct (Hring v p Hv) as (Hv' & Hok).
      destruct (Core.check_assemblies r ring (v, p)) as [v' p'].
      cbn [fst snd] in Hv', Hok.
      destruct (IH v' p' Hv') as (Hp & Hflag). cbv zeta in Hp, Hflag.
      split; [exact Hp|]. rewrite Hflag, Hok. split.
      * intros ((-> & Ha) & H). split; [reflexivity|].
        intros rr [<- | Hin]; [split; [symmetry; exact Esz | exact Ha]|].
        apply H. exact Hin.
      * intros (-> & H). split.
        -- split; [reflexivity|]. apply (H (r, ring)). now left.
        -- intros rr Hin. apply H. now right.
    + destruct (Hring (print (WarnHexRing (r + 1) (len ring) (ring_size r)) v)
                  false (passing_print _ _ Hv)) as (Hv' & Hok).
      destruct (Core.check_assemblies r ring
                  (print (WarnHexRing (r + 1) (len ring) (ring_size r)) v, false))
        as [v' p'].
      cbn [fst snd] in Hv', Hok.
      destruct (IH v' p' Hv') as (Hp & Hflag). cbv zeta in Hp, Hflag.
      split; [exact Hp|]. rewrite Hflag, Hok. split.
      * intros ((Hf & _) & _). discriminate.
      * intros (_ & H). destruct (H (r, ring) (or_introl eq_refl)) as (Hl & _).
        simpl in Hl. congruence.
Qed.

Lemma full_lattice_enumerate :
  forall (lattice : list (list asm_ref)),
    (forall rr, In rr (enumerate lattice) -> len (snd rr) = ring_size (fst rr))
    <-> full_lattice (len lattice) lattice.
Proof.
  intro lattice. unfold full_lattice.
  assert (E1 : map len lattice
               = map (fun rr : Z * list asm_ref => len (snd rr))
                     (enumerate lattice))
    by (transitivity (map len (map snd (enumerate lattice)));
        [rewrite map_snd_enumerate; reflexivity | apply map_map]).
  assert (E2 : map ring_size (range (len lattice))
               = map (fun rr : Z * list asm_ref => ring_size (fst rr))
                     (enumerate lattice))
    by (transitivity (map ring_size (map fst (enumerate lattice)));
        [rewrite map_fst_enumerate; reflexivity | apply map_map]).
  rewrite E1, E2. symmetry. apply map_ext_in_iff.
Qed.

(** The assemblies a check has gone through have their sections
    sorted. *)
Let sorted_in (D : asm_ref -> Prop) (v : World) : Prop :=
  passing v /\ forall a, D a -> asm_sections (assemblies v a) = ordered a.

Lemma assembly_check_sorted_in :
  forall D a v,
    sorted_in D v ->
    sorted_in (fun b => D b \/ b = a) (fst (Assembly.check_run a v)).
Proof.
  intros D a v (Hv & Hd).
  destruct (assembly_check_passing a v Hv) as (Hv' & _).
  split; [exact Hv'|].
  assert (Ea : assemblies (fst (Assembly.check_run a v))
               = upd (assemblies v) a
                     (with_asm_sections (ordered a) (assemblies v a))).
  { destruct Hv as (Hs & Ha). unfold Assembly.check_run. cbv zeta.
    repeat match goal with
           | |- context [sections (set_assembly ?x ?y v)] =>
               change (sections (set_assembly x y v)) with (sections v)
           end.
    rewrite Hs. fold key.
    assert (E : sorted Qle_bool key (asm_sections (assemblies v a)) = ordered a).
    { destruct (Ha a) as [-> | ->]; [reflexivity|].
      apply sorted_idempotent. exact Qle_bool_total. }
    rewrite E.
    match goal with
    | |- context [Assembly.check_loop ?loc ?l None true ?v1] =>
        pose proof (check_loop_frame loc l None true v1) as (_ & _ & Fa & _)
    end.
    cbv zeta in Fa. rewrite Fa. reflexivity. }
  intros b Hb. rewrite Ea. unfold upd.
  destruct (Nat.eqb b a) eqn:E.
  - apply Nat.eqb_eq in E. subst b. reflexivity.
  - destruct Hb as [Hb | ->]; [apply Hd; exact Hb|].
    rewrite Nat.eqb_refl in E. discriminate.
Qed.

Lemma sorted_in_print :
  forall D m v, sorted_in D v -> sorted_in D (print m v).
Proof. intros D m v H. exact H. Qed.

Lemma sorted_in_ext :
  forall (D D' : asm_ref -> Prop) v,
    (forall a, D' a -> D a) -> sorted_in D v -> sorted_in D' v.
Proof. intros D D' v H (Hv & Hd). split; [exact Hv | auto]. Qed.

Lemma check_assemblies_sorted_in :
  forall r ring D v p,
    sorted_in D v ->
    sorted_in (fun b => D b \/ In b ring)
              (fst (Core.check_assemblies r ring (v, p))).
Proof.
  intros r ring. unfold Core.check_assemblies.
  assert (G : forall (kas : list (Z * asm_ref)) D v p,
             sorted_in D v ->
             sorted_in (fun b => D b \/ In b (map snd kas))
               (fst (fold_left
                       (fun (st : World * bool) (ka : Z * asm_ref) =>
                          let (w, ifpass) := st in
                          let (k, a) := ka in
                          let (w, ok) := Assembly.check_run a w in
                          if negb ok
                          then (print (WarnAssemblyCheck (r + 1) (k + 1)) w, false)
                          else (w, ifpass))
                       kas (v, p)))).
  { induction kas as [|[k a] kas IH]; intros D v p Hv.
    - simpl. apply (sorted_in_ext D); [|exact Hv]. intros b [H | []]. exact H.
    - cbn [fold_left map snd].
      pose proof (assembly_check_sorted_in D a v Hv) as Hv'.
      destruct (Assembly.check_run a v) as [v' ok]. cbn [fst] in Hv'.
      destruct ok; cbn [negb].
      + refine (sorted_in_ext _ _ _ _ (IH _ v' p Hv')).
        intros b [H | [<- | H]]; [left; left; exact H | left; right; reflexivity
                                  | right; exact H].
      + refine (sorted_in_ext _ _ _ _
                  (IH _ _ false (sorted_in_print _ _ _ Hv'))).
        intros b [H | [<- | H]]; [left; left; exact H | left; right; reflexivity
                                  | right; exact H]. }
  intros D v p Hv. specialize (G (enumerate ring) D v p Hv).
  rewrite map_snd_enumerate in G. exact G.
Qed.

Lemma check_rings_sorted_in :
  forall lattice D v p,
    sorted_in D v ->
    sorted_in (fun b => D b \/ In b (concat lattice))
              (fst (Core.check_rings lattice (v, p))).
Proof.
  intro lattice. unfold Core.check_rings.
  assert (G : forall (rrs : list (Z * list asm_ref)) D v p,
             sorted_in D v ->
             sorted_in (fun b => D b \/ In b (concat (map snd rrs)))
               (fst (fold_left
                       (fun (st : World * bool) (rr : Z * list asm_ref) =>
                          let (w, ifpass) := st in
                          let (r, ring) := rr in
                          let ref := if 0 <? r then 6 * r else 1 in
                          let st :=
                            if negb (ref =? len ring)
                            then (print (WarnHexRing (r + 1) (len ring) ref) w,
                                  false)
                            else (w, ifpass) in
                          Core.check_assemblies r ring st)
                       rrs (v, p)))).
  { induction rrs as [|[r ring] rrs IH]; intros D v p Hv.
    - simpl. apply (sorted_in_ext D); [|exact Hv]. intros b [H | []]. exact H.
    - cbn [fold_left map snd concat].
      assert (Hstep : forall v0 p0,
                 sorted_in D v0 ->
                 sorted_in (fun b => (D b \/ In b ring) \/ In b (concat (map snd rrs)))
                   (fst (fold_left
                       (fun (st : World * bool) (rr : Z * list asm_ref) =>
                          let (w, ifpass) := st in
                          let (r, ring) := rr in
                          let ref := if 0 <? r then 6 * r else 1 in
                          let st :=
                            if negb (ref =? len ring)
                            then (print (WarnHexRing (r + 1) (len ring) ref) w,
                                  false)
                            else (w, ifpass) in
                          Core.check_assemblies r ring st)
                       rrs (Core.check_assemblies r ring (v0, p0))))).
      { intros v0 p0 Hv0.
        pose proof (check_assemblies_sorted_in r ring D v0 p0 Hv0) as H1.
        destruct (Core.check_assemblies r ring (v0, p0)) as [v1 p1].
        apply IH. exact H1. }
      destruct (negb _).
      + refine (sorted_in_ext _ _ _ _
                  (Hstep _ false (sorted_in_print _ _ _ Hv))).
        intros b [H | H]; [left; left; exact H|].
        apply in_app_iff in H. destruct H; [left; right | right]; assumption.
      + refine (sorted_in_ext _ _ _ _ (Hstep v p Hv)).
        intros b [H | H]; [left; left; exact H|].
        apply in_app_iff in H. destruct H; [left; right | right]; assumption. }
  intros D v p Hv. specialize (G (enumerate lattice) D v p Hv).
  rewrite map_snd_enumerate in G. exact G.
Qed.

(** After [Core.check] every assembly of the lattice has its sections
    sorted by lower bound. *)
Lemma check_orders_lattice :
  forall self a,
    In a (concat (core_lattice (cores w self))) ->
    asm_sections (assemblies (fst (Core.check_run self w)) a) = ordered a.
Proof.
  intros self a Ha. unfold Core.check_run.
  assert (H0 : sorted_in (fun _ => False) w)
    by (split; [apply passing_start | intros b []]).
  destruct (negb _).
  - destruct (check_rings_sorted_in (core_lattice (cores w self)) _ _ false
                (sorted_in_print _ (WarnLatticeRing (len (core_lattice (cores w self)))
                                      (core_ring (cores w self))) _ H0))
      as (_ & Hd).
    apply Hd. now right.
  - destruct (check_rings_sorted_in (core_lattice (cores w self)) _ _ true H0)
      as (_ & Hd).
    apply Hd. now right.
Qed.

(** The worlds a check passes through, [D] holding the assemblies it has
    gone through: these have their sections sorted, and nothing else
    differs from the start but the warnings printed. *)
Let reordered (D : asm_ref -> Prop) (v : World) : Prop :=
  materials v = materials w /\
  sections v = sections w /\
  cores v = cores w /\
  next_core v = next_core w /\
  (exists msgs, stdout v = stdout w ++ msgs) /\
  (forall a, assemblies v a = assemblies w a \/
             assemblies v a = with_asm_sections (ordered a) (assemblies w a)) /\
  (forall a, D a ->
     assemblies v a = with_asm_sections (ordered a) (assemblies w a)) /\
  (forall a, ~ D a -> assemblies v a = assemblies w a).

Lemma reordered_start : reordered (fun _ => False) w.
Proof.
  repeat split; try reflexivity.
  - exists []. symmetry. apply app_nil_r.
  - intro a. now left.
  - intros a [].
Qed.

Lemma reordered_print :
  forall D m v, reordered D v -> reordered D (print m v).
Proof.
  intros D m v (Hm & Hs & Hc & Hn & (msgs & Ho) & Hk & Hd & Hu).
  repeat split; try assumption.
  exists (msgs ++ [m]). simpl. rewrite Ho, app_assoc. reflexivity.
Qed.

Lemma reordered_ext :
  forall (D D' : asm_ref -> Prop) v,
    (forall a, D' a <-> D a) -> reordered D v -> reordered D' v.
Proof.
  intros D D' v H (Hm & Hs & Hc & Hn & Ho & Hk & Hd & Hu).
  repeat split; try assumption.
  - intros a Ha. apply Hd. apply H. exact Ha.
  - intros a Ha. apply Hu. intro Hda. apply Ha. apply H. exact Hda.
Qed.

Lemma check_loop_output :
  forall location secs prev ifpass v,
    let v' := fst (Assembly.check_loop location secs prev ifpass v) in
    next_core v' = next_core v /\
    exists msgs, stdout v' = stdout v ++ msgs.
Proof.
  intros location secs. induction secs as [|sec rest IH]; intros prev p v.
  - simpl. split; [reflexivity|]. exists []. symmetry. apply app_nil_r.
  - cbn [Assembly.check_loop]. destruct prev as [q|].
    + destruct (negb _).
      * destruct (IH (Some (snd (sec_bounds sec))) false
                    (print (WarnSectionMismatch (sec_name sec) location) v))
          as (Hn & msgs & Ho).
        cbv zeta. split; [rewrite Hn; reflexivity|].
        exists (WarnSectionMismatch (sec_name sec) location :: msgs).
        rewrite Ho. simpl. rewrite <- app_assoc. reflexivity.
      * apply IH.
    + apply IH.
Qed.

Lemma assembly_check_reordered :
  forall D a v,
    reordered D v ->
    reordered (fun b => D b \/ b = a) (fst (Assembly.check_run a v)).
Proof.
  intros D a v (Hm & Hs & Hc & Hn & (msgs & Ho) & Hk & Hd & Hu).
  unfold Assembly.check_run. cbv zeta.
  repeat match goal with
         | |- context [sections (set_assembly ?x ?y v)] =>
             change (sections (set_assembly x y v)) with (sections v)
         end.
  rewrite Hs. fold key.
  assert (E : sorted Qle_bool key (asm_sections (assemblies v a)) = ordered a).
  { destruct (Hk a) as [-> | ->]; [reflexivity|].
    apply sorted_idempotent. exact Qle_bool_total. }
  rewrite E.
  assert (Ea : with_asm_sections (ordered a) (assemblies v a)
               = with_asm_sections (ordered a) (assemblies w a)).
  { destruct (Hk a) as [-> | ->]; reflexivity. }
  rewrite Ea.
  match goal with
  | |- context [Assembly.check_loop ?loc ?l None true ?v1] =>
      pose proof (check_loop_frame loc l None true v1) as (Fm & Fs & Fa & Fc);
      pose proof (check_loop_output loc l None true v1) as (Fn & msgs' & Fo)
  end.
  cbv zeta in Fm, Fs, Fa, Fc, Fn, Fo.
  split; [rewrite Fm; exact Hm|].
  split; [rewrite Fs; exact Hs|].
  split; [rewrite Fc; exact Hc|].
  split; [rewrite Fn; exact Hn|].
  split.
  { exists (msgs ++ msgs'). rewrite Fo. simpl. rewrite Ho, app_assoc.
    reflexivity. }
  rewrite Fa. simpl. unfold upd.
  split; [|split].
  - intro b. destruct (Nat.eqb b a) eqn:Eb.
    + apply Nat.eqb_eq in Eb. subst b. now right.
    + apply Hk.
  - intros b Hb. destruct (Nat.eqb b a) eqn:Eb.
    + apply Nat.eqb_eq in Eb. subst b. reflexivity.
    + apply Hd. destruct Hb as [Hb | ->]; [exact Hb|].
      rewrite Nat.eqb_refl in Eb. discriminate.
  - intros b Hb. destruct (Nat.eqb b a) eqn:Eb.
    + apply Nat.eqb_eq in Eb. subst b. exfalso. apply Hb. now right.
    + apply Hu. intro Hdb. apply Hb. now left.
Qed.

Lemma check_assemblies_reordered :
  forall r ring D v p,
    reordered D v ->
    reordered (fun b => D b \/ In b ring)
              (fst (Core.check_assemblies r ring (v, p))).
Proof.
  intros r ring. unfold Core.check_assemblies.
  assert (G : forall (kas : list (Z * asm_ref)) D v p,
             reordered D v ->
             reordered (fun b => D b \/ In b (map snd kas))
               (fst (fold_left
                       (fun (st : World * bool) (ka : Z * asm_ref) =>
                          let (w, ifpass) := st in
                          let (k, a) := ka in
                          let (w, ok) := Assembly.check_run a w in
                          if negb ok
                          then (print (WarnAssemblyCheck (r + 1) (k + 1)) w, false)
                          else (w, ifpass))
                       kas (v, p)))).
  { induction kas as [|[k a] kas IH]; intros D v p Hv.
    - simpl. apply (reordered_ext D); [|exact Hv]. intro b. tauto.
    - cbn [fold_left map snd].
      pose proof (assembly_check_reordered D a v Hv) as Hv'.
      destruct (Assembly.check_run a v) as [v' ok]. cbn [fst] in Hv'.
      destruct ok; cbn [negb].
      + refine (reordered_ext _ _ _ _ (IH _ v' p Hv')).
        intro b. cbn [In]. split.
        * intros [H | [<- | H]]; tauto.
        * intros [[H | ->] | H]; tauto.
      + refine (reordered_ext _ _ _ _
                  (IH _ _ false (reordered_print _ _ _ Hv'))).
        intro b. cbn [In]. split.
        * intros [H | [<- | H]]; tauto.
        * intros [[H | ->] | H]; tauto. }
  intros D v p Hv. specialize (G (enumerate ring) D v p Hv).
  rewrite map_snd_enumerate in G. exact G.
Qed.

Lemma check_rings_reordered :
  forall lattice D v p,
    reordered D v ->
    reordered (fun b => D b \/ In b (concat lattice))
              (fst (Core.check_rings lattice (v, p))).
Proof.
  intro lattice. unfold Core.check_rings.
  assert (G : forall (rrs : list (Z * list asm_ref)) D v p,
             reordered D v ->
             reordered (fun b => D b \/ In b (concat (map snd rrs)))
               (fst (fold_left
                       (fun (st : World * bool) (rr : Z * list asm_ref) =>
                          let (w, ifpass) := st in
                          let (r, ring) := rr in
                          let ref := if 0 <? r then 6 * r else 1 in
                          let st :=
                            if negb (ref =? len ring)
                            then (print (WarnHexRing (r + 1) (len ring) ref) w,
                                  false)
                            else (w, ifpass) in
                          Core.check_assemblies r ring st)
                       rrs (v, p)))).
  { induction rrs as [|[r ring] rrs IH]; intros D v p Hv.
    - simpl. apply (reordered_ext D); [|exact Hv]. intro b. tauto.
    - cbn [fold_left map snd concat].
      assert (Hstep : forall v0 p0,
                 reordered D v0 ->
                 reordered (fun b => (D b \/ In b ring) \/ In b (concat (map snd rrs)))
                   (fst (fold_left
                       (fun (st : World * bool) (rr : Z * list asm_ref) =>
                          let (w, ifpass) := st in
                          let (r, ring) := rr in
                          let ref := if 0 <? r then 6 * r else 1 in
                          let st :=
                            if negb (ref =? len ring)
                            then (print (WarnHexRing (r + 1) (len ring) ref) w,
                                  false)
                            else (w, ifpass) in
                          Core.check_assemblies r ring st)
                       rrs (Core.check_assemblies r ring (v0, p0))))).
      { intros v0 p0 Hv0.
        pose proof (check_assemblies_reordered r ring D v0 p0 Hv0) as H1.
        destruct (Core.check_assemblies r ring (v0, p0)) as [v1 p1].
        apply IH. exact H1. }
      destruct (negb _).
      + refine (reordered_ext _ _ _ _
                  (Hstep _ false (reordered_print _ _ _ Hv))).
        intro b. rewrite in_app_iff. tauto.
      + refine (reordered_ext _ _ _ _ (Hstep v p Hv)).
        intro b. rewrite in_app_iff. tauto. }
  intros D v p Hv. specialize (G (enumerate lattice) D v p Hv).
  rewrite map_snd_enumerate in G. exact G.
Qed.

(** [Core.check] changes the order of the sections of the assemblies of
    the lattice, adds warnings to what was printed, and changes nothing
    else. *)
Lemma check_reorders_lattice :
  forall self,
    let v := fst (Core.check_run self w) in
    materials v = materials w /\
    sections v = sections w /\
    cores v = cores w /\
    next_core v = next_core w /\
    (exists msgs, stdout v = stdout w ++ msgs) /\
    (forall a, In a (concat (core_lattice (cores w self))) ->
       assemblies v a = with_asm_sections (ordered a) (assemblies w a)) /\
    (forall a, ~ In a (concat (core_lattice (cores w self))) ->
       assemblies v a = assemblies w a).
Proof.
  intro self. cbv zeta. unfold Core.check_run.
  assert (G : forall v0 p0,
             reordered (fun _ => False) v0 ->
             let v := fst (Core.check_rings (core_lattice (cores w self)) (v0, p0)) in
             materials v = materials w /\
             sections v = sections w /\
             cores v = cores w /\
             next_core v = next_core w /\
             (exists msgs, stdout v = stdout w ++ msgs) /\
             (forall a, In a (concat (core_lattice (cores w self))) ->
                assemblies v a = with_asm_sections (ordered a) (assemblies w a)) /\
             (forall a, ~ In a (concat (core_lattice (cores w self))) ->
                assemblies v a = assemblies w a)).
  { intros v0 p0 H0. cbv zeta.
    destruct (check_rings_reordered (core_lattice (cores w self)) _ v0 p0 H0)
      as (Hm & Hs & Hc & Hn & Ho & _ & Hd & Hu).
    repeat split; try assumption.
    - intros a Ha. apply Hd. now right.
    - intros a Ha. apply Hu. intros [[] | H]. exact (Ha H). }
  destruct (negb _).
  - apply G. apply reordered_print. apply reordered_start.
  - apply G. apply reordered_start.
Qed.

End CoreCheck.

(** The flag [Core.check] returns, read on the world it starts in. *)
Lemma core_check_flag :
  forall (self : core_ref) (w : World),
    let c := cores w self in
    snd (Core.check_run self w) = true <->
    core_ring c = len (core_lattice c) /\
    full_lattice (core_ring c) (core_lattice c) /\
    forall a, In a (concat (core_lattice c)) ->
      meets (map (sections w)
               (sorted Qle_bool (fun s => fst (sec_bounds (sections w s)))
                  (asm_sections (assemblies w a)))).
Proof.
  intros self w c. unfold Core.check_run. fold c.
  destruct (Z.eqb_spec (core_ring c) (len (core_lattice c))) as [E | NE];
    cbn [negb].
  - destruct (check_rings_passing w (enumerate (core_lattice c)) w true
                (passing_start w)) as (_ & Hflag).
    cbv zeta in Hflag. unfold Core.check_rings. rewrite Hflag. rewrite E. split.
    + intros (_ & H). split; [reflexivity|]. split.
      * apply full_lattice_enumerate. intros rr Hin. apply (H rr Hin).
      * intros a Ha. apply in_concat in Ha. destruct Ha as (ring & Hr & Ha).
        apply in_enumerate in Hr. destruct Hr as (r & Hr).
        apply (proj2 (H (r, ring) Hr) a Ha).
    + intros (_ & Hfull & H). split; [reflexivity|]. intros [r ring] Hin. split.
      * apply (proj2 (full_lattice_enumerate (core_lattice c)) Hfull _ Hin).
      * intros a Ha. apply H. apply in_concat. exists ring. split; [|exact Ha].
        apply in_enumerate. exists r. exact Hin.
  - destruct (check_rings_passing w (enumerate (core_lattice c))
                (print (WarnLatticeRing (len (core_lattice c)) (core_ring c)) w)
                false (passing_print w _ _ (passing_start w))) as (_ & Hflag).
    cbv zeta in Hflag. unfold Core.check_rings. rewrite Hflag. split.
    + intros (Hf & _). discriminate.
    + intros (Hr & _). contradiction.
Qed.

(** X10: [Core.check] returns [True] exactly when the lattice holds
    [core.ring] rings, ring [r] holds [6*r] assemblies (one for the
    central ring), and the sections of every assembly of the lattice,
    taken by increasing lower bound, each start where the one before
    ends. It changes only the order of sections within assemblies: every
    assembly of the lattice is left with its sections sorted by lower
    bound and is otherwise as it was, and no other assembly, no section,
    no material and no core changes. What it prints is added to what was
    printed, and it prints at least one warning whenever it returns
    [False]. *)
Theorem core_check_characterised :
  forall (self : core_ref) (w : World),
    let c := cores w self in
    let w' := fst (Core.check_run self w) in
    (snd (Core.check_run self w) = true <->
     core_ring c = len (core_lattice c) /\
     full_lattice (core_ring c) (core_lattice c) /\
     forall a, In a (concat (core_lattice c)) ->
       meets (map (sections w)
                (sorted Qle_bool (fun s => fst (sec_bounds (sections w s)))
                   (asm_sections (assemblies w a))))) /\
    materials w' = materials w /\
    sections w' = sections w /\
    cores w' = cores w /\
    next_core w' = next_core w /\
    (forall a, In a (concat (core_lattice c)) ->
       assemblies w' a
       = with_asm_sections
           (sorted Qle_bool (fun s => fst (sec_bounds (sections w s)))
              (asm_sections (assemblies w a)))
           (assemblies w a)) /\
    (forall a, ~ In a (concat (core_lattice c)) ->
       assemblies w' a = assemblies w a) /\
    (forall a, Permutation (asm_sections (assemblies w' a))
                           (asm_sections (assemblies w a))) /\
    exists msgs,
      stdout w' = stdout w ++ msgs /\
      (snd (Core.check_run self w) = false -> msgs <> []).
Proof.
  intros self w c w'.
  split; [exact (core_check_flag self w)|].
  destruct (check_reorders_lattice w self)
    as (Hm & Hs & Hc & Hn & (msgs & Ho) & Hd & Hu).
  fold w' in Hm, Hs, Hc, Hn, Ho, Hd, Hu. fold c in Hd, Hu.
  split; [exact Hm|]. split; [exact Hs|]. split; [exact Hc|].
  split; [exact Hn|]. split; [exact Hd|]. split; [exact Hu|].
  assert (Hk : forall a,
             assemblies w' a = assemblies w a \/
             assemblies w' a
             = with_asm_sections
                 (sorted Qle_bool (fun s => fst (sec_bounds (sections w s)))
                    (asm_sections (assemblies w a)))
                 (assemblies w a)).
  { intro a.
    destruct (in_dec Nat.eq_dec a (concat (core_lattice c))) as [Hin | Hout].
    - right. apply Hd. exact Hin.
    - left. apply Hu. exact Hout. }
  split.
  - intro a. destruct (Hk a) as [-> | ->]; [reflexivity|].
    simpl. apply sorted_permutation.
  - exists msgs. split; [exact Ho|]. intros Hf Hnil.
    destruct (check_run_checked self w) as (_ & Hprint).
    destruct (Hprint Hf) as [Habs | Hlt]; [discriminate|].
    cbn [fst] in Hlt. fold w' in Hlt. rewrite Ho, Hnil, app_nil_r in Hlt. lia.
Qed.


(** ** [Core.specifyID]: the sets *)

Lemma grows_refl {A} (s : list A) : grows s s (fun _ => False).
Proof. split; [intro x; tauto | auto]. Qed.

Lemma grows_trans {A} (s s' s'' : list A) (P Q : A -> Prop) :
  grows s s' P -> grows s' s'' Q -> grows s s'' (fun x => P x \/ Q x).
Proof.
  intros (H1 & N1) (H2 & N2). split; [|auto].
  intro x. rewrite H2, H1. tauto.
Qed.

Lemma grows_ext {A} (s s' : list A) (P Q : A -> Prop) :
  (forall x, P x <-> Q x) -> grows s s' P -> grows s s' Q.
Proof.
  intros E (H & N). split; [|exact N]. intro x. rewrite H, E. tauto.
Qed.

Lemma set_add_grows {A} (eqb : A -> A -> bool) (y : A) (s : list A) :
  (forall a b, eqb a b = true <-> a = b) ->
  grows s (set_add eqb y s) (fun x => x = y).
Proof.
  intro Heq. unfold set_add. destruct (existsb (eqb y) s) eqn:E.
  - apply existsb_exists in E. destruct E as (z & Hz & Ez).
    apply Heq in Ez. subst z. split; [|auto].
    intro x. split; [tauto | intros [H | ->]; assumption].
  - split.
    + intro x. rewrite in_app_iff. simpl. intuition.
    + intro N. apply NoDup_app; [exact N | repeat constructor; intros [] |].
      intros x Hx [<- | []].
      assert (existsb (eqb y) s = true); [|congruence].
      apply existsb_exists. exists y. split; [exact Hx | apply Heq; reflexivity].
Qed.

Lemma option_nat_eqb_eq :
  forall a b, option_nat_eqb a b = true <-> a = b.
Proof.
  intros [x|] [y|]; simpl; try (split; intro; congruence).
  rewrite Nat.eqb_eq. split; intro; congruence.
Qed.

Lemma grown_refl :
  forall sets, grown sets sets (fun _ => False) (fun _ => False) (fun _ => False).
Proof. intro sets. repeat split; auto; tauto. Qed.

Lemma grown_trans :
  forall s s' s'' PA PS PM QA QS QM,
    grown s s' PA PS PM -> grown s' s'' QA QS QM ->
    grown s s'' (fun x => PA x \/ QA x) (fun x => PS x \/ QS x)
          (fun x => PM x \/ QM x).
Proof.
  intros s s' s'' PA PS PM QA QS QM (A1 & S1 & M1) (A2 & S2 & M2).
  split; [|split].
  - apply (grows_trans _ _ _ _ _ A1 A2).
  - apply (grows_trans _ _ _ _ _ S1 S2).
  - apply (grows_trans _ _ _ _ _ M1 M2).
Qed.

Lemma grown_ext :
  forall s s' PA PS PM QA QS QM,
    (forall x, PA x <-> QA x) -> (forall x, PS x <-> QS x) ->
    (forall x, PM x <-> QM x) ->
    grown s s' PA PS PM -> grown s s' QA QS QM.
Proof.
  intros s s' PA PS PM QA QS QM EA ES EM (A & S & M).
  split; [|split].
  - apply (grows_ext _ _ _ _ EA A).
  - apply (grows_ext _ _ _ _ ES S).
  - apply (grows_ext _ _ _ _ EM M).
Qed.

Lemma add_materials_grown :
  forall l sets,
    grown sets (Core.add_materials l sets) (fun _ => False) (fun _ => False)
          (fun m => In m (map snd l)).
Proof.
  induction l as [|e l IH]; intro sets.
  - apply (grown_ext _ _ _ _ _ _ _ _ (fun _ => iff_refl _)
             (fun _ => iff_refl _)
             (fun _ => conj (fun H : False => match H with end)
                            (fun H : In _ [] => H))
             (grown_refl sets)).
  - change (Core.add_materials (e :: l) sets)
      with (Core.add_materials l
              (mkIdsets (set_assemblies sets) (set_sections sets)
                        (set_add Nat.eqb (snd e) (set_materials sets)))).
    eapply grown_ext; [| | | eapply grown_trans; [|apply IH]].
    4:{ split; [apply grows_refl | split; [apply grows_refl|]].
        apply set_add_grows. exact Nat.eqb_eq. }
    + simpl. tauto.
    + simpl. tauto.
    + simpl. intro x. split; [intros [-> | H] | intros [-> | H]]; auto.
Qed.

Lemma add_section_grown :
  forall x sets,
    grown sets (Core.add_section x sets) (fun _ => False) (fun y => y = x)
          (fun _ => False).
Proof.
  intros x sets. split; [apply grows_refl | split; [|apply grows_refl]].
  apply set_add_grows. exact option_nat_eqb_eq.
Qed.

Lemma add_assembly_grown :
  forall a sets,
    grown sets (Core.add_assembly a sets) (fun y => y = a) (fun _ => False)
          (fun _ => False).
Proof.
  intros a sets. split; [|split; apply grows_refl].
  apply set_add_grows. exact Nat.eqb_eq.
Qed.

Section Traverse.
(** The world [Core.specifyID] starts in. *)
Variable w : World.

Lemma same_but_positions_refl : same_but_positions w w.
Proof. repeat split. Qed.

(** A loop each step of which grows the sets. *)
Lemma fold_grown {X} (step : World * idsets -> X -> World * idsets)
    (PA : X -> asm_ref -> Prop) (PS : X -> option sec_ref -> Prop)
    (PM : X -> mat_ref -> Prop) (l : list X) :
  (forall v sets x,
     same_but_positions w v ->
     same_but_positions w (fst (step (v, sets) x)) /\
     grown sets (snd (step (v, sets) x)) (PA x) (PS x) (PM x)) ->
  forall v sets,
    same_but_positions w v ->
    same_but_positions w (fst (fold_left step l (v, sets))) /\
    grown sets (snd (fold_left step l (v, sets)))
          (fun a => exists x, In x l /\ PA x a)
          (fun s => exists x, In x l /\ PS x s)
          (fun m => exists x, In x l /\ PM x m).
Proof.
  intro Hstep. induction l as [|x l IH]; intros v sets Hv.
  - simpl. split; [exact Hv|].
    apply (grown_ext _ _ _ _ _ _ _ _
             (fun _ => conj (fun H : False => match H with end)
                            (fun H => match H with
                                      | ex_intro _ _ (conj F _) => F
                                      end))
             (fun _ => conj (fun H : False => match H with end)
                            (fun H => match H with
                                      | ex_intro _ _ (conj F _) => F
                                      end))
             (fun _ => conj (fun H : False => match H with end)
                            (fun H => match H with
                                      | ex_intro _ _ (conj F _) => F
                                      end))
             (grown_refl sets)).
  - cbn [fold_left]. destruct (Hstep v sets x Hv) as (Hv1 & G1).
    destruct (step (v, sets) x) as [v1 sets1]. cbn [fst snd] in Hv1, G1.
    destruct (IH v1 sets1 Hv1) as (Hv2 & G2). split; [exact Hv2|].
    eapply grown_ext; [| | | exact (grown_trans _ _ _ _ _ _ _ _ _ G1 G2)];
      intro y; simpl; split.
    all: try (intros [H | (z & Hz & H)];
              [exists x; split; [now left | exact H]
              | exists z; split; [now right | exact H]]).
    all: intros (z & [<- | Hz] & H); [left; exact H | right; exists z; auto].
Qed.

Lemma visit_section_grown :
  forall r k v sets s,
    same_but_positions w v ->
    same_but_positions w (fst (Core.visit_section r k (v, sets) s)) /\
    grown sets (snd (Core.visit_section r k (v, sets) s))
          (fun _ => False)
          (fun x => In x (section_members w s))
          (fun m => In m (section_materials w s)).
Proof.
  intros r k v sets s Hv. destruct Hv as (Hm & Hc & Ho & Hs & Ha).
  pose proof (f_equal sec_eqMethod (Hs s)) as Em.
  pose proof (f_equal sec_scSection (Hs s)) as Ep.
  pose proof (f_equal sec_rod (Hs s)) as Er.
  pose proof (f_equal sec_region (Hs s)) as Eg.
  simpl in Em, Ep, Er, Eg.
  unfold Core.visit_section. cbn [fst snd]. split.
  - split; [exact Hm|]. split; [exact Hc|]. split; [exact Ho|]. split.
    + intro s'. simpl. unfold upd. destruct (Nat.eqb s' s) eqn:E.
      * apply Nat.eqb_eq in E. subst s'. rewrite <- (Hs s). reflexivity.
      * apply Hs.
    + exact Ha.
  - rewrite Em, Ep, Er, Eg. unfold section_members, section_materials.
    set (sc := String.eqb (sec_eqMethod (sections w s)) "supercell").
    eapply grown_ext;
      [| | | eapply grown_trans;
             [eapply grown_trans;
              [eapply grown_trans;
               [|apply (add_section_grown (Some s))]
              | apply add_materials_grown]
             | apply add_materials_grown]].
    4:{ instantiate (3 := fun _ => False).
        instantiate (2 := fun x => In x (if sc then [sec_scSection (sections w s)]
                                         else [])).
        instantiate (1 := fun _ => False).
        destruct sc.
        - eapply grown_ext; [| | | apply add_section_grown];
            simpl; intro; intuition.
        - eapply grown_ext; [| | | apply grown_refl]; simpl; intro; intuition. }
    + simpl. tauto.
    + intro x. rewrite in_app_iff. simpl. intuition.
    + intro x. rewrite in_app_iff. tauto.
Qed.

Lemma visit_assembly_grown :
  forall r v sets (ka : Z * asm_ref),
    same_but_positions w v ->
    same_but_positions w (fst (Core.visit_assembly r (v, sets) ka)) /\
    grown sets (snd (Core.visit_assembly r (v, sets) ka))
          (fun a => a = snd ka)
          (fun x => exists s, In s (asm_sections (assemblies w (snd ka))) /\
                              In x (section_members w s))
          (fun m => exists s, In s (asm_sections (assemblies w (snd ka))) /\
                              In m (section_materials w s)).
Proof.
  intros r v sets [k a] Hv. unfold Core.visit_assembly. cbn [snd].
  set (v1 := set_assembly a (with_asm_rk r k (assemblies v a)) v).
  assert (Hv1 : same_but_positions w v1).
  { destruct Hv as (Hm & Hc & Ho & Hs & Ha).
    split; [exact Hm|]. split; [exact Hc|]. split; [exact Ho|].
    split; [exact Hs|]. intro a'. unfold v1. simpl. unfold upd.
    destruct (Nat.eqb a' a) eqn:E; [|apply Ha].
    apply Nat.eqb_eq in E. subst a'. rewrite <- (Ha a). reflexivity. }
  assert (Esecs : asm_sections (assemblies v1 a) = asm_sections (assemblies w a)).
  { destruct Hv1 as (_ & _ & _ & _ & Ha).
    exact (f_equal asm_sections (Ha a)). }
  rewrite Esecs.
  destruct (fold_grown (Core.visit_section r k)
              (fun _ _ => False)
              (fun s x => In x (section_members w s))
              (fun s m => In m (section_materials w s))
              (asm_sections (assemblies w a))
              (fun v sets s H => visit_section_grown r k v sets s H)
              v1 (Core.add_assembly a sets) Hv1) as (Hv2 & G).
  split; [exact Hv2|].
  eapply grown_ext; [| | | exact (grown_trans _ _ _ _ _ _ _ _ _
                                      (add_assembly_grown a sets) G)];
    intro x; simpl.
  - split; [intros [H | (s & _ & [])]; exact H | intro H; now left].
  - split; [intros [[] | H]; exact H | intro H; now right].
  - split; [intros [[] | H]; exact H | intro H; now right].
Qed.

Lemma traverse_grown :
  forall lattice v sets,
    same_but_positions w v ->
    same_but_positions w (fst (Core.traverse lattice (v, sets))) /\
    grown sets (snd (Core.traverse lattice (v, sets)))
          (fun a => In a (concat lattice))
          (fun x => exists s, In s (placed_sections w lattice) /\
                              In x (section_members w s))
          (fun m => exists s, In s (placed_sections w lattice) /\
                              In m (section_materials w s)).
Proof.
  intros lattice v sets Hv. unfold Core.traverse.
  destruct (fold_grown
              (fun st (rr : Z * list asm_ref) =>
                 fold_left (Core.visit_assembly (fst rr)) (enumerate (snd rr)) st)
              (fun rr a => In a (snd rr))
              (fun rr x => exists a s, In a (snd rr) /\
                                       In s (asm_sections (assemblies w a)) /\
                                       In x (section_members w s))
              (fun rr m => exists a s, In a (snd rr) /\
                                       In s (asm_sections (assemblies w a)) /\
                                       In m (section_materials w s))
              (enumerate lattice)) with (v := v) (sets := sets) as (Hv' & G);
    [|exact Hv|].
  - intros v0 sets0 [r ring] Hv0. cbn [fst snd].
    destruct (fold_grown (Core.visit_assembly r) _ _ _ (enumerate ring)
                (fun v sets ka H => visit_assembly_grown r v sets ka H)
                v0 sets0 Hv0) as (Hv1 & G1).
    split; [exact Hv1|].
    eapply grown_ext; [| | | exact G1]; intro x; simpl.
    + split.
      * intros ([k a] & Hin & ->). apply in_enumerate. exists k. exact Hin.
      * intro H. apply in_enumerate in H. destruct H as (k & Hk).
        exists (k, x). split; [exact Hk | reflexivity].
    + split.
      * intros ([k a] & Hin & s & Hs & Hx). exists a, s.
        split; [apply in_enumerate; exists k; exact Hin | split; assumption].
      * intros (a & s & Ha & Hs & Hx). apply in_enumerate in Ha.
        destruct Ha as (k & Hk). exists (k, a). split; [exact Hk|].
        exists s. split; assumption.
    + split.
      * intros ([k a] & Hin & s & Hs & Hx). exists a, s.
        split; [apply in_enumerate; exists k; exact Hin | split; assumption].
      * intros (a & s & Ha & Hs & Hx). apply in_enumerate in Ha.
        destruct Ha as (k & Hk). exists (k, a). split; [exact Hk|].
        exists s. split; assumption.
  - split; [exact Hv'|].
    eapply grown_ext; [| | | exact G]; intro x; simpl; unfold placed_sections.
    + split.
      * intros ([r ring] & Hin & Ha). apply in_concat. exists ring.
        split; [apply in_enumerate; exists r; exact Hin | exact Ha].
      * intro H. apply in_concat in H. destruct H as (ring & Hr & Ha).
        apply in_enumerate in Hr. destruct Hr as (r & Hr).
        exists (r, ring). split; assumption.
    + split.
      * intros ([r ring] & Hin & a & s & Ha & Hs & Hx). exists s.
        split; [|exact Hx]. apply in_flat_map. exists a. split; [|exact Hs].
        apply in_concat. exists ring.
        split; [apply in_enumerate; exists r; exact Hin | exact Ha].
      * intros (s & Hs & Hx). apply in_flat_map in Hs.
        destruct Hs as (a & Ha & Hs). apply in_concat in Ha.
        destruct Ha as (ring & Hr & Ha). apply in_enumerate in Hr.
        destruct Hr as (r & Hr). exists (r, ring). split; [exact Hr|].
        exists a, s. repeat split; assumption.
    + split.
      * intros ([r ring] & Hin & a & s & Ha & Hs & Hx). exists s.
        split; [|exact Hx]. apply in_flat_map. exists a. split; [|exact Hs].
        apply in_concat. exists ring.
        split; [apply in_enumerate; exists r; exact Hin | exact Ha].
      * intros (s & Hs & Hx). apply in_flat_map in Hs.
        destruct Hs as (a & Ha & Hs). apply in_concat in Ha.
        destruct Ha as (ring & Hr & Ha). apply in_enumerate in Hr.
        destruct Hr as (r & Hr). exists (r, ring). split; [exact Hr|].
        exists a, s. repeat split; assumption.
Qed.

End Traverse.


(** ** [Core.specifyID]: the identifiers *)

(** A loop that rewrites the objects of a list, each with its index. *)
Lemma fold_upd_spec {A} (f : Z -> A -> A) :
  forall (ias : list (Z * nat)) (h : nat -> A),
    NoDup (map snd ias) ->
    let h' := fold_left (fun h ia => upd h (snd ia) (f (fst ia) (h (snd ia))))
                        ias h in
    (forall x, ~ In x (map snd ias) -> h' x = h x) /\
    (forall i x, In (i, x) ias -> h' x = f i (h x)).
Proof.
  induction ias as [|[i0 x0] ias IH]; intros h N; cbv zeta.
  - simpl. split; [reflexivity | intros i x []].
  - cbn [fold_left fst snd]. simpl in N. inversion N as [|? ? Hx0 N']; subst.
    destruct (IH (upd h x0 (f i0 (h x0))) N') as (Hout & Hin).
    cbv zeta in Hout, Hin. split.
    + intros x Hx. rewrite Hout by (intro; apply Hx; now right).
      apply upd_other. intro E. apply Hx. left. simpl. congruence.
    + intros i x [E | Hix].
      * injection E as <- <-. rewrite Hout by exact Hx0. apply upd_same.
      * rewrite (Hin i x Hix). f_equal. apply upd_other. intros ->.
        apply Hx0. apply in_map_iff. exists (i, x0). split; [reflexivity | exact Hix].
Qed.

Lemma assign_assembly_ids_heaps :
  forall l v,
    let v' := Core.assign_assembly_ids l v in
    assemblies v'
    = fold_left (fun h ia => upd h (snd ia) (with_asm_id (fst ia + 1) (h (snd ia))))
                (enumerate l) (assemblies v) /\
    materials v' = materials v /\ sections v' = sections v /\
    cores v' = cores v /\ stdout v' = stdout v.
Proof.
  intros l v. unfold Core.assign_assembly_ids. cbv zeta.
  generalize (enumerate l). intro ias. revert v.
  induction ias as [|ia ias IH]; intro v; [repeat split|].
  cbn [fold_left]. destruct (IH (set_assembly (snd ia)
                                   (with_asm_id (fst ia + 1) (assemblies v (snd ia))) v))
    as (E1 & E2 & E3 & E4 & E5).
  rewrite E1, E2, E3, E4, E5. repeat split.
Qed.

Lemma assign_section_ids_heaps :
  forall l v,
    let v' := Core.assign_section_ids l v in
    sections v'
    = fold_left (fun h ia => upd h (snd ia) (with_sec_id (fst ia + 1) (h (snd ia))))
                (enumerate l) (sections v) /\
    materials v' = materials v /\ assemblies v' = assemblies v /\
    cores v' = cores v /\ stdout v' = stdout v.
Proof.
  intros l v. unfold Core.assign_section_ids. cbv zeta.
  generalize (enumerate l). intro ias. revert v.
  induction ias as [|ia ias IH]; intro v; [repeat split|].
  cbn [fold_left]. destruct (IH (set_section (snd ia)
                                   (with_sec_id (fst ia + 1) (sections v (snd ia))) v))
    as (E1 & E2 & E3 & E4 & E5).
  rewrite E1, E2, E3, E4, E5. repeat split.
Qed.

Lemma assign_material_ids_heaps :
  forall l v,
    let v' := Core.assign_material_ids l v in
    materials v'
    = fold_left (fun h ia => upd h (snd ia) (with_mat_id (fst ia + 1) (h (snd ia))))
                (enumerate l) (materials v) /\
    sections v' = sections v /\ assemblies v' = assemblies v /\
    cores v' = cores v /\ stdout v' = stdout v.
Proof.
  intros l v. unfold Core.assign_material_ids. cbv zeta.
  generalize (enumerate l). intro ias. revert v.
  induction ias as [|ia ias IH]; intro v; [repeat split|].
  cbn [fold_left]. destruct (IH (set_material (snd ia)
                                   (with_mat_id (fst ia + 1) (materials v (snd ia))) v))
    as (E1 & E2 & E3 & E4 & E5).
  rewrite E1, E2, E3, E4, E5. repeat split.
Qed.

(** The objects of a duplicate-free list, numbered in a loop, carry
    [1, 2, ..., n] in the order of the list; the others are left alone. *)
Lemma numbered {A} (f : Z -> A -> A) (g : A -> Z) (l : list nat) (h : nat -> A) :
  (forall i a, g (f i a) = i + 1) ->
  NoDup l ->
  let h' := fold_left (fun h ia => upd h (snd ia) (f (fst ia) (h (snd ia))))
                      (enumerate l) h in
  map (fun x => g (h' x)) l = one_to (len l) /\
  (forall x, ~ In x l -> h' x = h x) /\
  (forall x, In x l -> exists i, h' x = f i (h x)).
Proof.
  intros Hg N.
  destruct (fold_upd_spec f (enumerate l) h) as (Hout & Hin).
  { rewrite map_snd_enumerate. exact N. }
  cbv zeta in *. rewrite map_snd_enumerate in Hout. split; [|split].
  - unfold one_to. rewrite <- (map_fst_enumerate l).
    rewrite <- (map_snd_enumerate l) at 1. rewrite !map_map.
    apply map_ext_in. intros [i x] Hix. cbn [fst snd].
    rewrite (Hin i x Hix). apply Hg.
  - exact Hout.
  - intros x Hx. apply in_enumerate in Hx. destruct Hx as (i & Hi).
    exists i. apply Hin. exact Hi.
Qed.

Lemma section_objects_ok :
  forall l secs, Core.section_objects l = Ok secs -> l = map Some secs.
Proof.
  induction l as [|[s|] l IH]; intros secs H; simpl in H.
  - injection H as <-. reflexivity.
  - destruct (Core.section_objects l) as [ss|e]; [|discriminate].
    simpl in H. injection H as <-. simpl. rewrite (IH ss eq_refl). reflexivity.
  - discriminate.
Qed.

Lemma section_objects_raise :
  forall l e,
    Core.section_objects l = Raise e -> e = AttributeError /\ In None l.
Proof.
  induction l as [|[s|] l IH]; intros e H; simpl in H.
  - discriminate.
  - destruct (Core.section_objects l) as [ss|e'] eqn:E; [discriminate|].
    simpl in H. injection H as <-. destruct (IH e' eq_refl) as (-> & Hin).
    split; [reflexivity | now right].
  - injection H as <-. split; [reflexivity | now left].
Qed.

Lemma String_leb_total :
  forall a b, String.leb a b = false -> String.leb b a = true.
Proof.
  intros a b H. destruct (String.leb_total a b) as [E | E]; congruence.
Qed.

(** What a run of [Core.specifyID] does, step by step. *)
Lemma specifyID_run :
  forall self w,
    let c := cores w self in
    exists w1 sets,
      same_but_positions w w1 /\
      grown (mkIdsets [] [] []) sets
            (fun a => In a (concat (core_lattice c)))
            (fun x => (exists s, In s (placed_sections w (core_lattice c)) /\
                                 In x (section_members w s)) \/
                      x = Some (core_coolant c))
            (fun m => (exists s, In s (placed_sections w (core_lattice c)) /\
                                 In m (section_materials w s)) \/
                      In m (map snd (sec_region (sections w (core_coolant c))))) /\
      Core.specifyID self w
      = match Core.section_objects (set_sections sets) with
        | Raise e => (w1, Raise e)
        | Ok secs =>
            let asms := sorted String.leb (fun a => asm_location (assemblies w1 a))
                               (set_assemblies sets) in
            let secs := sorted String.leb (Core.section_key w1) secs in
            let mats := sorted String.leb (fun m => mat_name (materials w1 m))
                               (set_materials sets) in
            let w4 := Core.assign_material_ids mats
                        (Core.assign_section_ids secs
                           (Core.assign_assembly_ids asms w1)) in
            (set_core self (with_core_objects asms secs mats (cores w4 self)) w4,
             Ok tt)
        end.
Proof.
  intros self w c. unfold Core.specifyID. fold c.
  destruct (traverse_grown w (core_lattice c) w (mkIdsets [] [] [])
              (same_but_positions_refl w)) as (Hv & G).
  destruct (Core.traverse (core_lattice c) (w, mkIdsets [] [] [])) as [w1 sets].
  cbn [fst snd] in Hv, G.
  exists w1.
  exists (Core.add_materials (sec_region (sections w1 (core_coolant c)))
            (Core.add_section (Some (core_coolant c)) sets)).
  split; [exact Hv|]. split; [|reflexivity].
  assert (Er : sec_region (sections w1 (core_coolant c))
               = sec_region (sections w (core_coolant c))).
  { destruct Hv as (_ & _ & _ & Hs & _).
    exact (f_equal sec_region (Hs (core_coolant c))). }
  rewrite Er.
  eapply grown_ext;
    [| | | exact (grown_trans _ _ _ _ _ _ _ _ _
                    (grown_trans _ _ _ _ _ _ _ _ _ G
                       (add_section_grown (Some (core_coolant c)) sets))
                    (add_materials_grown
                       (sec_region (sections w (core_coolant c))) _))];
    intro x; simpl; tauto.
Qed.


Lemma sorted_in {A K} (leb : K -> K -> bool) (key : A -> K) (l : list A) :
  forall x, In x (sorted leb key l) <-> In x l.
Proof.
  intro x. split; apply Permutation_in;
    [|symmetry]; apply sorted_permutation.
Qed.

Lemma sorted_NoDup {A K} (leb : K -> K -> bool) (key : A -> K) (l : list A) :
  NoDup l -> NoDup (sorted leb key l).
Proof.
  apply Permutation_NoDup. symmetry. apply sorted_permutation.
Qed.

(** A run of [Core.specifyID] that returns: the three lists, and the
    world it leaves. *)
Lemma specifyID_ok_inv :
  forall self w w',
    Core.specifyID self w = (w', Ok tt) ->
    let c := cores w self in
    exists w1 asms secs mats,
      same_but_positions w w1 /\
      NoDup asms /\ NoDup secs /\ NoDup mats /\
      (forall a, In a asms <-> In a (concat (core_lattice c))) /\
      (forall s, In s secs <->
                 (exists p, In p (placed_sections w (core_lattice c)) /\
                            In (Some s) (section_members w p)) \/
                 s = core_coolant c) /\
      (forall p, In p (placed_sections w (core_lattice c)) ->
                 ~ In None (section_members w p)) /\
      (forall m, In m mats <->
                 (exists s, In s (placed_sections w (core_lattice c)) /\
                            In m (section_materials w s)) \/
                 In m (map snd (sec_region (sections w (core_coolant c))))) /\
      Sorted (fun a b => String.leb (asm_location (assemblies w1 a))
                                    (asm_location (assemblies w1 b)) = true) asms /\
      Sorted (fun a b => String.leb (Core.section_key w1 a)
                                    (Core.section_key w1 b) = true) secs /\
      Sorted (fun a b => String.leb (mat_name (materials w1 a))
                                    (mat_name (materials w1 b)) = true) mats /\
      let w4 := Core.assign_material_ids mats
                  (Core.assign_section_ids secs
                     (Core.assign_assembly_ids asms w1)) in
      w' = set_core self (with_core_objects asms secs mats (cores w4 self)) w4.
Proof.
  intros self w w' H c.
  destruct (specifyID_run self w) as (w1 & sets & Hv & (GA & GS & GM) & E).
  fold c in GA, GS, GM. rewrite E in H. clear E.
  destruct (Core.section_objects (set_sections sets)) as [secs0|e] eqn:Eo;
    [|discriminate].
  apply section_objects_ok in Eo. cbv zeta in H.
  injection H as H.
  exists w1.
  exists (sorted String.leb (fun a => asm_location (assemblies w1 a))
            (set_assemblies sets)).
  exists (sorted String.leb (Core.section_key w1) secs0).
  exists (sorted String.leb (fun m => mat_name (materials w1 m))
            (set_materials sets)).
  destruct GA as (GA & NA). destruct GS as (GS & NS). destruct GM as (GM & NM).
  simpl in GA, GS, GM, NA, NS, NM.
  split; [exact Hv|].
  split; [apply sorted_NoDup, NA; constructor|].
  split.
  { apply sorted_NoDup. specialize (NS (NoDup_nil _)). rewrite Eo in NS.
    apply NoDup_map_inv in NS. exact NS. }
  split; [apply sorted_NoDup, NM; constructor|].
  split.
  { intro a. rewrite sorted_in, GA. tauto. }
  split.
  { intro s. rewrite sorted_in.
    assert (In s secs0 <-> In (Some s) (set_sections sets)) as ->.
    { rewrite Eo. split; [apply in_map|].
      intro Hin. apply in_map_iff in Hin. destruct Hin as (y & Ey & Hy).
      injection Ey as ->. exact Hy. }
    rewrite GS. split.
    - intros [[] | [Hp | Hc]]; [left; exact Hp | right; congruence].
    - intros [Hp | ->]; right; [left; exact Hp | right; reflexivity]. }
  split.
  { intros p Hp Hn.
    assert (Hin : In None (set_sections sets)).
    { apply GS. right. left. exists p. split; assumption. }
    rewrite Eo in Hin. apply in_map_iff in Hin.
    destruct Hin as (y & Ey & _). discriminate. }
  split.
  { intro m. rewrite sorted_in, GM. tauto. }
  split; [apply sorted_is_sorted, String_leb_total|].
  split; [apply sorted_is_sorted, String_leb_total|].
  split; [apply sorted_is_sorted, String_leb_total|].
  cbv zeta. symmetry. exact H.
Qed.

(** The lists of the core after [Core.specifyID], and the identifiers
    of their objects. *)
Lemma specifyID_ok_numbers :
  forall (self : core_ref) (w w' : World),
    Core.specifyID self w = (w', Ok tt) ->
    let c' := cores w' self in
    NoDup (core_assemblies c') /\
    NoDup (core_sections c') /\
    NoDup (core_materials c') /\
    map (fun a => asm_id (assemblies w' a)) (core_assemblies c')
    = one_to (len (core_assemblies c')) /\
    map (fun s => sec_id (sections w' s)) (core_sections c')
    = one_to (len (core_sections c')) /\
    map (fun m => mat_id (materials w' m)) (core_materials c')
    = one_to (len (core_materials c')).
Proof.
  intros self w w' H.
  destruct (specifyID_ok_inv self w w' H)
    as (w1 & asms & secs & mats & _ & NA & NS & NM & _ & _ & _ & _ & _ & _ & _ & E).
  cbv zeta in E |- *.
  destruct (assign_assembly_ids_heaps asms w1) as (A1 & A2 & A3 & A4 & A5).
  destruct (assign_section_ids_heaps secs (Core.assign_assembly_ids asms w1))
    as (S1 & S2 & S3 & S4 & S5).
  destruct (assign_material_ids_heaps mats
              (Core.assign_section_ids secs (Core.assign_assembly_ids asms w1)))
    as (M1 & M2 & M3 & M4 & M5).
  cbv zeta in A1, A2, A3, A4, A5, S1, S2, S3, S4, S5, M1, M2, M3, M4, M5.
  assert (Ec : cores w' self
               = with_core_objects asms secs mats
                   (cores (Core.assign_material_ids mats
                             (Core.assign_section_ids secs
                                (Core.assign_assembly_ids asms w1))) self)).
  { rewrite E. simpl. apply upd_same. }
  rewrite Ec. cbn [core_assemblies core_sections core_materials with_core_objects].
  assert (Ea : assemblies w' = assemblies (Core.assign_assembly_ids asms w1))
    by (rewrite E; simpl; rewrite M3, S3; reflexivity).
  assert (Es : sections w'
               = sections (Core.assign_section_ids secs
                             (Core.assign_assembly_ids asms w1)))
    by (rewrite E; simpl; rewrite M2; reflexivity).
  assert (Em : materials w'
               = materials (Core.assign_material_ids mats
                              (Core.assign_section_ids secs
                                 (Core.assign_assembly_ids asms w1))))
    by (rewrite E; reflexivity).
  rewrite Ea, Es, Em, A1, S1, M1.
  split; [exact NA|]. split; [exact NS|]. split; [exact NM|].
  split; [|split].
  - apply (numbered (fun i => with_asm_id (i + 1)) asm_id asms _
             (fun _ _ => eq_refl) NA).
  - apply (numbered (fun i => with_sec_id (i + 1)) sec_id secs _
             (fun _ _ => eq_refl) NS).
  - apply (numbered (fun i => with_mat_id (i + 1)) mat_id mats _
             (fun _ _ => eq_refl) NM).
Qed.

Lemma in_one_to : forall n i, In i (one_to n) <-> 1 <= i <= n.
Proof.
  intros n i. unfold one_to. rewrite in_map_iff. split.
  - intros (j & <- & Hj). apply in_range in Hj. lia.
  - intro H. exists (i - 1). split; [lia | apply in_range; lia].
Qed.

Lemma NoDup_one_to : forall n, NoDup (one_to n).
Proof.
  intro n. unfold one_to.
  apply NoDup_map_NoDup_ForallPairs; [|apply NoDup_range].
  intros a b _ _ H. lia.
Qed.

Lemma NoDup_map_injective {A B} (g : A -> B) (l : list A) :
  NoDup (map g l) ->
  forall x y, In x l -> In y l -> g x = g y -> x = y.
Proof.
  induction l as [|a l IH]; intros N x y Hx Hy E; [destruct Hx|].
  simpl in N. inversion N as [|? ? Ha N']; subst.
  destruct Hx as [<- | Hx], Hy as [<- | Hy].
  - reflexivity.
  - exfalso. apply Ha. rewrite E. apply in_map. exact Hy.
  - exfalso. apply Ha. rewrite <- E. apply in_map. exact Hx.
  - apply (IH N' x y Hx Hy E).
Qed.

(** Objects numbered [1, 2, ..., n] have identifiers between 1 and [n],
    no two the same. *)
Lemma numbered_unique {A} (g : A -> Z) (l : list A) :
  map g l = one_to (len l) ->
  (forall x, In x l -> 1 <= g x <= len l) /\
  (forall x y, In x l -> In y l -> g x = g y -> x = y).
Proof.
  intro H. split.
  - intros x Hx. apply in_one_to. rewrite <- H. apply in_map. exact Hx.
  - apply NoDup_map_injective. rewrite H. apply NoDup_one_to.
Qed.

(** X11: after [Core.specifyID] the identifiers of the assemblies, of the
    sections and of the materials listed by the core are [1, 2, ..., n]
    in the order of each list: every listed object has an identifier
    between 1 and the length of its list, and no two listed objects of a
    kind share one. *)
Theorem specifyID_numbers_from_one :
  forall (self : core_ref) (w w' : World),
    Core.specifyID self w = (w', Ok tt) ->
    let c' := cores w' self in
    (map (fun a => asm_id (assemblies w' a)) (core_assemblies c')
     = one_to (len (core_assemblies c')) /\
     map (fun s => sec_id (sections w' s)) (core_sections c')
     = one_to (len (core_sections c')) /\
     map (fun m => mat_id (materials w' m)) (core_materials c')
     = one_to (len (core_materials c'))) /\
    (forall a, In a (core_assemblies c') ->
       1 <= asm_id (assemblies w' a) <= len (core_assemblies c')) /\
    (forall s, In s (core_sections c') ->
       1 <= sec_id (sections w' s) <= len (core_sections c')) /\
    (forall m, In m (core_materials c') ->
       1 <= mat_id (materials w' m) <= len (core_materials c')) /\
    (forall a b, In a (core_assemblies c') -> In b (core_assemblies c') ->
       asm_id (assemblies w' a) = asm_id (assemblies w' b) -> a = b) /\
    (forall s t, In s (core_sections c') -> In t (core_sections c') ->
       sec_id (sections w' s) = sec_id (sections w' t) -> s = t) /\
    (forall m n, In m (core_materials c') -> In n (core_materials c') ->
       mat_id (materials w' m) = mat_id (materials w' n) -> m = n).
Proof.
  intros self w w' H c'.
  destruct (specifyID_ok_numbers self w w' H) as (_ & _ & _ & EA & ES & EM).
  fold c' in EA, ES, EM.
  destruct (numbered_unique _ _ EA) as (BA & IA).
  destruct (numbered_unique _ _ ES) as (BS & IS).
  destruct (numbered_unique _ _ EM) as (BM & IM).
  split; [split; [exact EA | split; [exact ES | exact EM]]|].
  split; [exact BA|]. split; [exact BS|]. split; [exact BM|].
  split; [exact IA|]. split; [exact IS | exact IM].
Qed.

Lemma specifyID_numbers_from_one_witness :
  let w' := fst (Core.specifyID 0%nat Samples.stack_world) in
  map (fun s => sec_id (sections w' s)) (core_sections (cores w' 0%nat))
  = one_to (len (core_sections (cores w' 0%nat))).
Proof.
  intro w'.
  destruct (specifyID_numbers_from_one 0%nat Samples.stack_world w')
    as ((_ & E & _) & _).
  - run_returns.
  - exact E.
Defined.


Lemma in_section_members :
  forall w p s,
    In (Some s) (section_members w p) <->
    s = p \/
    (sec_eqMethod (sections w p) = "supercell"%string /\
     sec_scSection (sections w p) = Some s).
Proof.
  intros w p s. unfold section_members. rewrite in_app_iff.
  destruct (String.eqb_spec (sec_eqMethod (sections w p)) "supercell") as [E | NE];
    simpl; split.
  - intros [[H | []] | [H | []]]; [right; split; assumption | left; congruence].
  - intros [-> | (_ & H)]; [right; left; reflexivity | left; left; exact H].
  - intros [[] | [H | []]]. left. congruence.
  - intros [-> | (H & _)]; [right; left; reflexivity | contradiction].
Qed.

Lemma none_in_section_members :
  forall w p,
    In None (section_members w p) <->
    sec_eqMethod (sections w p) = "supercell"%string /\
    sec_scSection (sections w p) = None.
Proof.
  intros w p. unfold section_members. rewrite in_app_iff.
  destruct (String.eqb_spec (sec_eqMethod (sections w p)) "supercell") as [E | NE];
    simpl; split.
  - intros [[H | []] | [H | []]]; [split; assumption | discriminate].
  - intros (_ & H). left. left. exact H.
  - intros [[] | [H | []]]. discriminate.
  - intros (H & _). contradiction.
Qed.

(** X12: after [Core.specifyID] the lists of the core hold exactly the
    assemblies of the lattice; their sections, the supercell partners of
    these and the coolant; and the materials of the rods and regions of
    the sections of the lattice and of the regions of the coolant. *)
Theorem specifyID_lists_what_is_placed :
  forall (self : core_ref) (w w' : World),
    Core.specifyID self w = (w', Ok tt) ->
    let c := cores w self in
    let c' := cores w' self in
    (forall a, In a (core_assemblies c') <-> In a (concat (core_lattice c))) /\
    (forall s, In s (core_sections c') <->
       s = core_coolant c \/
       exists p, In p (placed_sections w (core_lattice c)) /\
         (s = p \/
          (sec_eqMethod (sections w p) = "supercell"%string /\
           sec_scSection (sections w p) = Some s))) /\
    (forall m, In m (core_materials c') <->
       In m (map snd (sec_region (sections w (core_coolant c)))) \/
       exists p, In p (placed_sections w (core_lattice c)) /\
         (In m (map snd (sec_rod (sections w p))) \/
          In m (map snd (sec_region (sections w p))))).
Proof.
  intros self w w' H.
  destruct (specifyID_ok_inv self w w' H)
    as (w1 & asms & secs & mats & _ & _ & _ & _ & HA & HS & _ & HM & _ & _ & _ & E).
  cbv zeta in E |- *.
  assert (Ec : cores w' self
               = with_core_objects asms secs mats
                   (cores (Core.assign_material_ids mats
                             (Core.assign_section_ids secs
                                (Core.assign_assembly_ids asms w1))) self)).
  { rewrite E. simpl. apply upd_same. }
  rewrite Ec. cbn [core_assemblies core_sections core_materials with_core_objects].
  split; [exact HA|]. split.
  - intro s. rewrite HS. split.
    + intros [(p & Hp & Hin) | ->]; [right | left; reflexivity].
      exists p. split; [exact Hp | apply in_section_members; exact Hin].
    + intros [-> | (p & Hp & Hin)]; [right; reflexivity | left].
      exists p. split; [exact Hp | apply in_section_members; exact Hin].
  - intro m. rewrite HM. unfold section_materials. split.
    + intros [(p & Hp & Hin) | Hc]; [right | left; exact Hc].
      exists p. split; [exact Hp | apply in_app_iff; exact Hin].
    + intros [Hc | (p & Hp & Hin)]; [right; exact Hc | left].
      exists p. split; [exact Hp | apply in_app_iff; exact Hin].
Qed.

Lemma specifyID_lists_what_is_placed_witness :
  let w' := fst (Core.specifyID 0%nat Samples.stack_world) in
  In 0%nat (core_assemblies (cores w' 0%nat)) <->
  In 0%nat (concat (core_lattice (cores Samples.stack_world 0%nat))).
Proof.
  intro w'.
  destruct (specifyID_lists_what_is_placed 0%nat Samples.stack_world w')
    as (H & _).
  - run_returns.
  - exact (H 0%nat).
Defined.

Lemma section_objects_none :
  forall l, In None l -> Core.section_objects l = Raise AttributeError.
Proof.
  induction l as [|[s|] l IH]; intro H.
  - destruct H.
  - destruct H as [E | H]; [discriminate|]. simpl. rewrite (IH H). reflexivity.
  - reflexivity.
Qed.

(** X13: [Core.specifyID] raises exactly when a section of the lattice is a
    supercell section without a partner, and then it raises
    [AttributeError] having written lattice positions only: no
    identifier and no list of the core is changed. *)
Theorem specifyID_raises_without_partner :
  forall (self : core_ref) (w : World),
    let c := cores w self in
    (snd (Core.specifyID self w) = Raise AttributeError <->
     exists p, In p (placed_sections w (core_lattice c)) /\
               sec_eqMethod (sections w p) = "supercell"%string /\
               sec_scSection (sections w p) = None) /\
    (snd (Core.specifyID self w) = Ok tt \/
     snd (Core.specifyID self w) = Raise AttributeError) /\
    (snd (Core.specifyID self w) = Raise AttributeError ->
     same_but_positions w (fst (Core.specifyID self w))).
Proof.
  intros self w c.
  destruct (specifyID_run self w) as (w1 & sets & Hv & (_ & (GS & _) & _) & E).
  fold c in GS. simpl in GS. rewrite E. clear E.
  assert (Hnone : In None (set_sections sets) <->
                  exists p, In p (placed_sections w (core_lattice c)) /\
                            sec_eqMethod (sections w p) = "supercell"%string /\
                            sec_scSection (sections w p) = None).
  { rewrite GS. split.
    - intros [[] | [(p & Hp & Hin) | Hc]]; [|discriminate].
      exists p. split; [exact Hp | apply none_in_section_members; exact Hin].
    - intros (p & Hp & Hin). right. left. exists p.
      split; [exact Hp | apply none_in_section_members; exact Hin]. }
  destruct (Core.section_objects (set_sections sets)) as [secs|e] eqn:Eo.
  - cbv zeta. cbn [snd fst]. split; [|split; [now left | discriminate]].
    split; [discriminate|]. intro Hp. apply Hnone in Hp.
    rewrite (section_objects_none _ Hp) in Eo. discriminate.
  - apply section_objects_raise in Eo. destruct Eo as (-> & Hin).
    cbn [snd fst]. split; [|split; [now right | intros _; exact Hv]].
    split; [intros _; apply Hnone; exact Hin | reflexivity].
Qed.

(** What [Core.specifyID] leaves as it is when it returns. *)
Lemma specifyID_ok_same :
  forall self w w',
    Core.specifyID self w = (w', Ok tt) ->
    same_but_ids w w' /\
    (forall c0, c0 <> self -> cores w' c0 = cores w c0) /\
    with_core_objects [] [] [] (cores w' self)
    = with_core_objects [] [] [] (cores w self).
Proof.
  intros self w w' H.
  destruct (specifyID_ok_inv self w w' H)
    as (w1 & asms & secs & mats & Hv & NA & NS & NM & _ & _ & _ & _ & _ & _ & _ & E).
  cbv zeta in E.
  destruct (assign_assembly_ids_heaps asms w1) as (A1 & A2 & A3 & A4 & A5).
  destruct (assign_section_ids_heaps secs (Core.assign_assembly_ids asms w1))
    as (S1 & S2 & S3 & S4 & S5).
  destruct (assign_material_ids_heaps mats
              (Core.assign_section_ids secs (Core.assign_assembly_ids asms w1)))
    as (M1 & M2 & M3 & M4 & M5).
  cbv zeta in A1, A2, A3, A4, A5, S1, S2, S3, S4, S5, M1, M2, M3, M4, M5.
  destruct Hv as (Hm & Hc & Ho & Hs & Ha).
  destruct (numbered (fun i => with_asm_id (i + 1)) asm_id asms (assemblies w1)
              (fun _ _ => eq_refl) NA) as (_ & OA & IA).
  destruct (numbered (fun i => with_sec_id (i + 1)) sec_id secs (sections w1)
              (fun _ _ => eq_refl) NS) as (_ & OS & IS).
  destruct (numbered (fun i => with_mat_id (i + 1)) mat_id mats (materials w1)
              (fun _ _ => eq_refl) NM) as (_ & OM & IM).
  cbv beta zeta in OA, IA, OS, IS, OM, IM.
  assert (Ecores : cores (Core.assign_material_ids mats
                            (Core.assign_section_ids secs
                               (Core.assign_assembly_ids asms w1))) = cores w)
    by (rewrite M4, S4, A4; exact Hc).
  split; [|split].
  - split; [|split; [|split]].
    + rewrite E. simpl. rewrite M5, S5, A5. exact Ho.
    + intro m. rewrite E. simpl. rewrite M1, S2, A2.
      destruct (in_dec Nat.eq_dec m mats) as [Hin | Hout].
      * destruct (IM m Hin) as (i & Ei).
        etransitivity; [exact (f_equal (with_mat_id 0) Ei)|].
        rewrite <- Hm. reflexivity.
      * etransitivity; [exact (f_equal (with_mat_id 0) (OM m Hout))|].
        rewrite Hm. reflexivity.
    + intro s. rewrite E. simpl. rewrite M2, S1, A3.
      destruct (in_dec Nat.eq_dec s secs) as [Hin | Hout].
      * destruct (IS s Hin) as (i & Ei).
        etransitivity;
          [exact (f_equal (fun z => with_sec_id 0 (with_sec_rk 0 0 z)) Ei)|].
        exact (f_equal (with_sec_id 0) (Hs s)).
      * etransitivity;
          [exact (f_equal (fun z => with_sec_id 0 (with_sec_rk 0 0 z))
                    (OS s Hout))|].
        exact (f_equal (with_sec_id 0) (Hs s)).
    + intro a. rewrite E. simpl. rewrite M3, S3, A1.
      destruct (in_dec Nat.eq_dec a asms) as [Hin | Hout].
      * destruct (IA a Hin) as (i & Ei).
        etransitivity;
          [exact (f_equal (fun z => with_asm_id 0 (with_asm_rk 0 0 z)) Ei)|].
        exact (f_equal (with_asm_id 0) (Ha a)).
      * etransitivity;
          [exact (f_equal (fun z => with_asm_id 0 (with_asm_rk 0 0 z))
                    (OA a Hout))|].
        exact (f_equal (with_asm_id 0) (Ha a)).
  - intros c0 Hc0. rewrite E. simpl. rewrite upd_other by exact Hc0.
    rewrite Ecores. reflexivity.
  - rewrite E. simpl. rewrite upd_same, Ecores. reflexivity.
Qed.

Lemma specifyID_raises_or_returns :
  forall self w,
    snd (Core.specifyID self w) = Ok tt \/
    (snd (Core.specifyID self w) = Raise AttributeError /\
     same_but_positions w (fst (Core.specifyID self w))).
Proof.
  intros self w.
  destruct (specifyID_run self w) as (w1 & sets & Hv & _ & E).
  rewrite E. clear E.
  destruct (Core.section_objects (set_sections sets)) as [secs|e] eqn:Eo.
  - left. reflexivity.
  - right. apply section_objects_raise in Eo. destruct Eo as (-> & _).
    split; [reflexivity | exact Hv].
Qed.

(** X14: whatever it returns, [Core.specifyID] changes nothing but the
    identifiers, the lattice positions and the three lists of the core:
    names, bounds, rods, regions, equivalence methods, partners, the
    sections of the assemblies, the lattice, the mesh, the completion
    flag, the other cores and the output are as before. *)
Theorem specifyID_changes_identifiers_only :
  forall (self : core_ref) (w : World),
    let w' := fst (Core.specifyID self w) in
    same_but_ids w w' /\
    (forall c0, c0 <> self -> cores w' c0 = cores w c0) /\
    with_core_objects [] [] [] (cores w' self)
    = with_core_objects [] [] [] (cores w self).
Proof.
  intros self w. cbv zeta.
  destruct (Core.specifyID self w) as [w' r] eqn:E.
  destruct (specifyID_raises_or_returns self w) as [Hok | Hraise].
  - rewrite E in Hok. simpl in Hok. subst r.
    exact (specifyID_ok_same self w w' E).
  - destruct Hraise as (Hr & Hsame). rewrite E in Hr, Hsame.
    simpl in Hr, Hsame. destruct Hsame as (Hm & Hc & Ho & Hs & Ha).
    simpl. split; [|split].
    + split; [exact Ho|]. split; [intro m; rewrite Hm; reflexivity|].
      split; [intro s; exact (f_equal (with_sec_id 0) (Hs s))|].
      intro a. exact (f_equal (with_asm_id 0) (Ha a)).
    + intros c0 _. rewrite Hc. reflexivity.
    + rewrite Hc. reflexivity.
Qed.


(** X15: after [Core.specifyID] each list of the core is in the order of
    its sort key: the assemblies by location, the sections by
    equivalence method and name, the materials by name; the identifiers
    follow that order. *)
Theorem specifyID_orders_by_key :
  forall (self : core_ref) (w w' : World),
    Core.specifyID self w = (w', Ok tt) ->
    let c' := cores w' self in
    Sorted (fun a b => String.leb (asm_location (assemblies w' a))
                                  (asm_location (assemblies w' b)) = true)
           (core_assemblies c') /\
    Sorted (fun a b => String.leb (Core.section_key w' a)
                                  (Core.section_key w' b) = true)
           (core_sections c') /\
    Sorted (fun a b => String.leb (mat_name (materials w' a))
                                  (mat_name (materials w' b)) = true)
           (core_materials c').
Proof.
  intros self w w' H.
  destruct (specifyID_ok_same self w w' H) as ((_ & Hm & Hs & Ha) & _ & _).
  destruct (specifyID_ok_inv self w w' H)
    as (w1 & asms & secs & mats & Hv & _ & _ & _ & _ & _ & _ & _ & SA & SS & SM & E).
  cbv zeta in E |- *.
  assert (Ec : cores w' self
               = with_core_objects asms secs mats
                   (cores (Core.assign_material_ids mats
                             (Core.assign_section_ids secs
                                (Core.assign_assembly_ids asms w1))) self)).
  { rewrite E. simpl. apply upd_same. }
  rewrite Ec. cbn [core_assemblies core_sections core_materials with_core_objects].
  destruct Hv as (Hm1 & _ & _ & Hs1 & Ha1).
  assert (Ka : forall a, asm_location (assemblies w' a)
                         = asm_location (assemblies w1 a)).
  { intro a. pose proof (f_equal asm_location (Ha a)) as X.
    pose proof (f_equal asm_location (Ha1 a)) as Y. simpl in X, Y. congruence. }
  assert (Ks : forall s, Core.section_key w' s = Core.section_key w1 s).
  { intro s. unfold Core.section_key.
    pose proof (f_equal sec_eqMethod (Hs s)) as X1.
    pose proof (f_equal sec_eqMethod (Hs1 s)) as Y1.
    pose proof (f_equal sec_name (Hs s)) as X2.
    pose proof (f_equal sec_name (Hs1 s)) as Y2.
    simpl in X1, Y1, X2, Y2. congruence. }
  assert (Km : forall m, mat_name (materials w' m) = mat_name (materials w1 m)).
  { intro m. pose proof (f_equal mat_name (Hm m)) as X. simpl in X.
    rewrite Hm1. exact X. }
  split; [|split].
  - eapply Sorted_ind with (P := fun l => Sorted _ l); [constructor | | exact SA].
    intros a l _ IH Hd. constructor; [exact IH|].
    destruct Hd; constructor. rewrite !Ka. assumption.
  - eapply Sorted_ind with (P := fun l => Sorted _ l); [constructor | | exact SS].
    intros a l _ IH Hd. constructor; [exact IH|].
    destruct Hd; constructor. rewrite !Ks. assumption.
  - eapply Sorted_ind with (P := fun l => Sorted _ l); [constructor | | exact SM].
    intros a l _ IH Hd. constructor; [exact IH|].
    destruct Hd; constructor. rewrite !Km. assumption.
Qed.

Lemma specifyID_orders_by_key_witness :
  let w' := fst (Core.specifyID 0%nat Samples.stack_world) in
  Sorted (fun a b => String.leb (Core.section_key w' a)
                                (Core.section_key w' b) = true)
         (core_sections (cores w' 0%nat)).
Proof.
  intro w'.
  destruct (specifyID_orders_by_key 0%nat Samples.stack_world w')
    as (_ & H & _).
  - run_returns.
  - exact H.
Defined.


(** ** [Core.complete] and the decks *)

Lemma complete_ok_inv :
  forall self w w',
    Core.complete self w = (w', Ok tt) ->
    snd (Core.check_run self w) = true /\
    exists ws,
      Core.specifyID self (fst (Core.check_run self w)) = (ws, Ok tt) /\
      w' = set_core self (with_core_completed true (cores ws self)) ws.
Proof.
  intros self w w' H. unfold Core.complete, bind, Core.check in H.
  destruct (Core.check_run self w) as [wc ok]. destruct ok; simpl in H.
  - split; [reflexivity|]. cbn [fst].
    destruct (Core.specifyID self wc) as [ws [[]|e]]; [|discriminate].
    exists ws. split; [reflexivity|]. unfold modify in H. congruence.
  - discriminate.
Qed.

Lemma Sorted_map_iff {A B} (f : A -> B) (R : B -> B -> Prop) (l : list A) :
  Sorted R (map f l) <-> Sorted (fun a b => R (f a) (f b)) l.
Proof.
  induction l as [|a l IH]; simpl; split; intro H; try constructor;
    inversion H as [|? ? Hs Hh]; subst.
  - apply IH. exact Hs.
  - destruct l; simpl in *; constructor. inversion Hh. assumption.
  - apply IH. exact Hs.
  - destruct l; simpl in *; constructor. inversion Hh. assumption.
Qed.

Lemma one_to_sorted : forall n, Sorted (fun a b => (a <=? b) = true) (one_to n).
Proof.
  intro n. unfold one_to, range. rewrite map_map.
  generalize (Z.to_nat n). intro k. generalize 0%nat.
  induction k as [|k IH]; intro s; simpl; constructor; [apply IH|].
  destruct k; simpl; constructor. apply Z.leb_le. lia.
Qed.

(** A list numbered [1, 2, ..., n] is in the order of its numbers. *)
Lemma sorted_numbered {A} (g : A -> Z) (l : list A) :
  map g l = one_to (len l) -> sorted Z.leb g l = l.
Proof.
  intro H. apply sorted_of_sorted.
  apply (Sorted_map_iff g (fun a b => (a <=? b) = true)).
  rewrite H. apply one_to_sorted.
Qed.

Lemma mapM_assembly_toLAVENDER :
  forall meshgrid coolant l w,
    mapM (fun a => Assembly.toLAVENDER a meshgrid coolant) l w
    = (w, Ok (map (fun a =>
                     mkFaLine (asm_id (assemblies w a))
                       (Assembly.layer_ids
                          (map (sections w) (asm_sections (assemblies w a)))
                          (sec_id (sections w coolant)) meshgrid)) l)).
Proof.
  intros meshgrid coolant l w. induction l as [|a l IH]; [reflexivity|].
  cbn [mapM map]. unfold bind at 1.
  change (Assembly.toLAVENDER a meshgrid coolant w)
    with (w, Ok (mkFaLine (asm_id (assemblies w a))
                   (Assembly.layer_ids
                      (map (sections w) (asm_sections (assemblies w a)))
                      (sec_id (sections w coolant)) meshgrid))).
  cbv beta iota. unfold bind at 1. rewrite IH. reflexivity.
Qed.

Lemma hex_conf_full :
  forall (ring : Z) (lattice : list (list asm_ref)),
    0 <= ring ->
    full_lattice ring lattice ->
    exists rows,
      Core.hex_conf ring lattice = Ok rows /\
      length rows = Z.to_nat (2 * ring - 1) /\
      Permutation (concat rows) (concat lattice).
Proof.
  intros ring lattice Hring Hfull.
  set (g := fun rk : Z * Z =>
              nth (Z.to_nat (snd rk)) (nth (Z.to_nat (fst rk)) lattice []) 0%nat).
  exists (map (map g) (Core.hex_rows ring)). split; [|split].
  - unfold Core.hex_conf. apply rmapM_ok. intros row Hrow.
    apply rmapM_ok. intros rk Hrk.
    apply (lattice_at_full ring lattice 0%nat Hfull).
    apply (Permutation_in _ (hex_rows_permutation ring)).
    apply in_concat. exists row. split; assumption.
  - unfold Core.hex_rows. rewrite !length_map, length_range. reflexivity.
  - rewrite <- concat_map.
    rewrite <- (slots_entries ring lattice 0%nat) by (lia || exact Hfull).
    apply Permutation_map. apply hex_rows_permutation.
Qed.

(** What [Core.complete] leaves when it returns. *)
Lemma complete_ok_state :
  forall self w w',
    Core.complete self w = (w', Ok tt) ->
    let c := cores w self in
    let c' := cores w' self in
    core_completed c' = true /\
    core_ring c' = core_ring c /\
    core_lattice c' = core_lattice c /\
    core_coolant c' = core_coolant c /\
    core_meshgrid c' = core_meshgrid c /\
    core_ring c = len (core_lattice c) /\
    full_lattice (core_ring c) (core_lattice c) /\
    NoDup (core_assemblies c') /\
    NoDup (core_sections c') /\
    NoDup (core_materials c') /\
    map (fun a => asm_id (assemblies w' a)) (core_assemblies c')
    = one_to (len (core_assemblies c')) /\
    map (fun s => sec_id (sections w' s)) (core_sections c')
    = one_to (len (core_sections c')) /\
    map (fun m => mat_id (materials w' m)) (core_materials c')
    = one_to (len (core_materials c')).
Proof.
  intros self w w' H c c'.
  destruct (complete_ok_inv self w w' H) as (Hcheck & ws & Hs & E).
  pose proof (proj1 (core_check_flag self w) Hcheck) as (Hring & Hfull & _).
  destruct (check_run_checked self w) as ((_ & _ & Hcores & _) & _).
  cbn [fst] in Hcores.
  destruct (specifyID_ok_same self _ ws Hs) as (_ & _ & Hcore).
  destruct (specifyID_ok_numbers self _ ws Hs) as (NA & NS & NM & EA & ES & EM).
  rewrite Hcores in Hcore.
  assert (Ec : c' = with_core_completed true (cores ws self)).
  { unfold c'. rewrite E. simpl. apply upd_same. }
  assert (Eh : assemblies w' = assemblies ws /\ sections w' = sections ws /\
               materials w' = materials ws) by (rewrite E; repeat split).
  destruct Eh as (Ea & Es & Em). rewrite Ea, Es, Em, Ec.
  cbn [core_completed core_ring core_lattice core_coolant core_meshgrid
       core_assemblies core_sections core_materials with_core_completed].
  split; [reflexivity|].
  split; [exact (f_equal core_ring Hcore)|].
  split; [exact (f_equal core_lattice Hcore)|].
  split; [exact (f_equal core_coolant Hcore)|].
  split; [exact (f_equal core_meshgrid Hcore)|].
  fold c in Hring, Hfull.
  repeat (split; [assumption|]). assumption.
Qed.


(** X16: after a [Core.complete] that returns, [Core.toLAVENDER] returns a
    deck and changes nothing: its material files are numbered
    [1, ..., n] for the [n] sections of the core, its assembly lines
    [1, ..., m] for the [m] assemblies, and its hexagonal map has
    [2*ring - 1] rows that hold the identifier of every slot of the
    lattice once. *)
Theorem complete_then_toLAVENDER :
  forall (self : core_ref) (w w' : World),
    Core.complete self w = (w', Ok tt) ->
    let c' := cores w' self in
    exists deck,
      Core.toLAVENDER self w' = (w', Ok deck) /\
      ld_mat_file deck = one_to (len (core_sections c')) /\
      map fa_id (ld_fa_type deck) = one_to (len (core_assemblies c')) /\
      length (ld_hex_conf deck) = Z.to_nat (2 * core_ring c' - 1) /\
      Permutation (concat (ld_hex_conf deck))
                  (map (fun a => asm_id (assemblies w' a))
                       (concat (core_lattice c'))).
Proof.
  intros self w w' H c'.
  destruct (complete_ok_state self w w' H)
    as (Hdone & Hring & Hlat & _ & _ & Hlen & Hfull & _ & _ & _ & EA & ES & _).
  fold c' in Hdone, Hring, Hlat, EA, ES.
  rewrite <- Hring, <- Hlat in Hfull. rewrite <- Hring, <- Hlat in Hlen.
  destruct (hex_conf_full (core_ring c') (core_lattice c')) as (rows & Er & Lr & Pr);
    [rewrite Hlen; unfold len; lia | exact Hfull |].
  unfold Core.toLAVENDER, bind, gets. fold c'. rewrite Hdone. cbn [negb].
  rewrite (sorted_numbered _ _ ES), (sorted_numbered _ _ EA).
  rewrite mapM_assembly_toLAVENDER. unfold lift. rewrite Er. unfold ret.
  eexists. split; [reflexivity|].
  cbn [ld_mat_file ld_fa_type ld_hex_conf].
  split; [exact ES|]. split; [rewrite map_map; exact EA|].
  split; [rewrite length_map; exact Lr|].
  rewrite <- concat_map. apply Permutation_map. exact Pr.
Qed.

Lemma complete_then_toLAVENDER_witness :
  let w' := fst (Core.complete 0%nat Samples.stack_world) in
  exists deck,
    Core.toLAVENDER 0%nat w' = (w', Ok deck) /\
    ld_mat_file deck = one_to (len (core_sections (cores w' 0%nat))).
Proof.
  intro w'.
  destruct (complete_then_toLAVENDER 0%nat Samples.stack_world w')
    as (deck & E & Hm & _).
  - run_returns.
  - exists deck. split; [exact E | exact Hm].
Defined.


(** ** [Core.toTULIP] *)

Lemma push_kind_section :
  forall gk l, Core.push_kind gk l = Assembly.push_section gk l.
Proof. intros gk [|t l]; reflexivity. Qed.

(** The loop that builds [geom_kind]. *)
Lemma geom_kinds_loop :
  forall w secs acc,
    Forall proper_run acc ->
    runs_differ (rev acc) ->
    match rmapM (fun s => Core.geom_code (sec_eqMethod (sections w s))) secs with
    | Ok codes =>
        exists toks,
          Core.geom_kinds w secs acc = Ok toks /\
          expand toks = expand (rev acc) ++ codes /\
          runs_differ toks /\
          Forall proper_run toks
    | Raise e => Core.geom_kinds w secs acc = Raise e /\ e = ValueError
    end.
Proof.
  intros w secs. induction secs as [|s secs IH]; intros acc Hp Hd.
  - simpl. exists (rev acc). split; [reflexivity|].
    split; [rewrite app_nil_r; reflexivity|].
    split; [exact Hd | apply Forall_rev; exact Hp].
  - cbn [rmapM Core.geom_kinds].
    destruct (Core.geom_code (sec_eqMethod (sections w s))) as [gk|e] eqn:E.
    + cbn [rbind]. rewrite push_kind_section.
      specialize (IH (Assembly.push_section gk acc)
                     (push_section_proper gk acc Hp)
                     (push_section_runs_differ gk acc Hd)).
      destruct (rmapM _ secs) as [codes|e].
      * destruct IH as (toks & Et & Ex & Hd' & Hp').
        exists toks. split; [exact Et|]. split; [|split; assumption].
        rewrite Ex, (push_section_expand gk acc Hp), <- app_assoc. reflexivity.
      * exact IH.
    + cbn [rbind]. split; [reflexivity|].
      unfold Core.geom_code in E.
      repeat match type of E with
             | (if ?b then _ else _) = _ => destruct b; try discriminate
             end.
      congruence.
Qed.

(** X17: the [geom_kind] record of [Core.toTULIP] stands for the codes of
    the sections in order, with no two neighbouring runs of one code and
    every run [n*c] of at least two sections; a section of an unknown
    equivalence method makes it a [ValueError]. *)
Theorem geom_kind_runs :
  forall (w : World) (secs : list sec_ref),
    match rmapM (fun s => Core.geom_code (sec_eqMethod (sections w s))) secs with
    | Ok codes =>
        exists toks,
          Core.geom_kinds w secs [] = Ok toks /\
          expand toks = codes /\
          runs_differ toks /\
          Forall proper_run toks
    | Raise _ => Core.geom_kinds w secs [] = Raise ValueError
    end.
Proof.
  intros w secs.
  pose proof (geom_kinds_loop w secs [] (Forall_nil _) I) as H.
  destruct (rmapM _ secs) as [codes|e].
  - destruct H as (toks & Et & Ex & Hd & Hp). exists toks.
    split; [exact Et|]. split; [exact Ex|]. split; assumption.
  - destruct H as (H & ->). exact H.
Qed.

Lemma rmapM_all_ok {A B} (f : A -> result B) (l : list A) :
  (forall x, In x l -> exists b, f x = Ok b) ->
  exists bs, rmapM f l = Ok bs /\ length bs = length l.
Proof.
  induction l as [|x l IH]; intro H.
  - exists []. split; reflexivity.
  - destruct (H x (or_introl eq_refl)) as (b & Eb).
    destruct IH as (bs & Ebs & L); [intros y Hy; apply H; now right|].
    exists (b :: bs). simpl. rewrite Eb, Ebs. simpl. rewrite L.
    split; reflexivity.
Qed.

Lemma mapM_all_ok {A B} (f : A -> M B) (l : list A) (w : World) :
  (forall x, In x l -> exists b, f x w = (w, Ok b)) ->
  exists bs, mapM f l w = (w, Ok bs) /\ length bs = length l.
Proof.
  induction l as [|x l IH]; intro H.
  - exists []. split; reflexivity.
  - destruct (H x (or_introl eq_refl)) as (b & Eb).
    destruct IH as (bs & Ebs & L); [intros y Hy; apply H; now right|].
    exists (b :: bs). cbn [mapM]. unfold bind at 1. rewrite Eb.
    unfold bind at 1. rewrite Ebs. unfold ret. simpl. rewrite L.
    split; reflexivity.
Qed.

Lemma sect_toTULIP_writable :
  forall s sc w,
    writable w s -> exists b, Sect.toTULIP s sc w = (w, Ok b).
Proof.
  intros s sc w (Hid & Hring). unfold Sect.toTULIP, bind, gets.
  destruct (Z.eqb_spec (sec_id (sections w s)) (-1)) as [E | _]; [contradiction|].
  destruct (Z.eqb_spec (sec_ring (sections w s)) (-1)) as [E | _].
  - rewrite (Hring E). simpl. eexists. reflexivity.
  - simpl. eexists. reflexivity.
Qed.

Lemma geometry_ready :
  forall s w,
    sec_id (sections w s) <> -1 ->
    tulip_ready w s ->
    exists bs, Core.geometry s w = (w, Ok bs).
Proof.
  intros s w Hid (_ & Hring & Hsc). unfold Core.geometry.
  destruct (sect_toTULIP_writable s false w (conj Hid Hring)) as (own & Eo).
  unfold bind at 1. rewrite Eo. unfold bind at 1, gets.
  destruct (String.eqb_spec (sec_eqMethod (sections w s)) "supercell") as [E | _].
  - destruct (Hsc E) as (p & -> & Hp).
    destruct (sect_toTULIP_writable p true w Hp) as (b & Eb).
    unfold bind. rewrite Eb. eexists. reflexivity.
  - eexists. reflexivity.
Qed.

Lemma with_mat_composition_same :
  forall m, with_mat_composition (mat_composition m) m = m.
Proof. intros [name id rows flag]. reflexivity. Qed.

(** The block of a material that has an identifier, and the material as
    [Material.toTULIP] leaves it. *)
Lemma material_toTULIP_ok :
  forall m w,
    mat_id (materials w m) <> -1 ->
    exists w1,
      Material.toTULIP m w
      = (w1, Ok (mkTulipMaterial (mat_name (materials w m))
                   (mat_id (materials w m)) (kept_rows (materials w m)))) /\
      (forall x,
         materials w1 x
         = if Nat.eqb x m
           then with_mat_composition (kept_rows (materials w m)) (materials w m)
           else materials w x) /\
      sections w1 = sections w /\ assemblies w1 = assemblies w /\
      cores w1 = cores w /\ next_core w1 = next_core w /\
      stdout w1 = stdout w.
Proof.
  intros m w Hid. rewrite material_toTULIP_run. cbv zeta.
  destruct (Z.eqb_spec (mat_id (materials w m)) (-1)) as [E | _];
    [contradiction|].
  destruct (mat_removeLowDensity (materials w m)) eqn:Ef.
  - eexists. split; [reflexivity|]. repeat split.
  - exists w. split; [reflexivity|]. repeat split.
    intro x. destruct (Nat.eqb_spec x m) as [-> | _]; [|reflexivity].
    unfold kept_rows. rewrite Ef, with_mat_composition_same. reflexivity.
Qed.

(** The blocks of the materials of a list without repetition, and the
    world [Core.toTULIP] leaves after it has written them. *)
Lemma mapM_material_toTULIP_ok :
  forall l w,
    NoDup l ->
    (forall m, In m l -> mat_id (materials w m) <> -1) ->
    exists w1,
      mapM Material.toTULIP l w
      = (w1, Ok (map (fun m => mkTulipMaterial (mat_name (materials w m))
                                 (mat_id (materials w m))
                                 (kept_rows (materials w m))) l)) /\
      (forall m, In m l ->
         materials w1 m
         = with_mat_composition (kept_rows (materials w m)) (materials w m)) /\
      (forall m, ~ In m l -> materials w1 m = materials w m) /\
      sections w1 = sections w /\ assemblies w1 = assemblies w /\
      cores w1 = cores w /\ next_core w1 = next_core w /\
      stdout w1 = stdout w.
Proof.
  induction l as [|m l IH]; intros w N Hid.
  - exists w. split; [reflexivity|]. repeat split. intros m [].
  - inversion N as [|? ? Hm N']; subst.
    destruct (material_toTULIP_ok m w (Hid m (or_introl eq_refl)))
      as (w0 & E0 & M0 & S0 & A0 & C0 & N0 & O0).
    assert (Hsame : forall x, In x l -> materials w0 x = materials w x).
    { intros x Hx. rewrite M0.
      destruct (Nat.eqb_spec x m) as [-> | _]; [contradiction | reflexivity]. }
    destruct (IH w0 N') as (w1 & E1 & M1 & U1 & S1 & A1 & C1 & N1 & O1).
    { intros x Hx. rewrite (Hsame x Hx). apply Hid. now right. }
    exists w1. split.
    { cbn [mapM map]. unfold bind at 1. rewrite E0.
      unfold bind at 1. rewrite E1. unfold ret. f_equal. f_equal. f_equal.
      apply map_ext_in. intros x Hx. rewrite (Hsame x Hx). reflexivity. }
    split; [|split].
    + intros x [<- | Hx].
      * rewrite (U1 m Hm), M0, Nat.eqb_refl. reflexivity.
      * rewrite (M1 x Hx), (Hsame x Hx). reflexivity.
    + intros x Hx. rewrite U1 by (intro H; apply Hx; now right).
      rewrite M0. destruct (Nat.eqb_spec x m) as [-> | _]; [|reflexivity].
      exfalso. apply Hx. now left.
    + repeat split; congruence.
Qed.

(** X18: after a [Core.complete] that returns, [Core.toTULIP] returns a
    deck, provided every section of the core is of a known equivalence
    method, has a ring number when it has rods, and has a writable partner
    when it is a supercell section. No identifier of a listed section or
    material can make it fail: the materials of the deck are those the
    core lists, numbered [1, ..., n], each with the rows of its
    composition that [Material.check] keeps. The call changes the
    materials the core lists, which are left with these rows, and nothing
    else. *)
Theorem complete_then_toTULIP :
  forall (self : core_ref) (w w' : World),
    Core.complete self w = (w', Ok tt) ->
    let c' := cores w' self in
    (forall s, In s (core_sections c') -> tulip_ready w' s) ->
    exists deck w'',
      Core.toTULIP self w' = (w'', Ok deck) /\
      td_n_mat deck = len (core_sections c') /\
      td_n_material deck = len (core_materials c') /\
      td_material deck
      = map (fun m => mkTulipMaterial (mat_name (materials w' m))
                        (mat_id (materials w' m))
                        (kept_rows (materials w' m)))
            (core_materials c') /\
      map tm_id (td_material deck) = one_to (len (core_materials c')) /\
      rmapM (fun s => Core.geom_code (sec_eqMethod (sections w' s)))
            (core_sections c')
      = Ok (expand (td_geom_kind deck)) /\
      (forall m, In m (core_materials c') ->
         materials w'' m
         = with_mat_composition (kept_rows (materials w' m)) (materials w' m)) /\
      (forall m, ~ In m (core_materials c') -> materials w'' m = materials w' m) /\
      sections w'' = sections w' /\ assemblies w'' = assemblies w' /\
      cores w'' = cores w' /\ next_core w'' = next_core w' /\
      stdout w'' = stdout w'.
Proof.
  intros self w w' H c' Hready.
  destruct (complete_ok_state self w w' H)
    as (Hdone & _ & _ & _ & _ & _ & _ & _ & _ & NM & _ & ES & EM).
  fold c' in Hdone, NM, ES, EM.
  destruct (numbered_unique _ _ ES) as (BS & _).
  destruct (numbered_unique _ _ EM) as (BM & _).
  unfold Core.toTULIP. unfold bind at 1, gets. fold c'. rewrite Hdone.
  cbn [negb]. unfold bind at 1. unfold bind at 1, lift.
  pose proof (geom_kinds_loop w' (core_sections c') [] (Forall_nil _) I) as Hgk.
  destruct (rmapM_all_ok
              (fun s => Core.geom_code (sec_eqMethod (sections w' s)))
              (core_sections c')) as (codes & Ec & _).
  { intros s Hs. apply (Hready s Hs). }
  rewrite Ec in Hgk. destruct Hgk as (toks & Et & Ex & _ & _).
  rewrite Et. simpl in Ex.
  destruct (mapM_all_ok Core.geometry (core_sections c') w') as (blocks & Eb & _).
  { intros s Hs. apply geometry_ready; [|apply Hready; exact Hs].
    specialize (BS s Hs). lia. }
  unfold bind at 1. rewrite Eb.
  destruct (mapM_material_toTULIP_ok (core_materials c') w' NM)
    as (w'' & Em & HM & HU & HS & HA & HC & HN & HO).
  { intros m Hm. specialize (BM m Hm). lia. }
  unfold bind at 1. rewrite Em. unfold ret.
  eexists. exists w''. split; [reflexivity|].
  cbn [td_n_mat td_n_material td_material td_geom_kind].
  split; [reflexivity|]. split; [reflexivity|]. split; [reflexivity|].
  split; [rewrite map_map; exact EM|].
  split; [rewrite Ex; exact Ec|].
  repeat split; assumption.
Qed.

Lemma complete_then_toTULIP_witness :
  let w' := fst (Core.complete 0%nat Samples.traced_world) in
  exists deck w'',
    Core.toTULIP 0%nat w' = (w'', Ok deck) /\
    map tm_id (td_material deck) = [1; 2; 3] /\
    map (fun b => map nuc_name (tm_rows b)) (td_material deck)
    = [["U235"%string]; []; []] /\
    map nuc_name (mat_composition (materials w'' 1%nat)) = ["U235"%string].
Proof.
  intro w'.
  destruct (complete_then_toTULIP 0%nat Samples.traced_world w')
    as (deck & w'' & E & _ & _ & Ed & Hm & _ & HM & _).
  - run_returns.
  - intros s Hs. vm_compute in Hs.
    destruct Hs as [<- | [<- | [<- | [<- | []]]]];
      (split; [eexists; vm_compute; reflexivity|]);
      (split; vm_compute; intro X; try reflexivity; discriminate X).
  - exists deck, w''. split; [exact E|]. split; [exact Hm|]. split.
    + rewrite Ed. vm_compute. reflexivity.
    + rewrite (HM 1%nat) by (vm_compute; auto). vm_compute. reflexivity.
Defined.

(* ================================================================== *)
(** * Further properties: Core.meshing *)
(* ================================================================== *)

(** X19: [Core.meshing] returns a mesh exactly when the core lists at
    least one section; on a core that lists none, as before
    [Core.specifyID] has run, it raises [ValueError], having set
    [core.meshgrid] to the empty mesh and nothing else. *)
Theorem meshing_needs_sections :
  forall (self : core_ref) (tolerance : Q) (w : World),
    ((exists w' meshgrid,
        Core.meshing self tolerance w = (w', Ok meshgrid) /\ meshgrid <> [])
     <-> core_sections (cores w self) <> []) /\
    (core_sections (cores w self) = [] ->
     Core.meshing self tolerance w
     = (set_core self (with_core_meshgrid [] (cores w self)) w,
        Raise ValueError)).
Proof.
  intros self tol w. split; [split|].
  - intros (w' & M & H & _). exact (meshing_ok_sections self tol w w' M H).
  - intro Hs.
    destruct (meshing_returns_averages self tol w Hs) as (_ & w' & E & _).
    exists w'. eexists. split; [exact E|].
    intro Hnil. apply map_eq_nil in Hnil.
    revert Hnil. apply clusters_nonempty. apply sorted_set_nonempty.
    apply bound_heights_nonempty. exact Hs.
  - intro Hs. unfold Core.meshing. rewrite Hs. reflexivity.
Qed.

Lemma fold_qmax_last :
  forall ms m, increasing (m :: ms) -> fold_left qmax ms m = last ms m.
Proof.
  induction ms as [|x ms IH]; intros m H; [reflexivity|].
  cbn [fold_left]. rewrite last_cons.
  assert (Hx : (m < x)%Q) by (apply (increasing_lt_all m (x :: ms) H); now left).
  assert (E : qmax m x = x).
  { unfold qmax. rewrite Qle_bool_true by (apply Qlt_le_weak; exact Hx).
    reflexivity. }
  rewrite E. apply IH. apply (increasing_tail m). exact H.
Qed.

(** X20: after a [Core.meshing] with a positive tolerance, the mesh it
    returns, strictly increasing, is the mesh of the core; both bounds of
    every section of the core are heights of the mesh; and the coolant
    spans the mesh from its first to its last height. *)
Theorem meshing_snaps_bounds_onto_mesh :
  forall (self : core_ref) (tolerance : Q) (w w' : World) (meshgrid : list Q),
    (0 < tolerance)%Q ->
    Core.meshing self tolerance w = (w', Ok meshgrid) ->
    core_meshgrid (cores w' self) = meshgrid /\
    increasing meshgrid /\
    (forall s, In s (core_sections (cores w' self)) ->
       QIn (fst (sec_bounds (sections w' s))) meshgrid /\
       QIn (snd (sec_bounds (sections w' s))) meshgrid) /\
    exists m ms,
      meshgrid = m :: ms /\
      sec_bounds (sections w' (core_coolant (cores w' self))) = (m, last ms m).
Proof.
  intros self tol w w' M Htol H.
  destruct (meshing_leaves_bounds_on_mesh self tol w w' M Htol H)
    as (Es & Ec & Inc & (m & ms & EM & Eb) & Hon).
  destruct (meshing_ok_inv self tol w w' M H) as (_ & m' & ms' & EM' & Ew).
  split.
  { rewrite Ew. simpl. rewrite upd_same. reflexivity. }
  split; [exact Inc|].
  split; [rewrite Es; exact Hon|].
  exists m, ms. split; [exact EM|]. rewrite Ec, Eb. f_equal.
  - apply fold_qmin_head. intros x Hx. apply Qlt_le_weak.
    rewrite EM in Inc. apply (increasing_lt_all m ms Inc x Hx).
  - apply fold_qmax_last. rewrite <- EM. exact Inc.
Qed.

Lemma meshing_snaps_bounds_onto_mesh_witness :
  let w := fst (Core.complete 0%nat Samples.stack_world) in
  let w' := fst (Core.meshing 0%nat (1 # 20) w) in
  core_meshgrid (cores w' 0%nat) = [-2; -1; 0; 1; 2]%Q /\
  increasing [-2; -1; 0; 1; 2]%Q.
Proof.
  cbv zeta.
  destruct (meshing_snaps_bounds_onto_mesh 0%nat (1 # 20)
              (fst (Core.complete 0%nat Samples.stack_world))
              (fst (Core.meshing 0%nat (1 # 20)
                      (fst (Core.complete 0%nat Samples.stack_world))))
              [-2; -1; 0; 1; 2]%Q) as (E & Inc & _).
  - reflexivity.
  - vm_compute. reflexivity.
  - split; [exact E | exact Inc].
Defined.

(** ** What [Core.meshing] leaves as it is *)

Lemma same_but_bounds_refl : forall w, same_but_bounds w w.
Proof. intro w. repeat split. Qed.

Lemma same_but_bounds_trans :
  forall a b c, same_but_bounds a b -> same_but_bounds b c -> same_but_bounds a c.
Proof.
  intros a b c (M1 & A1 & S1) (M2 & A2 & S2).
  split; [congruence|]. split; [congruence|].
  intro s. rewrite S2. apply S1.
Qed.

Lemma set_bounds_same :
  forall s b w,
    same_but_bounds w (set_section s (with_sec_bounds b (sections w s)) w).
Proof.
  intros s b w. split; [reflexivity|]. split; [reflexivity|].
  intro s'. simpl. unfold upd. destruct (Nat.eqb s' s) eqn:E; [|reflexivity].
  apply Nat.eqb_eq in E. subst s'. reflexivity.
Qed.

Lemma snap_same :
  forall tolerance g s w i, same_but_bounds w (Core.snap tolerance g s w i).
Proof.
  intros tol g s w i. unfold Core.snap.
  destruct (Core.close_to _ _ _); [|apply same_but_bounds_refl].
  split; [reflexivity|]. split; [reflexivity|].
  intro s'. simpl. unfold upd. destruct (Nat.eqb s' s) eqn:E; [|reflexivity].
  apply Nat.eqb_eq in E. subst s'. reflexivity.
Qed.

Lemma fold_same {X} (step : World -> X -> World) (l : list X) :
  (forall v x, same_but_bounds v (step v x)) ->
  forall w, same_but_bounds w (fold_left step l w).
Proof.
  intro Hstep. induction l as [|x l IH]; intro w; [apply same_but_bounds_refl|].
  cbn [fold_left].
  apply (same_but_bounds_trans _ _ _ (Hstep w x) (IH (step w x))).
Qed.

Lemma snapping_same :
  forall tolerance secs meshgrid w,
    same_but_bounds w (fold_left (Core.snap_sections tolerance secs) meshgrid w).
Proof.
  intros tol secs M. apply fold_same. intros v g. unfold Core.snap_sections.
  apply fold_same. intros v' s. apply fold_same. intros v'' i. apply snap_same.
Qed.

(** What [Core.meshing] leaves as it is, whatever it returns. *)
Lemma meshing_same :
  forall self tolerance w,
    let w' := fst (Core.meshing self tolerance w) in
    same_but_bounds w w' /\
    (forall c0, c0 <> self -> cores w' c0 = cores w c0) /\
    with_core_meshgrid [] (cores w' self) = with_core_meshgrid [] (cores w self).
Proof.
  intros self tol w. unfold Core.meshing. cbv zeta.
  set (secs := core_sections (cores w self)).
  set (M := sorted_set (Core.cluster tol (sorted_set (Core.bound_heights w secs)))).
  pose proof (snapping_same tol secs M w) as Hs.
  pose proof (snapping_keeps_cores tol secs M w) as Hc.
  set (w1 := fold_left (Core.snap_sections tol secs) M w) in *.
  destruct M as [|m ms]; cbn [py_min py_max fst].
  - split; [exact Hs|]. simpl. split.
    + intros c0 Hc0. rewrite upd_other by exact Hc0. rewrite Hc. reflexivity.
    + rewrite upd_same, Hc. reflexivity.
  - split.
    + apply (same_but_bounds_trans _ _ _ Hs).
      match goal with
      | |- same_but_bounds _ (set_section ?c (with_sec_bounds ?b _) ?v) =>
          apply (same_but_bounds_trans _ v);
            [repeat split | apply (set_bounds_same c b v)]
      end.
    + simpl. split.
      * intros c0 Hc0. rewrite upd_other by exact Hc0. rewrite Hc. reflexivity.
      * rewrite upd_same, Hc. reflexivity.
Qed.

Lemma section_eq_by_bounds :
  forall x y : section,
    with_sec_bounds (0, 0)%Q x = with_sec_bounds (0, 0)%Q y ->
    sec_bounds x = sec_bounds y -> x = y.
Proof.
  intros [] [] H B. unfold with_sec_bounds in H. simpl in *.
  injection H as -> -> -> -> -> -> -> -> -> -> ->. subst. reflexivity.
Qed.

(** X21: whatever it returns, [Core.meshing] changes nothing but bounds of
    sections, the mesh of the core and what is printed: materials,
    assemblies, identifiers, names, the lists and the lattice of the core
    and its completion flag are as before, and a section that is neither
    listed by the core nor its coolant is untouched. *)
Theorem meshing_changes_bounds_only :
  forall (self : core_ref) (tolerance : Q) (w : World),
    let w' := fst (Core.meshing self tolerance w) in
    same_but_bounds w w' /\
    (forall c0, c0 <> self -> cores w' c0 = cores w c0) /\
    with_core_meshgrid [] (cores w' self) = with_core_meshgrid [] (cores w self) /\
    (forall s, ~ In s (core_sections (cores w self)) ->
               s <> core_coolant (cores w self) ->
               sections w' s = sections w s) /\
    (length (stdout w) <= length (stdout w'))%nat.
Proof.
  intros self tol w.
  destruct (meshing_same self tol w) as (Hs & Hc & Hm).
  cbv zeta in *. split; [exact Hs|]. split; [exact Hc|]. split; [exact Hm|].
  split.
  - intros s Hout Hne. apply section_eq_by_bounds; [apply Hs|].
    unfold Core.meshing. cbv zeta.
    set (secs := core_sections (cores w self)) in *.
    set (M := sorted_set (Core.cluster tol (sorted_set (Core.bound_heights w secs)))).
    pose proof (snapping_other tol secs M w s Hout) as Ho.
    pose proof (snapping_keeps_cores tol secs M w) as Hk.
    set (w1 := fold_left (Core.snap_sections tol secs) M w) in *.
    destruct M as [|m ms]; cbn [py_min py_max fst]; [exact Ho|].
    cbn [sections set_section set_core cores]. rewrite upd_same.
    cbn [core_coolant with_core_meshgrid].
    rewrite Hk. rewrite upd_other by exact Hne. exact Ho.
  - unfold Core.meshing. cbv zeta.
    set (secs := core_sections (cores w self)).
    set (M := sorted_set (Core.cluster tol (sorted_set (Core.bound_heights w secs)))).
    assert (Hgrow : forall l v,
               (length (stdout v)
                <= length (stdout (fold_left (Core.snap_sections tol secs) l v)))%nat).
    { induction l as [|g l IH]; intro v; [apply Nat.le_refl|].
      cbn [fold_left]. etransitivity; [|apply IH].
      unfold Core.snap_sections. generalize secs. intro ss. revert v.
      induction ss as [|s ss IHs]; intro v; [apply Nat.le_refl|].
      cbn [fold_left]. etransitivity; [|apply IHs].
      unfold Core.snap.
      repeat (destruct (Core.close_to _ _ _); simpl;
              try rewrite length_app; simpl; try lia). }
    specialize (Hgrow M w).
    destruct M as [|m ms]; cbn [py_min py_max fst]; exact Hgrow.
Qed.


(** ** Stacks through a meshing *)

Lemma close_to_Qeq :
  forall tolerance g b b',
    (b == b')%Q -> Core.close_to tolerance g b = Core.close_to tolerance g b'.
Proof.
  intros tol g b b' E. unfold Core.close_to, Qltb.
  assert (Ea : (Qabs (g - b) == Qabs (g - b'))%Q) by (rewrite E; reflexivity).
  rewrite (Qle_bool_Qeq _ _ _ _ Ea (Qeq_refl 0)).
  rewrite (Qle_bool_Qeq _ _ _ _ Ea (Qeq_refl tol)). reflexivity.
Qed.

Lemma snapv_Qeq :
  forall tolerance g b b',
    (b == b')%Q -> (snapv tolerance b g == snapv tolerance b' g)%Q.
Proof.
  intros tol g b b' E. unfold snapv. rewrite (close_to_Qeq tol g b b' E).
  destruct (Core.close_to tol g b'); [reflexivity | exact E].
Qed.

Lemma close_to_true :
  forall tolerance g b,
    Core.close_to tolerance g b = true -> (Qabs (g - b) <= tolerance)%Q.
Proof.
  intros tol g b H. unfold Core.close_to in H.
  apply andb_prop in H. destruct H as (_ & H). apply Qle_bool_iff. exact H.
Qed.

Lemma close_to_far :
  forall tolerance g b,
    Core.close_to tolerance g b = false ->
    (g == b)%Q \/ (tolerance < Qabs (g - b))%Q.
Proof.
  intros tol g b H. unfold Core.close_to, Qltb in H.
  destruct (Qle_bool (Qabs (g - b)) 0) eqn:E0.
  - left. apply Qle_bool_iff in E0. apply Qabs_Qle_condition in E0. lra.
  - right. simpl in H. apply Qle_bool_false_inv. exact H.
Qed.

(** Snapping to a height keeps the order of bounds. *)
Lemma snapv_mono :
  forall tolerance g a b,
    (0 <= tolerance)%Q -> (a <= b)%Q ->
    (snapv tolerance a g <= snapv tolerance b g)%Q.
Proof.
  intros tol g a b Htol Hab. unfold snapv.
  destruct (Core.close_to tol g a) eqn:Ea, (Core.close_to tol g b) eqn:Eb.
  - apply Qle_refl.
  - apply close_to_true in Ea. apply close_to_far in Eb.
    apply Qabs_Qle_condition in Ea.
    destruct Eb as [Eb | Eb]; [lra|].
    revert Eb. apply Qabs_case; intros; lra.
  - apply close_to_true in Eb. apply close_to_far in Ea.
    apply Qabs_Qle_condition in Eb.
    destruct Ea as [Ea | Ea]; [lra|].
    revert Ea. apply Qabs_case; intros; lra.
  - exact Hab.
Qed.

Lemma snapping_mono :
  forall tolerance meshgrid a b,
    (0 <= tolerance)%Q -> (a <= b)%Q ->
    (fold_left (snapv tolerance) meshgrid a
     <= fold_left (snapv tolerance) meshgrid b)%Q.
Proof.
  intros tol M. induction M as [|g M IH]; intros a b Htol Hab; [exact Hab|].
  cbn [fold_left]. apply IH; [exact Htol|]. apply snapv_mono; assumption.
Qed.

Lemma snapping_Qeq :
  forall tolerance meshgrid a b,
    (a == b)%Q ->
    (fold_left (snapv tolerance) meshgrid a
     == fold_left (snapv tolerance) meshgrid b)%Q.
Proof.
  intros tol M. induction M as [|g M IH]; intros a b Hab; [exact Hab|].
  cbn [fold_left]. apply IH. apply snapv_Qeq. exact Hab.
Qed.

(** Sections that met before their bounds were snapped are stacked after,
    provided none was upside down. *)
Lemma stacked_snapped :
  forall tolerance meshgrid (v v' : World) (l : list sec_ref),
    (0 <= tolerance)%Q ->
    meets (map (sections v) l) ->
    (forall s, In s l ->
       (fst (sec_bounds (sections v s)) <= snd (sec_bounds (sections v s)))%Q) ->
    (forall s, In s l ->
       sec_bounds (sections v' s)
       = (fold_left (snapv tolerance) meshgrid (fst (sec_bounds (sections v s))),
          fold_left (snapv tolerance) meshgrid (snd (sec_bounds (sections v s))))) ->
    stacked (map (sections v') l).
Proof.
  intros tol M v v' l Htol. induction l as [|s l IH]; intros Hm Hle Hb;
    [exact I|].
  cbn [map stacked]. cbn [map meets] in Hm. destruct Hm as (Hmeet & Hrest).
  split; [|split].
  - rewrite (Hb s (or_introl eq_refl)). cbn [fst snd].
    apply snapping_mono; [exact Htol | apply Hle; now left].
  - destruct l as [|t l]; [exact I|]. cbn [map] in Hmeet |- *.
    rewrite (Hb s (or_introl eq_refl)), (Hb t (or_intror (or_introl eq_refl))).
    cbn [fst snd]. apply snapping_Qeq. exact Hmeet.
  - apply IH; [exact Hrest | |]; intros x Hx; [apply Hle | apply Hb]; now right.
Qed.

Lemma in_cells :
  forall meshgrid lo hi,
    In (lo, hi) (Assembly.cells meshgrid) ->
    exists m1 m2, meshgrid = m1 ++ lo :: hi :: m2.
Proof.
  induction meshgrid as [|a M IH]; intros lo hi H; [destruct H|].
  destruct M as [|b M]; [destruct H|].
  change (Assembly.cells (a :: b :: M)) with ((a, b) :: Assembly.cells (b :: M)) in H.
  destruct H as [E | H].
  - injection E as <- <-. exists [], M. reflexivity.
  - destruct (IH lo hi H) as (m1 & m2 & E).
    exists (a :: m1), m2. rewrite E. reflexivity.
Qed.

(** No height of an increasing mesh lies inside one of its cells. *)
Lemma mesh_cells_uncut :
  forall meshgrid secs,
    increasing meshgrid ->
    (forall sec, In sec secs -> QIn (snd (sec_bounds sec)) meshgrid) ->
    Forall (uncut secs) (Assembly.cells meshgrid).
Proof.
  intros M secs Inc Hon. apply Forall_forall. intros [lo hi] Hcell sec Hsec.
  destruct (in_cells M lo hi Hcell) as (m1 & m2 & E).
  destruct (Hon sec Hsec) as (y & Hy & Ey). cbn [fst snd]. rewrite Ey.
  rewrite E in Hy, Inc. apply in_app_iff in Hy.
  destruct Hy as [Hy | [<- | [<- | Hy]]].
  - left. apply Qlt_le_weak.
    apply (increasing_app_lt m1 (lo :: hi :: m2) Inc y lo Hy). now left.
  - left. apply Qle_refl.
  - right. apply Qle_refl.
  - right. apply Qlt_le_weak.
    apply increasing_app_r in Inc. apply increasing_tail in Inc.
    apply (increasing_lt_all hi m2 Inc y Hy).
Qed.

(** X22: after a [Core.meshing] with a positive tolerance, the line
    [Assembly.toLAVENDER] writes on the mesh of the core for an assembly
    whose sections are listed by the core and stacked without a gap has
    one identifier per layer of the mesh. *)
Theorem meshed_assembly_line :
  forall (self : core_ref) (tolerance : Q) (w w' : World) (meshgrid : list Q)
         (a : asm_ref),
    (0 < tolerance)%Q ->
    Core.meshing self tolerance w = (w', Ok meshgrid) ->
    (forall s, In s (asm_sections (assemblies w' a)) ->
               In s (core_sections (cores w' self))) ->
    stacked (map (sections w') (asm_sections (assemblies w' a))) ->
    exists ids,
      Assembly.toLAVENDER a (core_meshgrid (cores w' self))
                          (core_coolant (cores w' self)) w'
      = (w', Ok (mkFaLine (asm_id (assemblies w' a)) ids)) /\
      length (expand ids) = length (Core.diff meshgrid).
Proof.
  intros self tol w w' M a Htol H Hlisted Hst.
  destruct (meshing_leaves_bounds_on_mesh self tol w w' M Htol H)
    as (Es & _ & Inc & _ & Hon).
  destruct (meshing_ok_inv self tol w w' M H) as (_ & m' & ms' & _ & Ew).
  assert (Emesh : core_meshgrid (cores w' self) = M).
  { rewrite Ew. simpl. rewrite upd_same. reflexivity. }
  rewrite Emesh.
  exists (Assembly.layer_ids
            (map (sections w') (asm_sections (assemblies w' a)))
            (sec_id (sections w' (core_coolant (cores w' self)))) M).
  split; [reflexivity|].
  unfold Core.diff. rewrite length_map. fold (Assembly.cells M).
  rewrite length_cells. apply line_length; [exact Hst|].
  apply mesh_cells_uncut; [exact Inc|].
  intros sec Hsec. apply in_map_iff in Hsec. destruct Hsec as (s & <- & Hs).
  apply Hon. rewrite <- Es. apply Hlisted. exact Hs.
Qed.

Lemma meshed_assembly_line_witness :
  let w := fst (Core.complete 0%nat Samples.stack_world) in
  let w' := fst (Core.meshing 0%nat (1 # 20) w) in
  exists ids,
    Assembly.toLAVENDER 0%nat (core_meshgrid (cores w' 0%nat))
                        (core_coolant (cores w' 0%nat)) w'
    = (w', Ok (mkFaLine (asm_id (assemblies w' 0%nat)) ids)) /\
    length (expand ids) = length (Core.diff [-2; -1; 0; 1; 2]%Q).
Proof.
  intros w w'.
  apply (meshed_assembly_line 0%nat (1 # 20) w w' [-2; -1; 0; 1; 2]%Q 0%nat).
  - reflexivity.
  - run_returns.
  - intros s Hs. vm_compute in Hs. vm_compute.
    destruct Hs as [<- | [<- | [<- | []]]]; auto 10.
  - vm_compute. intuition discriminate.
Defined.


(** ** From [Core.complete] to the FORMAT-B deck *)

(** The assemblies of the lattice after a [Core.complete] that returns. *)
Lemma complete_ok_objects :
  forall self w w1,
    Core.complete self w = (w1, Ok tt) ->
    let c := cores w self in
    let c1 := cores w1 self in
    (forall a, In a (core_assemblies c1) <-> In a (concat (core_lattice c))) /\
    In (core_coolant c) (core_sections c1) /\
    (forall s, sec_bounds (sections w1 s) = sec_bounds (sections w s)) /\
    (forall a, In a (concat (core_lattice c)) ->
       meets (map (sections w1) (asm_sections (assemblies w1 a))) /\
       forall s, In s (asm_sections (assemblies w1 a)) ->
         In s (asm_sections (assemblies w a)) /\ In s (core_sections c1)).
Proof.
  intros self w w1 H c c1.
  destruct (complete_ok_inv self w w1 H) as (Hcheck & ws & Hs & E1).
  destruct (check_run_checked self w) as ((_ & Hcs & Hcc & _) & _).
  cbn [fst] in Hcs, Hcc.
  pose proof (proj1 (core_check_flag self w) Hcheck) as (_ & _ & Hmeets).
  pose proof (check_orders_lattice w self) as Hord.
  destruct (specifyID_ok_same self _ ws Hs) as ((_ & _ & Hss & Hsa) & _ & _).
  destruct (specifyID_ok_inv self _ ws Hs)
    as (v1 & asms & secs & mats & _ & _ & _ & _ & HA & HS & _ & _ & _ & _ & _ & Ews).
  cbv zeta in Ews. rewrite Hcc in HA, HS. fold c in HA, HS, Hmeets, Hord.
  assert (Ec1 : c1 = with_core_completed true (cores ws self)).
  { unfold c1. rewrite E1. simpl. apply upd_same. }
  assert (Ecs : cores ws self
                = with_core_objects asms secs mats
                    (cores (Core.assign_material_ids mats
                              (Core.assign_section_ids secs
                                 (Core.assign_assembly_ids asms v1))) self)).
  { rewrite Ews. simpl. apply upd_same. }
  assert (Ea1 : assemblies w1 = assemblies ws) by (rewrite E1; reflexivity).
  assert (Es1 : sections w1 = sections ws) by (rewrite E1; reflexivity).
  assert (Hbounds : forall s, sec_bounds (sections w1 s) = sec_bounds (sections w s)).
  { intro s. rewrite Es1, <- Hcs.
    exact (f_equal sec_bounds (Hss s)). }
  assert (Hsecs : forall a, asm_sections (assemblies w1 a)
                            = asm_sections (assemblies (fst (Core.check_run self w)) a)).
  { intro a. rewrite Ea1. exact (f_equal asm_sections (Hsa a)). }
  rewrite Ec1, Ecs.
  cbn [core_assemblies core_sections with_core_completed with_core_objects].
  split; [exact HA|]. split; [apply HS; now right|]. split; [exact Hbounds|].
  intros a Ha. rewrite Hsecs, (Hord a Ha). split.
  - specialize (Hmeets a Ha). clear - Hmeets Hbounds.
    match goal with
    | |- meets (map _ ?l) => revert Hmeets; generalize l
    end.
    induction l as [|s l IH]; [intros _; exact I|].
    cbn [map meets]. intros (Hm & Hr). split; [|apply IH; exact Hr].
    destruct l as [|t l]; [exact I|]. cbn [map] in Hm |- *.
    rewrite !Hbounds. exact Hm.
  - intros s Hin.
    assert (Hin' : In s (asm_sections (assemblies w a)))
      by (apply (proj1 (sorted_in _ _ _ s) Hin)).
    split; [exact Hin'|]. apply HS. left. exists s. split.
    + unfold placed_sections. apply in_flat_map. exists a. split; [exact Ha|].
      rewrite (Hord a Ha). exact Hin.
    + apply in_section_members. now left.
Qed.

(** X23: for a core whose coolant is not a section of an assembly and none
    of whose sections is upside down, a [Core.complete] that returns, then
    [Core.meshing] with a positive tolerance, then [Core.toLAVENDER] give a
    deck whose assembly lines all stand for one identifier per layer of
    the layer line. *)
Theorem complete_meshing_toLAVENDER :
  forall (self : core_ref) (tolerance : Q) (w w1 : World),
    Core.complete self w = (w1, Ok tt) ->
    (0 < tolerance)%Q ->
    let c := cores w self in
    (forall s, In s (placed_sections w (core_lattice c)) ->
       (fst (sec_bounds (sections w s)) <= snd (sec_bounds (sections w s)))%Q) ->
    ~ In (core_coolant c) (placed_sections w (core_lattice c)) ->
    exists w2 meshgrid deck,
      Core.meshing self tolerance w1 = (w2, Ok meshgrid) /\
      Core.toLAVENDER self w2 = (w2, Ok deck) /\
      length (ld_layer deck) = Nat.pred (length meshgrid) /\
      length (ld_fa_type deck) = length (core_assemblies (cores w2 self)) /\
      Forall (fun fl => length (expand (fa_ids fl)) = length (ld_layer deck))
             (ld_fa_type deck).
Proof.
  intros self tol w w1 H Htol c Hup Hcool.
  destruct (complete_ok_state self w w1 H)
    as (Hdone & Hring & Hlat & Hcl & _ & Hlen & Hfull & _ & _ & _ & EA & ES & _).
  destruct (complete_ok_objects self w w1 H) as (HA & Hcin & Hb1 & Hasm).
  fold c in Hring, Hlat, Hcl, Hlen, Hfull, HA, Hcin, Hasm.
  set (c1 := cores w1 self) in *.
  assert (Hne : core_sections c1 <> []) by (intro E; rewrite E in Hcin; destruct Hcin).
  destruct (meshing_returns_averages self tol w1 Hne) as (_ & w2 & Em & _).
  cbv zeta in Em.
  set (M := map average
              (clusters tol
                 (sorted_set (Core.bound_heights w1 (core_sections (cores w1 self))))))
    in *.
  exists w2, M.
  destruct (meshing_leaves_bounds_on_mesh self tol w1 w2 M Htol Em)
    as (_ & _ & Inc & _ & Hon).
  destruct (meshing_ok_inv self tol w1 w2 M Em) as (_ & m0 & ms0 & _ & Ew2).
  pose proof (meshing_same self tol w1) as Hsame. rewrite Em in Hsame.
  cbn [fst] in Hsame. destruct Hsame as ((_ & Ha2 & Hs2) & _ & Hc2).
  fold c1 in Hon, Hc2.
  set (c2 := cores w2 self) in *.
  assert (Emesh : core_meshgrid c2 = M).
  { unfold c2. rewrite Ew2. simpl. rewrite upd_same. reflexivity. }
  assert (Edone : core_completed c2 = true)
    by (rewrite <- Hdone; exact (f_equal core_completed Hc2)).
  assert (Easms : core_assemblies c2 = core_assemblies c1)
    by (exact (f_equal core_assemblies Hc2)).
  assert (Esecs : core_sections c2 = core_sections c1)
    by (exact (f_equal core_sections Hc2)).
  assert (Ering : core_ring c2 = core_ring c1) by (exact (f_equal core_ring Hc2)).
  assert (Elat : core_lattice c2 = core_lattice c1)
    by (exact (f_equal core_lattice Hc2)).
  assert (Ecool : core_coolant c2 = core_coolant c1)
    by (exact (f_equal core_coolant Hc2)).
  assert (Eid : forall s, sec_id (sections w2 s) = sec_id (sections w1 s))
    by (intro s; exact (f_equal sec_id (Hs2 s))).
  assert (ES2 : map (fun s => sec_id (sections w2 s)) (core_sections c2)
                = one_to (len (core_sections c2))).
  { rewrite Esecs, <- ES. apply map_ext. exact Eid. }
  assert (EA2 : map (fun a => asm_id (assemblies w2 a)) (core_assemblies c2)
                = one_to (len (core_assemblies c2)))
    by (rewrite Easms, Ha2; exact EA).
  destruct (hex_conf_full (core_ring c2) (core_lattice c2)) as (rows & Er & _ & _).
  { rewrite Ering, Hring, Hlen. unfold len. lia. }
  { rewrite Ering, Elat, Hring, Hlat. exact Hfull. }
  (* the bounds of the placed sections after the snapping *)
  assert (Hsnapped :
            forall a s, In a (concat (core_lattice c)) ->
              In s (asm_sections (assemblies w1 a)) ->
              sec_bounds (sections w2 s)
              = (fold_left (snapv tol) M (fst (sec_bounds (sections w1 s))),
                 fold_left (snapv tol) M (snd (sec_bounds (sections w1 s))))).
  { intros a s Ha Hs. destruct (proj2 (Hasm a Ha) s Hs) as (Hplaced & Hlisted).
    assert (Hnc : s <> core_coolant (cores w1 self)).
    { fold c1. rewrite Hcl. intros ->. apply Hcool.
      unfold placed_sections. apply in_flat_map. exists a. split; assumption. }
    rewrite Ew2. cbn [sections set_section set_core].
    rewrite upd_other by exact Hnc.
    apply (snapping_bounds tol (core_sections (cores w1 self)) M w1 s Hlisted). }
  (* the deck *)
  unfold Core.toLAVENDER, bind, gets. fold c2. rewrite Edone. cbn [negb].
  rewrite (sorted_numbered _ _ ES2), (sorted_numbered _ _ EA2).
  rewrite mapM_assembly_toLAVENDER. unfold lift. rewrite Er. unfold ret.
  eexists. split; [exact Em|]. split; [reflexivity|].
  cbn [ld_layer ld_fa_type]. rewrite Emesh.
  assert (Hlayers : length (map round4 (Core.diff M)) = Nat.pred (length M)).
  { unfold Core.diff. rewrite !length_map. apply length_cells. }
  split; [exact Hlayers|]. split; [apply length_map|].
  apply Forall_forall. intros fl Hfl. apply in_map_iff in Hfl.
  destruct Hfl as (a & <- & Ha). cbn [fa_ids]. rewrite Hlayers.
  rewrite Easms in Ha. apply HA in Ha.
  rewrite Ha2.
  destruct (Hasm a Ha) as (Hmeets & Hins).
  apply line_length.
  - apply (stacked_snapped tol M w1 w2).
    + apply Qlt_le_weak. exact Htol.
    + exact Hmeets.
    + intros s Hs. rewrite !Hb1. apply Hup.
      unfold placed_sections. apply in_flat_map. exists a.
      split; [exact Ha | apply (Hins s Hs)].
    + intros s Hs. apply (Hsnapped a s Ha Hs).
  - apply mesh_cells_uncut; [exact Inc|].
    intros sec Hsec. apply in_map_iff in Hsec. destruct Hsec as (s & <- & Hs).
    apply Hon. apply (Hins s Hs).
Qed.

Lemma complete_meshing_toLAVENDER_witness :
  exists w2 meshgrid deck,
    Core.meshing 0%nat (1 # 20) (fst (Core.complete 0%nat Samples.stack_world))
    = (w2, Ok meshgrid) /\
    Core.toLAVENDER 0%nat w2 = (w2, Ok deck) /\
    length (ld_layer deck) = Nat.pred (length meshgrid) /\
    length (ld_fa_type deck) = length (core_assemblies (cores w2 0%nat)) /\
    Forall (fun fl => length (expand (fa_ids fl)) = length (ld_layer deck))
           (ld_fa_type deck).
Proof.
  apply (complete_meshing_toLAVENDER 0%nat (1 # 20) Samples.stack_world
           (fst (Core.complete 0%nat Samples.stack_world))).
  - run_returns.
  - reflexivity.
  - intros s Hs. vm_compute in Hs.
    destruct Hs as [<- | [<- | [<- | []]]]; vm_compute; discriminate.
  - vm_compute. intuition discriminate.
Defined.

(* ================================================================== *)
(** * Further properties: the completion flag *)
(* ================================================================== *)

Lemma specifyID_keeps_flag :
  forall self w,
    core_completed (cores (fst (Core.specifyID self w)) self)
    = core_completed (cores w self).
Proof.
  intros self w. destruct (Core.specifyID self w) as [w' r] eqn:E.
  destruct (specifyID_raises_or_returns self w) as [Hok | (_ & Hsame)];
    rewrite E in *; cbn [fst snd] in *.
  - subst r. destruct (specifyID_ok_same self w w' E) as (_ & _ & Hc).
    exact (f_equal core_completed Hc).
  - destruct Hsame as (_ & Hc & _). rewrite Hc. reflexivity.
Qed.

Lemma meshing_keeps_flag :
  forall self tolerance w,
    core_completed (cores (fst (Core.meshing self tolerance w)) self)
    = core_completed (cores w self).
Proof.
  intros self tol w. destruct (meshing_same self tol w) as (_ & _ & Hc).
  exact (f_equal core_completed Hc).
Qed.

Lemma check_keeps_flag :
  forall self w,
    core_completed (cores (fst (Core.check_run self w)) self)
    = core_completed (cores w self).
Proof.
  intros self w. destruct (check_run_checked self w) as ((_ & _ & Hc & _) & _).
  cbn [fst] in Hc. rewrite Hc. reflexivity.
Qed.

(** X24: [Core.specifyID], [Core.meshing], [Core.addRing] and
    [Core.check] never set the completion flag: on a core that is not
    completed, [Core.toTULIP] and [Core.toLAVENDER] still raise
    [RuntimeError], and change nothing, after any one of them. *)
Theorem serializers_need_complete :
  forall (self : core_ref) (tolerance : Q) (ring : list asm_ref) (w : World),
    core_completed (cores w self) = false ->
    forall w1,
      w1 = w \/
      w1 = fst (Core.specifyID self w) \/
      w1 = fst (Core.meshing self tolerance w) \/
      w1 = fst (Core.addRing self ring w) \/
      w1 = fst (Core.check_run self w) ->
      Core.toTULIP self w1 = (w1, Raise RuntimeError) /\
      Core.toLAVENDER self w1 = (w1, Raise RuntimeError).
Proof.
  intros self tol ring w Hflag w1 Hw1.
  assert (H1 : core_completed (cores w1 self) = false).
  { destruct Hw1 as [-> | [-> | [-> | [-> | ->]]]].
    - exact Hflag.
    - rewrite specifyID_keeps_flag. exact Hflag.
    - rewrite meshing_keeps_flag. exact Hflag.
    - simpl. rewrite upd_same. exact Hflag.
    - rewrite check_keeps_flag. exact Hflag. }
  unfold Core.toTULIP, Core.toLAVENDER, bind, gets. rewrite H1.
  split; reflexivity.
Qed.

Lemma serializers_need_complete_witness :
  let w1 := fst (Core.meshing 0%nat (1 # 10)
                   (fst (Core.specifyID 0%nat Samples.stack_world))) in
  Core.toTULIP 0%nat w1 = (w1, Raise RuntimeError) /\
  Core.toLAVENDER 0%nat w1 = (w1, Raise RuntimeError).
Proof.
  intro w1.
  apply (serializers_need_complete 0%nat (1 # 10) []
           (fst (Core.specifyID 0%nat Samples.stack_world))).
  - vm_compute. reflexivity.
  - right. right. left. reflexivity.
Defined.

(* ================================================================== *)
(** * Further properties: a core without assemblies *)
(* ================================================================== *)

(** X25: a core of no ring with an empty lattice completes: the coolant is
    the only section listed and gets the identifier 1, no assembly is
    listed, and the hexagonal map [Core.toLAVENDER] writes has no row. *)
Theorem complete_empty_core :
  forall (self : core_ref) (w : World),
    core_ring (cores w self) = 0 ->
    core_lattice (cores w self) = [] ->
    exists w',
      Core.complete self w = (w', Ok tt) /\
      core_assemblies (cores w' self) = [] /\
      core_sections (cores w' self) = [core_coolant (cores w self)] /\
      sec_id (sections w' (core_coolant (cores w self))) = 1 /\
      exists deck,
        Core.toLAVENDER self w' = (w', Ok deck) /\
        ld_hex_conf deck = [] /\ ld_fa_type deck = [] /\ ld_mat_file deck = [1].
Proof.
  intros self w Hring Hlat.
  assert (Hcheck : Core.check_run self w = (w, true)).
  { unfold Core.check_run. rewrite Hring, Hlat. reflexivity. }
  assert (Hok : snd (Core.specifyID self w) = Ok tt).
  { destruct (specifyID_raises_or_returns self w) as [H | (H & _)]; [exact H|].
    exfalso.
    destruct (specifyID_run self w) as (w1 & sets & _ & (_ & (GS & _) & _) & E).
    rewrite E in H. simpl in GS.
    destruct (Core.section_objects (set_sections sets)) eqn:Eo; [discriminate|].
    apply section_objects_raise in Eo. destruct Eo as (_ & Hin).
    apply GS in Hin. rewrite Hlat in Hin.
    destruct Hin as [[] | [(s & [] & _) | Hc]]. discriminate. }
  destruct (Core.specifyID self w) as [ws r] eqn:Es. cbn [snd] in Hok. subst r.
  assert (Hc : Core.complete self w
               = (set_core self (with_core_completed true (cores ws self)) ws,
                  Ok tt)).
  { unfold Core.complete, bind, Core.check. rewrite Hcheck. cbn [negb].
    rewrite Es. reflexivity. }
  eexists. split; [exact Hc|].
  destruct (complete_ok_state self w _ Hc)
    as (_ & _ & _ & _ & _ & _ & _ & NA & NS & _ & EA & ES & _).
  destruct (complete_ok_objects self w _ Hc) as (HA & Hcool & _ & _).
  set (w' := set_core self (with_core_completed true (cores ws self)) ws) in *.
  destruct (specifyID_ok_inv self w ws Es)
    as (v1 & asms & secs & mats & _ & _ & _ & _ & _ & HS & _ & _ & _ & _ & _ & Ews).
  cbv zeta in Ews.
  assert (Esecs : core_sections (cores w' self) = secs).
  { unfold w'. simpl. rewrite upd_same. rewrite Ews. simpl. rewrite upd_same.
    reflexivity. }
  assert (Easms : core_assemblies (cores w' self) = []).
  { destruct (core_assemblies (cores w' self)) as [|a l]; [reflexivity|].
    exfalso. rewrite Hlat in HA. apply (HA a). now left. }
  assert (Eone : core_sections (cores w' self) = [core_coolant (cores w self)]).
  { rewrite Esecs in NS |- *. rewrite Hlat in HS. clear Ews Esecs.
    assert (Honly : forall s, In s secs <-> s = core_coolant (cores w self)).
    { intro s. rewrite HS. split; [intros [(p & [] & _) | H]; exact H | now right]. }
    destruct secs as [|s1 [|s2 l]].
    - exfalso. apply (proj2 (Honly _) eq_refl).
    - f_equal. apply Honly. now left.
    - exfalso. inversion NS as [|? ? Hn _]; subst. apply Hn. left.
      rewrite (proj1 (Honly s1) (or_introl eq_refl)).
      apply (proj1 (Honly s2)). right. now left. }
  split; [exact Easms|]. split; [exact Eone|].
  rewrite Eone in ES. simpl in ES. injection ES as Eid.
  split; [exact Eid|].
  destruct (complete_ok_state self w _ Hc)
    as (Hdone & R & _ & _ & _ & _ & _ & _ & _ & _ & EA' & ES' & _).
  fold w' in Hdone, R, EA', ES'.
  unfold Core.toLAVENDER, bind, gets. rewrite Hdone. cbn [negb].
  rewrite (sorted_numbered _ _ ES'), (sorted_numbered _ _ EA').
  rewrite mapM_assembly_toLAVENDER. unfold lift.
  rewrite R, Hring. cbn [Core.hex_conf Core.hex_rows]. unfold ret.
  eexists. split; [reflexivity|].
  cbn [ld_hex_conf ld_fa_type ld_mat_file].
  rewrite Easms, Eone. cbn [map].
  split; [reflexivity|]. split; [reflexivity|]. f_equal. exact Eid.
Qed.

Lemma complete_empty_core_witness :
  exists w',
    Core.complete 0%nat Samples.empty_world = (w', Ok tt) /\
    core_sections (cores w' 0%nat) = [0%nat].
Proof.
  destruct (complete_empty_core 0%nat Samples.empty_world)
    as (w' & E & _ & Hs & _).
  - reflexivity.
  - reflexivity.
  - exists w'. split; [exact E | exact Hs].
Defined.

(* ================================================================== *)
(** * Further properties: Assembly.setRefPlane *)
(* ================================================================== *)

(** ** Slices and sums *)

Lemma slice_inside {A} (l : list A) (a b : Z) :
  0 <= a <= len l -> 0 <= b <= len l ->
  slice l a b = firstn (Z.to_nat (b - a)) (skipn (Z.to_nat a) l).
Proof.
  intros Ha Hb. unfold slice.
  destruct (Z.ltb_spec a 0); [lia|]. destruct (Z.ltb_spec b 0); [lia|].
  rewrite !Z.min_l by lia. reflexivity.
Qed.

Lemma slice_empty {A} (l : list A) (a : Z) : slice l a a = [].
Proof. unfold slice. rewrite Z.sub_diag. reflexivity. Qed.

Lemma skipn_nth_cons {A} (l : list A) (n : nat) (x : A) :
  nth_error l n = Some x -> skipn n l = x :: skipn (S n) l.
Proof.
  revert l. induction n as [|n IH]; intros [|y l] H; try discriminate.
  - injection H as ->. reflexivity.
  - apply (IH l H).
Qed.

(** [l[i:r]] starts with [l[i]]. *)
Lemma slice_head {A} (l : list A) (i r : Z) (x : A) :
  0 <= i < r -> r <= len l ->
  nth_error l (Z.to_nat i) = Some x ->
  slice l i r = x :: slice l (i + 1) r.
Proof.
  intros Hi Hr Hx. rewrite !slice_inside by lia.
  rewrite (skipn_nth_cons l (Z.to_nat i) x Hx).
  replace (Z.to_nat (r - i)) with (S (Z.to_nat (r - (i + 1)))) by lia.
  replace (Z.to_nat (i + 1)) with (S (Z.to_nat i)) by lia.
  reflexivity.
Qed.

Lemma firstn_succ_nth {A} (l : list A) (n : nat) (x : A) :
  nth_error l n = Some x -> firstn (S n) l = firstn n l ++ [x].
Proof.
  revert l. induction n as [|n IH]; intros [|y l] H; try discriminate.
  - injection H as ->. reflexivity.
  - cbn [firstn app]. f_equal. apply (IH l H).
Qed.

Lemma nth_error_skipn {A} (l : list A) (a n : nat) :
  nth_error (skipn a l) n = nth_error l (a + n).
Proof.
  revert l. induction a as [|a IH]; intro l; [reflexivity|].
  destruct l; [now destruct n | apply IH].
Qed.

(** [l[r:i+1]] ends with [l[i]]. *)
Lemma slice_last {A} (l : list A) (r i : Z) (x : A) :
  0 <= r <= i -> i < len l ->
  nth_error l (Z.to_nat i) = Some x ->
  slice l r (i + 1) = slice l r i ++ [x].
Proof.
  intros Hr Hi Hx. rewrite !slice_inside by lia.
  replace (Z.to_nat (i + 1 - r)) with (S (Z.to_nat (i - r))) by lia.
  apply firstn_succ_nth. rewrite nth_error_skipn.
  replace (Z.to_nat r + Z.to_nat (i - r))%nat with (Z.to_nat i) by lia.
  exact Hx.
Qed.

Lemma qsum_shift : forall l a, (fold_left Qplus l a == a + qsum l)%Q.
Proof.
  unfold qsum. induction l as [|x l IH]; intro a; simpl; [lra|].
  rewrite (IH (a + x)%Q), (IH (0 + x)%Q). lra.
Qed.

Lemma qsum_cons : forall x l, (qsum (x :: l) == x + qsum l)%Q.
Proof. intros x l. unfold qsum at 1. simpl. rewrite qsum_shift. lra. Qed.

Lemma qsum_snoc : forall l x, (qsum (l ++ [x]) == qsum l + x)%Q.
Proof.
  intros l x. unfold qsum at 1. rewrite fold_left_app. simpl.
  fold (qsum l). reflexivity.
Qed.

(** ** The bounds written *)

Lemma plane_bounds_meet :
  forall hs r bias i,
    (snd (Assembly.plane_bounds hs r bias i)
     == fst (Assembly.plane_bounds hs r bias (i + 1)))%Q.
Proof.
  intros hs r bias i. unfold Assembly.plane_bounds.
  destruct (Z.ltb_spec i r) as [Hi | Hi];
    destruct (Z.ltb_spec (i + 1) r) as [Hj | Hj]; cbn [fst snd]; try lia.
  - reflexivity.
  - assert (i + 1 = r) as -> by lia. rewrite slice_empty.
    unfold qsum. simpl. lra.
  - reflexivity.
Qed.

Lemma plane_bounds_height :
  forall hs r bias i h,
    0 <= r <= len hs ->
    0 <= i < len hs ->
    nth_error hs (Z.to_nat i) = Some h ->
    (snd (Assembly.plane_bounds hs r bias i)
     - fst (Assembly.plane_bounds hs r bias i) == h)%Q.
Proof.
  intros hs r bias i h Hr Hi Hh. unfold Assembly.plane_bounds.
  destruct (Z.ltb_spec i r) as [Hlt | Hge]; cbn [fst snd].
  - rewrite (slice_head hs i r h) by (lia || exact Hh). rewrite qsum_cons. lra.
  - rewrite (slice_last hs r i h) by (lia || exact Hh). rewrite qsum_snoc. lra.
Qed.

Lemma plane_bounds_reference :
  forall hs r bias, (fst (Assembly.plane_bounds hs r bias r) == - bias)%Q.
Proof.
  intros hs r bias. unfold Assembly.plane_bounds.
  rewrite Z.ltb_irrefl. cbn [fst]. rewrite slice_empty. unfold qsum. simpl. lra.
Qed.

Lemma heights_length :
  forall w secs hs, Assembly.heights w secs = Some hs -> length hs = length secs.
Proof.
  intros w secs. induction secs as [|s secs IH]; intros hs H; simpl in H.
  - injection H as <-. reflexivity.
  - destruct (sec_height (sections w s)); [|discriminate].
    destruct (Assembly.heights w secs) as [hs'|]; [|discriminate].
    injection H as <-. simpl. rewrite (IH hs' eq_refl). reflexivity.
Qed.

Lemma heights_nth :
  forall w secs hs i s,
    Assembly.heights w secs = Some hs ->
    nth_error secs i = Some s ->
    exists h, nth_error hs i = Some h /\ sec_height (sections w s) = Some h.
Proof.
  intros w secs. induction secs as [|s0 secs IH]; intros hs i s H Hs.
  - destruct i; discriminate.
  - simpl in H. destruct (sec_height (sections w s0)) as [h0|] eqn:E0; [|discriminate].
    destruct (Assembly.heights w secs) as [hs'|]; [|discriminate].
    injection H as <-. destruct i as [|i]; simpl in Hs |- *.
    + injection Hs as <-. exists h0. split; [reflexivity | exact E0].
    + apply (IH hs' i s eq_refl Hs).
Qed.

Lemma nth_error_combine' {A B} (l : list A) (l' : list B) (n : nat) :
  nth_error (combine l l') n
  = match nth_error l n, nth_error l' n with
    | Some a, Some b => Some (a, b)
    | _, _ => None
    end.
Proof.
  revert l l'. induction n as [|n IH]; intros [|a l] [|b l']; try reflexivity.
  - simpl. destruct (nth_error l n); reflexivity.
  - apply IH.
Qed.

Lemma nth_error_enumerate {A} (l : list A) (n : nat) :
  nth_error (enumerate l) n
  = option_map (fun x => (Z.of_nat n, x)) (nth_error l n).
Proof.
  unfold enumerate. rewrite nth_error_combine'. unfold range.
  rewrite nth_error_map, nth_error_seq.
  destruct (nth_error l n) as [x|] eqn:E.
  - assert (n < length l)%nat by (apply nth_error_Some; congruence).
    destruct (Nat.ltb_spec n (Z.to_nat (len l))); [|unfold len in *; lia].
    reflexivity.
  - destruct (Nat.ltb n (Z.to_nat (len l))); reflexivity.
Qed.

(** The loop that looks for the reference section finds the position of
    a section the list holds once. *)
Lemma find_ref_position :
  forall secs s r,
    NoDup secs -> 0 <= r ->
    nth_error secs (Z.to_nat r) = Some s ->
    Assembly.find_ref secs s = Some r.
Proof.
  intros secs s r N Hr Hs. unfold Assembly.find_ref.
  assert (G : forall (ps : list (Z * sec_ref)) acc,
             NoDup (map snd ps) ->
             (In (r, s) ps \/ acc = Some r) ->
             (forall i, In (i, s) ps -> i = r) ->
             fold_left
               (fun (refSecId : option Z) (p : Z * sec_ref) =>
                  if Nat.eqb (snd p) s then Some (fst p) else refSecId)
               ps acc = Some r).
  { induction ps as [|[i x] ps IH]; intros acc Np Hin Huniq.
    - destruct Hin as [[] | E]. exact E.
    - cbn [fold_left fst snd]. simpl in Np. inversion Np as [|? ? Hx Np']; subst.
      apply IH; [exact Np' | | intros j Hj; apply Huniq; now right].
      destruct (Nat.eqb_spec x s) as [-> | Hne].
      + right. f_equal. apply Huniq. now left.
      + destruct Hin as [[E | Hin] | E]; [congruence | now left | now right]. }
  apply G.
  - rewrite map_snd_enumerate. exact N.
  - left. apply (nth_error_In _ (Z.to_nat r)).
    rewrite nth_error_enumerate, Hs. simpl. f_equal. f_equal. lia.
  - intros i Hi.
    assert (Hi' : exists n, nth_error (enumerate secs) n = Some (i, s))
      by (apply In_nth_error; exact Hi).
    destruct Hi' as (n & Hn). rewrite nth_error_enumerate in Hn.
    destruct (nth_error secs n) as [x|] eqn:Ex; [|discriminate].
    simpl in Hn. injection Hn as <- ->.
    assert (n = Z.to_nat r); [|lia].
    apply (proj1 (NoDup_nth_error secs) N n (Z.to_nat r)).
    + apply nth_error_Some. congruence.
    + congruence.
Qed.


(** The loop over the sections writes bounds and nothing else. *)
Lemma plane_loop_heaps :
  forall (B : Z -> Q * Q) (ps : list (Z * sec_ref)) w,
    let w' := fold_left
                (fun w (p : Z * sec_ref) =>
                   set_section (snd p)
                     (with_sec_bounds (B (fst p)) (sections w (snd p))) w)
                ps w in
    sections w'
    = fold_left (fun h p => upd h (snd p) (with_sec_bounds (B (fst p)) (h (snd p))))
                ps (sections w) /\
    materials w' = materials w /\ assemblies w' = assemblies w /\
    cores w' = cores w /\ stdout w' = stdout w.
Proof.
  intros B ps. induction ps as [|p ps IH]; intro w; [repeat split|].
  cbn [fold_left].
  destruct (IH (set_section (snd p)
                  (with_sec_bounds (B (fst p)) (sections w (snd p))) w))
    as (E1 & E2 & E3 & E4 & E5).
  cbv zeta. rewrite E1, E2, E3, E4, E5. repeat split.
Qed.

(** A run of [Assembly.setRefPlane] on sections with heights and a
    reference the list holds. *)
Lemma setRefPlane_run :
  forall self refSec bias w r hs,
    let secs := asm_sections (assemblies w self) in
    NoDup secs ->
    Assembly.heights w secs = Some hs ->
    names_position secs refSec r ->
    exists w',
      Assembly.setRefPlane self refSec bias w = (w', Ok tt) /\
      (forall i s, nth_error secs i = Some s ->
         sec_bounds (sections w' s)
         = Assembly.plane_bounds hs r bias (Z.of_nat i)) /\
      same_but_bounds w w' /\
      cores w' = cores w /\ stdout w' = stdout w.
Proof.
  intros self refSec bias w r hs secs N Hh (Hr & Hname).
  unfold Assembly.setRefPlane. fold secs. rewrite Hh.
  assert (Hfound :
            match refSec with
            | Assembly.RefInt i => rbind (getitem secs i) (fun _ => Ok (Some i))
            | Assembly.RefSection s => Ok (Assembly.find_ref secs s)
            | Assembly.RefOther => Ok None
            end = Ok (Some r)).
  { destruct refSec as [i | s |]; [| |destruct Hname].
    - subst i. rewrite (getitem_nth secs r 0%nat Hr). reflexivity.
    - rewrite (find_ref_position secs s r N (proj1 Hr) Hname). reflexivity. }
  rewrite Hfound.
  destruct secs as [|s0 rest] eqn:Esecs; [unfold len in Hr; simpl in Hr; lia|].
  rewrite <- Esecs in *. clear Esecs s0 rest.
  eexists. split; [reflexivity|].
  destruct (plane_loop_heaps (Assembly.plane_bounds hs r bias) (enumerate secs) w)
    as (Es & Em & Ea & Ec & Eo).
  cbv zeta in Es, Em, Ea, Ec, Eo.
  destruct (fold_upd_spec (fun i => with_sec_bounds (Assembly.plane_bounds hs r bias i))
              (enumerate secs) (sections w)) as (Hout & Hin).
  { rewrite map_snd_enumerate. exact N. }
  cbv beta zeta in Hout, Hin. rewrite map_snd_enumerate in Hout.
  split; [|split; [|split; assumption]].
  - intros i s Hs.
    assert (Hi : In (Z.of_nat i, s) (enumerate secs)).
    { apply (nth_error_In _ i). rewrite nth_error_enumerate, Hs. reflexivity. }
    etransitivity; [exact (f_equal (fun h => sec_bounds (h s)) Es)|].
    exact (f_equal sec_bounds (Hin _ _ Hi)).
  - split; [exact Em|]. split; [exact Ea|]. intro s.
    etransitivity;
      [exact (f_equal (fun h => with_sec_bounds (0, 0)%Q (h s)) Es)|].
    destruct (in_dec Nat.eq_dec s secs) as [Hs | Hs].
    + apply in_enumerate in Hs. destruct Hs as (i & Hi).
      exact (f_equal (with_sec_bounds (0, 0)%Q) (Hin _ _ Hi)).
    + exact (f_equal (with_sec_bounds (0, 0)%Q) (Hout s Hs)).
Qed.

Lemma meets_indexed :
  forall (L : list section) (B : Z -> Q * Q) (k : Z),
    (forall j sec, nth_error L j = Some sec ->
       sec_bounds sec = B (k + Z.of_nat j)) ->
    (forall i, (snd (B i) == fst (B (i + 1)%Z))%Q) ->
    meets L.
Proof.
  induction L as [|sec rest IH]; intros B k HB Hmeet; [exact I|].
  cbn [meets]. split.
  - destruct rest as [|next rest]; [exact I|].
    rewrite (HB 0%nat sec eq_refl), (HB 1%nat next eq_refl).
    replace (k + Z.of_nat 0) with k by lia.
    replace (k + Z.of_nat 1) with (k + 1) by lia. apply Hmeet.
  - apply (IH B (k + 1)); [|exact Hmeet].
    intros j s Hs. rewrite (HB (S j) s Hs). f_equal. lia.
Qed.

(** X26: on an assembly that holds no section twice, all of them with a
    height, and for a reference given as a position of the list or as
    one of its sections, [Assembly.setRefPlane] returns with the sections
    meeting end to start in the order of the list and the lower bound of
    the reference section at [-bias]; without a bias the reference
    section lies on [(0, height)]. It changes nothing but bounds. *)
Theorem setRefPlane_stacks :
  forall (self : asm_ref) (refSec : Assembly.ref_arg) (bias : Q) (w : World)
         (r : Z) (hs : list Q),
    let secs := asm_sections (assemblies w self) in
    NoDup secs ->
    Assembly.heights w secs = Some hs ->
    names_position secs refSec r ->
    exists w',
      Assembly.setRefPlane self refSec bias w = (w', Ok tt) /\
      meets (map (sections w') secs) /\
      (forall s, nth_error secs (Z.to_nat r) = Some s ->
         (fst (sec_bounds (sections w' s)) == - bias)%Q /\
         ((bias == 0)%Q ->
          forall h, sec_height (sections w s) = Some h ->
            (fst (sec_bounds (sections w' s)) == 0)%Q /\
            (snd (sec_bounds (sections w' s)) == h)%Q)) /\
      same_but_bounds w w' /\
      cores w' = cores w /\ stdout w' = stdout w.
Proof.
  intros self refSec bias w r hs secs N Hh Hname.
  destruct (setRefPlane_run self refSec bias w r hs N Hh Hname)
    as (w' & E & HB & Hsame & Hc & Ho).
  fold secs in HB. pose proof (heights_length w secs hs Hh) as Hlen.
  destruct Hname as (Hr & _).
  exists w'. split; [exact E|]. split; [|split; [|split; [|split]]];
    try assumption.
  - apply (meets_indexed _ (Assembly.plane_bounds hs r bias) 0).
    + intros j sec Hj. rewrite nth_error_map in Hj.
      destruct (nth_error secs j) as [s|] eqn:Es; [|discriminate].
      injection Hj as <-. apply (HB j s Es).
    + apply plane_bounds_meet.
  - intros s Hs.
    assert (Eb : sec_bounds (sections w' s) = Assembly.plane_bounds hs r bias r)
      by (rewrite (HB _ s Hs), Z2Nat.id by lia; reflexivity).
    rewrite Eb.
    pose proof (plane_bounds_reference hs r bias) as Hlow.
    split; [exact Hlow|]. intros Hb h Hsh.
    destruct (heights_nth w secs hs _ s Hh Hs) as (h' & Hh' & Hsh').
    rewrite Hsh in Hsh'. injection Hsh' as <-.
    pose proof (plane_bounds_height hs r bias r h
                  ltac:(unfold len in *; lia) ltac:(unfold len in *; lia) Hh')
      as Hth.
    split; lra.
Qed.


Lemma setRefPlane_stacks_witness :
  exists w',
    Assembly.setRefPlane 0%nat (Assembly.RefSection 2%nat) (1 # 2)
                         Samples.plane_world = (w', Ok tt) /\
    meets (map (sections w') [1; 2; 3]%nat).
Proof.
  destruct (setRefPlane_stacks 0%nat (Assembly.RefSection 2%nat) (1 # 2)
              Samples.plane_world 1 [1; 2; 1]%Q)
    as (w' & E & Hm & _).
  - repeat constructor; simpl; intuition discriminate.
  - reflexivity.
  - split; [vm_compute; intuition discriminate | reflexivity].
  - exists w'. split; [exact E | exact Hm].
Defined.

Lemma stacked_indexed :
  forall (L : list section) (B : Z -> Q * Q) (k : Z),
    (forall j sec, nth_error L j = Some sec ->
       sec_bounds sec = B (k + Z.of_nat j) /\
       (fst (B (k + Z.of_nat j)%Z) <= snd (B (k + Z.of_nat j)%Z))%Q) ->
    (forall i, (snd (B i) == fst (B (i + 1)%Z))%Q) ->
    stacked L.
Proof.
  induction L as [|sec rest IH]; intros B k HB Hmeet; [exact I|].
  cbn [stacked]. destruct (HB 0%nat sec eq_refl) as (E0 & L0).
  replace (k + Z.of_nat 0) with k in E0, L0 by lia.
  split; [rewrite E0; exact L0|]. split.
  - destruct rest as [|next rest]; [exact I|].
    destruct (HB 1%nat next eq_refl) as (E1 & _).
    replace (k + Z.of_nat 1) with (k + 1) in E1 by lia.
    rewrite E0, E1. apply Hmeet.
  - apply (IH B (k + 1)); [|exact Hmeet].
    intros j s Hs. destruct (HB (S j) s Hs) as (E & Hle).
    replace (k + Z.of_nat (S j)) with (k + 1 + Z.of_nat j) in E, Hle by lia.
    split; assumption.
Qed.

Lemma stacked_meets : forall L, stacked L -> meets L.
Proof.
  induction L as [|sec rest IH]; intro H; [exact I|].
  destruct H as (_ & Hm & Hr). split; [exact Hm | apply IH; exact Hr].
Qed.

(** Stacked sections are in the order [Assembly.check] sorts them in. *)
Lemma stacked_sorted :
  forall (v : World) (l : list sec_ref),
    stacked (map (sections v) l) ->
    Sorted (fun a b =>
              Qle_bool (fst (sec_bounds (sections v a)))
                       (fst (sec_bounds (sections v b))) = true) l.
Proof.
  intros v l. induction l as [|s l IH]; intro H; constructor.
  - apply IH. apply H.
  - destruct l as [|t l]; constructor. cbn [map stacked] in H.
    destruct H as (Hle & Hm & _). apply Qle_bool_iff. rewrite <- Hm. exact Hle.
Qed.

(** X27: on an assembly that holds no section twice, after
    [Assembly.setRefPlane] with a reference that names one of its
    sections, on sections of heights that are not negative,
    [Assembly.check] returns [True] and leaves the sections in the order
    they were added in. *)
Theorem setRefPlane_then_check :
  forall (self : asm_ref) (refSec : Assembly.ref_arg) (bias : Q) (w : World)
         (r : Z) (hs : list Q),
    let secs := asm_sections (assemblies w self) in
    NoDup secs ->
    Assembly.heights w secs = Some hs ->
    names_position secs refSec r ->
    Forall (fun h => 0 <= h)%Q hs ->
    exists w',
      Assembly.setRefPlane self refSec bias w = (w', Ok tt) /\
      stacked (map (sections w') secs) /\
      snd (Assembly.check_run self w') = true /\
      asm_sections (assemblies (fst (Assembly.check_run self w')) self) = secs.
Proof.
  intros self refSec bias w r hs secs N Hh Hname Hpos.
  destruct (setRefPlane_run self refSec bias w r hs N Hh Hname)
    as (w' & E & HB & (_ & Ha & _) & _ & _).
  fold secs in HB. pose proof (heights_length w secs hs Hh) as Hlen.
  destruct Hname as (Hr & _).
  assert (Hst : stacked (map (sections w') secs)).
  { apply (stacked_indexed _ (Assembly.plane_bounds hs r bias) 0);
      [|apply plane_bounds_meet].
    intros j sec Hj. rewrite nth_error_map in Hj.
    destruct (nth_error secs j) as [s|] eqn:Es; [|discriminate].
    injection Hj as <-. cbn [Z.add]. split; [apply (HB j s Es)|].
    destruct (heights_nth w secs hs j s Hh Es) as (h & Hhj & _).
    assert (j < length hs)%nat by (apply nth_error_Some; congruence).
    pose proof (plane_bounds_height hs r bias (Z.of_nat j) h) as Hth.
    rewrite Nat2Z.id in Hth.
    specialize (Hth ltac:(unfold len in *; lia) ltac:(unfold len; lia) Hhj).
    assert (0 <= h)%Q.
    { rewrite Forall_forall in Hpos. apply Hpos.
      apply (nth_error_In _ _ Hhj). }
    lra. }
  exists w'. split; [exact E|]. split; [exact Hst|].
  assert (Esecs : asm_sections (assemblies w' self) = secs)
    by (rewrite Ha; reflexivity).
  assert (Esort : sorted Qle_bool
                    (fun s => fst (sec_bounds (sections w' s)))
                    (asm_sections (assemblies w' self)) = secs).
  { rewrite Esecs. apply sorted_of_sorted. apply stacked_sorted. exact Hst. }
  unfold Assembly.check_run. cbv zeta. rewrite Esort.
  match goal with
  | |- context [Assembly.check_loop ?loc ?l None true ?v1] =>
      pose proof (check_loop_frame loc l None true v1) as (_ & _ & Fa & _);
      pose proof (check_loop_flag loc l None true v1) as Hf
  end.
  cbv zeta in Fa. split.
  - apply Hf. split; [reflexivity|]. split; [exact I|].
    apply stacked_meets. exact Hst.
  - rewrite Fa. simpl. rewrite upd_same. reflexivity.
Qed.

Lemma setRefPlane_then_check_witness :
  exists w',
    Assembly.setRefPlane 0%nat (Assembly.RefInt 1) 0 Samples.plane_world
    = (w', Ok tt) /\
    snd (Assembly.check_run 0%nat w') = true.
Proof.
  destruct (setRefPlane_then_check 0%nat (Assembly.RefInt 1) 0
              Samples.plane_world 1 [1; 2; 1]%Q)
    as (w' & E & _ & Hc & _).
  - repeat constructor; simpl; intuition discriminate.
  - reflexivity.
  - split; [vm_compute; intuition discriminate | reflexivity].
  - repeat constructor; discriminate.
  - exists w'. split; [exact E | exact Hc].
Defined.

Lemma heights_none :
  forall w secs,
    Assembly.heights w secs = None <->
    exists s, In s secs /\ sec_height (sections w s) = None.
Proof.
  intros w secs. induction secs as [|s secs IH]; simpl.
  - split; [discriminate | intros (s & [] & _)].
  - destruct (sec_height (sections w s)) as [h|] eqn:E.
    + destruct (Assembly.heights w secs) as [hs|].
      * split; [discriminate|]. intros (s' & [<- | Hin] & Hs); [congruence|].
        assert (X : Some hs = None)
          by (apply IH; exists s'; split; assumption).
        discriminate X.
      * split; [|reflexivity]. intros _.
        destruct (proj1 IH eq_refl) as (s' & Hin & Hs).
        exists s'. split; [now right | exact Hs].
    + split; [|reflexivity]. intros _. exists s. split; [now left | exact E].
Qed.

Lemma find_ref_absent :
  forall secs s, ~ In s secs -> Assembly.find_ref secs s = None.
Proof.
  intros secs s H. unfold Assembly.find_ref.
  assert (G : forall (ps : list (Z * sec_ref)) acc,
             ~ In s (map snd ps) ->
             fold_left
               (fun (refSecId : option Z) (p : Z * sec_ref) =>
                  if Nat.eqb (snd p) s then Some (fst p) else refSecId)
               ps acc = acc).
  { induction ps as [|[i x] ps IH]; intros acc Hn; [reflexivity|].
    cbn [fold_left fst snd]. simpl in Hn.
    destruct (Nat.eqb_spec x s) as [-> | _]; [exfalso; apply Hn; now left|].
    apply IH. intro Hin. apply Hn. now right. }
  apply G. rewrite map_snd_enumerate. exact H.
Qed.

(** X28: [Assembly.setRefPlane] raises, leaving every bound as it is:
    [IndexError] for a position outside the list; [RuntimeError] when a
    section has no height, whatever the reference otherwise; and
    [UnboundLocalError] when the sections all have a height and the
    reference is a section the assembly does not hold, or neither a
    position nor a section. On an assembly without sections and a
    reference that is not a position it returns without doing anything. *)
Theorem setRefPlane_rejects :
  forall (self : asm_ref) (bias : Q) (w : World),
    let secs := asm_sections (assemblies w self) in
    (forall i, ~ (- len secs <= i < len secs) ->
       Assembly.setRefPlane self (Assembly.RefInt i) bias w
       = (w, Raise IndexError)) /\
    (forall refSec,
       (exists s, In s secs /\ sec_height (sections w s) = None) ->
       (forall i, refSec = Assembly.RefInt i -> - len secs <= i < len secs) ->
       Assembly.setRefPlane self refSec bias w = (w, Raise RuntimeError)) /\
    (forall refSec,
       secs <> [] ->
       (forall s, In s secs -> sec_height (sections w s) <> None) ->
       match refSec with
       | Assembly.RefInt _ => False
       | Assembly.RefSection s => ~ In s secs
       | Assembly.RefOther => True
       end ->
       Assembly.setRefPlane self refSec bias w = (w, Raise UnboundLocalError)) /\
    (forall refSec,
       secs = [] ->
       (forall i, refSec <> Assembly.RefInt i) ->
       Assembly.setRefPlane self refSec bias w = (w, Ok tt)).
Proof.
  intros self bias w secs. split; [|split; [|split]].
  - intros i Hi. unfold Assembly.setRefPlane. fold secs.
    unfold getitem.
    destruct (Z.ltb_spec i 0) as [Hneg | Hpos].
    + destruct (Z.leb_spec 0 (i + len secs)); [lia|]. reflexivity.
    + destruct (Z.leb_spec 0 i); [|lia].
      destruct (Z.ltb_spec i (len secs)); [lia|]. reflexivity.
  - intros refSec Hnone Hint. unfold Assembly.setRefPlane. fold secs.
    rewrite (proj2 (heights_none w secs) Hnone).
    destruct refSec as [i | s |]; [|reflexivity | reflexivity].
    specialize (Hint i eq_refl). unfold getitem.
    assert (Hj : 0 <= (if i <? 0 then i + len secs else i) < len secs)
      by (destruct (Z.ltb_spec i 0); lia).
    generalize dependent (if i <? 0 then i + len secs else i). intros j Hj.
    destruct (Z.leb_spec 0 j); [|lia].
    destruct (Z.ltb_spec j (len secs)); [|lia].
    cbn [andb].
    destruct (nth_error secs (Z.to_nat j)) eqn:En; [reflexivity|].
    apply nth_error_None in En. unfold len in Hj. lia.
  - intros refSec Hne Hall Href. unfold Assembly.setRefPlane. fold secs.
    destruct (Assembly.heights w secs) as [hs|] eqn:Eh.
    + destruct refSec as [i | s |]; [destruct Href | |].
      * rewrite (find_ref_absent secs s Href).
        destruct secs; [contradiction | reflexivity].
      * destruct secs; [contradiction | reflexivity].
    + apply heights_none in Eh. destruct Eh as (s & Hs & En).
      exfalso. apply (Hall s Hs En).
  - intros refSec Hnil Hnot. unfold Assembly.setRefPlane. fold secs.
    rewrite Hnil. simpl.
    destruct refSec as [i | s |]; [exfalso; apply (Hnot i); reflexivity | |];
      reflexivity.
Qed.

(* ================================================================== *)
(** * Further properties: Section.copy *)
(* ================================================================== *)

Lemma append_nil_r : forall s : string, (s ++ "")%string = s.
Proof. induction s as [|c s IH]; simpl; [reflexivity | rewrite IH; reflexivity]. Qed.

Lemma length_append :
  forall s t : string,
    String.length (s ++ t) = (String.length s + String.length t)%nat.
Proof. induction s as [|c s IH]; intro t; simpl; [reflexivity | rewrite IH; reflexivity]. Qed.

Lemma prefix_head :
  forall c rest, String.prefix "@ORIGIN" (String c rest) = true -> c = "@"%char.
Proof.
  intros c rest H.
  change (String.prefix "@ORIGIN" (String c rest))
    with (if ascii_dec "@" c then String.prefix "ORIGIN" rest else false) in H.
  destruct (ascii_dec "@" c) as [E | NE]; [symmetry; exact E | discriminate H].
Qed.

(** A text without [@] holds no occurrence. *)
Lemma replace_plain :
  forall new s, plain s -> replace_from "@ORIGIN" new 0 s = s.
Proof.
  intros new s. induction s as [|c s IH]; intro H; [reflexivity|].
  destruct H as (Hc & Hs). cbn [replace_from].
  destruct (String.prefix "@ORIGIN" (String c s)) eqn:E.
  - exfalso. apply Hc. apply (prefix_head c s E).
  - rewrite (IH Hs). reflexivity.
Qed.

Lemma replace_after_plain :
  forall new pre t,
    plain pre ->
    replace_from "@ORIGIN" new 0 (pre ++ t)
    = (pre ++ replace_from "@ORIGIN" new 0 t)%string.
Proof.
  intros new pre t. induction pre as [|c pre IH]; intro H; [reflexivity|].
  destruct H as (Hc & Hs). cbn [append replace_from].
  destruct (String.prefix "@ORIGIN" (String c (pre ++ t))) eqn:E.
  - exfalso. apply Hc. apply (prefix_head c _ E).
  - rewrite (IH Hs). reflexivity.
Qed.

Lemma prefix_append :
  forall s t : string, String.prefix s (s ++ t) = true.
Proof.
  induction s as [|c s IH]; intro t; [destruct t; reflexivity|].
  simpl. destruct (ascii_dec c c) as [_ | NE]; [apply IH | contradiction].
Qed.

Lemma replace_occurrence :
  forall new t,
    replace_from "@ORIGIN" new 0 ("@ORIGIN" ++ t)
    = (new ++ replace_from "@ORIGIN" new 0 t)%string.
Proof.
  intros new t.
  change ("@ORIGIN" ++ t)%string with (String "@" ("ORIGIN" ++ t)).
  cbn [replace_from].
  rewrite (prefix_append "@ORIGIN" t : String.prefix "@ORIGIN"
                                         (String "@" ("ORIGIN" ++ t)) = true).
  reflexivity.
Qed.

(** The name [Section.copy] gives: one occurrence of [@ORIGIN] in a
    text that has no other [@] is replaced by the name of the
    original. *)
Lemma replace_origin :
  forall new pre suf,
    plain pre -> plain suf ->
    replace "@ORIGIN" new (pre ++ "@ORIGIN" ++ suf) = (pre ++ new ++ suf)%string.
Proof.
  intros new pre suf Hp Hs. unfold replace.
  rewrite (replace_after_plain new pre _ Hp), replace_occurrence.
  rewrite (replace_plain new suf Hs). reflexivity.
Qed.

Lemma append_same_length :
  forall pre n suf : string,
    (pre ++ n ++ suf)%string = n -> pre = ""%string /\ suf = ""%string.
Proof.
  intros pre n suf H. apply (f_equal String.length) in H.
  rewrite !length_append in H.
  destruct pre; [|simpl in H; lia]. destruct suf; [|simpl in H; lia].
  split; reflexivity.
Qed.

(** X29: [Section.copy] with a name [pre@ORIGINsuf] that has no other [@]
    raises [ValueError] when [pre] and [suf] are empty and otherwise
    returns a section named [pre], the name of the original, [suf]; with
    a name that has no [@] at all it raises [ValueError] exactly when
    the name is that of the original. The copy has the ring number,
    pitch, height, bounds, rods and regions of the original, but no
    identifier, no partner and the equivalence method "homo", whatever
    the original's. *)
Theorem section_copy_names :
  forall (self : section) (pre suf : string),
    plain pre -> plain suf ->
    (Sect.copy self (pre ++ "@ORIGIN" ++ suf) = Raise ValueError <->
     pre = ""%string /\ suf = ""%string) /\
    (Sect.copy self pre = Raise ValueError <-> pre = sec_name self) /\
    (forall name c,
       Sect.copy self name = Ok c ->
       (name = (pre ++ "@ORIGIN" ++ suf)%string ->
        sec_name c = (pre ++ sec_name self ++ suf)%string) /\
       (name = pre -> sec_name c = pre) /\
       sec_name c <> sec_name self /\
       sec_id c = -1 /\
       sec_eqMethod c = "homo"%string /\
       sec_scSection c = None /\
       with_sec_id 0 (with_sec_rk 0 0 c)
       = mkSection (sec_name c) 0 (sec_ring self) (sec_pitch self)
                   (sec_height self) (sec_bounds self) (sec_rod self)
                   (sec_region self) "homo" None 0 0).
Proof.
  intros self pre suf Hp Hs. unfold Sect.copy.
  split; [|split].
  - rewrite (replace_origin (sec_name self) pre suf Hp Hs).
    destruct (String.eqb_spec (pre ++ sec_name self ++ suf) (sec_name self))
      as [E | NE].
    + split; [intros _; apply (append_same_length _ _ _ E) | reflexivity].
    + split; [discriminate|]. intros (-> & ->). exfalso. apply NE.
      simpl. apply append_nil_r.
  - unfold replace. rewrite (replace_plain (sec_name self) pre Hp).
    destruct (String.eqb_spec pre (sec_name self)) as [E | NE].
    + split; [intros _; exact E | reflexivity].
    + split; [discriminate | intro E; contradiction].
  - intros name c H.
    destruct (String.eqb_spec (replace "@ORIGIN" (sec_name self) name)
                (sec_name self)) as [E | NE]; [discriminate|].
    injection H as <-. cbn [sec_name sec_id sec_eqMethod sec_scSection].
    split; [intros ->; apply (replace_origin _ pre suf Hp Hs)|].
    split; [intros ->; apply (replace_plain _ pre Hp)|].
    split; [exact NE|]. repeat split.
Qed.

Lemma section_copy_names_witness :
  Sect.copy (Samples.tall "fuel" 1) "@ORIGIN" = Raise ValueError /\
  exists c,
    Sect.copy (Samples.tall "fuel" 1) "@ORIGIN_copy" = Ok c /\
    sec_name c = "fuel_copy"%string.
Proof.
  destruct (section_copy_names (Samples.tall "fuel" 1) "" "_copy")
    as (H1 & _ & H3).
  - exact I.
  - simpl. repeat split; discriminate.
  - split.
    + destruct (section_copy_names (Samples.tall "fuel" 1) "" "")
        as (H0 & _); [exact I | exact I |].
      apply H0. split; reflexivity.
    + eexists. split; [reflexivity|]. reflexivity.
Defined.
